(** * IndexORM: a relational mapping over a flat key-value store

    A shallow embedding of the TypeScript sources of IndexORM
    (DataDriver, LocalStorageDriver, ClassSpecificationRegistry, Repository,
    Queryable, ConditionalQueryable, RelationAttachmentProvider, Shadow)
    and the properties of its specification that were checked against it.

    Conventions of the embedding.
    - JavaScript numbers are integers ([Z]); template literals print them in
      decimal, which is what JavaScript does below 10^21.
    - [EntityPropertyType] values are [Scalar]s; the only other values that
      reach the driver are arrays of identifiers.
    - The text kept under a storage key is either the empty string or a JSON
      text. A JSON text is represented by the value it parses to.
    - [async]/[await] code is sequential: every operation is a function of
      the storage. A call that is not awaited yields a [Promise] value.
    - A thrown [Error] is an [Outcome]; writes made before it stay. *)

From Stdlib Require Import ZArith Ascii String DecimalString Lia.
From stdpp Require Import base strings list gmap.

Set Warnings "-register-all".
Local Open Scope string_scope.
Local Open Scope list_scope.
Local Open Scope nat_scope.

(** ** JavaScript values

    The values of a column that the embedding covers: [undefined], [null],
    booleans, strings and integral numbers. [EntityPropertyType] also admits
    a [Date], which JSON gives back as a string, and the numbers that are no
    integers, [NaN] and the infinities among them, which JSON gives back as
    [null]; they are outside the embedding. *)

Inductive Scalar :=
| SUndefined
| SNull
| SBool (b : bool)
| SNum (n : Z)
| SStr (s : string).

#[global] Instance Scalar_eq_dec : EqDecision Scalar.
Proof. solve_decision. Defined.

Inductive Value :=
| VScalar (s : Scalar)
| VArray (l : list Scalar).

#[global] Instance Value_eq_dec : EqDecision Value.
Proof. solve_decision. Defined.

(** ToBoolean. *)
Definition truthyScalar (s : Scalar) : bool :=
  match s with
  | SUndefined | SNull => false
  | SBool b => b
  | SNum n => negb (n =? 0)%Z
  | SStr s => negb (String.eqb s "")
  end.

Definition truthy (v : Value) : bool :=
  match v with
  | VScalar s => truthyScalar s
  | VArray _ => true
  end.

(** The conversion a template literal applies to an interpolated scalar. A
    number is printed in decimal notation, which is what JavaScript prints
    for the integers a number holds exactly, those between -(2^53) and 2^53;
    a larger one is rounded by JavaScript, and from 10^21 on printed with an
    exponent. *)
Definition toString (s : Scalar) : string :=
  match s with
  | SUndefined => "undefined"
  | SNull => "null"
  | SBool true => "true"
  | SBool false => "false"
  | SNum n => NilZero.string_of_int (Z.to_int n)
  | SStr s => s
  end.

(** [EntityIdentifierType = string | number]. *)
Definition EntityIdentifierType (s : Scalar) : Prop :=
  match s with
  | SNum _ | SStr _ => True
  | _ => False
  end.

(** [Array.prototype.includes] on an array of scalars. *)
Definition includes (l : list Scalar) (x : Scalar) : bool :=
  bool_decide (x ∈ l).

(** [l.filter(x => x !== identifier)]. *)
Definition without (identifier : Scalar) (l : list Scalar) : list Scalar :=
  filter (λ x, x ≠ identifier) l.

(** ** JSON texts and the storage medium *)

Inductive Text :=
| Empty
| Json (v : Value).

(** Inside an array JSON.stringify prints [undefined] as [null]. *)
Definition jsonElement (s : Scalar) : Scalar :=
  match s with
  | SUndefined => SNull
  | _ => s
  end.

Definition JSON_stringify (v : Value) : Text :=
  match v with
  | VScalar s => Json (VScalar s)
  | VArray l => Json (VArray (map jsonElement l))
  end.

(** ** Outcomes *)

Inductive Error :=
| TableAlreadyMapped (table cls : string)
| NoSpecificationForClass (cls : string)
| NoSpecificationForTable (table : string)
| ColumnNotFound (column table : string)
| IndexConstraintViolation (identifier : Scalar) (table : string)
| NoDataFound (id : Scalar) (table : string)
| MissingIds (table : string)
| InvalidIncludeKey (key cls : string)
| WhereOnRelationalProperty (key : string)
| MoreThanOneRecord
| NoRecord
| PropertyNotLoaded (prop : string)
| TypeError
| OutOfFuel.

Inductive Outcome (A : Type) :=
| Ok (a : A)
| Throw (e : Error).
Arguments Ok {A} a.
Arguments Throw {A} e.

(** Read-only code: a function of the storage. *)
Definition Q (A : Type) : Type := gmap string Text → Outcome A.

(** Code that writes: the storage is threaded, also through a throw. *)
Definition M (A : Type) : Type := gmap string Text → Outcome A * gmap string Text.

Definition ret {A} (a : A) : M A := λ st, (Ok a, st).
Definition throw {A} (e : Error) : M A := λ st, (Throw e, st).
Definition bind {A B} (m : M A) (f : A → M B) : M B :=
  λ st, match m st with
        | (Ok a, st') => f a st'
        | (Throw e, st') => (Throw e, st')
        end.
Definition liftQ {A} (q : Q A) : M A := λ st, (q st, st).
Definition liftO {A} (o : Outcome A) : M A := λ st, (o, st).

Notation "'let!' x ':=' m 'in' k" := (bind m (λ x, k))
  (at level 10, x name, m at level 100, k at level 200).
Notation "'do!' m 'in' k" := (bind m (λ _, k))
  (at level 10, m at level 100, k at level 200).

(** [for (const x of l) { s = await body(s, x) }]. *)
Fixpoint foldM {A S} (l : list A) (s : S) (body : S → A → M S) : M S :=
  match l with
  | [] => ret s
  | x :: l' => let! s' := body s x in foldM l' s' body
  end.

Definition bindO {A B} (o : Outcome A) (f : A → Outcome B) : Outcome B :=
  match o with
  | Ok a => f a
  | Throw e => Throw e
  end.

(** [for (const x of l) { await body(x) }]. *)
Fixpoint forEach {A} (l : list A) (body : A → M ()) : M () :=
  match l with
  | [] => ret ()
  | x :: l' => do! body x in forEach l' body
  end.

(** ** LocalStorageDriver (SessionStorageDriver is the same code) *)

Module LocalStorageDriver.

Definition keyPrefix : string := "indexorm::".

Definition write (key : string) (value : Value) : M () :=
  λ localStorage,
    (Ok (), <[keyPrefix +:+ key :=
               if truthy value then JSON_stringify value else Empty]> localStorage).

Definition read (key : string) (localStorage : gmap string Text) : Value :=
  match localStorage !! (keyPrefix +:+ key) with
  | Some (Json v) => v
  | Some Empty | None => VScalar SNull
  end.

Definition remove (key : string) : M () :=
  λ localStorage, (Ok (), delete (keyPrefix +:+ key) localStorage).

(** [key.startsWith(prefix)]. *)
Definition startsWith (key prefix : string) : bool := String.prefix prefix key.

(** ToBoolean of a stored text: only the empty string is falsy. *)
Definition truthyText (value : Text) : bool :=
  match value with
  | Empty => false
  | Json _ => true
  end.

(** [dumpAll]: the loop visits every key of the medium, which other
    applications share; the object it builds maps the raw keys to the raw
    texts. *)
Definition dumpAll : Q (gmap string Text) :=
  λ localStorage,
    Ok (map_fold (λ key value data,
          if startsWith key keyPrefix && truthyText value
          then <[key := value]> data
          else data) ∅ localStorage).

(** [loadAll(data)], for an object of texts such as [dumpAll] gives. *)
Definition loadAll (data : gmap string Text) : M () :=
  λ localStorage,
    (Ok (), map_fold (λ key value localStorage,
                 if startsWith key keyPrefix
                 then <[key := value]> localStorage
                 else localStorage) localStorage data).

End LocalStorageDriver.

(** ** Class specifications and their registry *)

Record RelationalProperty := {
  name : string;
  class : string;
  correspondingIdentifierProperty : string;
  isCollection : bool }.

Record ClassSpecification := {
  specClass : string;
  tableName : string;
  identifierProperty : string;
  nonRelationalProperties : list string;
  relationalProperties : list RelationalProperty }.

Module ClassSpecificationRegistry.

(** The [specifications] object: class name to specification, in insertion
    order. [register] of a class that is registered already builds its
    message from [existingSpecification.registeredClass.name]; a class
    specification has no [registeredClass], so what is thrown there is a
    [TypeError]. The embedding keeps the entries the object owns. The code
    indexes a plain object, on which a name that [Object.prototype] defines,
    such as [constructor] or [toString], reads as the inherited member
    whatever was registered: the embedding is of the lookups of every other
    class name. *)
Definition specifications : Type := list (string * ClassSpecification).

Definition lookup (reg : specifications) (cls : string) : option ClassSpecification :=
  snd <$> List.find (λ p, String.eqb (fst p) cls) reg.

Definition findByTable (reg : specifications) (table : string) : option ClassSpecification :=
  snd <$> List.find (λ p, String.eqb (tableName (snd p)) table) reg.

Definition register (specification : ClassSpecification) (reg : specifications)
  : Outcome specifications :=
  match lookup reg (specClass specification) with
  | Some existingSpecification => Throw TypeError
  | None =>
      match findByTable reg (tableName specification) with
      | Some alreadyMapped =>
          Throw (TableAlreadyMapped (tableName specification) (specClass alreadyMapped))
      | None => Ok (reg ++ [(specClass specification, specification)])
      end
  end.

Definition getSpecificationFor (reg : specifications) (cls : string)
  : Outcome ClassSpecification :=
  match lookup reg cls with
  | None => Throw (NoSpecificationForClass cls)
  | Some s => Ok s
  end.

Definition getSpecificationByTableName (reg : specifications) (table : string)
  : Outcome ClassSpecification :=
  match findByTable reg table with
  | None => Throw (NoSpecificationForTable table)
  | Some s => Ok s
  end.

Definition isSpecificationRegisteredFor (reg : specifications) (cls : string) : bool :=
  match lookup reg cls with
  | None => false
  | Some _ => true
  end.

End ClassSpecificationRegistry.

(** ** ClassSpecificationBuilder

    The builder is fluent: every method returns the builder it changed. The
    errors of the builder and of the include methods of a queryable are kept
    apart from those of the data path. The identifier property of the
    specification under construction is tested for truthiness only, so
    [undefined] and the empty string are both the empty string here. *)

Inductive Attempt (E A : Type) :=
| Returned (a : A)
| Raised (e : E).
Arguments Returned {E A} a.
Arguments Raised {E A} e.

Definition attempt {E A B} (x : Attempt E A) (f : A → Attempt E B) : Attempt E B :=
  match x with
  | Returned a => f a
  | Raised e => Raised e
  end.

Definition truthyString (s : string) : bool := negb (String.eqb s "").

Module ClassSpecificationBuilder.

Inductive BuilderError :=
| TableNameSetTwice
| MultipleIdentifiers (cls : string)
| PropertyRegisteredTwice (property : string)
| RelationalPropertyRegisteredTwice (property : string)
| NoIdentifier.

Record t := {
  specification : ClassSpecification;
  isNameManuallySet : bool }.

(** [new ClassSpecificationBuilder(_class)]. *)
Definition new (_class : string) : t :=
  {| specification :=
       {| specClass := _class; tableName := _class; identifierProperty := "";
          nonRelationalProperties := []; relationalProperties := [] |};
     isNameManuallySet := false |}.

Definition as_ (newTableName : string) (this : t) : Attempt BuilderError t :=
  if isNameManuallySet this then Raised TableNameSetTwice
  else
    Returned
      {| specification :=
           {| specClass := specClass (specification this);
              tableName := newTableName;
              identifierProperty := identifierProperty (specification this);
              nonRelationalProperties := nonRelationalProperties (specification this);
              relationalProperties := relationalProperties (specification this) |};
         isNameManuallySet := true |}.

Definition hasIdentifier (identifier : string) (this : t) : Attempt BuilderError t :=
  if truthyString (identifierProperty (specification this))
  then Raised (MultipleIdentifiers (specClass (specification this)))
  else
    Returned
      {| specification :=
           {| specClass := specClass (specification this);
              tableName := tableName (specification this);
              identifierProperty := identifier;
              nonRelationalProperties :=
                nonRelationalProperties (specification this) ++ [identifier];
              relationalProperties := relationalProperties (specification this) |};
         isNameManuallySet := isNameManuallySet this |}.

(** [find] gives the property found, a string: the empty string is found
    and is falsy. *)
Definition has (property : string) (this : t) : Attempt BuilderError t :=
  let existingProperty :=
    List.find (λ x, String.eqb x property)
      (nonRelationalProperties (specification this)) in
  if match existingProperty with
     | Some x => truthyString x
     | None => false
     end
  then Raised (PropertyRegisteredTwice property)
  else
    Returned
      {| specification :=
           {| specClass := specClass (specification this);
              tableName := tableName (specification this);
              identifierProperty := identifierProperty (specification this);
              nonRelationalProperties :=
                nonRelationalProperties (specification this) ++ [property];
              relationalProperties := relationalProperties (specification this) |};
         isNameManuallySet := isNameManuallySet this |}.

Definition hasOne (property relatedClass correspondingIdentifierProperty : string)
    (this : t) : Attempt BuilderError t :=
  let existingProperty :=
    List.find (λ x, String.eqb (name x) property)
      (relationalProperties (specification this)) in
  match existingProperty with
  | Some _ => Raised (RelationalPropertyRegisteredTwice property)
  | None =>
      let idRegisteredAsNonRelational :=
        bool_decide (correspondingIdentifierProperty
                       ∈ nonRelationalProperties (specification this)) in
      Returned
        {| specification :=
             {| specClass := specClass (specification this);
                tableName := tableName (specification this);
                identifierProperty := identifierProperty (specification this);
                nonRelationalProperties :=
                  if negb idRegisteredAsNonRelational
                  then nonRelationalProperties (specification this)
                         ++ [correspondingIdentifierProperty]
                  else nonRelationalProperties (specification this);
                relationalProperties :=
                  relationalProperties (specification this)
                    ++ [{| name := property; class := relatedClass;
                           correspondingIdentifierProperty :=
                             correspondingIdentifierProperty;
                           isCollection := false |}] |};
           isNameManuallySet := isNameManuallySet this |}
  end.

Definition hasMany (property relatedClass correspondingIdentifierProperty : string)
    (this : t) : Attempt BuilderError t :=
  let existingProperty :=
    List.find (λ x, String.eqb (name x) property)
      (relationalProperties (specification this)) in
  match existingProperty with
  | Some _ => Raised (RelationalPropertyRegisteredTwice property)
  | None =>
      Returned
        {| specification :=
             {| specClass := specClass (specification this);
                tableName := tableName (specification this);
                identifierProperty := identifierProperty (specification this);
                nonRelationalProperties := nonRelationalProperties (specification this);
                relationalProperties :=
                  relationalProperties (specification this)
                    ++ [{| name := property; class := relatedClass;
                           correspondingIdentifierProperty :=
                             correspondingIdentifierProperty;
                           isCollection := true |}] |};
           isNameManuallySet := isNameManuallySet this |}
  end.

Definition build (this : t) : Attempt BuilderError ClassSpecification :=
  if negb (truthyString (identifierProperty (specification this)))
  then Raised NoIdentifier
  else Returned (specification this).

End ClassSpecificationBuilder.

(** ** DataDriver: key encoding and index maintenance *)

Module DataDriver.

Import ClassSpecificationRegistry.

Definition getTableIndexKey (tableName : string) : string :=
  ":" +:+
  ":index-of:" +:+
  (":" +:+ tableName +:+ "-identifiers:") +:+
  ":".

Definition getRelationIndexKey
    (destinationTableName sourceTableName destinationIdPropertyNameOnSourceTable : string)
    (destinationIdOnSourceTable : Scalar) : string :=
  ":" +:+
  ":index-of:" +:+
  (":" +:+ sourceTableName +:+ "-identifiers:") +:+
  ":which-has-one:" +:+
  (":" +:+ destinationTableName +:+ ":") +:+
  ":as:" +:+
  (":" +:+ destinationIdPropertyNameOnSourceTable +:+ ":") +:+
  ":with-identifier:" +:+
  (":" +:+ toString destinationIdOnSourceTable +:+ ":") +:+
  ":".

(** [read<EntityIdentifierType[]>(key)]: [None] stands for a falsy result. A
    truthy value that is not an array is nothing the library writes under an
    index key; the embedding reports it as [TypeError]. *)
Definition readIndex (key : string) : Q (option (list Scalar)) :=
  λ st, match LocalStorageDriver.read key st with
        | VArray l => Ok (Some l)
        | VScalar s => if truthyScalar s then Throw TypeError else Ok None
        end.

Definition getTableIndex (tableName : string) : Q (list Scalar) :=
  λ st, bindO (readIndex (getTableIndexKey tableName) st)
              (λ index, Ok (default [] index)).

Definition getRelationIndex
    (destinationTableName sourceTableName destinationIdPropertyNameOnSourceTable : string)
    (destinationIdOnSourceTable : Scalar) : Q (option (list Scalar)) :=
  readIndex (getRelationIndexKey destinationTableName sourceTableName
               destinationIdPropertyNameOnSourceTable destinationIdOnSourceTable).

Definition addTableIndex (tableName : string) (identifier : Scalar) : M () :=
  let indexKey := getTableIndexKey tableName in
  let! index := liftQ (readIndex indexKey) in
  match index with
  | None => LocalStorageDriver.write indexKey (VArray [identifier])
  | Some index =>
      if includes index identifier
      then throw (IndexConstraintViolation identifier tableName)
      else LocalStorageDriver.write indexKey (VArray (index ++ [identifier]))
  end.

Definition addRelationIndex
    (destinationTableName sourceTableName destinationIdPropertyNameOnSourceTable : string)
    (destinationIdOnSourceTable identifier : Scalar) : M () :=
  let relationIndexKey :=
    getRelationIndexKey destinationTableName sourceTableName
      destinationIdPropertyNameOnSourceTable destinationIdOnSourceTable in
  let! relationIndex := liftQ (readIndex relationIndexKey) in
  match relationIndex with
  | None => LocalStorageDriver.write relationIndexKey (VArray [identifier])
  | Some relationIndex =>
      if includes relationIndex identifier
      then ret ()
      else LocalStorageDriver.write relationIndexKey (VArray (relationIndex ++ [identifier]))
  end.

Definition removeTableIndex (tableName : string) (identifier : Scalar) : M () :=
  let indexKey := getTableIndexKey tableName in
  let! index := liftQ (readIndex indexKey) in
  match index with
  | None => ret ()
  | Some index => LocalStorageDriver.write indexKey (VArray (without identifier index))
  end.

Definition removeRelationIndex
    (destinationTableName sourceTableName destinationIdPropertyNameOnSourceTable : string)
    (destinationIdOnSourceTable identifier : Scalar) : M () :=
  let relationIndexKey :=
    getRelationIndexKey destinationTableName sourceTableName
      destinationIdPropertyNameOnSourceTable destinationIdOnSourceTable in
  let! relationIndex := liftQ (readIndex relationIndexKey) in
  match relationIndex with
  | None => ret ()
  | Some relationIndex =>
      LocalStorageDriver.write relationIndexKey (VArray (without identifier relationIndex))
  end.

Definition removeRelationIndexRecord
    (destinationTableName sourceTableName destinationIdPropertyNameOnSourceTable : string)
    (destinationIdOnSourceTable : Scalar) : M () :=
  LocalStorageDriver.remove
    (getRelationIndexKey destinationTableName sourceTableName
       destinationIdPropertyNameOnSourceTable destinationIdOnSourceTable).

Definition getDataKey (reg : specifications) (tableName : string) (index : Scalar)
    (columnName : string) : Outcome string :=
  bindO (getSpecificationByTableName reg tableName) (λ classSpecification,
    if bool_decide (columnName ∈ nonRelationalProperties classSpecification)
    then Ok (tableName +:+ ":" +:+ toString index +:+ ":" +:+ columnName +:+ ";")
    else Throw (ColumnNotFound columnName tableName)).

End DataDriver.

(** ** Entities

    An instance is a plain object. TypeScript's [NonRelationalPropertiesIn],
    [SingularRelationalPropertiesIn] and [CollectionRelationalPropertiesIn]
    split its keys by the type of their value; the record keeps the three
    kinds apart. A key that is missing reads as [undefined]. Instances are
    trees: no object is reachable twice. *)

Inductive Entity := mkEntity {
  scalars : list (string * Scalar);
  ones : list (string * Entity);
  manys : list (string * list Entity) }.

Definition getField {A} (fields : list (string * A)) (prop : string) : option A :=
  snd <$> List.find (λ p, String.eqb (fst p) prop) fields.

Fixpoint setField {A} (fields : list (string * A)) (prop : string) (v : A)
  : list (string * A) :=
  match fields with
  | [] => [(prop, v)]
  | (k, x) :: rest =>
      if String.eqb k prop then (k, v) :: rest else (k, x) :: setField rest prop v
  end.

(** [instance[prop]] for a scalar property. *)
Definition getScalar (instance : Entity) (prop : string) : Scalar :=
  default SUndefined (getField (scalars instance) prop).

(** [Object.assign(instance, {[prop]: v})] and [instance[prop] = v]. *)
Definition assignScalar (instance : Entity) (prop : string) (v : Scalar) : Entity :=
  mkEntity (setField (scalars instance) prop v) (ones instance) (manys instance).

(** ** Repository

    A repository is its [classSpecification]; [new Repository(cls)] is
    [getSpecificationFor]. The recursion of the cascade through nested
    related objects is bounded by [fuel]. [handleRelationalProperties]
    assigns foreign keys on the instance it is given: it returns the instance
    as it leaves it. What a nested call assigns on a related object is not
    read again by its caller and is not threaded back. *)

Module Repository.

Import ClassSpecificationRegistry.

Fixpoint create (fuel : nat) (reg : specifications)
    (classSpecification : ClassSpecification) (instance : Entity) {struct fuel}
  : M Scalar :=
  match fuel with
  | 0 => throw OutOfFuel
  | S fuel =>
      let tableName := tableName classSpecification in
      let identifierProperty := identifierProperty classSpecification in
      let identifierValue := getScalar instance identifierProperty in
      let! instance :=
        handleRelationalProperties fuel reg classSpecification instance identifierValue in
      do! DataDriver.addTableIndex tableName identifierValue in
      let properties := nonRelationalProperties classSpecification in
      do! forEach properties (λ property,
            let! dataKey :=
              liftO (DataDriver.getDataKey reg tableName identifierValue property) in
            let dataToStore :=
              match getScalar instance property with
              | SUndefined => SNull
              | v => v
              end in
            LocalStorageDriver.write dataKey (VScalar dataToStore)) in
      ret identifierValue
  end

with update (fuel : nat) (reg : specifications)
    (classSpecification : ClassSpecification) (instance : Entity) {struct fuel}
  : M () :=
  match fuel with
  | 0 => throw OutOfFuel
  | S fuel =>
      let tableName := tableName classSpecification in
      let identifierProperty := identifierProperty classSpecification in
      let identifierValue := getScalar instance identifierProperty in
      let! instance :=
        handleRelationalProperties fuel reg classSpecification instance identifierValue in
      let properties := nonRelationalProperties classSpecification in
      forEach properties (λ property,
        let! dataKey :=
          liftO (DataDriver.getDataKey reg tableName identifierValue property) in
        let dataToStore :=
          match getScalar instance property with
          | SUndefined => SNull
          | v => v
          end in
        LocalStorageDriver.write dataKey (VScalar dataToStore))
  end

with createOrUpdate (fuel : nat) (reg : specifications)
    (classSpecification : ClassSpecification) (instance : Entity) {struct fuel}
  : M Scalar :=
  match fuel with
  | 0 => throw OutOfFuel
  | S fuel =>
      let tableName := tableName classSpecification in
      let! index := liftQ (DataDriver.getTableIndex tableName) in
      let identifierProperty := identifierProperty classSpecification in
      let identifierValue := getScalar instance identifierProperty in
      if includes index identifierValue
      then do! update fuel reg classSpecification instance in ret identifierValue
      else create fuel reg classSpecification instance
  end

with handleRelationalProperties (fuel : nat) (reg : specifications)
    (classSpecification : ClassSpecification) (instance : Entity)
    (identifier : Scalar) {struct fuel} : M Entity :=
  match fuel with
  | 0 => throw OutOfFuel
  | S fuel =>
      foldM (relationalProperties classSpecification) instance
        (λ instance relationalProperty,
          if negb (isCollection relationalProperty) then
            let! relatedClassSpecification :=
              liftO (getSpecificationFor reg (class relationalProperty)) in
            let nameOnSource := name relationalProperty in
            let relatedData := getField (ones instance) nameOnSource in
            let idOnSource :=
              getScalar instance (correspondingIdentifierProperty relationalProperty) in
            let! assigned :=
              match relatedData with
              | Some relatedData =>
                  let assigned :=
                    if negb (truthyScalar idOnSource) then
                      let idOnSource :=
                        getScalar relatedData
                          (identifierProperty relatedClassSpecification) in
                      (idOnSource,
                       assignScalar instance
                         (correspondingIdentifierProperty relationalProperty) idOnSource)
                    else (idOnSource, instance) in
                  let! relationalRepository :=
                    liftO (getSpecificationFor reg (class relationalProperty)) in
                  do! createOrUpdate fuel reg relationalRepository relatedData in
                  ret assigned
              | None => ret (idOnSource, instance)
              end in
            let idOnSource := fst assigned in
            let instance := snd assigned in
            let relatedTableName := tableName relatedClassSpecification in
            let relatedIdNameOnSource :=
              correspondingIdentifierProperty relationalProperty in
            do! DataDriver.addRelationIndex relatedTableName
                  (tableName classSpecification) relatedIdNameOnSource
                  idOnSource identifier in
            ret instance
          else
            match getField (manys instance) (name relationalProperty) with
            | None | Some [] => ret instance
            | Some relatedDataList =>
                let! relationalRepository :=
                  liftO (getSpecificationFor reg (class relationalProperty)) in
                do! forEach relatedDataList (λ relatedData,
                      let idOfSource :=
                        getScalar instance (identifierProperty classSpecification) in
                      let sourceIdPropertyNameOnRelatedTable :=
                        correspondingIdentifierProperty relationalProperty in
                      let relatedData :=
                        assignScalar relatedData sourceIdPropertyNameOnRelatedTable
                          idOfSource in
                      do! createOrUpdate fuel reg relationalRepository relatedData in
                      ret ()) in
                ret instance
            end)
  end.

Definition delete (reg : specifications) (classSpecification : ClassSpecification)
    (instance : Entity) : M () :=
  let thisTableName := tableName classSpecification in
  let! index := liftQ (DataDriver.getTableIndex thisTableName) in
  let identifierValue := getScalar instance (identifierProperty classSpecification) in
  if negb (includes index identifierValue) then ret ()
  else
    do! DataDriver.removeTableIndex thisTableName identifierValue in
    let properties := nonRelationalProperties classSpecification in
    do! forEach properties (λ property,
          let! dataKey :=
            liftO (DataDriver.getDataKey reg thisTableName identifierValue property) in
          LocalStorageDriver.remove dataKey) in
    forEach (relationalProperties classSpecification) (λ relationalProperty,
      let! relatedClassSpecification :=
        liftO (getSpecificationFor reg (class relationalProperty)) in
      let relatedTableName := tableName relatedClassSpecification in
      let relatedPropertyIdName := correspondingIdentifierProperty relationalProperty in
      if negb (isCollection relationalProperty) then
        let identifierOfRelatedTable :=
          getScalar instance (correspondingIdentifierProperty relationalProperty) in
        DataDriver.removeRelationIndex relatedTableName thisTableName
          relatedPropertyIdName identifierOfRelatedTable identifierValue
      else
        DataDriver.removeRelationIndexRecord thisTableName relatedTableName
          (correspondingIdentifierProperty relationalProperty) identifierValue).

End Repository.

(** ** The reader side: code that only reads the storage *)

Definition retQ {A} (a : A) : Q A := λ _, Ok a.
Definition throwQ {A} (e : Error) : Q A := λ _, Throw e.
Definition bindQ {A B} (q : Q A) (f : A → Q B) : Q B :=
  λ st, match q st with
        | Ok a => f a st
        | Throw e => Throw e
        end.
Definition ofOutcome {A} (o : Outcome A) : Q A := λ _, o.
Definition readQ (key : string) : Q Value :=
  λ st, Ok (LocalStorageDriver.read key st).

Notation "'let?' x ':=' m 'in' k" := (bindQ m (λ x, k))
  (at level 10, x name, m at level 100, k at level 200).
Notation "'do?' m 'in' k" := (bindQ m (λ _, k))
  (at level 10, m at level 100, k at level 200).

(** [for (const x of l) { s = await body(s, x) }]. *)
Fixpoint foldQ {A S} (l : list A) (s : S) (body : S → A → Q S) : Q S :=
  match l with
  | [] => retQ s
  | x :: l' => let? s' := body s x in foldQ l' s' body
  end.

(** [for (const x of l) { result.push(await body(x)) }]. *)
Fixpoint mapQ {A B} (l : list A) (body : A → Q B) : Q (list B) :=
  match l with
  | [] => retQ []
  | x :: l' => let? y := body x in let? ys := mapQ l' body in retQ (y :: ys)
  end.

(** ** Shadow: the guarded view of a fetched object

    A fetched object is a [Proxy] over the record read from the storage. Its
    target holds the scalar values read and the relations attached to it,
    themselves proxies. *)

Inductive Loaded :=
| LValue (v : Value)
| LObject (o : Shadow)
| LArray (l : list Shadow)
with Shadow :=
| mkShadow (source : list (string * Loaded))
           (excludedNavigationalProperties : gset string).

Definition source (s : Shadow) : list (string * Loaded) :=
  match s with mkShadow src _ => src end.

Definition excludedNavigationalProperties (s : Shadow) : gset string :=
  match s with mkShadow _ ex => ex end.

Module ShadowFactory.

(** [Shadow.for(source, navigationalProperties)]. *)
Definition for_ (source : list (string * Loaded))
    (navigationalProperties : list string) : Shadow :=
  mkShadow source (list_to_set navigationalProperties).

(** The [get] trap; [None] is [undefined]. *)
Definition get (s : Shadow) (prop : string) : Outcome (option Loaded) :=
  if bool_decide (prop ∈ excludedNavigationalProperties s)
  then Throw (PropertyNotLoaded prop)
  else Ok (getField (source s) prop).

(** The [set] trap. *)
Definition set (s : Shadow) (prop : string) (value : Loaded) : Shadow :=
  mkShadow (setField (source s) prop value)
    (if bool_decide (prop ∈ excludedNavigationalProperties s)
     then excludedNavigationalProperties s ∖ {[prop]}
     else excludedNavigationalProperties s).

End ShadowFactory.

(** ToBoolean of a property of a fetched object. *)
Definition truthyLoaded (v : option Loaded) : bool :=
  match v with
  | None => false
  | Some (LValue v) => truthy v
  | Some (LObject _) | Some (LArray _) => true
  end.

(** A property used as an identifier. Identifiers are scalars; anything else
    is reported as [TypeError]. *)
Definition asIdentifier (v : option Loaded) : Outcome Scalar :=
  match v with
  | None => Ok SUndefined
  | Some (LValue (VScalar s)) => Ok s
  | Some _ => Throw TypeError
  end.

(** ** Queryable and RelationAttachmentProvider *)

(** The include map: relation name to the include map of the related class,
    in the order the keys were added. *)
Inductive IncludeMap :=
| IncludeNode (entries : list (string * IncludeMap)).

Definition entries (m : IncludeMap) : list (string * IncludeMap) :=
  match m with IncludeNode l => l end.

Module Queryable.

Import ClassSpecificationRegistry.

(** [Queryable._getById], [Queryable.getByIds] and
    [RelationAttachmentProvider.attachIncludesAndGet] call each other; the
    recursion descends the include map and is bounded by [fuel]. In
    [attachIncludesAndGet], [data] is the target of the proxy: it is read
    from [source attachedData]. *)
Fixpoint _getById (fuel : nat) (reg : specifications)
    (rootClassSpecification : ClassSpecification) (includeMap : IncludeMap)
    (id : Scalar) (skipIndexCheck : bool) {struct fuel} : Q Shadow :=
  match fuel with
  | 0 => throwQ OutOfFuel
  | S fuel =>
      do? (if negb skipIndexCheck then
             let? indexes :=
               DataDriver.getTableIndex (tableName rootClassSpecification) in
             if negb (includes indexes id)
             then throwQ (NoDataFound id (tableName rootClassSpecification))
             else retQ ()
           else retQ ()) in
      let properties := nonRelationalProperties rootClassSpecification in
      let? data :=
        foldQ properties [] (λ data property,
          let? dataKey :=
            ofOutcome (DataDriver.getDataKey reg
                         (tableName rootClassSpecification) id property) in
          let? propertyValue := readQ dataKey in
          if negb (truthy propertyValue) then retQ data
          else retQ (setField data property (LValue propertyValue))) in
      attachIncludesAndGet fuel reg data rootClassSpecification includeMap
  end

with getByIds (fuel : nat) (reg : specifications)
    (rootClassSpecification : ClassSpecification) (includeMap : IncludeMap)
    (ids : list Scalar) {struct fuel} : Q (list Shadow) :=
  match fuel with
  | 0 => throwQ OutOfFuel
  | S fuel =>
      let? indexes := DataDriver.getTableIndex (tableName rootClassSpecification) in
      let indexHasMissingIds := existsb (λ id, negb (includes indexes id)) ids in
      if indexHasMissingIds
      then throwQ (MissingIds (tableName rootClassSpecification))
      else mapQ ids (λ id,
             _getById fuel reg rootClassSpecification includeMap id true)
  end

with attachIncludesAndGet (fuel : nat) (reg : specifications)
    (data : list (string * Loaded)) (classSpecification : ClassSpecification)
    (includeContext : IncludeMap) {struct fuel} : Q Shadow :=
  match fuel with
  | 0 => throwQ OutOfFuel
  | S fuel =>
      let relationalProperties := relationalProperties classSpecification in
      let attachedData := ShadowFactory.for_ data (map name relationalProperties) in
      foldQ (entries includeContext) attachedData (λ attachedData entry,
        let includeKey := fst entry in
        match List.find (λ x, String.eqb (name x) includeKey) relationalProperties with
        | None => throwQ (InvalidIncludeKey includeKey (specClass classSpecification))
        | Some relationalProperty =>
            let? relationalPropertyRepository :=
              ofOutcome (getSpecificationFor reg (class relationalProperty)) in
            let isRelationalPropertyAList := isCollection relationalProperty in
            if isRelationalPropertyAList then
              let? relationalClassSpecification :=
                ofOutcome (getSpecificationFor reg (class relationalProperty)) in
              let relatedTableName := tableName relationalClassSpecification in
              let currentTableName := tableName classSpecification in
              let relatedPropertyIdPropertyName :=
                correspondingIdentifierProperty relationalProperty in
              let? relatedPropertyId :=
                ofOutcome (asIdentifier
                  (getField (source attachedData)
                     (identifierProperty classSpecification))) in
              let? idsToFetch :=
                DataDriver.getRelationIndex currentTableName relatedTableName
                  relatedPropertyIdPropertyName relatedPropertyId in
              let? related :=
                getByIds fuel reg relationalPropertyRepository (snd entry)
                  (default [] idsToFetch) in
              retQ (ShadowFactory.set attachedData includeKey (LArray related))
            else
              let relatedPropertyIdIsMissing :=
                negb (bool_decide
                  (correspondingIdentifierProperty relationalProperty
                     ∈ map fst (source attachedData))) in
              if relatedPropertyIdIsMissing then retQ attachedData
              else
                let relatedPropertyId :=
                  getField (source attachedData)
                    (correspondingIdentifierProperty relationalProperty) in
                if negb (truthyLoaded relatedPropertyId) then
                  retQ (ShadowFactory.set attachedData includeKey
                          (LValue (VScalar SNull)))
                else
                  let? relatedPropertyId := ofOutcome (asIdentifier relatedPropertyId) in
                  let? related :=
                    _getById fuel reg relationalPropertyRepository (snd entry)
                      relatedPropertyId true in
                  retQ (ShadowFactory.set attachedData includeKey (LObject related))
        end)
  end.

(** A queryable object: its class specification and its include map. *)
Record t := {
  rootClassSpecification : ClassSpecification;
  includeMap : IncludeMap }.

(** Fuel that cannot run out: each level of the include map costs the three
    calls of the recursion. *)
Fixpoint depth (m : IncludeMap) : nat :=
  match m with
  | IncludeNode l => S (list_max (map (λ e, depth (snd e)) l))
  end.

Definition fuelFor (m : IncludeMap) : nat := 3 * depth m.

Definition getById (reg : specifications) (q : t) (id : Scalar) : Q Shadow :=
  _getById (fuelFor (includeMap q)) reg (rootClassSpecification q) (includeMap q)
    id false.

Definition getAll (reg : specifications) (q : t) : Q (list Shadow) :=
  let? indexes := DataDriver.getTableIndex (tableName (rootClassSpecification q)) in
  mapQ indexes (λ index,
    _getById (fuelFor (includeMap q)) reg (rootClassSpecification q)
      (includeMap q) index true).

(** The include methods. The queries of a chain share one include map, and
    a method leaves the queryable it is called on in the state of the
    queryable it returns: a chain is the state of its last queryable. The
    tests [this.includeMap[key] === undefined] are embedded as the lookup of
    an entry the map owns. For a key that [Object.prototype] defines the
    test of the code finds the inherited member, so that [include] and
    [thenInclude] add no entry for it and [thenInclude] does not throw on
    it: the embedding is of the methods on every other key. *)
Inductive IncludeError :=
| ThenIncludeBeforeInclude
| IncludeContextCorrupted.

Record fluent := {
  query : t;
  currentIncludePointer : string }.

Definition include (key : string) (this : fluent) : fluent :=
  let root := includeMap (query this) in
  {| query :=
       {| rootClassSpecification := rootClassSpecification (query this);
          includeMap :=
            match getField (entries root) key with
            | None => IncludeNode (setField (entries root) key (IncludeNode []))
            | Some _ => root
            end |};
     currentIncludePointer := key |}.

(** [pointer.split("::")]; [current] is what was read since the last
    separator. *)
Fixpoint split (current pointer : string) : list string :=
  match pointer with
  | EmptyString => [current]
  | String c rest =>
      match rest with
      | EmptyString => [current +:+ String c ""]
      | String c' rest' =>
          if Ascii.eqb c ":" && Ascii.eqb c' ":"
          then current :: split "" rest'
          else split (current +:+ String c "") rest
      end
  end.

(** The loop of [thenInclude] over the include path. [context] names the
    entry of the root that [includeMapContext] is, [None] for the fresh
    object the loop starts from. Every turn looks its name up in
    [this.includeMap]. *)
Fixpoint includeMapContext (root : IncludeMap) (currentIncludePath : list string)
    (context : option string) : Attempt IncludeError (option string) :=
  match currentIncludePath with
  | [] => Returned context
  | includePath :: rest =>
      match getField (entries root) includePath with
      | None => Raised IncludeContextCorrupted
      | Some _ => includeMapContext root rest (Some includePath)
      end
  end.

Definition thenInclude (key : string) (this : fluent) : Attempt IncludeError fluent :=
  if String.eqb (currentIncludePointer this) "" then Raised ThenIncludeBeforeInclude
  else
    let root := includeMap (query this) in
    let currentIncludePath := split "" (currentIncludePointer this) in
    attempt (includeMapContext root currentIncludePath None) (λ context,
      let assigned :=
        match context with
        | None => root
        | Some includePath =>
            match getField (entries root) includePath with
            | None => root
            | Some found =>
                match getField (entries found) key with
                | Some _ => root
                | None =>
                    IncludeNode
                      (setField (entries root) includePath
                         (IncludeNode (setField (entries found) key (IncludeNode []))))
                end
            end
        end in
      Returned
        {| query :=
             {| rootClassSpecification := rootClassSpecification (query this);
                includeMap := assigned |};
           currentIncludePointer := currentIncludePointer this +:+ "::" +:+ key |}).

End Queryable.

(** [Repository.getQueryable]. *)
Definition Repository_getQueryable (classSpecification : ClassSpecification)
  : Queryable.fluent :=
  {| Queryable.query :=
       {| Queryable.rootClassSpecification := classSpecification;
          Queryable.includeMap := IncludeNode [] |};
     Queryable.currentIncludePointer := "" |}.

(** ** ConditionalQueryable *)

(** The value of an [async] call that is not awaited: a promise object,
    whatever it settles to. Like every object it is truthy. *)
Inductive Promise (A : Type) :=
| Pending (settlesTo : Outcome A).
Arguments Pending {A} settlesTo.

Definition truthyPromise {A} (p : Promise A) : bool := true.

Record Condition := {
  key : string;
  test : Value → bool }.

Module ConditionalQueryable.

Import ClassSpecificationRegistry.

Record t := {
  conditions : list Condition;
  classSpecification : ClassSpecification;
  sourceQueryable : Queryable.t }.

Definition where_ (this : t) (key : string) (predicate : Value → bool) : Outcome t :=
  let keyIsRelationalProperty :=
    existsb (λ x, String.eqb (name x) key)
      (relationalProperties (classSpecification this)) in
  if keyIsRelationalProperty then Throw (WhereOnRelationalProperty key)
  else Ok {| conditions := conditions this ++ [{| key := key; test := predicate |}];
             classSpecification := classSpecification this;
             sourceQueryable := sourceQueryable this |}.

Fixpoint checkConditions (reg : specifications) (table : string) (index : Scalar)
    (conditions : list Condition) : Q bool :=
  match conditions with
  | [] => retQ true
  | condition :: rest =>
      let? dataKeyForProperty :=
        ofOutcome (DataDriver.getDataKey reg table index (key condition)) in
      let? propertyValue := readQ dataKeyForProperty in
      if negb (test condition propertyValue) then retQ false
      else checkConditions reg table index rest
  end.

Definition _checkConditionByIndex (reg : specifications) (this : t) (index : Scalar)
  : Q bool :=
  checkConditions reg (tableName (classSpecification this)) index (conditions this).

(** [sourceQueryable._getById(id, true)]. *)
Definition load (reg : specifications) (this : t) (id : Scalar) : Q Shadow :=
  let q := sourceQueryable this in
  Queryable._getById (Queryable.fuelFor (Queryable.includeMap q)) reg
    (Queryable.rootClassSpecification q) (Queryable.includeMap q) id true.

(** [indexes.filter(async index => await this._checkConditionByIndex(index))]:
    the callback of [filter] is an [async] function, [filter] does not await
    it and keeps the elements for which the promise it returns is truthy. *)
Definition filterAsync (reg : specifications) (this : t) (indexes : list Scalar)
  : Q (list Scalar) :=
  λ st, Ok (List.filter
              (λ index, truthyPromise (Pending (_checkConditionByIndex reg this index st)))
              indexes).

Definition select (reg : specifications) (this : t) (keys : list string)
  : Q (list Shadow) :=
  let? indexes := DataDriver.getTableIndex (tableName (classSpecification this)) in
  let? result :=
    foldQ indexes [] (λ result index,
      let? passesConditions := _checkConditionByIndex reg this index in
      if negb passesConditions then retQ result
      else
        let? data :=
          foldQ keys [] (λ data key,
            let? dataKeyForProperty :=
              ofOutcome (DataDriver.getDataKey reg
                           (tableName (classSpecification this)) index key) in
            let? v := readQ dataKeyForProperty in
            retQ (setField data key (LValue v))) in
        retQ (result ++ [data])) in
  mapQ result (λ data,
    let m := Queryable.includeMap (sourceQueryable this) in
    Queryable.attachIncludesAndGet (Queryable.fuelFor m) reg data
      (classSpecification this) m).

Definition getAll (reg : specifications) (this : t) : Q (list Shadow) :=
  let? indexes := DataDriver.getTableIndex (tableName (classSpecification this)) in
  let? passingIndexes := filterAsync reg this indexes in
  mapQ passingIndexes (λ id, load reg this id).

Fixpoint firstOf (reg : specifications) (this : t) (indexes : list Scalar)
  : Q (option Shadow) :=
  match indexes with
  | [] => retQ None
  | index :: rest =>
      let? passesConditions := _checkConditionByIndex reg this index in
      if passesConditions then let? r := load reg this index in retQ (Some r)
      else firstOf reg this rest
  end.

Definition first (reg : specifications) (this : t) : Q (option Shadow) :=
  let? indexes := DataDriver.getTableIndex (tableName (classSpecification this)) in
  firstOf reg this indexes.

Definition single (reg : specifications) (this : t) : Q Shadow :=
  let? indexes := DataDriver.getTableIndex (tableName (classSpecification this)) in
  let? passingIndexes := filterAsync reg this indexes in
  match passingIndexes with
  | [] => throwQ NoRecord
  | [id] => load reg this id
  | _ :: _ :: _ => throwQ MoreThanOneRecord
  end.

Definition count (reg : specifications) (this : t) : Q nat :=
  let? indexes := DataDriver.getTableIndex (tableName (classSpecification this)) in
  let? passingIndexes := filterAsync reg this indexes in
  retQ (length passingIndexes).

Fixpoint anyOf (reg : specifications) (this : t) (indexes : list Scalar) : Q bool :=
  match indexes with
  | [] => retQ false
  | index :: rest =>
      let? passesConditions := _checkConditionByIndex reg this index in
      if passesConditions then retQ true else anyOf reg this rest
  end.

Definition any (reg : specifications) (this : t) : Q bool :=
  let? indexes := DataDriver.getTableIndex (tableName (classSpecification this)) in
  anyOf reg this indexes.

End ConditionalQueryable.

(** [Queryable.where]. *)
Definition Queryable_where (this : Queryable.t) (key : string)
    (predicate : Value → bool) : Outcome ConditionalQueryable.t :=
  ConditionalQueryable.where_
    {| ConditionalQueryable.conditions := [];
       ConditionalQueryable.classSpecification := Queryable.rootClassSpecification this;
       ConditionalQueryable.sourceQueryable := this |}
    key predicate.

(** * Vocabulary of the properties

    Predicates on the storage, the notions the proofs are organised by, and
    the parts of the code that the statements name. *)

(** The last character of a key tells a data key from an index key. *)
Fixpoint lastChar (s : string) : option ascii :=
  match s with
  | EmptyString => None
  | String c EmptyString => Some c
  | String _ s' => lastChar s'
  end.

Definition isIndexKey (k : string) : Prop := lastChar k = Some ":"%char.
Definition isDataKey (k : string) : Prop := lastChar k = Some ";"%char.

Definition hoare {A} (P : gmap string Text → Prop) (m : M A)
    (N : A → gmap string Text → Prop) (X : Error → gmap string Text → Prop) : Prop :=
  ∀ st, P st →
    match m st with
    | (Ok a, st') => N a st'
    | (Throw e, st') => X e st'
    end.

(** The array read under a raw storage key, [None] when the key holds no
    array. *)
Definition arrayAt (k : string) (st : gmap string Text) : option (list Scalar) :=
  match st !! k with
  | Some (Json (VArray l)) => Some l
  | _ => None
  end.

(** [preserves I E m]: [m] keeps the invariant [I], also when it throws, and
    throws only errors of [E]. *)
Definition preserves {A} (I : gmap string Text → Prop) (E : Error → Prop) (m : M A)
  : Prop :=
  hoare I m (λ _, I) (λ e st, I st ∧ E e).

(** One step of [addTableIndex] or [addRelationIndex] with [j]: nothing, or
    [j] appended to the array under an index key that did not hold it. *)
Definition addStep (j : Scalar) (st st' : gmap string Text) : Prop :=
  st' = st ∨
  ∃ k l, isIndexKey k ∧ (j ∉ l) ∧
         (arrayAt k st = Some l ∨ (arrayAt k st = None ∧ l = [])) ∧
         st' = <[k := Json (VArray (map jsonElement (l ++ [j])))]> st.

(** One step of [removeTableIndex] or [removeRelationIndex] with [j]. *)
Definition removeStep (j : Scalar) (st st' : gmap string Text) : Prop :=
  st' = st ∨
  ∃ k l, isIndexKey k ∧ arrayAt k st = Some l ∧
         st' = <[k := Json (VArray (map jsonElement (without j l)))]> st.

Definition occurrences (i : Scalar) (l : list Scalar) : nat :=
  length (filter (λ x, x = i) l).

Definition atMostOnce (i : Scalar) (st : gmap string Text) : Prop :=
  ∀ k l, arrayAt k st = Some l → (occurrences i l ≤ 1)%nat.

Definition wellFormed (st : gmap string Text) : Prop :=
  ∀ k v, isIndexKey k → st !! k = Some (Json v) → ∃ l, v = VArray l.

Inductive Operation :=
| Create (cls : string) (instance : Entity)
| Update (cls : string) (instance : Entity)
| Delete (cls : string) (instance : Entity).

(** [new Repository(cls)] followed by the call. *)
Definition perform (fuel : nat) (reg : ClassSpecificationRegistry.specifications)
    (op : Operation) : M () :=
  match op with
  | Create cls instance =>
      let! repository := liftO (ClassSpecificationRegistry.getSpecificationFor reg cls) in
      do! Repository.create fuel reg repository instance in ret ()
  | Update cls instance =>
      let! repository := liftO (ClassSpecificationRegistry.getSpecificationFor reg cls) in
      Repository.update fuel reg repository instance
  | Delete cls instance =>
      let! repository := liftO (ClassSpecificationRegistry.getSpecificationFor reg cls) in
      Repository.delete reg repository instance
  end.

(** The storage after the operations were run one after the other, a caller
    going on after an operation that threw. *)
Fixpoint performAll (fuel : nat) (reg : ClassSpecificationRegistry.specifications)
    (ops : list Operation) (st : gmap string Text) : gmap string Text :=
  match ops with
  | [] => st
  | op :: ops' => performAll fuel reg ops' (snd (perform fuel reg op st))
  end.

(** How deep related objects are nested in an instance. *)
Fixpoint nesting (e : Entity) : nat :=
  match e with
  | mkEntity _ os ms =>
      S (max (max_list (map (λ p, nesting (snd p)) os))
             (max_list (map (λ p, max_list (map nesting (snd p))) ms)))
  end.

(** Every registered class is alone on its table and the classes its
    relations name are registered. *)
Definition registryOk (reg : ClassSpecificationRegistry.specifications) : Prop :=
  ∀ cls spec,
    ClassSpecificationRegistry.lookup reg cls = Some spec →
    ClassSpecificationRegistry.findByTable reg (tableName spec) = Some spec ∧
    ∀ rp, rp ∈ relationalProperties spec →
          is_Some (ClassSpecificationRegistry.lookup reg (class rp)).

Definition registered (reg : ClassSpecificationRegistry.specifications)
    (spec : ClassSpecification) : Prop :=
  ∃ cls, ClassSpecificationRegistry.lookup reg cls = Some spec.

Definition isConstraintViolation (e : Error) : Prop :=
  ∃ j table, e = IndexConstraintViolation j table.

(** A checker for [registryOk]. *)
#[global] Instance RelationalProperty_eq_dec : EqDecision RelationalProperty.
Proof. solve_decision. Defined.

#[global] Instance ClassSpecification_eq_dec : EqDecision ClassSpecification.
Proof. solve_decision. Defined.

Definition registryOkb (reg : ClassSpecificationRegistry.specifications) : bool :=
  forallb (λ p,
    bool_decide (ClassSpecificationRegistry.findByTable reg (tableName (snd p))
                 = Some (snd p))
    && forallb (λ rp,
         bool_decide (is_Some (ClassSpecificationRegistry.lookup reg (class rp))))
         (relationalProperties (snd p))) reg.

Definition holds (k : string) (i : Scalar) (st : gmap string Text) : Prop :=
  ∃ l, arrayAt k st = Some l ∧ i ∈ l.

(** The storage an operation leaves. *)
Definition after {A} (m : M A) (st : gmap string Text) : gmap string Text := snd (m st).

(** One turn of the loop of [attachIncludesAndGet]. *)
Definition attachStep (fuel : nat) (reg : ClassSpecificationRegistry.specifications)
    (classSpecification : ClassSpecification) (attachedData : Shadow)
    (entry : string * IncludeMap) : Q Shadow :=
  let includeKey := fst entry in
  match List.find (λ x, String.eqb (name x) includeKey)
          (relationalProperties classSpecification) with
  | None => throwQ (InvalidIncludeKey includeKey (specClass classSpecification))
  | Some relationalProperty =>
      let? relationalPropertyRepository :=
        ofOutcome (ClassSpecificationRegistry.getSpecificationFor reg
                     (class relationalProperty)) in
      if isCollection relationalProperty then
        let? relationalClassSpecification :=
          ofOutcome (ClassSpecificationRegistry.getSpecificationFor reg
                       (class relationalProperty)) in
        let? relatedPropertyId :=
          ofOutcome (asIdentifier
            (getField (source attachedData) (identifierProperty classSpecification))) in
        let? idsToFetch :=
          DataDriver.getRelationIndex (tableName classSpecification)
            (tableName relationalClassSpecification)
            (correspondingIdentifierProperty relationalProperty) relatedPropertyId in
        let? related :=
          Queryable.getByIds fuel reg relationalPropertyRepository (snd entry)
            (default [] idsToFetch) in
        retQ (ShadowFactory.set attachedData includeKey (LArray related))
      else
        if negb (bool_decide
             (correspondingIdentifierProperty relationalProperty
                ∈ map fst (source attachedData)))
        then retQ attachedData
        else
          let relatedPropertyId :=
            getField (source attachedData)
              (correspondingIdentifierProperty relationalProperty) in
          if negb (truthyLoaded relatedPropertyId) then
            retQ (ShadowFactory.set attachedData includeKey (LValue (VScalar SNull)))
          else
            let? relatedPropertyId := ofOutcome (asIdentifier relatedPropertyId) in
            let? related :=
              Queryable._getById fuel reg relationalPropertyRepository (snd entry)
                relatedPropertyId true in
            retQ (ShadowFactory.set attachedData includeKey (LObject related))
  end.


Definition relationNamed (spec : ClassSpecification) (r : string)
  : option RelationalProperty :=
  List.find (λ x, String.eqb (name x) r) (relationalProperties spec).

(** One turn of the loop of [delete] over the relational properties. *)
Definition deleteRelation (reg : ClassSpecificationRegistry.specifications)
    (classSpecification : ClassSpecification) (instance : Entity)
    (relationalProperty : RelationalProperty) : M () :=
  let identifierValue := getScalar instance (identifierProperty classSpecification) in
  let! relatedClassSpecification :=
    liftO (ClassSpecificationRegistry.getSpecificationFor reg
             (class relationalProperty)) in
  if negb (isCollection relationalProperty) then
    DataDriver.removeRelationIndex (tableName relatedClassSpecification)
      (tableName classSpecification)
      (correspondingIdentifierProperty relationalProperty)
      (getScalar instance (correspondingIdentifierProperty relationalProperty))
      identifierValue
  else
    DataDriver.removeRelationIndexRecord (tableName classSpecification)
      (tableName relatedClassSpecification)
      (correspondingIdentifierProperty relationalProperty) identifierValue.

(** One turn of the loop of [delete] over the scalar properties. *)
Definition deleteProperty (reg : ClassSpecificationRegistry.specifications)
    (classSpecification : ClassSpecification) (instance : Entity)
    (property : string) : M () :=
  let! dataKey :=
    liftO (DataDriver.getDataKey reg (tableName classSpecification)
             (getScalar instance (identifierProperty classSpecification)) property) in
  LocalStorageDriver.remove dataKey.

(** The identifier is not in the array under a raw key, or the key holds no
    array. *)
Definition absent (k : string) (i : Scalar) (st : gmap string Text) : Prop :=
  i ∉ default [] (arrayAt k st).

(** An invariant that survives the steps of a delete. *)
Definition stable (I : gmap string Text → Prop) : Prop :=
  (∀ j st st', I st → removeStep j st st' → I st')
  ∧ (∀ k st, I st → I (delete k st)).

(** What the turn of [delete] for a relation leaves: no bucket for a
    collection, a bucket without the identifier for a singular relation. *)
Definition relationCleared (spec : ClassSpecification) (instance : Entity)
    (relatedSpec : ClassSpecification) (rp : RelationalProperty)
    (st : gmap string Text) : Prop :=
  if isCollection rp then
    arrayAt (LocalStorageDriver.keyPrefix +:+
             DataDriver.getRelationIndexKey (tableName spec) (tableName relatedSpec)
               (correspondingIdentifierProperty rp)
               (getScalar instance (identifierProperty spec))) st = None
  else
    absent (LocalStorageDriver.keyPrefix +:+
            DataDriver.getRelationIndexKey (tableName relatedSpec) (tableName spec)
              (correspondingIdentifierProperty rp)
              (getScalar instance (correspondingIdentifierProperty rp)))
      (getScalar instance (identifierProperty spec)) st.

(** The keys [delete] addresses for an instance: the identifier index of the
    table, the scalar keys of the identifier, and one relation-index key for
    each relation, built from the instance. *)
Definition deleteKeys (reg : ClassSpecificationRegistry.specifications)
    (spec : ClassSpecification) (instance : Entity) : list string :=
  let id := getScalar instance (identifierProperty spec) in
  DataDriver.getTableIndexKey (tableName spec)
  :: map (λ property, tableName spec +:+ ":" +:+ toString id +:+ ":" +:+ property +:+ ";")
       (nonRelationalProperties spec)
  ++ omap (λ rp,
       match ClassSpecificationRegistry.lookup reg (class rp) with
       | None => None
       | Some relatedSpec =>
           Some (if isCollection rp
                 then DataDriver.getRelationIndexKey (tableName spec)
                        (tableName relatedSpec) (correspondingIdentifierProperty rp) id
                 else DataDriver.getRelationIndexKey (tableName relatedSpec)
                        (tableName spec) (correspondingIdentifierProperty rp)
                        (getScalar instance (correspondingIdentifierProperty rp)))
       end) (relationalProperties spec).



Definition untouched (key : string) (t : option Text) (st : gmap string Text) : Prop :=
  st !! (LocalStorageDriver.keyPrefix +:+ key) = t.

(** The instance carries no related object: its relation fields are unset,
    or empty for a collection. *)
Definition noRelatedObjects (spec : ClassSpecification) (e : Entity) : Prop :=
  ∀ rp, rp ∈ relationalProperties spec →
    if isCollection rp
    then getField (manys e) (name rp) = None ∨ getField (manys e) (name rp) = Some []
    else getField (ones e) (name rp) = None.

(** The text [write] leaves for a scalar. *)
Definition textOf (v : Scalar) : Text :=
  if truthyScalar v then Json (VScalar v) else Empty.

(** [undefined] is stored as [null]. *)
Definition normalized (v : Scalar) : Scalar :=
  match v with
  | SUndefined | SNull => SNull
  | SBool b => SBool b
  | SNum n => SNum n
  | SStr s => SStr s
  end.

(** What [handleRelationalProperties] does for an instance without related
    objects: it adds the identifier to the bucket of every singular
    relation. *)
Definition indexRelations (reg : ClassSpecificationRegistry.specifications)
    (spec : ClassSpecification) (e : Entity) (identifier : Scalar) : M () :=
  forEach (relationalProperties spec) (λ rp,
    if negb (isCollection rp) then
      let! relatedSpec :=
        liftO (ClassSpecificationRegistry.getSpecificationFor reg (class rp)) in
      DataDriver.addRelationIndex (tableName relatedSpec) (tableName spec)
        (correspondingIdentifierProperty rp)
        (getScalar e (correspondingIdentifierProperty rp)) identifier
    else ret ()).

(** What the driver reads for a column of a row. *)
Definition stored (table : string) (index : Scalar) (column : string)
    (st : gmap string Text) : Value :=
  LocalStorageDriver.read
    (table +:+ ":" +:+ toString index +:+ ":" +:+ column +:+ ";") st.

(** The row passes the conditions: every test holds of what is stored for
    its key. *)
Definition passes (table : string) (conditions : list Condition)
    (st : gmap string Text) (index : Scalar) : bool :=
  forallb (λ condition, test condition (stored table index (key condition) st))
    conditions.

(** The table of the specification leads to it, and the keys are columns of
    it. *)
Definition mapped (reg : ClassSpecificationRegistry.specifications)
    (spec : ClassSpecification) : Prop :=
  ClassSpecificationRegistry.findByTable reg (tableName spec) = Some spec.

Definition columns (spec : ClassSpecification) (keys : list string) : Prop :=
  ∀ k, k ∈ keys → k ∈ nonRelationalProperties spec.


(** Two storages on which every [read] of the driver gives the same value. *)
Definition sameReads (st1 st2 : gmap string Text) : Prop :=
  ∀ key, LocalStorageDriver.read key st1 = LocalStorageDriver.read key st2.

(** A medium that holds nothing of the library. *)
Definition withoutLibraryKeys (st : gmap string Text) : Prop :=
  ∀ k, LocalStorageDriver.startsWith k LocalStorageDriver.keyPrefix = true → st !! k = None.

(** A query whose answer is a function of what the driver reads. *)
Definition readsOnly {A} (q : Q A) : Prop :=
  ∀ st1 st2, sameReads st1 st2 → q st1 = q st2.

(** [register] called for each specification in turn, as an application does
    when it starts. *)
Fixpoint registerAll (specs : list ClassSpecification)
    (reg : ClassSpecificationRegistry.specifications)
  : Outcome ClassSpecificationRegistry.specifications :=
  match specs with
  | [] => Ok reg
  | specification :: rest =>
      bindO (ClassSpecificationRegistry.register specification reg) (registerAll rest)
  end.

(** Every class of the registry is filed under its own name and is the one
    its table leads back to. *)
Definition oneTablePerClass (reg : ClassSpecificationRegistry.specifications) : Prop :=
  ∀ cls spec,
    ClassSpecificationRegistry.lookup reg cls = Some spec →
    specClass spec = cls
    ∧ ClassSpecificationRegistry.findByTable reg (tableName spec) = Some spec.

(** A call of a method of the builder, and a chain of calls. *)
Inductive Call :=
| As (tableName : string)
| HasIdentifier (identifier : string)
| Has (property : string)
| HasOne (property relatedClass correspondingIdentifierProperty : string)
| HasMany (property relatedClass correspondingIdentifierProperty : string).

Definition call (c : Call) (this : ClassSpecificationBuilder.t)
  : Attempt ClassSpecificationBuilder.BuilderError ClassSpecificationBuilder.t :=
  match c with
  | As tableName => ClassSpecificationBuilder.as_ tableName this
  | HasIdentifier identifier => ClassSpecificationBuilder.hasIdentifier identifier this
  | Has property => ClassSpecificationBuilder.has property this
  | HasOne property relatedClass correspondingIdentifierProperty =>
      ClassSpecificationBuilder.hasOne property relatedClass
        correspondingIdentifierProperty this
  | HasMany property relatedClass correspondingIdentifierProperty =>
      ClassSpecificationBuilder.hasMany property relatedClass
        correspondingIdentifierProperty this
  end.

Fixpoint chain (calls : list Call) (this : ClassSpecificationBuilder.t)
  : Attempt ClassSpecificationBuilder.BuilderError ClassSpecificationBuilder.t :=
  match calls with
  | [] => Returned this
  | c :: rest => attempt (call c this) (chain rest)
  end.

(** The table names a chain of calls passes to [as]. *)
Definition tableNamesOf (calls : list Call) : list string :=
  omap (λ c, match c with As tableName => Some tableName | _ => None end) calls.

(** What holds of a builder at every point of a chain. *)
Definition coherent (cls : string) (this : ClassSpecificationBuilder.t) : Prop :=
  let spec := ClassSpecificationBuilder.specification this in
  specClass spec = cls
  ∧ (identifierProperty spec ≠ "" → identifierProperty spec ∈ nonRelationalProperties spec)
  ∧ (∀ rp, rp ∈ relationalProperties spec → isCollection rp = false →
           correspondingIdentifierProperty rp ∈ nonRelationalProperties spec)
  ∧ NoDup (map name (relationalProperties spec)).

(** A name without a colon, as the names of properties are. *)
Fixpoint colonFree (s : string) : bool :=
  match s with
  | EmptyString => true
  | String c s' => negb (Ascii.eqb c ":") && colonFree s'
  end.

(** The entry of an include map under a name. *)
Definition included (m : IncludeMap) (key : string) : option IncludeMap :=
  getField (entries m) key.

(** The raw key of a column of a row. *)
Definition columnKey (table : string) (id : Scalar) (column : string) : string :=
  LocalStorageDriver.keyPrefix +:+ table +:+ ":" +:+ toString id +:+ ":" +:+ column +:+ ";".

(** Every column of the row [id] holds what [create] and [update] write for
    the instance. *)
Definition recorded (spec : ClassSpecification) (id : Scalar) (e : Entity)
    (st : gmap string Text) : Prop :=
  ∀ p, p ∈ nonRelationalProperties spec →
    st !! columnKey (tableName spec) id p = Some (textOf (normalized (getScalar e p))).

(** The object reads as the instance on every column: a truthy value as it
    is, a falsy one as [undefined]. *)
Definition readsAs (spec : ClassSpecification) (e : Entity) (view : Shadow) : Prop :=
  ∀ p, p ∈ nonRelationalProperties spec →
       p ∉ map name (relationalProperties spec) →
       ShadowFactory.get view p
       = Ok (if truthyScalar (getScalar e p)
             then Some (LValue (VScalar (getScalar e p)))
             else None).

(** The queryable of a repository, nothing included. *)
Definition plain (spec : ClassSpecification) : Queryable.t :=
  {| Queryable.rootClassSpecification := spec;
     Queryable.includeMap := IncludeNode [] |}.

(** The value a JSON text of [value] parses to: [undefined] inside an array
    has become [null]. *)
Definition parsed (value : Value) : Value :=
  match value with
  | VScalar s => VScalar s
  | VArray l => VArray (map jsonElement l)
  end.

(** The part of a key before its first colon. *)
Fixpoint untilColon (s : string) : string :=
  match s with
  | EmptyString => EmptyString
  | String c s' => if Ascii.eqb c ":" then EmptyString else String c (untilColon s')
  end.

(** The keys, without the prefix of the driver, that the operations on the
    row [id] of a table write: the identifier index of the table, the
    columns of the row, and the relation indexes that list rows of the
    table. *)
Definition owned (table : string) (id : Scalar) (key : string) : Prop :=
  key = DataDriver.getTableIndexKey table
  ∨ (∃ column, key = table +:+ ":" +:+ toString id +:+ ":" +:+ column +:+ ";")
  ∨ (∃ d f v, key = DataDriver.getRelationIndexKey d table f v).

(** [st'] differs from [st] at most under the keys of [K]. *)
Definition changedOnly (K : string → Prop) (st st' : gmap string Text) : Prop :=
  ∀ key, ¬ K key →
    st' !! (LocalStorageDriver.keyPrefix +:+ key)
    = st !! (LocalStorageDriver.keyPrefix +:+ key).

(** The array under an index key is as it was, or has [j] appended. *)
Definition extended (key : string) (j : Scalar) (st st' : gmap string Text) : Prop :=
  arrayAt (LocalStorageDriver.keyPrefix +:+ key) st'
  = arrayAt (LocalStorageDriver.keyPrefix +:+ key) st
  ∨ arrayAt (LocalStorageDriver.keyPrefix +:+ key) st'
    = Some (map jsonElement
              (default [] (arrayAt (LocalStorageDriver.keyPrefix +:+ key) st) ++ [j])).

(** [st'] is [st], whose array under the raw key holds [j] already, or it is
    [st] with [j] appended to that array. *)
Definition added (raw : string) (j : Scalar) (st st' : gmap string Text) : Prop :=
  (j ∈ default [] (arrayAt raw st) ∧ st' = st)
  ∨ ((j ∉ default [] (arrayAt raw st))
     ∧ st' = <[raw := Json (VArray (map jsonElement
                                      (default [] (arrayAt raw st) ++ [j])))]> st).

(** One turn of the loop of [handleRelationalProperties] over the relational
    properties. *)
Definition cascadeStep (fuel : nat) (reg : ClassSpecificationRegistry.specifications)
    (classSpecification : ClassSpecification) (identifier : Scalar)
    (instance : Entity) (relationalProperty : RelationalProperty) : M Entity :=
  if negb (isCollection relationalProperty) then
    let! relatedClassSpecification :=
      liftO (ClassSpecificationRegistry.getSpecificationFor reg
               (class relationalProperty)) in
    let nameOnSource := name relationalProperty in
    let relatedData := getField (ones instance) nameOnSource in
    let idOnSource :=
      getScalar instance (correspondingIdentifierProperty relationalProperty) in
    let! assigned :=
      match relatedData with
      | Some relatedData =>
          let assigned :=
            if negb (truthyScalar idOnSource) then
              let idOnSource :=
                getScalar relatedData (identifierProperty relatedClassSpecification) in
              (idOnSource,
               assignScalar instance
                 (correspondingIdentifierProperty relationalProperty) idOnSource)
            else (idOnSource, instance) in
          let! relationalRepository :=
            liftO (ClassSpecificationRegistry.getSpecificationFor reg
                     (class relationalProperty)) in
          do! Repository.createOrUpdate fuel reg relationalRepository relatedData in
          ret assigned
      | None => ret (idOnSource, instance)
      end in
    let idOnSource := fst assigned in
    let instance := snd assigned in
    let relatedTableName := tableName relatedClassSpecification in
    let relatedIdNameOnSource := correspondingIdentifierProperty relationalProperty in
    do! DataDriver.addRelationIndex relatedTableName (tableName classSpecification)
          relatedIdNameOnSource idOnSource identifier in
    ret instance
  else
    match getField (manys instance) (name relationalProperty) with
    | None | Some [] => ret instance
    | Some relatedDataList =>
        let! relationalRepository :=
          liftO (ClassSpecificationRegistry.getSpecificationFor reg
                   (class relationalProperty)) in
        do! forEach relatedDataList (λ relatedData,
              let idOfSource :=
                getScalar instance (identifierProperty classSpecification) in
              let sourceIdPropertyNameOnRelatedTable :=
                correspondingIdentifierProperty relationalProperty in
              let relatedData :=
                assignScalar relatedData sourceIdPropertyNameOnRelatedTable idOfSource in
              do! Repository.createOrUpdate fuel reg relationalRepository relatedData in
              ret ()) in
        ret instance
    end.

(** The relation of the instance carries no related object. *)
Definition unset (instance : Entity) (rp : RelationalProperty) : Prop :=
  if isCollection rp
  then getField (manys instance) (name rp) = None
       ∨ getField (manys instance) (name rp) = Some []
  else getField (ones instance) (name rp) = None.

(** The identifier of an instance of the class. *)
Definition identifierOf (spec : ClassSpecification) (e : Entity) : Scalar :=
  getScalar e (identifierProperty spec).

(** [rp] is a collection of [related] on [owner], and [related] refers back
    to [owner] by a singular relation on the same foreign key, which is not
    its identifier. *)
Definition backReferenced (reg : ClassSpecificationRegistry.specifications)
    (owner related : ClassSpecification) (rp : RelationalProperty) : Prop :=
  isCollection rp = true
  ∧ ClassSpecificationRegistry.lookup reg (class rp) = Some related
  ∧ (∃ inverse,
       inverse ∈ relationalProperties related
       ∧ isCollection inverse = false
       ∧ correspondingIdentifierProperty inverse = correspondingIdentifierProperty rp
       ∧ ClassSpecificationRegistry.lookup reg (class inverse) = Some owner)
  ∧ correspondingIdentifierProperty rp ≠ identifierProperty related.

(** Two tables whose keys cannot meet: different names without a colon. *)
Definition apart (spec1 spec2 : ClassSpecification) : Prop :=
  colonFree (tableName spec1) = true
  ∧ colonFree (tableName spec2) = true
  ∧ tableName spec1 ≠ tableName spec2.

(** Related objects that are stored side by side: they carry no related
    objects themselves, and their identifiers are strings or numbers without
    a colon, no two of them alike as text. *)
Definition storable (related : ClassSpecification) (children : list Entity) : Prop :=
  Forall (λ child,
            noRelatedObjects related child
            ∧ EntityIdentifierType (identifierOf related child)
            ∧ colonFree (toString (identifierOf related child)) = true) children
  ∧ NoDup (map (λ child, toString (identifierOf related child)) children).

(** The value [handleRelationalProperties] indexes the instance under for a
    singular relation whose related object is attached: the foreign key of
    the instance when it is truthy, and the identifier of the related object
    otherwise. *)
Definition linked (related : ClassSpecification) (rp : RelationalProperty)
    (e parent : Entity) : Scalar :=
  if truthyScalar (getScalar e (correspondingIdentifierProperty rp))
  then getScalar e (correspondingIdentifierProperty rp)
  else identifierOf related parent.

(** The instance as [handleRelationalProperties] leaves it: the foreign key
    is assigned when it was falsy. *)
Definition attached (related : ClassSpecification) (rp : RelationalProperty)
    (e parent : Entity) : Entity :=
  if truthyScalar (getScalar e (correspondingIdentifierProperty rp))
  then e
  else assignScalar e (correspondingIdentifierProperty rp) (identifierOf related parent).

(** Rows of a table that sit beside a new row [id]: they are in the
    identifier index and hold their instances, and their identifiers are
    strings or numbers without a colon that differ from [id] as text. *)
Definition beside (spec : ClassSpecification) (id : Scalar) (index : list Scalar)
    (st : gmap string Text) (rows : list (Scalar * Entity)) : Prop :=
  ∀ row, row ∈ rows →
    EntityIdentifierType (fst row)
    ∧ colonFree (toString (fst row)) = true
    ∧ toString (fst row) ≠ toString id
    ∧ fst row ∈ index
    ∧ recorded spec (fst row) (snd row) st.

(** The names every object of JavaScript inherits from [Object.prototype]
    (ECMAScript, annex B included). Where the code uses a plain object as a
    map, as for the registry and the include map, it finds the inherited
    member under such a name; the association lists of the model hold own
    entries only. A property about arbitrary names is stated for the names
    that are not inherited. *)
Definition inheritedNames : list string :=
  ["constructor"; "hasOwnProperty"; "isPrototypeOf"; "propertyIsEnumerable";
   "toLocaleString"; "toString"; "valueOf"; "__proto__"; "__defineGetter__";
   "__defineSetter__"; "__lookupGetter__"; "__lookupSetter__"].

Definition inherited (name : string) : bool := bool_decide (name ∈ inheritedNames).

(** An integer that a number of JavaScript holds exactly, and that it prints
    in full. *)
Definition safeInteger (n : Z) : bool :=
  ((-9007199254740992 <? n) && (n <? 9007199254740992))%Z.

(** The values of the model that are values of the code as they stand:
    [undefined], [null], the booleans, the strings and the safe integers. A
    [Date], a fraction and a number that is not finite are no values of the
    model. *)
Definition plainValue (v : Scalar) : bool :=
  match v with
  | SNum n => safeInteger n
  | _ => true
  end.

Definition plainValues (e : Entity) : bool :=
  forallb (λ field, plainValue (snd field)) (scalars e).

(** No column and no relation of the class has a name that every object
    inherits: a property of that name reads as the inherited member on an
    instance that does not set it. *)
Definition ownNames (spec : ClassSpecification) : bool :=
  forallb (λ property, negb (inherited property))
    (nonRelationalProperties spec ++ map name (relationalProperties spec)).

(** The record [_getById] builds for a row: the columns of the specification
    whose stored value is truthy, in the order of the specification. *)
Definition row (spec : ClassSpecification) (id : Scalar) (st : gmap string Text)
  : list (string * Loaded) :=
  foldl (λ data property,
           if truthy (stored (tableName spec) id property st)
           then setField data property (LValue (stored (tableName spec) id property st))
           else data)
    [] (nonRelationalProperties spec).

(** The object [_getById] returns for a row when nothing is included: the
    record behind the guard of every relation. *)
Definition loaded (spec : ClassSpecification) (id : Scalar) (st : gmap string Text)
  : Shadow :=
  ShadowFactory.for_ (row spec id st) (map name (relationalProperties spec)).

(** What [index.filter(x => x !== id)] followed by [write] leaves of a stored
    text: an array without [id]; a key that holds no array is not written. *)
Definition filtered (id : Scalar) (t : option Text) : option Text :=
  match t with
  | Some (Json (VArray l)) => Some (Json (VArray (map jsonElement (without id l))))
  | _ => t
  end.

(** The keys [delete] removes for an instance: the columns of the row and,
    for each collection relation, the bucket keyed by the identifier. *)
Definition removedKeys (reg : ClassSpecificationRegistry.specifications)
    (spec : ClassSpecification) (instance : Entity) : list string :=
  let id := getScalar instance (identifierProperty spec) in
  map (λ property, tableName spec +:+ ":" +:+ toString id +:+ ":" +:+ property +:+ ";")
    (nonRelationalProperties spec)
  ++ omap (λ rp,
       match ClassSpecificationRegistry.lookup reg (class rp) with
       | None => None
       | Some relatedSpec =>
           if isCollection rp
           then Some (DataDriver.getRelationIndexKey (tableName spec)
                        (tableName relatedSpec) (correspondingIdentifierProperty rp) id)
           else None
       end) (relationalProperties spec).

(** The keys under which [delete] filters the identifier out of the array:
    the identifier index of the table and, for each singular relation, the
    bucket keyed by the foreign-key value of the instance. *)
Definition filteredKeys (reg : ClassSpecificationRegistry.specifications)
    (spec : ClassSpecification) (instance : Entity) : list string :=
  DataDriver.getTableIndexKey (tableName spec)
  :: omap (λ rp,
       match ClassSpecificationRegistry.lookup reg (class rp) with
       | None => None
       | Some relatedSpec =>
           if isCollection rp then None
           else Some (DataDriver.getRelationIndexKey (tableName relatedSpec)
                        (tableName spec) (correspondingIdentifierProperty rp)
                        (getScalar instance (correspondingIdentifierProperty rp)))
       end) (relationalProperties spec).

(** [st'] is [st] with the entries under the raw keys [removed] gone and the
    arrays under the raw keys [sifted] rewritten without [id]; an entry that
    is both is gone. Every other entry is as it was. *)
Definition swept (id : Scalar) (removed sifted : list string)
    (st st' : gmap string Text) : Prop :=
  ∀ K, st' !! K
       = if bool_decide (K ∈ removed) then None
         else if bool_decide (K ∈ sifted) then filtered id (st !! K)
         else st !! K.

(** The storage after [delete] of an instance whose identifier is in the
    index. *)
Definition cleaned (reg : ClassSpecificationRegistry.specifications)
    (spec : ClassSpecification) (instance : Entity) (st st' : gmap string Text) : Prop :=
  swept (getScalar instance (identifierProperty spec))
    (map (String.append LocalStorageDriver.keyPrefix) (removedKeys reg spec instance))
    (map (String.append LocalStorageDriver.keyPrefix) (filteredKeys reg spec instance))
    st st'.

(** What [delete] leaves of the bucket under a key. *)
Definition bucketAfter (reg : ClassSpecificationRegistry.specifications)
    (spec : ClassSpecification) (instance : Entity) (key : string)
    (members : option (list Scalar)) : option (list Scalar) :=
  if bool_decide (key ∈ removedKeys reg spec instance) then None
  else if bool_decide (key ∈ filteredKeys reg spec instance)
       then (λ l, map jsonElement (without (getScalar instance (identifierProperty spec)) l))
            <$> members
       else members.




(** * Worked examples

    The README's people and addresses, a class of tasks with falsy fields and
    a class of employees that refers to itself. *)

Definition PersonSpecification : ClassSpecification :=
  {| specClass := "Person"; tableName := "person"; identifierProperty := "id";
     nonRelationalProperties := ["id"; "age"; "name"];
     relationalProperties :=
       [{| name := "address"; class := "Address";
           correspondingIdentifierProperty := "personId"; isCollection := true |}] |}.

Definition AddressSpecification : ClassSpecification :=
  {| specClass := "Address"; tableName := "address"; identifierProperty := "id";
     nonRelationalProperties := ["id"; "city"; "street"; "personId"];
     relationalProperties :=
       [{| name := "person"; class := "Person";
           correspondingIdentifierProperty := "personId"; isCollection := false |}] |}.

Definition readmeRegistry : ClassSpecificationRegistry.specifications :=
  [("Address", AddressSpecification); ("Person", PersonSpecification)].

Definition person1 : Entity :=
  mkEntity [("id", SStr "1"); ("name", SStr "John"); ("age", SNum 30)] [] [].

Definition person2 : Entity :=
  mkEntity [("id", SStr "2"); ("name", SStr "Jane"); ("age", SNum 25)] [] [].

Definition address1 : Entity :=
  mkEntity [("id", SStr "1"); ("street", SStr "Baraghare"); ("city", SStr "Damak");
            ("personId", SStr "1")] [] [].

Definition olderThan (age : Z) (v : Value) : bool :=
  match v with
  | VScalar (SNum n) => (age <? n)%Z
  | _ => false
  end.

Definition people : Queryable.t :=
  {| Queryable.rootClassSpecification := PersonSpecification;
     Queryable.includeMap := IncludeNode [] |}.

Definition onePerson : gmap string Text :=
  after (Repository.create 4 readmeRegistry PersonSpecification person1) ∅.

Definition twoPeople : gmap string Text :=
  after (Repository.create 4 readmeRegistry PersonSpecification person2) onePerson.

Definition john : Shadow :=
  mkShadow [("id", LValue (VScalar (SStr "1"))); ("age", LValue (VScalar (SNum 30)));
            ("name", LValue (VScalar (SStr "John")))] (list_to_set ["address"]).

Definition TaskSpecification : ClassSpecification :=
  {| specClass := "Task"; tableName := "task"; identifierProperty := "id";
     nonRelationalProperties := ["id"; "done"; "priority"; "title"; "owner"];
     relationalProperties := [] |}.

Definition taskRegistry : ClassSpecificationRegistry.specifications :=
  [("Task", TaskSpecification)].

Definition tasks : Queryable.t :=
  {| Queryable.rootClassSpecification := TaskSpecification;
     Queryable.includeMap := IncludeNode [] |}.

(** [{id: 1, done: false, priority: 0, title: "", owner: "ann"}]. *)
Definition task1 : Entity :=
  mkEntity [("id", SNum 1); ("done", SBool false); ("priority", SNum 0);
            ("title", SStr ""); ("owner", SStr "ann")] [] [].

Definition addressesWithPerson : Queryable.t :=
  {| Queryable.rootClassSpecification := AddressSpecification;
     Queryable.includeMap := IncludeNode [("person", IncludeNode [])] |}.

Definition personAndAddress : gmap string Text :=
  after (Repository.create 4 readmeRegistry AddressSpecification address1) onePerson.



Definition personOfAddress : RelationalProperty :=
  {| name := "person"; class := "Person";
     correspondingIdentifierProperty := "personId"; isCollection := false |}.



Definition addressMoved : Entity :=
  mkEntity [("id", SStr "1"); ("street", SStr "Baraghare"); ("city", SStr "Damak");
            ("personId", SStr "2")] [] [].

Definition addressUpdated : gmap string Text :=
  after (Repository.update 4 readmeRegistry AddressSpecification addressMoved)
    (after (Repository.create 4 readmeRegistry AddressSpecification address1) twoPeople).






(** [people.where("age", x => x > age)]. *)
Definition peopleOlderThan (age : Z) : ConditionalQueryable.t :=
  {| ConditionalQueryable.conditions := [{| key := "age"; test := olderThan age |}];
     ConditionalQueryable.classSpecification := PersonSpecification;
     ConditionalQueryable.sourceQueryable := people |}.

(** A medium that another application uses. *)
Definition foreignMedium : gmap string Text :=
  {["theme" := Json (VScalar (SStr "dark"))]}.

(** The chains of calls of the README. *)
Definition personCalls : list Call :=
  [As "person"; HasIdentifier "id"; Has "age"; Has "name";
   HasMany "address" "Address" "personId"].

Definition addressCalls : list Call :=
  [As "address"; HasIdentifier "id"; Has "city"; Has "street"; Has "personId";
   HasOne "person" "Person" "personId"].

(** The builder of the addresses before its call of [hasOne], the foreign
    key not declared. *)
Definition addressBuilder : ClassSpecificationBuilder.t :=
  {| ClassSpecificationBuilder.specification :=
       {| specClass := "Address"; tableName := "address"; identifierProperty := "id";
          nonRelationalProperties := ["id"; "city"; "street"];
          relationalProperties := [] |};
     ClassSpecificationBuilder.isNameManuallySet := true |}.

(** [PersonRepository.getQueryable().include("address").thenInclude("person")],
    the chain of the README. *)
Definition peopleWithAddressAndPerson : Queryable.fluent :=
  {| Queryable.query :=
       {| Queryable.rootClassSpecification := PersonSpecification;
          Queryable.includeMap :=
            IncludeNode [("address", IncludeNode [("person", IncludeNode [])])] |};
     Queryable.currentIncludePointer := "address::person" |}.

(** The README's second person, with her two addresses attached. *)
Definition address4 : Entity :=
  mkEntity [("id", SStr "4"); ("street", SStr "101 Maple St");
            ("city", SStr "Springfield")] [] [].

Definition address5 : Entity :=
  mkEntity [("id", SStr "5"); ("street", SStr "112 Pine St");
            ("city", SStr "Springfield")] [] [].

Definition person2WithAddresses : Entity :=
  mkEntity [("id", SStr "2"); ("name", SStr "Jane"); ("age", SNum 25)] []
    [("address", [address4; address5])].

(** The README's third address, attached to the first person. *)
Definition address3 : Entity :=
  mkEntity [("id", SStr "3"); ("street", SStr "Setumari"); ("city", SStr "Damak")]
    [("person", person1)] [].

(** The README's second address, which names the first person by its
    foreign key. *)
Definition address2 : Entity :=
  mkEntity [("id", SStr "2"); ("street", SStr "Sano Baraghare"); ("city", SStr "Damak");
            ("personId", SStr "1")] [] [].

(** The first address after it has moved to the second person and has been
    deleted as it was stored. *)
Definition addressDeleted : gmap string Text :=
  after (Repository.delete readmeRegistry AddressSpecification addressMoved)
    addressUpdated.

(** The include map of [include("address")] on the persons. *)
Definition peopleWithAddresses : IncludeMap := IncludeNode [("address", IncludeNode [])].


(** Both persons of the README, the second with her two addresses, and the
    first two addresses, which name the first person. *)
Definition household : gmap string Text :=
  performAll 8 readmeRegistry
    [Create "Person" person1; Create "Person" person2WithAddresses;
     Create "Address" address1; Create "Address" address2] ∅.





(** * Properties *)

(** ** Strings and storage keys *)

Lemma append_nil (b : string) : "" +:+ b = b.
Proof. reflexivity. Qed.

Lemma append_cons (c : ascii) (a b : string) : String c a +:+ b = String c (a +:+ b).
Proof. reflexivity. Qed.

Ltac string_simpl := repeat (rewrite append_cons || rewrite append_nil).

Lemma append_assoc (a b c : string) : (a +:+ b) +:+ c = a +:+ (b +:+ c).
Proof. induction a as [|x a IH]; string_simpl; [done | by rewrite IH]. Qed.

Lemma append_length (a b : string) :
  String.length (a +:+ b) = String.length a + String.length b.
Proof. induction a as [|x a IH]; string_simpl; simpl; [done | by rewrite IH]. Qed.

Lemma append_inv_tail (a b c : string) : a +:+ c = b +:+ c → a = b.
Proof.
  revert b. induction a as [|x a IH]; intros [|y b] H; try done.
  - apply (f_equal String.length) in H. rewrite append_nil, append_length in H.
    simpl in H. lia.
  - apply (f_equal String.length) in H. rewrite append_nil, append_length in H.
    simpl in H. lia.
  - rewrite !append_cons in H. injection H as -> H. f_equal. by apply IH.
Qed.

Lemma append_not_longer (a b : string) : a = a +:+ b → b = "".
Proof.
  intros H. apply (f_equal String.length) in H.
  rewrite append_length in H. destruct b; [done | simpl in H; lia].
Qed.

Lemma lastChar_append (a b : string) : b ≠ "" → lastChar (a +:+ b) = lastChar b.
Proof.
  intros Hb. induction a as [|x a IH]; string_simpl; [done|].
  simpl. rewrite IH. destruct (a +:+ b) eqn:E; [|done].
  destruct a, b; done.
Qed.

Lemma tableIndexKey_pattern (table : string) :
  DataDriver.getTableIndexKey table = "::index-of::" +:+ table +:+ "-identifiers::".
Proof.
  unfold DataDriver.getTableIndexKey. string_simpl. by rewrite !append_assoc.
Qed.

Lemma relationIndexKey_pattern (destTable sourceTable fkField : string) (fkValue : Scalar) :
  DataDriver.getRelationIndexKey destTable sourceTable fkField fkValue =
  "::index-of::" +:+ sourceTable +:+ "-identifiers::which-has-one::" +:+ destTable
    +:+ "::as::" +:+ fkField +:+ "::with-identifier::" +:+ toString fkValue +:+ "::".
Proof.
  unfold DataDriver.getRelationIndexKey. string_simpl. by rewrite !append_assoc.
Qed.

Lemma tableIndexKey_isIndexKey (table : string) :
  isIndexKey (LocalStorageDriver.keyPrefix +:+ DataDriver.getTableIndexKey table).
Proof.
  unfold isIndexKey. rewrite tableIndexKey_pattern.
  rewrite <- !append_assoc. by rewrite lastChar_append.
Qed.

Lemma relationIndexKey_isIndexKey (d s f : string) (v : Scalar) :
  isIndexKey (LocalStorageDriver.keyPrefix +:+ DataDriver.getRelationIndexKey d s f v).
Proof.
  unfold isIndexKey. rewrite relationIndexKey_pattern.
  rewrite <- !append_assoc. by rewrite lastChar_append.
Qed.

Lemma getDataKey_Ok (reg : ClassSpecificationRegistry.specifications)
    (table : string) (id : Scalar) (column k : string) :
  DataDriver.getDataKey reg table id column = Ok k →
  k = table +:+ ":" +:+ toString id +:+ ":" +:+ column +:+ ";".
Proof.
  unfold DataDriver.getDataKey, ClassSpecificationRegistry.getSpecificationByTableName.
  destruct (ClassSpecificationRegistry.findByTable reg table); simpl; [|done].
  case_bool_decide; congruence.
Qed.

Lemma getDataKey_isDataKey (reg : ClassSpecificationRegistry.specifications)
    (table : string) (id : Scalar) (column k : string) :
  DataDriver.getDataKey reg table id column = Ok k →
  isDataKey (LocalStorageDriver.keyPrefix +:+ k).
Proof.
  intros ->%getDataKey_Ok. unfold isDataKey.
  rewrite <- !append_assoc. by rewrite lastChar_append.
Qed.

Lemma dataKey_not_indexKey (k : string) : isDataKey k → isIndexKey k → False.
Proof. unfold isDataKey, isIndexKey. congruence. Qed.

(** The relation-index key of a source table is never the identifier-index
    key of that same table. *)
Lemma relationIndexKey_not_own_tableIndexKey (d s f : string) (v : Scalar) :
  DataDriver.getRelationIndexKey d s f v ≠ DataDriver.getTableIndexKey s.
Proof.
  rewrite relationIndexKey_pattern, tableIndexKey_pattern. intros H.
  apply (inj (String.app "::index-of::")) in H.
  apply (inj (String.app s)) in H.
  change ("-identifiers::which-has-one::" +:+ d +:+ "::as::" +:+ f
            +:+ "::with-identifier::" +:+ toString v +:+ "::")
    with ("-identifiers::" +:+ ("which-has-one::" +:+ d +:+ "::as::" +:+ f
            +:+ "::with-identifier::" +:+ toString v +:+ "::")) in H.
  symmetry in H. by apply append_not_longer in H.
Qed.

(** ** Reasoning about code that writes

    [hoare P m N X]: run from a storage satisfying [P], [m] ends in a
    storage satisfying [N a] when it returns [a] and [X e] when it throws
    [e]. *)

Section HoareRules.
Context {A B : Type}.
Implicit Types (P I : gmap string Text → Prop) (X : Error → gmap string Text → Prop).

Lemma hoare_ret P (a : A) (N : A → gmap string Text → Prop) X :
  (∀ st, P st → N a st) → hoare P (ret a) N X.
Proof. intros H st HP. by apply H. Qed.

Lemma hoare_throw P (e : Error) (N : A → gmap string Text → Prop) X :
  (∀ st, P st → X e st) → hoare P (throw e) N X.
Proof. intros H st HP. by apply H. Qed.

Lemma hoare_bind P (m : M A) (f : A → M B) (R : A → gmap string Text → Prop)
    (N : B → gmap string Text → Prop) X :
  hoare P m R X → (∀ a, hoare (R a) (f a) N X) → hoare P (bind m f) N X.
Proof.
  intros Hm Hf st HP. unfold bind. specialize (Hm st HP).
  destruct (m st) as [[a|e] st']; [by apply Hf | done].
Qed.

Lemma hoare_conseq P P' (m : M A) (N N' : A → gmap string Text → Prop) X X' :
  hoare P' m N' X' →
  (∀ st, P st → P' st) → (∀ a st, N' a st → N a st) → (∀ e st, X' e st → X e st) →
  hoare P m N X.
Proof.
  intros Hm HP HN HX st Hst. specialize (Hm st (HP st Hst)).
  destruct (m st) as [[a|e] st']; auto.
Qed.

Lemma hoare_pre P P' (m : M A) (N : A → gmap string Text → Prop) X :
  (∀ st, P st → P' st) → hoare P' m N X → hoare P m N X.
Proof. intros HP Hm st Hst. by apply Hm, HP. Qed.

Lemma hoare_liftQ P (q : Q A) (N : A → gmap string Text → Prop) X :
  (∀ st a, P st → q st = Ok a → N a st) →
  (∀ st e, P st → q st = Throw e → X e st) →
  hoare P (liftQ q) N X.
Proof.
  intros HN HX st HP. unfold liftQ. destruct (q st) eqn:E; eauto.
Qed.

Lemma hoare_liftO P (o : Outcome A) (N : A → gmap string Text → Prop) X :
  (∀ st a, P st → o = Ok a → N a st) →
  (∀ st e, P st → o = Throw e → X e st) →
  hoare P (liftO o) N X.
Proof.
  intros HN HX st HP. unfold liftO. destruct o eqn:E; eauto.
Qed.

End HoareRules.

Lemma hoare_forEach {A} (I : gmap string Text → Prop) (l : list A) (body : A → M ())
    (X : Error → gmap string Text → Prop) :
  (∀ x, x ∈ l → hoare I (body x) (λ _, I) X) →
  hoare I (forEach l body) (λ _, I) X.
Proof.
  intros Hbody. induction l as [|x l IH]; simpl.
  - by intros st HP.
  - eapply hoare_bind; [apply Hbody; left|].
    intros ?. apply IH. intros y Hy. apply Hbody. by right.
Qed.

Lemma hoare_foldM {A B} (I : B → gmap string Text → Prop) (l : list A) (s : B)
    (body : B → A → M B) (X : Error → gmap string Text → Prop) :
  (∀ s x, x ∈ l → hoare (I s) (body s x) I X) →
  hoare (I s) (foldM l s body) I X.
Proof.
  intros Hbody. revert s. induction l as [|x l IH]; intros s; simpl.
  - by intros st HP.
  - eapply hoare_bind; [apply Hbody; left|].
    intros s'. apply IH. intros s'' y Hy. apply Hbody. by right.
Qed.

Lemma hoare_write (P : gmap string Text → Prop) (key : string) (value : Value)
    (N : () → gmap string Text → Prop) (X : Error → gmap string Text → Prop) :
  (∀ st, P st →
     N () (<[LocalStorageDriver.keyPrefix +:+ key :=
              if truthy value then JSON_stringify value else Empty]> st)) →
  hoare P (LocalStorageDriver.write key value) N X.
Proof. intros H st HP. by apply H. Qed.

Lemma hoare_remove (P : gmap string Text → Prop) (key : string)
    (N : () → gmap string Text → Prop) (X : Error → gmap string Text → Prop) :
  (∀ st, P st → N () (delete (LocalStorageDriver.keyPrefix +:+ key) st)) →
  hoare P (LocalStorageDriver.remove key) N X.
Proof. intros H st HP. by apply H. Qed.

Lemma readIndex_Some (key : string) (st : gmap string Text) (l : list Scalar) :
  DataDriver.readIndex key st = Ok (Some l) ↔
  arrayAt (LocalStorageDriver.keyPrefix +:+ key) st = Some l.
Proof.
  unfold DataDriver.readIndex, LocalStorageDriver.read, arrayAt.
  destruct (st !! _) as [[|[s|l']]|]; simpl; try destruct (truthyScalar s);
    split; intros H; simplify_eq; done.
Qed.

Lemma readIndex_None (key : string) (st : gmap string Text) :
  DataDriver.readIndex key st = Ok None →
  arrayAt (LocalStorageDriver.keyPrefix +:+ key) st = None.
Proof.
  unfold DataDriver.readIndex, LocalStorageDriver.read, arrayAt.
  destruct (st !! _) as [[|[s|l']]|]; simpl; try destruct (truthyScalar s); done.
Qed.

Lemma arrayAt_insert (k k' : string) (t : Text) (st : gmap string Text) :
  arrayAt k (<[k' := t]> st) =
  if decide (k' = k)
  then match t with Json (VArray l) => Some l | _ => None end
  else arrayAt k st.
Proof.
  unfold arrayAt. rewrite lookup_insert. destruct (decide (k' = k)); done.
Qed.

Lemma arrayAt_delete (k k' : string) (st : gmap string Text) :
  arrayAt k (delete k' st) = if decide (k' = k) then None else arrayAt k st.
Proof.
  unfold arrayAt. rewrite lookup_delete. destruct (decide (k' = k)); done.
Qed.

Lemma includes_true (l : list Scalar) (x : Scalar) : includes l x = true ↔ x ∈ l.
Proof. unfold includes. by rewrite bool_decide_eq_true. Qed.

Lemma includes_false (l : list Scalar) (x : Scalar) : includes l x = false ↔ x ∉ l.
Proof. unfold includes. by rewrite bool_decide_eq_false. Qed.

Lemma jsonElement_identifier (x i : Scalar) :
  EntityIdentifierType i → jsonElement x = i ↔ x = i.
Proof. destruct x, i; simpl; intros Hi; split; intros H; try done. Qed.

Lemma elem_of_map_jsonElement (l : list Scalar) (i : Scalar) :
  EntityIdentifierType i → i ∈ map jsonElement l ↔ i ∈ l.
Proof.
  intros Hi. rewrite list_elem_of_fmap. split.
  - intros (x & Hx & Hin). symmetry in Hx.
    apply (jsonElement_identifier x i Hi) in Hx. by subst.
  - intros Hin. exists i. split; [|done]. symmetry. by apply jsonElement_identifier.
Qed.

Lemma elem_of_without (l : list Scalar) (x y : Scalar) :
  x ∈ without y l ↔ x ∈ l ∧ x ≠ y.
Proof. unfold without. rewrite list_elem_of_filter. tauto. Qed.

Section Preserves.
Context (I : gmap string Text → Prop) (E : Error → Prop).

Lemma preserves_ret {A} (a : A) : preserves I E (ret a).
Proof. by intros st HI. Qed.

Lemma preserves_throw {A} (e : Error) : E e → preserves I E (throw e : M A).
Proof. by intros He st HI. Qed.

Lemma preserves_bind {A B} (m : M A) (f : A → M B) :
  preserves I E m → (∀ a, preserves I E (f a)) → preserves I E (bind m f).
Proof. intros Hm Hf. eapply hoare_bind; [apply Hm | apply Hf]. Qed.

Lemma preserves_liftQ {A} (q : Q A) :
  (∀ st e, I st → q st = Throw e → E e) → preserves I E (liftQ q).
Proof. intros H. apply hoare_liftQ; eauto. Qed.

Lemma preserves_liftO {A} (o : Outcome A) :
  (∀ e, o = Throw e → E e) → preserves I E (liftO o).
Proof. intros H. apply hoare_liftO; eauto. Qed.

Lemma preserves_bind_liftO {A B} (o : Outcome A) (f : A → M B) :
  (∀ e, o = Throw e → E e) → (∀ a, o = Ok a → preserves I E (f a)) →
  preserves I E (bind (liftO o) f).
Proof.
  intros He Hf. destruct o as [a|e].
  - intros st HI. apply (Hf a eq_refl st HI).
  - intros st HI. split; [done | by apply He].
Qed.

Lemma preserves_forEach {A} (l : list A) (body : A → M ()) :
  (∀ x, x ∈ l → preserves I E (body x)) → preserves I E (forEach l body).
Proof. intros H. by apply hoare_forEach. Qed.

Lemma preserves_foldM {A B} (l : list A) (s : B) (body : B → A → M B) :
  (∀ s x, x ∈ l → preserves I E (body s x)) → preserves I E (foldM l s body).
Proof. intros H. by apply (hoare_foldM (λ _, I)). Qed.

End Preserves.

(** *** The cascade keeps what its storage operations keep *)

Section CascadeInvariant.
Context (I : gmap string Text → Prop) (E : Error → Prop).
Context (reg : ClassSpecificationRegistry.specifications).
Hypothesis E_any : ∀ e, E e.
Hypothesis I_addTableIndex : ∀ table j, preserves I E (DataDriver.addTableIndex table j).
Hypothesis I_addRelationIndex :
  ∀ d s f v j, preserves I E (DataDriver.addRelationIndex d s f v j).
Hypothesis I_writeData :
  ∀ table id column k v,
    DataDriver.getDataKey reg table id column = Ok k →
    preserves I E (LocalStorageDriver.write k (VScalar v)).

Lemma writeProperties_preserves (table : string) (id : Scalar)
    (properties : list string) (instance : Entity) :
  preserves I E
    (forEach properties (λ property,
       let! dataKey := liftO (DataDriver.getDataKey reg table id property) in
       let dataToStore :=
         match getScalar instance property with
         | SUndefined => SNull
         | v => v
         end in
       LocalStorageDriver.write dataKey (VScalar dataToStore))).
Proof.
  apply preserves_forEach. intros property _.
  apply preserves_bind_liftO; [done|].
  intros k Hk. by eapply I_writeData.
Qed.

Lemma cascade_preserves (fuel : nat) :
  (∀ spec e, preserves I E (Repository.create fuel reg spec e)) ∧
  (∀ spec e, preserves I E (Repository.update fuel reg spec e)) ∧
  (∀ spec e, preserves I E (Repository.createOrUpdate fuel reg spec e)) ∧
  (∀ spec e id, preserves I E (Repository.handleRelationalProperties fuel reg spec e id)).
Proof.
  induction fuel as [|fuel (IHc & IHu & IHcu & IHh)].
  { split; [|split; [|split]]; intros; by apply preserves_throw. }
  split; [|split; [|split]].
  - intros spec e. simpl.
    apply preserves_bind; [apply IHh|]. intros instance.
    apply preserves_bind; [apply I_addTableIndex|]. intros _.
    apply preserves_bind; [apply writeProperties_preserves|]. intros _.
    apply preserves_ret.
  - intros spec e. simpl.
    apply preserves_bind; [apply IHh|]. intros instance.
    apply writeProperties_preserves.
  - intros spec e. simpl.
    apply preserves_bind; [by apply preserves_liftQ|]. intros index.
    destruct (includes index _).
    + apply preserves_bind; [apply IHu|]. intros _. apply preserves_ret.
    + apply IHc.
  - intros spec e id. simpl.
    apply preserves_foldM. intros instance rp _.
    destruct (isCollection rp); simpl.
    + destruct (getField (manys instance) (name rp)) as [[|child children]|];
        try apply preserves_ret.
      apply preserves_bind_liftO; [done|]. intros relationalRepository _.
      apply preserves_bind; [|intros _; apply preserves_ret].
      apply preserves_forEach. intros relatedData _.
      apply preserves_bind; [apply IHcu|]. intros _. apply preserves_ret.
    + apply preserves_bind_liftO; [done|]. intros relatedSpec _.
      apply preserves_bind.
      * destruct (getField (ones instance) (name rp)) as [relatedData|];
          [|apply preserves_ret].
        apply preserves_bind_liftO; [done|]. intros relationalRepository _.
        apply preserves_bind; [apply IHcu|]. intros _. apply preserves_ret.
      * intros assigned.
        apply preserves_bind; [apply I_addRelationIndex|]. intros _.
        apply preserves_ret.
Qed.

End CascadeInvariant.

(** ** What the index operations do to the storage *)

Lemma addIndex_step (key : string) (j : Scalar) (onDuplicate : M ())
    (st : gmap string Text) :
  isIndexKey (LocalStorageDriver.keyPrefix +:+ key) →
  (∀ st, snd (onDuplicate st) = st) →
  addStep j st
    (snd ((let! index := liftQ (DataDriver.readIndex key) in
           match index with
           | None => LocalStorageDriver.write key (VArray [j])
           | Some index =>
               if includes index j then onDuplicate
               else LocalStorageDriver.write key (VArray (index ++ [j]))
           end) st)).
Proof.
  intros Hkey Hdup. unfold bind, liftQ.
  destruct (DataDriver.readIndex key st) as [[l|]|e] eqn:Hread; simpl.
  - destruct (includes l j) eqn:Hinc.
    + left. apply Hdup.
    + right. exists (LocalStorageDriver.keyPrefix +:+ key), l.
      apply includes_false in Hinc. apply readIndex_Some in Hread. auto.
  - right. exists (LocalStorageDriver.keyPrefix +:+ key), [].
    apply readIndex_None in Hread. split; [done|]. split; [apply not_elem_of_nil|].
    auto.
  - by left.
Qed.

Lemma addTableIndex_step (table : string) (j : Scalar) (st : gmap string Text) :
  addStep j st (snd (DataDriver.addTableIndex table j st)).
Proof.
  apply (addIndex_step _ j (throw (IndexConstraintViolation j table)));
    [apply tableIndexKey_isIndexKey | done].
Qed.

Lemma addRelationIndex_step (d s f : string) (v j : Scalar) (st : gmap string Text) :
  addStep j st (snd (DataDriver.addRelationIndex d s f v j st)).
Proof.
  apply (addIndex_step _ j (ret ())); [apply relationIndexKey_isIndexKey | done].
Qed.

Lemma removeIndex_step (key : string) (j : Scalar) (st : gmap string Text) :
  isIndexKey (LocalStorageDriver.keyPrefix +:+ key) →
  removeStep j st
    (snd ((let! index := liftQ (DataDriver.readIndex key) in
           match index with
           | None => ret ()
           | Some index => LocalStorageDriver.write key (VArray (without j index))
           end) st)).
Proof.
  intros Hkey. unfold bind, liftQ.
  destruct (DataDriver.readIndex key st) as [[l|]|e] eqn:Hread; simpl;
    [|by left..].
  right. exists (LocalStorageDriver.keyPrefix +:+ key), l.
  apply readIndex_Some in Hread. auto.
Qed.

Lemma removeTableIndex_step (table : string) (j : Scalar) (st : gmap string Text) :
  removeStep j st (snd (DataDriver.removeTableIndex table j st)).
Proof. apply removeIndex_step, tableIndexKey_isIndexKey. Qed.

Lemma removeRelationIndex_step (d s f : string) (v j : Scalar) (st : gmap string Text) :
  removeStep j st (snd (DataDriver.removeRelationIndex d s f v j st)).
Proof. apply removeIndex_step, relationIndexKey_isIndexKey. Qed.

(** An invariant kept by the steps is kept by the operations. *)
Lemma preserves_of_step {A} (I : gmap string Text → Prop) (m : M A)
    (R : gmap string Text → gmap string Text → Prop) :
  (∀ st, R st (snd (m st))) → (∀ st st', I st → R st st' → I st') →
  preserves I (λ _, True) m.
Proof.
  intros Hstep HI st Hst. specialize (Hstep st).
  destruct (m st) as [[a|e] st']; simpl in *; eauto.
Qed.

(** *** Invariants kept by create and update *)

Section CreateUpdateInvariant.
Context (I : gmap string Text → Prop).
Context (reg : ClassSpecificationRegistry.specifications).
Hypothesis I_addStep : ∀ j st st', I st → addStep j st st' → I st'.
Hypothesis I_writeData :
  ∀ k v st, isDataKey (LocalStorageDriver.keyPrefix +:+ k) → I st →
    I (<[LocalStorageDriver.keyPrefix +:+ k :=
           if truthyScalar v then Json (VScalar v) else Empty]> st).

Lemma createUpdate_preserves (fuel : nat) :
  (∀ spec e, preserves I (λ _, True) (Repository.create fuel reg spec e)) ∧
  (∀ spec e, preserves I (λ _, True) (Repository.update fuel reg spec e)) ∧
  (∀ spec e, preserves I (λ _, True) (Repository.createOrUpdate fuel reg spec e)) ∧
  (∀ spec e id,
     preserves I (λ _, True) (Repository.handleRelationalProperties fuel reg spec e id)).
Proof.
  apply cascade_preserves; [done|..].
  - intros table j. eapply preserves_of_step; [apply addTableIndex_step|].
    intros st st'. apply I_addStep.
  - intros d s f v j. eapply preserves_of_step; [apply addRelationIndex_step|].
    intros st st'. apply I_addStep.
  - intros table id column k v Hk. apply hoare_write. intros st HI.
    apply (I_writeData k v); [|done]. by eapply getDataKey_isDataKey.
Qed.

Section Delete.
Hypothesis I_removeStep : ∀ j st st', I st → removeStep j st st' → I st'.
Hypothesis I_remove : ∀ k st, I st → I (delete k st).

Lemma delete_preserves (spec : ClassSpecification) (e : Entity) :
  preserves I (λ _, True) (Repository.delete reg spec e).
Proof.
  unfold Repository.delete.
  apply preserves_bind; [by apply preserves_liftQ|]. intros index.
  destruct (negb _); [apply preserves_ret|].
  apply preserves_bind.
  { eapply preserves_of_step; [apply removeTableIndex_step|].
    intros st st'. apply I_removeStep. }
  intros _. apply preserves_bind.
  { apply preserves_forEach. intros property _.
    apply preserves_bind_liftO; [done|]. intros k _.
    apply hoare_remove. auto. }
  intros _. apply preserves_forEach. intros rp _.
  apply preserves_bind_liftO; [done|]. intros relatedSpec _.
  destruct (negb _).
  - eapply preserves_of_step; [apply removeRelationIndex_step|].
    intros st st'. apply I_removeStep.
  - apply hoare_remove. auto.
Qed.

End Delete.
End CreateUpdateInvariant.

(** *** An identifier occurs at most once in every stored array *)

Lemma occurrences_app (i : Scalar) (l1 l2 : list Scalar) :
  occurrences i (l1 ++ l2) = occurrences i l1 + occurrences i l2.
Proof. unfold occurrences. by rewrite filter_app, length_app. Qed.

Lemma occurrences_not_elem (i : Scalar) (l : list Scalar) :
  i ∉ l → occurrences i l = 0.
Proof.
  unfold occurrences. induction l as [|x l IH]; [done|].
  rewrite not_elem_of_cons. intros [Hx Hl]. rewrite filter_cons.
  destruct (decide (x = i)); [congruence | auto].
Qed.

Lemma occurrences_jsonElement (i : Scalar) (l : list Scalar) :
  EntityIdentifierType i → occurrences i (map jsonElement l) = occurrences i l.
Proof.
  intros Hi. unfold occurrences. induction l as [|x l IH]; [done|].
  simpl. rewrite !filter_cons.
  destruct (decide (jsonElement x = i)) as [H|H], (decide (x = i)) as [H'|H'];
    simpl; rewrite ?IH; try done.
  - by apply (jsonElement_identifier x i Hi) in H.
  - by apply (jsonElement_identifier x i Hi) in H'.
Qed.

Lemma occurrences_without (i j : Scalar) (l : list Scalar) :
  (occurrences i (without j l) ≤ occurrences i l)%nat.
Proof.
  unfold occurrences, without. induction l as [|x l IH]; [done|].
  rewrite (filter_cons (λ x, x ≠ j)).
  destruct (decide (x ≠ j)); rewrite !filter_cons; destruct (decide (x = i));
    simpl; lia.
Qed.

Lemma atMostOnce_addStep (i j : Scalar) (st st' : gmap string Text) :
  EntityIdentifierType i → atMostOnce i st → addStep j st st' → atMostOnce i st'.
Proof.
  intros Hi Hst [->|(k & l & _ & Hj & Hl & ->)]; [done|].
  intros k' l'. rewrite arrayAt_insert. destruct (decide (k = k')) as [->|_]; [|apply Hst].
  intros [= <-]. rewrite occurrences_jsonElement, occurrences_app by done.
  assert (occurrences i l ≤ 1)%nat as Hocc.
  { destruct Hl as [Hl|[_ ->]]; [by eapply Hst | cbn; lia]. }
  unfold occurrences at 2. rewrite filter_cons, filter_nil.
  destruct (decide (j = i)) as [->|_]; simpl; [|lia].
  rewrite occurrences_not_elem by done. lia.
Qed.

Lemma atMostOnce_removeStep (i j : Scalar) (st st' : gmap string Text) :
  EntityIdentifierType i → atMostOnce i st → removeStep j st st' → atMostOnce i st'.
Proof.
  intros Hi Hst [->|(k & l & _ & Hl & ->)]; [done|].
  intros k' l'. rewrite arrayAt_insert. destruct (decide (k = k')) as [->|_]; [|apply Hst].
  intros [= <-]. rewrite occurrences_jsonElement by done.
  etrans; [apply occurrences_without|]. by eapply Hst.
Qed.

Lemma atMostOnce_writeScalar (i : Scalar) (k : string) (v : Scalar)
    (st : gmap string Text) :
  atMostOnce i st →
  atMostOnce i (<[k := if truthyScalar v then Json (VScalar v) else Empty]> st).
Proof.
  intros Hst k' l'. rewrite arrayAt_insert.
  destruct (decide (k = k')) as [->|_]; [|apply Hst].
  by destruct (truthyScalar v).
Qed.

Lemma atMostOnce_delete (i : Scalar) (k : string) (st : gmap string Text) :
  atMostOnce i st → atMostOnce i (delete k st).
Proof.
  intros Hst k' l'. rewrite arrayAt_delete.
  destruct (decide (k = k')) as [->|_]; [done | apply Hst].
Qed.

Lemma atMostOnce_empty (i : Scalar) : atMostOnce i ∅.
Proof. intros k l. unfold arrayAt. by rewrite lookup_empty. Qed.

(** *** Index keys hold arrays *)

Lemma wellFormed_addStep (j : Scalar) (st st' : gmap string Text) :
  wellFormed st → addStep j st st' → wellFormed st'.
Proof.
  intros Hst [->|(k & l & _ & _ & _ & ->)]; [done|].
  intros k' v Hk'. rewrite lookup_insert.
  destruct (decide (k = k')) as [->|_]; [|by apply Hst].
  intros [= <-]. eauto.
Qed.

Lemma wellFormed_removeStep (j : Scalar) (st st' : gmap string Text) :
  wellFormed st → removeStep j st st' → wellFormed st'.
Proof.
  intros Hst [->|(k & l & _ & _ & ->)]; [done|].
  intros k' v Hk'. rewrite lookup_insert.
  destruct (decide (k = k')) as [->|_]; [|by apply Hst].
  intros [= <-]. eauto.
Qed.

Lemma wellFormed_writeData (k : string) (t : Text) (st : gmap string Text) :
  isDataKey k → wellFormed st → wellFormed (<[k := t]> st).
Proof.
  intros Hk Hst k' v Hk'. rewrite lookup_insert.
  destruct (decide (k = k')) as [->|_]; [|by apply Hst].
  by destruct (dataKey_not_indexKey k').
Qed.

Lemma wellFormed_delete (k : string) (st : gmap string Text) :
  wellFormed st → wellFormed (delete k st).
Proof.
  intros Hst k' v Hk'. rewrite lookup_delete.
  destruct (decide (k = k')) as [->|_]; [done | by apply Hst].
Qed.

Lemma wellFormed_empty : wellFormed ∅.
Proof. intros k v _. by rewrite lookup_empty. Qed.

Lemma wellFormed_readIndex (key : string) (st : gmap string Text) :
  wellFormed st → isIndexKey (LocalStorageDriver.keyPrefix +:+ key) →
  DataDriver.readIndex key st =
  Ok (arrayAt (LocalStorageDriver.keyPrefix +:+ key) st).
Proof.
  intros Hst Hkey. unfold DataDriver.readIndex, LocalStorageDriver.read, arrayAt.
  destruct (st !! _) as [[|v]|] eqn:Hv; try done.
  destruct (Hst _ _ Hkey Hv) as [l ->]. done.
Qed.

Lemma wellFormed_getTableIndex (table : string) (st : gmap string Text) :
  wellFormed st →
  DataDriver.getTableIndex table st =
  Ok (default [] (arrayAt (LocalStorageDriver.keyPrefix
                             +:+ DataDriver.getTableIndexKey table) st)).
Proof.
  intros Hst. unfold DataDriver.getTableIndex.
  by rewrite wellFormed_readIndex by (done || apply tableIndexKey_isIndexKey).
Qed.

(** ** Sequences of repository operations *)

Section OperationsInvariant.
Context (I : gmap string Text → Prop).
Context (reg : ClassSpecificationRegistry.specifications).
Hypothesis I_addStep : ∀ j st st', I st → addStep j st st' → I st'.
Hypothesis I_removeStep : ∀ j st st', I st → removeStep j st st' → I st'.
Hypothesis I_writeData :
  ∀ k v st, isDataKey (LocalStorageDriver.keyPrefix +:+ k) → I st →
    I (<[LocalStorageDriver.keyPrefix +:+ k :=
           if truthyScalar v then Json (VScalar v) else Empty]> st).
Hypothesis I_remove : ∀ k st, I st → I (delete k st).

Lemma perform_preserves (fuel : nat) (op : Operation) :
  preserves I (λ _, True) (perform fuel reg op).
Proof.
  destruct (createUpdate_preserves I reg I_addStep I_writeData fuel)
    as (Hc & Hu & _ & _).
  destruct op as [cls e|cls e|cls e]; simpl;
    (apply preserves_bind_liftO; [done|]; intros repository _).
  - apply preserves_bind; [apply Hc|]. intros _. apply preserves_ret.
  - apply Hu.
  - by apply delete_preserves.
Qed.

Lemma performAll_preserves (fuel : nat) (ops : list Operation) (st : gmap string Text) :
  I st → I (performAll fuel reg ops st).
Proof.
  revert st. induction ops as [|op ops IH]; intros st HI; simpl; [done|].
  apply IH. pose proof (perform_preserves fuel op st HI) as H.
  destruct (perform fuel reg op st) as [[[]|e] st']; simpl in *; tauto.
Qed.

End OperationsInvariant.

Lemma performAll_atMostOnce (fuel : nat) (reg : ClassSpecificationRegistry.specifications)
    (ops : list Operation) (i : Scalar) (st : gmap string Text) :
  EntityIdentifierType i → atMostOnce i st → atMostOnce i (performAll fuel reg ops st).
Proof.
  intros Hi. apply performAll_preserves.
  - intros j st0 st'. by apply atMostOnce_addStep.
  - intros j st0 st'. by apply atMostOnce_removeStep.
  - intros k v st0 _. apply atMostOnce_writeScalar.
  - intros k st0. apply atMostOnce_delete.
Qed.

Lemma performAll_wellFormed (fuel : nat) (reg : ClassSpecificationRegistry.specifications)
    (ops : list Operation) (st : gmap string Text) :
  wellFormed st → wellFormed (performAll fuel reg ops st).
Proof.
  apply performAll_preserves.
  - apply wellFormed_addStep.
  - apply wellFormed_removeStep.
  - intros k v st0 Hk. by apply wellFormed_writeData.
  - intros k st0. apply wellFormed_delete.
Qed.

(** ** Which errors a cascade can throw *)

Lemma getField_Some_elem {A} (fields : list (string * A)) (prop : string) (x : A) :
  getField fields prop = Some x → ∃ k, (k, x) ∈ fields.
Proof.
  unfold getField. destruct (List.find _ fields) as [[k y]|] eqn:H; [|done].
  intros [= <-]. exists k. apply List.find_some in H as [H _].
  by apply list_elem_of_In.
Qed.

Lemma nesting_one (e c : Entity) (prop : string) :
  getField (ones e) prop = Some c → nesting c < nesting e.
Proof.
  intros [k Hk]%getField_Some_elem. destruct e as [sc os ms]. simpl in *.
  assert (nesting c ≤ max_list (map (λ p, nesting (snd p)) os)).
  { apply max_list_elem_of_le, list_elem_of_fmap. by exists (k, c). }
  lia.
Qed.

Lemma nesting_many (e c : Entity) (l : list Entity) (prop : string) :
  getField (manys e) prop = Some l → c ∈ l → nesting c < nesting e.
Proof.
  intros [k Hk]%getField_Some_elem Hc. destruct e as [sc os ms]. simpl in *.
  assert (nesting c ≤ max_list (map nesting l)).
  { apply max_list_elem_of_le, list_elem_of_fmap. by exists c. }
  assert (max_list (map nesting l)
          ≤ max_list (map (λ p, max_list (map nesting (snd p))) ms)).
  { apply max_list_elem_of_le, list_elem_of_fmap. by exists (k, l). }
  lia.
Qed.

Lemma nesting_assignScalar (e : Entity) (prop : string) (v : Scalar) :
  nesting (assignScalar e prop v) = nesting e.
Proof. by destruct e. Qed.

Lemma preserves_weaken {A} (I : gmap string Text → Prop) (E E' : Error → Prop) (m : M A) :
  (∀ e, E e → E' e) → preserves I E m → preserves I E' m.
Proof.
  intros HE Hm. eapply hoare_conseq; [apply Hm|..]; simpl; eauto.
  intros e st [? ?]. auto.
Qed.

Lemma preserves_with_fact {A} (I : gmap string Text → Prop) (E : Error → Prop)
    (m : M A) (fact : Prop) :
  preserves I E m →
  hoare (λ st, fact ∧ I st) m (λ _ st, fact ∧ I st) (λ e st, I st ∧ E e).
Proof.
  intros Hm st [Hfact Hst]. specialize (Hm st Hst).
  destruct (m st) as [[a|e] st']; tauto.
Qed.

Lemma hoare_fact {A} (P : gmap string Text → Prop) (m : M A) (fact : Prop)
    (N : A → gmap string Text → Prop) (X : Error → gmap string Text → Prop) :
  (fact → hoare (λ st, fact ∧ P st) m N X) → hoare (λ st, fact ∧ P st) m N X.
Proof. intros H st [Hfact Hst]. by apply H. Qed.

Lemma bind_liftO_Ok {A B} (a : A) (f : A → M B) : bind (liftO (Ok a)) f = f a.
Proof. reflexivity. Qed.

Lemma addTableIndex_outcome (table : string) (j : Scalar) :
  preserves wellFormed isConstraintViolation (DataDriver.addTableIndex table j).
Proof.
  intros st Hst. pose proof (addTableIndex_step table j st) as Hstep.
  unfold DataDriver.addTableIndex, bind, liftQ in *.
  rewrite wellFormed_readIndex in * by (done || apply tableIndexKey_isIndexKey).
  destruct (arrayAt _ st) as [l|]; simpl in *.
  - destruct (includes l j); simpl in *.
    + split; [done|]. by exists j, table.
    + by eapply wellFormed_addStep.
  - by eapply wellFormed_addStep.
Qed.

Lemma addRelationIndex_outcome (d s f : string) (v j : Scalar) (E : Error → Prop) :
  preserves wellFormed E (DataDriver.addRelationIndex d s f v j).
Proof.
  intros st Hst. pose proof (addRelationIndex_step d s f v j st) as Hstep.
  unfold DataDriver.addRelationIndex, bind, liftQ in *.
  rewrite wellFormed_readIndex in * by (done || apply relationIndexKey_isIndexKey).
  destruct (arrayAt _ st) as [l|]; simpl in *.
  - destruct (includes l j); simpl in *; by eapply wellFormed_addStep.
  - by eapply wellFormed_addStep.
Qed.

Section Classified.
Context (reg : ClassSpecificationRegistry.specifications).
Hypothesis Hreg : registryOk reg.

Lemma getSpecificationFor_registered (spec : ClassSpecification)
    (rp : RelationalProperty) :
  registered reg spec → rp ∈ relationalProperties spec →
  ∃ spec', ClassSpecificationRegistry.getSpecificationFor reg (class rp) = Ok spec'
           ∧ registered reg spec'.
Proof.
  intros [cls Hcls] Hrp. destruct (Hreg cls spec Hcls) as [_ Hclosed].
  destruct (Hclosed rp Hrp) as [spec' Hspec']. exists spec'.
  unfold ClassSpecificationRegistry.getSpecificationFor. rewrite Hspec'.
  split; [done | by exists (class rp)].
Qed.

Lemma getDataKey_registered (spec : ClassSpecification) (id : Scalar)
    (property : string) :
  registered reg spec → property ∈ nonRelationalProperties spec →
  DataDriver.getDataKey reg (tableName spec) id property =
  Ok (tableName spec +:+ ":" +:+ toString id +:+ ":" +:+ property +:+ ";").
Proof.
  intros [cls Hcls] Hp. destruct (Hreg cls spec Hcls) as [Htable _].
  unfold DataDriver.getDataKey, ClassSpecificationRegistry.getSpecificationByTableName.
  rewrite Htable. simpl. by rewrite bool_decide_eq_true_2.
Qed.

Lemma writeProperties_outcome (spec : ClassSpecification) (id : Scalar)
    (instance : Entity) (E : Error → Prop) :
  registered reg spec →
  preserves wellFormed E
    (forEach (nonRelationalProperties spec) (λ property,
       let! dataKey :=
         liftO (DataDriver.getDataKey reg (tableName spec) id property) in
       let dataToStore :=
         match getScalar instance property with
         | SUndefined => SNull
         | v => v
         end in
       LocalStorageDriver.write dataKey (VScalar dataToStore))).
Proof.
  intros Hspec. apply preserves_forEach. intros property Hp.
  rewrite (getDataKey_registered spec id property Hspec Hp).
  apply preserves_bind_liftO; [done|]. intros k [= <-].
  apply hoare_write. intros st Hst. apply wellFormed_writeData; [|done].
  eapply getDataKey_isDataKey. by apply getDataKey_registered.
Qed.

Lemma cascade_outcome (fuel : nat) :
  (∀ spec e, registered reg spec → 3 * nesting e ≤ fuel + 1 →
     preserves wellFormed isConstraintViolation (Repository.create fuel reg spec e)) ∧
  (∀ spec e, registered reg spec → 3 * nesting e ≤ fuel + 1 →
     preserves wellFormed isConstraintViolation (Repository.update fuel reg spec e)) ∧
  (∀ spec e, registered reg spec → 3 * nesting e ≤ fuel →
     preserves wellFormed isConstraintViolation
       (Repository.createOrUpdate fuel reg spec e)) ∧
  (∀ spec e id, registered reg spec → 3 * nesting e ≤ fuel + 2 →
     hoare wellFormed (Repository.handleRelationalProperties fuel reg spec e id)
       (λ e' st, nesting e' = nesting e ∧ wellFormed st)
       (λ err st, wellFormed st ∧ isConstraintViolation err)).
Proof.
  induction fuel as [|fuel (IHc & IHu & IHcu & IHh)].
  { split; [|split; [|split]]; intros; destruct e; simpl in *; lia. }
  split; [|split; [|split]].
  - intros spec e Hspec Hfuel. simpl.
    eapply hoare_bind; [apply IHh; [done | lia]|]. intros instance. simpl.
    apply (hoare_pre _ wellFormed); [by intros st [_ ?]|].
    apply preserves_bind; [apply addTableIndex_outcome|]. intros _.
    apply preserves_bind; [by apply writeProperties_outcome|]. intros _.
    apply preserves_ret.
  - intros spec e Hspec Hfuel. simpl.
    eapply hoare_bind; [apply IHh; [done | lia]|]. intros instance. simpl.
    apply (hoare_pre _ wellFormed); [by intros st [_ ?]|].
    by apply writeProperties_outcome.
  - intros spec e Hspec Hfuel. simpl.
    apply preserves_bind.
    { apply preserves_liftQ. intros st err Hst.
      by rewrite wellFormed_getTableIndex. }
    intros index. destruct (includes index _).
    + apply preserves_bind; [apply IHu; [done | lia]|]. intros _. apply preserves_ret.
    + apply IHc; [done | lia].
  - intros spec e id Hspec Hfuel. simpl.
    apply (hoare_pre _ (λ st, nesting e = nesting e ∧ wellFormed st)); [done|].
    apply (hoare_foldM (λ e' st, nesting e' = nesting e ∧ wellFormed st)).
    intros instance rp Hrp.
    destruct (getSpecificationFor_registered spec rp Hspec Hrp) as (spec' & Hget & Hspec').
    rewrite Hget. apply hoare_fact. intros Hnest.
    destruct (isCollection rp); simpl.
    + destruct (getField (manys instance) (name rp)) as [[|child children]|] eqn:Hmany;
        try by intros st HP.
      rewrite bind_liftO_Ok.
      apply (hoare_bind _ _ _
               (λ _ st, nesting instance = nesting e ∧ wellFormed st));
        [|by intros ? st HP].
      apply hoare_forEach. intros relatedData Hin.
      apply preserves_with_fact.
      apply preserves_bind; [|intros _; apply preserves_ret].
      apply IHcu; [done|]. rewrite nesting_assignScalar.
      pose proof (nesting_many instance relatedData _ _ Hmany Hin). lia.
    + rewrite bind_liftO_Ok.
      apply (hoare_bind _ _ _
               (λ assigned st, nesting (snd assigned) = nesting e ∧ wellFormed st)).
      * destruct (getField (ones instance) (name rp)) as [relatedData|] eqn:Hone;
          [|by intros st HP].
        rewrite bind_liftO_Ok.
        pose proof (nesting_one instance relatedData _ Hone) as Hlt.
        apply (hoare_bind _ _ _
                 (λ _ st, nesting instance = nesting e ∧ wellFormed st)).
        { apply preserves_with_fact. apply (IHcu spec' relatedData Hspec'). lia. }
        intros ? st [_ Hst]. unfold ret. cbv beta iota. split; [|done].
        destruct (negb (truthyScalar _)); cbn [snd]; [|done].
        by rewrite nesting_assignScalar.
      * intros assigned.
        apply (hoare_bind _ _ _
                 (λ _ st, nesting (snd assigned) = nesting e ∧ wellFormed st));
          [|by intros ? st HP].
        apply preserves_with_fact. apply addRelationIndex_outcome.
Qed.

End Classified.

Lemma registryOkb_correct (reg : ClassSpecificationRegistry.specifications) :
  registryOkb reg = true → registryOk reg.
Proof.
  intros Hb cls spec Hspec. unfold registryOkb in Hb.
  rewrite forallb_forall in Hb.
  unfold ClassSpecificationRegistry.lookup in Hspec.
  destruct (List.find _ reg) as [[k s]|] eqn:Hfind; [|done].
  injection Hspec as ->. apply List.find_some in Hfind as [Hin _].
  specialize (Hb _ Hin). simpl in Hb. apply andb_true_iff in Hb as [Ht Hr].
  split; [by apply bool_decide_eq_true in Ht|].
  intros rp Hrp. rewrite forallb_forall in Hr.
  apply list_elem_of_In in Hrp. specialize (Hr rp Hrp).
  by apply bool_decide_eq_true in Hr.
Qed.

(** *** The identifier index of a table holds an identifier *)

Lemma holds_addStep (k : string) (i j : Scalar) (st st' : gmap string Text) :
  EntityIdentifierType i → holds k i st → addStep j st st' → holds k i st'.
Proof.
  intros Hi (l & Hl & Hin) [->|(k' & l' & _ & _ & Hl' & ->)]; [by exists l|].
  unfold holds. rewrite arrayAt_insert.
  destruct (decide (k' = k)) as [->|_]; [|by exists l].
  eexists. split; [done|]. apply elem_of_map_jsonElement; [done|].
  apply elem_of_app. left. destruct Hl' as [Hl'|[Hl' _]]; congruence.
Qed.

Lemma holds_writeData (k k' : string) (i : Scalar) (t : Text) (st : gmap string Text) :
  isIndexKey k → isDataKey k' → holds k i st → holds k i (<[k' := t]> st).
Proof.
  intros Hk Hk' (l & Hl & Hin). exists l. rewrite arrayAt_insert.
  destruct (decide (k' = k)) as [->|_]; [|done].
  by destruct (dataKey_not_indexKey k).
Qed.

Lemma hoare_and {A} (P1 P2 : gmap string Text → Prop) (m : M A)
    (N1 N2 : A → gmap string Text → Prop) (X1 X2 : Error → gmap string Text → Prop) :
  hoare P1 m N1 X1 → hoare P2 m N2 X2 →
  hoare (λ st, P1 st ∧ P2 st) m (λ a st, N1 a st ∧ N2 a st) (λ e st, X1 e st ∧ X2 e st).
Proof.
  intros H1 H2 st [HP1 HP2]. specialize (H1 st HP1). specialize (H2 st HP2).
  destruct (m st) as [[a|e] st']; done.
Qed.

Lemma addTableIndex_holds (table : string) (i : Scalar) (st : gmap string Text) :
  EntityIdentifierType i →
  match DataDriver.addTableIndex table i st with
  | (Ok _, st') =>
      holds (LocalStorageDriver.keyPrefix +:+ DataDriver.getTableIndexKey table) i st'
  | (Throw _, _) => True
  end.
Proof.
  intros Hi. unfold DataDriver.addTableIndex, bind, liftQ.
  destruct (DataDriver.readIndex _ st) as [[l|]|e] eqn:Hread; simpl; [|..|done].
  - destruct (includes l i); simpl; [done|].
    unfold holds. rewrite arrayAt_insert, decide_True by done.
    eexists. split; [done|]. apply elem_of_map_jsonElement; [done|].
    apply elem_of_app. right. by left.
  - unfold holds. rewrite arrayAt_insert, decide_True by done.
    eexists. split; [done|]. simpl.
    rewrite (proj2 (jsonElement_identifier i i Hi) eq_refl). by left.
Qed.

Lemma addTableIndex_duplicate (table : string) (i : Scalar) (st : gmap string Text) :
  holds (LocalStorageDriver.keyPrefix +:+ DataDriver.getTableIndexKey table) i st →
  DataDriver.addTableIndex table i st = (Throw (IndexConstraintViolation i table), st).
Proof.
  intros (l & Hl & Hin). unfold DataDriver.addTableIndex, bind, liftQ.
  apply readIndex_Some in Hl. rewrite Hl.
  apply includes_true in Hin. by rewrite Hin.
Qed.

Section CreateTwice.
Context (reg : ClassSpecificationRegistry.specifications).

Lemma holds_writeProperties (k : string) (i : Scalar) (table : string) (id : Scalar)
    (properties : list string) (instance : Entity) :
  isIndexKey k →
  preserves (holds k i) (λ _, True)
    (forEach properties (λ property,
       let! dataKey := liftO (DataDriver.getDataKey reg table id property) in
       let dataToStore :=
         match getScalar instance property with
         | SUndefined => SNull
         | v => v
         end in
       LocalStorageDriver.write dataKey (VScalar dataToStore))).
Proof.
  intros Hk. apply writeProperties_preserves; [done|].
  intros table' id' column k' v Hk'. apply hoare_write. intros st Hst.
  apply holds_writeData; [done| |done].
  by eapply getDataKey_isDataKey.
Qed.

Lemma create_holds (fuel : nat) (spec : ClassSpecification) (e : Entity) :
  EntityIdentifierType (getScalar e (identifierProperty spec)) →
  hoare (λ _, True) (Repository.create fuel reg spec e)
    (λ _, holds (LocalStorageDriver.keyPrefix
                   +:+ DataDriver.getTableIndexKey (tableName spec))
            (getScalar e (identifierProperty spec)))
    (λ _ _, True).
Proof.
  intros Hi. destruct fuel as [|fuel]; [done|]. simpl.
  apply (hoare_bind _ _ _ (λ _ _, True)).
  { intros st _. by destruct (Repository.handleRelationalProperties _ _ _ _ _ st)
      as [[?|?] ?]. }
  intros instance.
  set (k := LocalStorageDriver.keyPrefix +:+ _).
  set (i := getScalar e _) in *.
  apply (hoare_bind _ _ _ (λ _, holds k i)).
  { intros st _. by apply addTableIndex_holds. }
  intros ?. apply (hoare_bind _ _ _ (λ _, holds k i)); [|by intros ? st Hst].
  eapply hoare_conseq;
    [apply holds_writeProperties, tableIndexKey_isIndexKey|done..].
Qed.

End CreateTwice.

Lemma nesting_positive (e : Entity) : 1 ≤ nesting e.
Proof. destruct e. simpl. lia. Qed.

Lemma create_again (reg : ClassSpecificationRegistry.specifications) (fuel : nat)
    (spec : ClassSpecification) (e : Entity) (st : gmap string Text) :
  registryOk reg → registered reg spec → wellFormed st →
  EntityIdentifierType (getScalar e (identifierProperty spec)) →
  holds (LocalStorageDriver.keyPrefix +:+ DataDriver.getTableIndexKey (tableName spec))
    (getScalar e (identifierProperty spec)) st →
  3 * nesting e ≤ fuel + 1 →
  ∃ j table,
    fst (Repository.create fuel reg spec e st) = Throw (IndexConstraintViolation j table).
Proof.
  intros Hreg Hspec Hwf Hi Hholds Hfuel.
  pose proof (nesting_positive e).
  destruct fuel as [|fuel]; [lia|]. simpl.
  set (k := LocalStorageDriver.keyPrefix +:+ _) in *.
  set (i := getScalar e _) in *.
  destruct (cascade_outcome reg Hreg fuel) as (_ & _ & _ & Hout).
  specialize (Hout spec e i Hspec ltac:(lia) st Hwf).
  destruct (createUpdate_preserves (holds k i) reg) with (fuel := fuel)
    as (_ & _ & _ & Hkeep).
  { intros j st0 st'. by apply holds_addStep. }
  { intros k' v st0 Hk'. apply holds_writeData; [|done].
    apply tableIndexKey_isIndexKey. }
  specialize (Hkeep spec e i st Hholds).
  unfold bind at 1.
  destruct (Repository.handleRelationalProperties fuel reg spec e i st)
    as [[instance|err] st'].
  - unfold bind at 1. rewrite addTableIndex_duplicate by done. simpl. eauto.
  - simpl. destruct Hout as [_ (j & table & ->)]. eauto.
Qed.

(** ** Worked example: the people and addresses of the README *)

Lemma readmeRegistry_registered :
  ClassSpecificationRegistry.register AddressSpecification [] = Ok [("Address", AddressSpecification)]
  ∧ ClassSpecificationRegistry.register PersonSpecification
      [("Address", AddressSpecification)] = Ok readmeRegistry.
Proof. split; reflexivity. Qed.

Lemma readmeRegistry_ok : registryOk readmeRegistry.
Proof. apply registryOkb_correct. reflexivity. Qed.

(** ** Uniqueness of identifiers *)

(** C4. For every table and identifier [i]: once [create] has stored an
    entity with identifier [i], a second [create] of an entity with the same
    identifier throws an index constraint violation; and after any sequence
    of creates, updates and deletes the identifier index of every table holds
    [i] at most once. The registry is the one a complete configuration
    builds ([registryOk]), index keys hold arrays ([wellFormed], true of the
    empty storage and kept by every operation), identifiers are strings or
    numbers, and the fuel covers the nesting of the second instance. *)
Theorem create_rejects_duplicate_and_index_stays_unique
    (reg : ClassSpecificationRegistry.specifications) (spec : ClassSpecification)
    (i : Scalar) :
  EntityIdentifierType i →
  (∀ fuel1 fuel2 e1 e2 st st1 r,
     registryOk reg → registered reg spec → wellFormed st →
     getScalar e1 (identifierProperty spec) = i →
     getScalar e2 (identifierProperty spec) = i →
     3 * nesting e2 ≤ fuel2 + 1 →
     Repository.create fuel1 reg spec e1 st = (Ok r, st1) →
     ∃ j table,
       fst (Repository.create fuel2 reg spec e2 st1)
       = Throw (IndexConstraintViolation j table))
  ∧
  (∀ fuel ops st table,
     wellFormed st → atMostOnce i st →
     ∃ index,
       DataDriver.getTableIndex table (performAll fuel reg ops st) = Ok index
       ∧ occurrences i index ≤ 1).
Proof.
  intros Hi. split.
  - intros fuel1 fuel2 e1 e2 st st1 r Hreg Hspec Hwf He1 He2 Hfuel Hcreate.
    subst i. apply create_again; try done.
    + destruct (createUpdate_preserves wellFormed reg) with (fuel := fuel1)
        as (Hc & _).
      { apply wellFormed_addStep. }
      { intros k v st0 Hk. by apply wellFormed_writeData. }
      specialize (Hc spec e1 st Hwf). by rewrite Hcreate in Hc.
    + by rewrite He2.
    + rewrite He2.
      pose proof (create_holds reg fuel1 spec e1 Hi st ltac:(done)) as H.
      by rewrite Hcreate in H.
  - intros fuel ops st table Hwf Honce.
    pose proof (performAll_wellFormed fuel reg ops st Hwf) as Hwf'.
    pose proof (performAll_atMostOnce fuel reg ops i st Hi Honce) as Honce'.
    rewrite wellFormed_getTableIndex by done. eexists. split; [done|].
    destruct (arrayAt _ _) as [l|] eqn:Hl; simpl; [by eapply Honce'|].
    unfold occurrences. simpl. lia.
Qed.

Lemma create_rejects_duplicate_and_index_stays_unique_witness :
  (∃ j table,
     fst (Repository.create 4 readmeRegistry PersonSpecification person1
            (after (Repository.create 4 readmeRegistry PersonSpecification person1) ∅))
     = Throw (IndexConstraintViolation j table))
  ∧
  (∃ index,
     DataDriver.getTableIndex "person"
       (performAll 4 readmeRegistry
          [Create "Person" person1; Create "Person" person1;
           Delete "Person" person1; Create "Person" person1] ∅) = Ok index
     ∧ occurrences (SStr "1") index ≤ 1).
Proof.
  destruct (create_rejects_duplicate_and_index_stays_unique
              readmeRegistry PersonSpecification (SStr "1") I) as [H1 H2].
  split.
  - apply (H1 4 4 person1 person1 ∅ _ (SStr "1")).
    + exact readmeRegistry_ok.
    + by exists "Person".
    + exact wellFormed_empty.
    + reflexivity.
    + reflexivity.
    + vm_compute. lia.
    + vm_compute. reflexivity.
  - apply H2; [exact wellFormed_empty | exact (atMostOnce_empty _)].
Defined.

(** ** Storage keys *)

(** C6. The key of a table's identifier index, the key of a relation index
    and the key of a scalar are the literal patterns of the key namespace;
    [getDataKey] gives its key for every known column of a registered
    table. *)
Theorem storage_keys_follow_the_literal_patterns
    (reg : ClassSpecificationRegistry.specifications)
    (table sourceTable destTable fkField field : string) (id fkValue : Scalar) :
  DataDriver.getTableIndexKey table = "::index-of::" +:+ table +:+ "-identifiers::"
  ∧ DataDriver.getRelationIndexKey destTable sourceTable fkField fkValue
    = "::index-of::" +:+ sourceTable +:+ "-identifiers::which-has-one::" +:+ destTable
        +:+ "::as::" +:+ fkField +:+ "::with-identifier::" +:+ toString fkValue +:+ "::"
  ∧ (∀ spec,
       ClassSpecificationRegistry.findByTable reg table = Some spec →
       field ∈ nonRelationalProperties spec →
       DataDriver.getDataKey reg table id field
       = Ok (table +:+ ":" +:+ toString id +:+ ":" +:+ field +:+ ";"))
  ∧ (∀ k, DataDriver.getDataKey reg table id field = Ok k →
          k = table +:+ ":" +:+ toString id +:+ ":" +:+ field +:+ ";").
Proof.
  split; [apply tableIndexKey_pattern|].
  split; [apply relationIndexKey_pattern|].
  split; [|apply getDataKey_Ok].
  intros spec Hspec Hfield.
  unfold DataDriver.getDataKey, ClassSpecificationRegistry.getSpecificationByTableName.
  rewrite Hspec. simpl. by rewrite bool_decide_eq_true_2.
Qed.

Lemma storage_keys_follow_the_literal_patterns_witness :
  DataDriver.getTableIndexKey "address" = "::index-of::address-identifiers::"
  ∧ DataDriver.getRelationIndexKey "person" "address" "personId" (SNum 12)
    = "::index-of::address-identifiers::which-has-one::person::as::personId::with-identifier::12::"
  ∧ DataDriver.getDataKey readmeRegistry "address" (SStr "3") "street"
    = Ok "address:3:street;".
Proof.
  destruct (storage_keys_follow_the_literal_patterns readmeRegistry
              "address" "address" "person" "personId" "street" (SStr "3") (SNum 12))
    as (H1 & H2 & H3 & _).
  split; [exact H1|]. split; [exact H2|].
  apply (H3 AddressSpecification); [reflexivity|].
  repeat constructor.
Defined.

(** ** Conditional queries *)

(** Whatever the conditions, the unawaited [filter] keeps every identifier. *)
Lemma filterAsync_keeps_all (reg : ClassSpecificationRegistry.specifications)
    (this : ConditionalQueryable.t) (indexes : list Scalar) (st : gmap string Text) :
  ConditionalQueryable.filterAsync reg this indexes st = Ok indexes.
Proof.
  unfold ConditionalQueryable.filterAsync. f_equal.
  induction indexes as [|x l IH]; simpl; [done | by rewrite IH].
Qed.

(** [getAll] of a conditional query is [getAll] of the query it was built
    from. *)
Lemma getAll_ignores_conditions (reg : ClassSpecificationRegistry.specifications)
    (this : ConditionalQueryable.t) (st : gmap string Text) :
  ConditionalQueryable.classSpecification this
  = Queryable.rootClassSpecification (ConditionalQueryable.sourceQueryable this) →
  ConditionalQueryable.getAll reg this st
  = Queryable.getAll reg (ConditionalQueryable.sourceQueryable this) st.
Proof.
  intros Hspec. unfold ConditionalQueryable.getAll, Queryable.getAll, bindQ.
  rewrite Hspec. destruct (DataDriver.getTableIndex _ st) as [indexes|]; [|done].
  by rewrite filterAsync_keeps_all.
Qed.

(** C1. On a table whose single row has age 30, [where("age", x => x > 40)]
    followed by [getAll()] returns that row, although the predicate is false
    of it; [any()] and [first()], which await the check, find no row. *)
Theorem where_getAll_returns_a_row_failing_the_predicate :
  ∃ query,
    Queryable_where people "age" (olderThan 40) = Ok query
    ∧ ConditionalQueryable._checkConditionByIndex readmeRegistry query (SStr "1") onePerson
      = Ok false
    ∧ ConditionalQueryable.getAll readmeRegistry query onePerson = Ok [john]
    ∧ ConditionalQueryable.any readmeRegistry query onePerson = Ok false
    ∧ ConditionalQueryable.first readmeRegistry query onePerson = Ok None.
Proof. eexists. repeat split; vm_compute; reflexivity. Qed.

(** C3. With two rows of which exactly one passes the condition, [single()]
    throws "more than one record"; with one row that fails the condition it
    returns that row instead of throwing "no record". *)
Theorem single_counts_rows_not_passing_rows :
  ∃ query,
    Queryable_where people "age" (olderThan 26) = Ok query
    ∧ ConditionalQueryable._checkConditionByIndex readmeRegistry query (SStr "1") twoPeople
      = Ok true
    ∧ ConditionalQueryable._checkConditionByIndex readmeRegistry query (SStr "2") twoPeople
      = Ok false
    ∧ ConditionalQueryable.single readmeRegistry query twoPeople = Throw MoreThanOneRecord
    ∧ ∃ query',
        Queryable_where people "age" (olderThan 40) = Ok query'
        ∧ ConditionalQueryable.single readmeRegistry query' onePerson = Ok john.
Proof.
  eexists. repeat split; try (vm_compute; reflexivity).
  eexists. split; vm_compute; reflexivity.
Qed.

(** ** Round trip through the storage *)

(** C2. [create] of a task whose [done] is [false], [priority] is [0] and
    [title] is the empty string succeeds and stores the empty text under the
    three keys; [getById] then returns an object on which the three fields
    are [undefined], while the truthy fields come back as they were. *)
Theorem create_getById_loses_falsy_scalars :
  let st := after (Repository.create 4 taskRegistry TaskSpecification task1) ∅ in
  fst (Repository.create 4 taskRegistry TaskSpecification task1 ∅) = Ok (SNum 1)
  ∧ st !! "indexorm::task:1:done;" = Some Empty
  ∧ st !! "indexorm::task:1:priority;" = Some Empty
  ∧ st !! "indexorm::task:1:title;" = Some Empty
  ∧ ∃ fetched,
      Queryable.getById taskRegistry tasks (SNum 1) st = Ok fetched
      ∧ ShadowFactory.get fetched "id" = Ok (Some (LValue (VScalar (SNum 1))))
      ∧ ShadowFactory.get fetched "owner" = Ok (Some (LValue (VScalar (SStr "ann"))))
      ∧ ShadowFactory.get fetched "done" = Ok None
      ∧ ShadowFactory.get fetched "priority" = Ok None
      ∧ ShadowFactory.get fetched "title" = Ok None.
Proof.
  repeat split; try (vm_compute; reflexivity).
  eexists. repeat split; vm_compute; reflexivity.
Qed.

(** ** Fetching by identifiers *)

Lemma mapQ_Ok {A B} (l : list A) (body : A → Q B) (st : gmap string Text)
    (results : list B) :
  Forall2 (λ x r, body x st = Ok r) l results → mapQ l body st = Ok results.
Proof.
  induction 1 as [|x r l rs Hx _ IH]; [done|].
  simpl. unfold bindQ. rewrite Hx. unfold bindQ in IH. by rewrite IH.
Qed.

Lemma existsb_missing (index ids : list Scalar) :
  existsb (λ id, negb (includes index id)) ids = true ↔ ∃ id, id ∈ ids ∧ id ∉ index.
Proof.
  rewrite existsb_exists. split.
  - intros (id & Hin & Hmiss). exists id. apply list_elem_of_In in Hin.
    apply negb_true_iff, includes_false in Hmiss. done.
  - intros (id & Hin & Hmiss). exists id. apply list_elem_of_In in Hin.
    split; [done|]. by apply negb_true_iff, includes_false.
Qed.

(** ** The guarded view *)

Lemma attachIncludesAndGet_unfold (fuel : nat)
    (reg : ClassSpecificationRegistry.specifications) (data : list (string * Loaded))
    (classSpecification : ClassSpecification) (includeContext : IncludeMap) :
  Queryable.attachIncludesAndGet (S fuel) reg data classSpecification includeContext
  = foldQ (entries includeContext)
      (ShadowFactory.for_ data (map name (relationalProperties classSpecification)))
      (attachStep fuel reg classSpecification).
Proof. reflexivity. Qed.

Lemma relationNamed_Some (spec : ClassSpecification) (r : string)
    (rp : RelationalProperty) :
  relationNamed spec r = Some rp → name rp = r ∧ r ∈ map name (relationalProperties spec).
Proof.
  intros [Hin Heq]%List.find_some. apply String.eqb_eq in Heq. split; [done|].
  apply list_elem_of_fmap. exists rp. split; [done | by apply list_elem_of_In].
Qed.




Lemma getField_setField {A} (fields : list (string * A)) (k r : string) (v : A) :
  getField (setField fields k v) r = if decide (k = r) then Some v else getField fields r.
Proof.
  unfold getField. induction fields as [|[k' x] rest IH]; simpl.
  - destruct (decide (k = r)) as [->|Hne].
    + by rewrite String.eqb_refl.
    + apply String.eqb_neq in Hne. by rewrite Hne.
  - destruct (String.eqb k' k) eqn:Hk; simpl.
    + apply String.eqb_eq in Hk as ->.
      destruct (decide (k = r)) as [->|Hne].
      * by rewrite String.eqb_refl.
      * apply String.eqb_neq in Hne. by rewrite Hne.
    + destruct (String.eqb k' r) eqn:Hr; [|done].
      apply String.eqb_eq in Hr as ->. apply String.eqb_neq in Hk.
      by rewrite decide_False by congruence.
Qed.


Lemma excluded_set (s : Shadow) (k r : string) (v : Loaded) :
  r ∈ excludedNavigationalProperties (ShadowFactory.set s k v)
  ↔ r ∈ excludedNavigationalProperties s ∧ r ≠ k.
Proof.
  unfold ShadowFactory.set. simpl. case_bool_decide as Hk.
  - by rewrite elem_of_difference, elem_of_singleton.
  - split; [|tauto]. intros Hr. split; [done|]. by intros ->.
Qed.


Lemma get_not_excluded (s : Shadow) (r : string) :
  r ∉ excludedNavigationalProperties s →
  ShadowFactory.get s r = Ok (getField (source s) r).
Proof. intros H. unfold ShadowFactory.get. by rewrite bool_decide_eq_false_2. Qed.

Lemma get_set (s : Shadow) (r : string) (v : Loaded) :
  ShadowFactory.get (ShadowFactory.set s r v) r = Ok (Some v).
Proof.
  rewrite get_not_excluded.
  - simpl. by rewrite getField_setField, decide_True.
  - rewrite excluded_set. tauto.
Qed.


Section GuardedView.
Context (fuel : nat) (reg : ClassSpecificationRegistry.specifications).
Context (data : list (string * Loaded)) (spec : ClassSpecification).
Context (includeContext : IncludeMap) (st : gmap string Text) (view : Shadow).
Hypothesis Hattach :
  Queryable.attachIncludesAndGet fuel reg data spec includeContext st = Ok view.

Let relations : list string := map name (relationalProperties spec).





End GuardedView.


(** ** Delete *)

Lemma delete_unfold (reg : ClassSpecificationRegistry.specifications)
    (spec : ClassSpecification) (instance : Entity) :
  Repository.delete reg spec instance
  = let! index := liftQ (DataDriver.getTableIndex (tableName spec)) in
    if negb (includes index (getScalar instance (identifierProperty spec))) then ret ()
    else
      do! DataDriver.removeTableIndex (tableName spec)
            (getScalar instance (identifierProperty spec)) in
      do! forEach (nonRelationalProperties spec) (deleteProperty reg spec instance) in
      forEach (relationalProperties spec) (deleteRelation reg spec instance).
Proof. reflexivity. Qed.

Lemma stable_and (I J : gmap string Text → Prop) :
  stable I → stable J → stable (λ st, I st ∧ J st).
Proof.
  intros [HI1 HI2] [HJ1 HJ2]. split.
  - intros j st st' [? ?] Hstep. split; eauto.
  - intros k st [? ?]. split; eauto.
Qed.

Lemma stable_wellFormed : stable wellFormed.
Proof. split; [apply wellFormed_removeStep | intros k st; apply wellFormed_delete]. Qed.

Lemma stable_absent (k : string) (i : Scalar) :
  EntityIdentifierType i → stable (absent k i).
Proof.
  intros Hi. unfold absent. split.
  - intros j st st' Hst [->|(k' & l & _ & Hl & ->)]; [done|].
    rewrite arrayAt_insert. destruct (decide (k' = k)) as [->|_]; [|done].
    simpl. rewrite Hl in Hst. simpl in Hst.
    rewrite elem_of_map_jsonElement, elem_of_without by done. tauto.
  - intros k' st Hst. rewrite arrayAt_delete.
    destruct (decide (k' = k)); [apply not_elem_of_nil | done].
Qed.

Lemma stable_gone (k : string) : stable (λ st, arrayAt k st = None).
Proof.
  split.
  - intros j st st' Hst [->|(k' & l & _ & Hl & ->)]; [done|].
    rewrite arrayAt_insert. destruct (decide (k' = k)) as [->|_]; [|done].
    congruence.
  - intros k' st Hst. rewrite arrayAt_delete. by destruct (decide (k' = k)).
Qed.

(** The text under a raw key is left as it is. *)
Lemma stable_untouched_by_removeStep (k : string) (t : option Text) (j : Scalar)
    (st st' : gmap string Text) :
  st !! k = t → removeStep j st st' →
  st' !! k = t ∨ ∃ l, arrayAt k st = Some l
                      ∧ st' = <[k := Json (VArray (map jsonElement (without j l)))]> st.
Proof.
  intros Hst [->|(k' & l & _ & Hl & ->)]; [by left|].
  destruct (decide (k' = k)) as [->|Hne]; [right; eauto|].
  left. by rewrite lookup_insert_ne.
Qed.

(** Under a well-formed storage the two removals of one identifier from an
    index are total and do exactly this. *)
Lemma removeIndex_effect (key : string) (j : Scalar) (st : gmap string Text) :
  wellFormed st → isIndexKey (LocalStorageDriver.keyPrefix +:+ key) →
  (let! index := liftQ (DataDriver.readIndex key) in
   match index with
   | None => ret ()
   | Some index => LocalStorageDriver.write key (VArray (without j index))
   end) st
  = (Ok (),
     match arrayAt (LocalStorageDriver.keyPrefix +:+ key) st with
     | Some l =>
         <[LocalStorageDriver.keyPrefix +:+ key :=
             Json (VArray (map jsonElement (without j l)))]> st
     | None => st
     end).
Proof.
  intros Hwf Hkey. unfold bind, liftQ. rewrite wellFormed_readIndex by done.
  by destruct (arrayAt _ st).
Qed.

Lemma removeIndex_absent (key : string) (i : Scalar) (st : gmap string Text) :
  EntityIdentifierType i →
  absent (LocalStorageDriver.keyPrefix +:+ key) i
    match arrayAt (LocalStorageDriver.keyPrefix +:+ key) st with
    | Some l =>
        <[LocalStorageDriver.keyPrefix +:+ key :=
            Json (VArray (map jsonElement (without i l)))]> st
    | None => st
    end.
Proof.
  intros Hi. unfold absent. destruct (arrayAt _ st) as [l|] eqn:Hl.
  - rewrite arrayAt_insert, decide_True by done. simpl.
    rewrite elem_of_map_jsonElement, elem_of_without by done. tauto.
  - rewrite Hl. apply not_elem_of_nil.
Qed.

Lemma hoare_forEach_reaches {A} (G I : gmap string Text → Prop) (l : list A) (x0 : A)
    (body : A → M ()) (X : Error → gmap string Text → Prop) :
  x0 ∈ l →
  (∀ x, x ∈ l → hoare G (body x) (λ _, G) X) →
  hoare G (body x0) (λ _ st, G st ∧ I st) X →
  (∀ x, x ∈ l →
     hoare (λ st, G st ∧ I st) (body x) (λ _ st, G st ∧ I st) X) →
  hoare G (forEach l body) (λ _ st, G st ∧ I st) X.
Proof.
  intros Hx0 HG Hest Hkeep.
  induction l as [|x l IH]; [by apply elem_of_nil in Hx0|].
  simpl. apply elem_of_cons in Hx0 as [<-|Hx0].
  - eapply hoare_bind; [apply Hest|]. intros ?.
    apply hoare_forEach. intros y Hy. apply Hkeep. by right.
  - eapply hoare_bind; [apply HG; left|]. intros ?.
    apply IH; [done|..].
    + intros y Hy. apply HG. by right.
    + intros y Hy. apply Hkeep. by right.
Qed.

Section DeleteAnalysis.
Context (reg : ClassSpecificationRegistry.specifications) (Hreg : registryOk reg).
Context (spec : ClassSpecification) (Hspec : registered reg spec).
Context (instance : Entity).

Let identifierValue : Scalar := getScalar instance (identifierProperty spec).

Lemma stable_relationCleared (relatedSpec : ClassSpecification)
    (rp : RelationalProperty) :
  EntityIdentifierType identifierValue →
  stable (relationCleared spec instance relatedSpec rp).
Proof.
  intros Hi. unfold relationCleared.
  destruct (isCollection rp); [apply stable_gone | by apply stable_absent].
Qed.

Lemma deleteProperty_keeps (I : gmap string Text → Prop) (property : string) :
  stable I → property ∈ nonRelationalProperties spec →
  hoare I (deleteProperty reg spec instance property) (λ _, I) (λ _ _, False).
Proof.
  intros [_ HI] Hp. unfold deleteProperty.
  rewrite (getDataKey_registered reg Hreg spec _ property Hspec Hp), bind_liftO_Ok.
  apply hoare_remove. intros st. apply HI.
Qed.

Lemma deleteRelation_establishes (I : gmap string Text → Prop)
    (rp : RelationalProperty) (relatedSpec : ClassSpecification) :
  stable I → (∀ st, I st → wellFormed st) →
  EntityIdentifierType identifierValue →
  ClassSpecificationRegistry.getSpecificationFor reg (class rp) = Ok relatedSpec →
  hoare I (deleteRelation reg spec instance rp)
    (λ _ st, I st ∧ relationCleared spec instance relatedSpec rp st) (λ _ _, False).
Proof.
  intros [HI1 HI2] Hwf Hi Hget. unfold deleteRelation, relationCleared.
  rewrite Hget, bind_liftO_Ok. fold identifierValue.
  destruct (isCollection rp); simpl.
  - apply hoare_remove. intros st HI. split; [by apply HI2|].
    by rewrite arrayAt_delete, decide_True.
  - intros st HI. unfold DataDriver.removeRelationIndex.
    rewrite removeIndex_effect by (auto || apply relationIndexKey_isIndexKey).
    split; [|by apply removeIndex_absent].
    pose proof (removeRelationIndex_step (tableName relatedSpec) (tableName spec)
      (correspondingIdentifierProperty rp)
      (getScalar instance (correspondingIdentifierProperty rp)) identifierValue st)
      as Hstep.
    unfold DataDriver.removeRelationIndex in Hstep.
    rewrite removeIndex_effect in Hstep
      by (auto || apply relationIndexKey_isIndexKey).
    eapply HI1; [exact HI | exact Hstep].
Qed.

Lemma deleteRelation_keeps (I : gmap string Text → Prop) (rp : RelationalProperty) :
  stable I → (∀ st, I st → wellFormed st) →
  EntityIdentifierType identifierValue →
  rp ∈ relationalProperties spec →
  hoare I (deleteRelation reg spec instance rp) (λ _, I) (λ _ _, False).
Proof.
  intros HI Hwf Hi Hrp.
  destruct (getSpecificationFor_registered reg Hreg spec rp Hspec Hrp)
    as (relatedSpec & Hget & _).
  eapply hoare_conseq;
    [by apply (deleteRelation_establishes I rp relatedSpec)|done|..].
  - by intros ? st [? _].
  - done.
Qed.

End DeleteAnalysis.

Section DeleteEffect.
Context (reg : ClassSpecificationRegistry.specifications) (Hreg : registryOk reg).
Context (spec : ClassSpecification) (Hspec : registered reg spec).
Context (instance : Entity).
Hypothesis Hid : EntityIdentifierType (getScalar instance (identifierProperty spec)).

Let identifierValue : Scalar := getScalar instance (identifierProperty spec).
Let tableKey : string :=
  LocalStorageDriver.keyPrefix +:+ DataDriver.getTableIndexKey (tableName spec).

(** What [delete] runs once it has found the identifier in the index. *)
Let removal : M () :=
  do! DataDriver.removeTableIndex (tableName spec) identifierValue in
  do! forEach (nonRelationalProperties spec) (deleteProperty reg spec instance) in
  forEach (relationalProperties spec) (deleteRelation reg spec instance).

Let kept (st : gmap string Text) : Prop :=
  wellFormed st ∧ absent tableKey identifierValue st.

Lemma stable_kept : stable kept.
Proof. apply stable_and; [apply stable_wellFormed | by apply stable_absent]. Qed.

Lemma removeTableIndex_kept :
  hoare wellFormed (DataDriver.removeTableIndex (tableName spec) identifierValue)
    (λ _, kept) (λ _ _, False).
Proof.
  intros st Hwf.
  pose proof (removeTableIndex_step (tableName spec) identifierValue st) as Hstep.
  unfold DataDriver.removeTableIndex in *.
  rewrite removeIndex_effect in * by (done || apply tableIndexKey_isIndexKey).
  split; [by eapply wellFormed_removeStep | by apply removeIndex_absent].
Qed.

Lemma deleteProperties_kept :
  hoare kept (forEach (nonRelationalProperties spec) (deleteProperty reg spec instance))
    (λ _, kept) (λ _ _, False).
Proof.
  apply hoare_forEach. intros property Hp.
  apply deleteProperty_keeps; [done..|apply stable_kept|done].
Qed.

Lemma removal_kept : hoare wellFormed removal (λ _, kept) (λ _ _, False).
Proof.
  unfold removal.
  eapply hoare_bind; [apply removeTableIndex_kept|]. intros ?.
  eapply hoare_bind; [apply deleteProperties_kept|]. intros ?.
  apply hoare_forEach. intros rp Hrp.
  apply deleteRelation_keeps; [done..|apply stable_kept|by intros st [? _]|done|done].
Qed.

Lemma removal_clears (rp : RelationalProperty) (relatedSpec : ClassSpecification) :
  rp ∈ relationalProperties spec →
  ClassSpecificationRegistry.getSpecificationFor reg (class rp) = Ok relatedSpec →
  hoare wellFormed removal
    (λ _ st, kept st ∧ relationCleared spec instance relatedSpec rp st) (λ _ _, False).
Proof.
  intros Hrp Hget. unfold removal.
  eapply hoare_bind; [apply removeTableIndex_kept|]. intros ?.
  eapply hoare_bind; [apply deleteProperties_kept|]. intros ?.
  apply (hoare_forEach_reaches _ _ _ rp); [done|..].
  - intros x Hx.
    apply deleteRelation_keeps; [done..|apply stable_kept|by intros st [? _]|done|done].
  - apply deleteRelation_establishes; [done..|apply stable_kept|by intros st [? _]|done|done].
  - intros x Hx. apply deleteRelation_keeps; [done| done| | |done|done].
    + apply stable_and; [apply stable_kept | by apply stable_relationCleared].
    + by intros st [[? _] _].
Qed.

Lemma delete_present (st : gmap string Text) (index : list Scalar) :
  wellFormed st →
  DataDriver.getTableIndex (tableName spec) st = Ok index →
  identifierValue ∈ index →
  ∃ st',
    Repository.delete reg spec instance st = (Ok (), st')
    ∧ wellFormed st'
    ∧ absent tableKey identifierValue st'
    ∧ ∀ rp relatedSpec,
        rp ∈ relationalProperties spec →
        ClassSpecificationRegistry.getSpecificationFor reg (class rp) = Ok relatedSpec →
        relationCleared spec instance relatedSpec rp st'.
Proof.
  intros Hwf Hindex Hin.
  assert (Repository.delete reg spec instance st = removal st) as Heq.
  { rewrite delete_unfold. unfold bind at 1, liftQ. rewrite Hindex.
    apply includes_true in Hin. fold identifierValue. by rewrite Hin. }
  pose proof (removal_kept st Hwf) as Hkept.
  destruct (removal st) as [[[]|e] st'] eqn:Hrun; [|done].
  exists st'. split; [done|]. destruct Hkept as [Hwf' Habsent].
  split; [done|]. split; [done|].
  intros rp relatedSpec Hrp Hget.
  pose proof (removal_clears rp relatedSpec Hrp Hget st Hwf) as Hclears.
  rewrite Hrun in Hclears. tauto.
Qed.

End DeleteEffect.

Lemma delete_absent (reg : ClassSpecificationRegistry.specifications)
    (spec : ClassSpecification) (instance : Entity) (st : gmap string Text)
    (index : list Scalar) :
  DataDriver.getTableIndex (tableName spec) st = Ok index →
  getScalar instance (identifierProperty spec) ∉ index →
  Repository.delete reg spec instance st = (Ok (), st).
Proof.
  intros Hindex Hnot. rewrite delete_unfold. unfold bind at 1, liftQ.
  rewrite Hindex. apply includes_false in Hnot. by rewrite Hnot.
Qed.

Lemma fuelFor_positive (m : IncludeMap) : ∃ n, Queryable.fuelFor m = S n.
Proof. destruct m. unfold Queryable.fuelFor. simpl. eauto. Qed.

Lemma getById_not_found (reg : ClassSpecificationRegistry.specifications)
    (q : Queryable.t) (id : Scalar) (st : gmap string Text) (index : list Scalar) :
  DataDriver.getTableIndex (tableName (Queryable.rootClassSpecification q)) st = Ok index →
  id ∉ index →
  Queryable.getById reg q id st
  = Throw (NoDataFound id (tableName (Queryable.rootClassSpecification q))).
Proof.
  intros Hindex Hnot. unfold Queryable.getById.
  destruct (fuelFor_positive (Queryable.includeMap q)) as [n ->]. simpl.
  unfold bindQ. rewrite Hindex. apply includes_false in Hnot. by rewrite Hnot.
Qed.

Lemma wellFormed_getRelationIndex (d s f : string) (v : Scalar) (st : gmap string Text) :
  wellFormed st →
  DataDriver.getRelationIndex d s f v st
  = Ok (arrayAt (LocalStorageDriver.keyPrefix
                   +:+ DataDriver.getRelationIndexKey d s f v) st).
Proof.
  intros Hwf. unfold DataDriver.getRelationIndex.
  apply wellFormed_readIndex; [done | apply relationIndexKey_isIndexKey].
Qed.

(** An address created for person 1 and then updated to person 2 is in the
    buckets of both; deleting it, as it is stored, removes it from the bucket
    of person 2 only. *)
Lemma delete_leaves_the_identifier_in_an_earlier_bucket :
  let created :=
    after (Repository.create 4 readmeRegistry AddressSpecification address1) twoPeople in
  let updated :=
    after (Repository.update 4 readmeRegistry AddressSpecification addressMoved) created in
  let deleted :=
    after (Repository.delete readmeRegistry AddressSpecification addressMoved) updated in
  DataDriver.getRelationIndex "person" "address" "personId" (SStr "1") updated
  = Ok (Some [SStr "1"])
  ∧ DataDriver.getRelationIndex "person" "address" "personId" (SStr "2") updated
    = Ok (Some [SStr "1"])
  ∧ fst (Repository.delete readmeRegistry AddressSpecification addressMoved updated)
    = Ok ()
  ∧ DataDriver.getTableIndex "address" deleted = Ok []
  ∧ DataDriver.getRelationIndex "person" "address" "personId" (SStr "2") deleted
    = Ok (Some [])
  ∧ DataDriver.getRelationIndex "person" "address" "personId" (SStr "1") deleted
    = Ok (Some [SStr "1"]).
Proof. repeat split; vm_compute; reflexivity. Qed.

Lemma twoPeople_wellFormed : wellFormed twoPeople.
Proof.
  replace twoPeople with
    (performAll 4 readmeRegistry [Create "Person" person1; Create "Person" person2] ∅)
    by (vm_compute; reflexivity).
  apply performAll_wellFormed, wellFormed_empty.
Qed.

(** ** What delete reads and writes *)

Section ReadsIndexesOnly.










End ReadsIndexesOnly.

Lemma untouched_write (key key' : string) (t : option Text) (v : Value) :
  key' ≠ key →
  preserves (untouched key t) (λ _, True) (LocalStorageDriver.write key' v).
Proof.
  intros Hne. apply hoare_write. intros st Hst. unfold untouched.
  rewrite lookup_insert_ne; [done|]. intros Heq. by apply (inj _) in Heq.
Qed.


(** ** Update *)

Lemma getTableIndex_ext (table : string) (st1 st2 : gmap string Text) :
  st1 !! (LocalStorageDriver.keyPrefix +:+ DataDriver.getTableIndexKey table)
  = st2 !! (LocalStorageDriver.keyPrefix +:+ DataDriver.getTableIndexKey table) →
  DataDriver.getTableIndex table st1 = DataDriver.getTableIndex table st2.
Proof.
  intros H. unfold DataDriver.getTableIndex, DataDriver.readIndex,
    LocalStorageDriver.read. by rewrite H.
Qed.

Lemma getDataKey_not_indexKey (reg : ClassSpecificationRegistry.specifications)
    (table : string) (id : Scalar) (column k key : string) :
  DataDriver.getDataKey reg table id column = Ok k →
  isIndexKey (LocalStorageDriver.keyPrefix +:+ key) → k ≠ key.
Proof.
  intros Hk Hkey ->. apply getDataKey_isDataKey in Hk.
  by eapply dataKey_not_indexKey.
Qed.

Lemma getDataKey_inj (reg : ClassSpecificationRegistry.specifications)
    (table : string) (id : Scalar) (p p' k : string) :
  DataDriver.getDataKey reg table id p = Ok k →
  DataDriver.getDataKey reg table id p' = Ok k → p = p'.
Proof.
  intros ->%getDataKey_Ok H%getDataKey_Ok.
  do 4 apply (inj (String.app _)) in H. symmetry. by eapply append_inv_tail.
Qed.

Lemma writeProperties_untouched (reg : ClassSpecificationRegistry.specifications)
    (table : string) (id : Scalar) (properties : list string) (instance : Entity)
    (key : string) (t : option Text) :
  isIndexKey (LocalStorageDriver.keyPrefix +:+ key) →
  preserves (untouched key t) (λ _, True)
    (forEach properties (λ property,
       let! dataKey := liftO (DataDriver.getDataKey reg table id property) in
       let dataToStore :=
         match getScalar instance property with
         | SUndefined => SNull
         | v => v
         end in
       LocalStorageDriver.write dataKey (VScalar dataToStore))).
Proof.
  intros Hkey. apply writeProperties_preserves; [done|].
  intros table' id' column k v Hk. apply untouched_write.
  by eapply getDataKey_not_indexKey.
Qed.

(** Every scalar key holds the value of the instance once the loop of writes
    has returned. *)
Lemma writeProperties_written (reg : ClassSpecificationRegistry.specifications)
    (table : string) (id : Scalar) (properties : list string) (instance : Entity)
    (st st' : gmap string Text) (property : string) :
  forEach properties (λ property,
    let! dataKey := liftO (DataDriver.getDataKey reg table id property) in
    let dataToStore :=
      match getScalar instance property with
      | SUndefined => SNull
      | v => v
      end in
    LocalStorageDriver.write dataKey (VScalar dataToStore)) st = (Ok (), st') →
  property ∈ properties →
  ∃ k, DataDriver.getDataKey reg table id property = Ok k
       ∧ st' !! (LocalStorageDriver.keyPrefix +:+ k)
         = Some (textOf (normalized (getScalar instance property))).
Proof.
  intros Hrun Hin.
  set (body := λ property : string, bind _ _) in Hrun.
  destruct (DataDriver.getDataKey reg table id property) as [k|err] eqn:Hk.
  - exists k. split; [done|].
    assert (hoare (λ _, True) (forEach properties body)
              (λ _ st, True ∧ st !! (LocalStorageDriver.keyPrefix +:+ k)
                              = Some (textOf (normalized (getScalar instance property))))
              (λ _ _, True)) as H.
    { apply (hoare_forEach_reaches _ _ _ property); [done|..].
      - intros x _ s _. by destruct (body x s) as [[?|?] ?].
      - unfold body. rewrite Hk, bind_liftO_Ok. apply hoare_write.
        intros s _. split; [done|]. rewrite lookup_insert_eq. reflexivity.
      - intros x _. unfold body.
        destruct (DataDriver.getDataKey reg table id x) as [k'|err] eqn:Hk';
          [|by intros s _].
        rewrite bind_liftO_Ok. apply hoare_write. intros s [_ Hs]. split; [done|].
        destruct (decide (k' = k)) as [->|Hne].
        + rewrite (getDataKey_inj _ _ _ _ _ _ Hk' Hk), lookup_insert_eq. reflexivity.
        + rewrite lookup_insert_ne; [done|]. intros Heq. by apply (inj _) in Heq. }
    specialize (H st I). rewrite Hrun in H. tauto.
  - exfalso.
    assert (hoare (λ _, True) (forEach properties body) (λ _ _, False) (λ _ _, True))
      as H.
    { clear Hrun. induction properties as [|x l IH]; [by apply elem_of_nil in Hin|].
      simpl. apply elem_of_cons in Hin as [<-|Hin].
      - intros s _. unfold bind at 1, body at 1. rewrite Hk. done.
      - eapply hoare_bind; [|intros ?; by apply IH].
        intros s _. by destruct (body x s) as [[?|?] ?]. }
    specialize (H st I). by rewrite Hrun in H.
Qed.

Lemma foldM_const {A S} (l : list A) (s : S) (body : S → A → M S) (body' : A → M ()) :
  (∀ x, x ∈ l → ∀ st, body s x st = (do! body' x in ret s) st) →
  ∀ st, foldM l s body st = (do! forEach l body' in ret s) st.
Proof.
  intros H. induction l as [|x l IH]; intros st; [done|].
  simpl. unfold bind at 1. rewrite H by left. unfold bind.
  destruct (body' x st) as [[[]|err] st1]; simpl; [|done].
  rewrite IH; [done|]. intros y Hy. apply H. by right.
Qed.

Lemma handleRelationalProperties_noRelatedObjects (fuel : nat)
    (reg : ClassSpecificationRegistry.specifications) (spec : ClassSpecification)
    (e : Entity) (identifier : Scalar) (st : gmap string Text) :
  noRelatedObjects spec e →
  Repository.handleRelationalProperties (S fuel) reg spec e identifier st
  = (do! indexRelations reg spec e identifier in ret e) st.
Proof.
  intros Hnone. simpl. unfold indexRelations. apply foldM_const.
  intros rp Hrp st0. specialize (Hnone rp Hrp).
  destruct (isCollection rp); simpl.
  - by destruct Hnone as [-> | ->].
  - rewrite Hnone. unfold bind, liftO, ret.
    destruct (ClassSpecificationRegistry.getSpecificationFor reg (class rp)); [|done].
    simpl. by destruct (DataDriver.addRelationIndex _ _ _ _ _ st0) as [[[]|?] ?].
Qed.

Lemma untouched_addRelationIndex (d s f : string) (v j : Scalar) (key : string)
    (t : option Text) :
  DataDriver.getRelationIndexKey d s f v ≠ key →
  preserves (untouched key t) (λ _, True) (DataDriver.addRelationIndex d s f v j).
Proof.
  intros Hne. unfold DataDriver.addRelationIndex.
  apply preserves_bind; [by apply preserves_liftQ|].
  intros [index|]; [|by apply untouched_write].
  destruct (includes index j); [apply preserves_ret | by apply untouched_write].
Qed.

Lemma indexRelations_untouched (reg : ClassSpecificationRegistry.specifications)
    (spec : ClassSpecification) (e : Entity) (identifier : Scalar) (t : option Text) :
  preserves (untouched (DataDriver.getTableIndexKey (tableName spec)) t) (λ _, True)
    (indexRelations reg spec e identifier).
Proof.
  apply preserves_forEach. intros rp _.
  destruct (negb (isCollection rp)); [|apply preserves_ret].
  apply preserves_bind_liftO; [done|]. intros relatedSpec _.
  apply untouched_addRelationIndex, relationIndexKey_not_own_tableIndexKey.
Qed.

Lemma indexRelations_total (reg : ClassSpecificationRegistry.specifications)
    (spec : ClassSpecification) (e : Entity) (identifier : Scalar) :
  registryOk reg → registered reg spec →
  preserves wellFormed (λ _, False) (indexRelations reg spec e identifier).
Proof.
  intros Hreg Hspec. apply preserves_forEach. intros rp Hrp.
  destruct (negb (isCollection rp)); [|apply preserves_ret].
  destruct (getSpecificationFor_registered reg Hreg spec rp Hspec Hrp)
    as (relatedSpec & -> & _).
  rewrite bind_liftO_Ok. apply addRelationIndex_outcome.
Qed.

Lemma update_unfold (fuel : nat) (reg : ClassSpecificationRegistry.specifications)
    (spec : ClassSpecification) (e : Entity) :
  Repository.update (S fuel) reg spec e
  = let! instance :=
      Repository.handleRelationalProperties fuel reg spec e
        (getScalar e (identifierProperty spec)) in
    forEach (nonRelationalProperties spec) (λ property,
      let! dataKey :=
        liftO (DataDriver.getDataKey reg (tableName spec)
                 (getScalar e (identifierProperty spec)) property) in
      let dataToStore :=
        match getScalar instance property with
        | SUndefined => SNull
        | v => v
        end in
      LocalStorageDriver.write dataKey (VScalar dataToStore)).
Proof. reflexivity. Qed.





(** ** What does come back from the storage *)

Lemma create_unfold (fuel : nat) (reg : ClassSpecificationRegistry.specifications)
    (spec : ClassSpecification) (e : Entity) :
  Repository.create (S fuel) reg spec e
  = let! instance :=
      Repository.handleRelationalProperties fuel reg spec e
        (getScalar e (identifierProperty spec)) in
    do! DataDriver.addTableIndex (tableName spec)
          (getScalar e (identifierProperty spec)) in
    do! forEach (nonRelationalProperties spec) (λ property,
          let! dataKey :=
            liftO (DataDriver.getDataKey reg (tableName spec)
                     (getScalar e (identifierProperty spec)) property) in
          let dataToStore :=
            match getScalar instance property with
            | SUndefined => SNull
            | v => v
            end in
          LocalStorageDriver.write dataKey (VScalar dataToStore)) in
    ret (getScalar e (identifierProperty spec)).
Proof. reflexivity. Qed.

Lemma addTableIndex_fresh (table : string) (i : Scalar) (st : gmap string Text)
    (index : list Scalar) :
  wellFormed st → DataDriver.getTableIndex table st = Ok index → i ∉ index →
  ∃ st', DataDriver.addTableIndex table i st = (Ok (), st').
Proof.
  intros Hwf Hindex Hnot. rewrite wellFormed_getTableIndex in Hindex by done.
  injection Hindex as <-. unfold DataDriver.addTableIndex, bind, liftQ.
  rewrite wellFormed_readIndex by (done || apply tableIndexKey_isIndexKey).
  destruct (arrayAt _ st) as [l|]; simpl in *; [|eauto].
  apply includes_false in Hnot. rewrite Hnot. eauto.
Qed.

Lemma read_textOf (key : string) (v : Scalar) (st : gmap string Text) :
  st !! (LocalStorageDriver.keyPrefix +:+ key) = Some (textOf (normalized v)) →
  LocalStorageDriver.read key st = VScalar (if truthyScalar v then v else SNull).
Proof.
  intros H. unfold LocalStorageDriver.read. rewrite H. unfold textOf.
  destruct v as [| |[]|n|s]; simpl; try done.
  - by destruct (n =? 0)%Z.
  - by destruct (String.eqb s "").
Qed.

(** The record [_getById] builds: a property is a key of it exactly when the
    value read for it is truthy. *)
Lemma loadRecord_fields (reg : ClassSpecificationRegistry.specifications)
    (table : string) (id : Scalar) (properties : list string)
    (data0 data : list (string * Loaded)) (st : gmap string Text) :
  foldQ properties data0 (λ data property,
    let? dataKey := ofOutcome (DataDriver.getDataKey reg table id property) in
    let? propertyValue := readQ dataKey in
    if negb (truthy propertyValue) then retQ data
    else retQ (setField data property (LValue propertyValue))) st = Ok data →
  ∀ p k, DataDriver.getDataKey reg table id p = Ok k →
    getField data p
    = if bool_decide (p ∈ properties) && truthy (LocalStorageDriver.read k st)
      then Some (LValue (LocalStorageDriver.read k st))
      else getField data0 p.
Proof.
  set (body := λ (data : list (string * Loaded)) (property : string), bindQ _ _).
  assert (∀ d x kx,
    DataDriver.getDataKey reg table id x = Ok kx →
    body d x st
    = Ok (if truthy (LocalStorageDriver.read kx st)
          then setField d x (LValue (LocalStorageDriver.read kx st))
          else d)) as Hbody.
  { intros d x kx Hkx. unfold body, bindQ, ofOutcome, readQ. rewrite Hkx.
    by destruct (truthy _). }
  revert data0. induction properties as [|x l IH]; intros data0.
  - simpl. by intros [= <-] p k _.
  - simpl. unfold bindQ at 1.
    destruct (DataDriver.getDataKey reg table id x) as [kx|] eqn:Hkx.
    2:{ unfold body at 1, bindQ, ofOutcome. by rewrite Hkx. }
    rewrite (Hbody _ _ _ Hkx).
    intros Hfold p k Hk. rewrite (IH _ Hfold p k Hk). clear IH Hfold.
    destruct (decide (x = p)) as [->|Hne].
    + assert (kx = k) as -> by congruence.
      rewrite (bool_decide_eq_true_2 (p ∈ p :: l)) by left.
      destruct (truthy (LocalStorageDriver.read k st)) eqn:Ht; simpl.
      * rewrite andb_true_r. case_bool_decide; [done|].
        by rewrite getField_setField, decide_True.
      * by rewrite andb_false_r.
    + assert (bool_decide (p ∈ x :: l) = bool_decide (p ∈ l)) as ->.
      { apply bool_decide_ext. rewrite elem_of_cons.
        split; [intros [Heq|Hin]; [by destruct Hne | done] | by right]. }
      destruct (bool_decide (p ∈ l) && truthy (LocalStorageDriver.read k st));
        [done|].
      destruct (truthy (LocalStorageDriver.read kx st)); [|done].
      by rewrite getField_setField, decide_False.
Qed.

Lemma loadRecord_Ok (reg : ClassSpecificationRegistry.specifications)
    (table : string) (id : Scalar) (properties : list string)
    (data0 : list (string * Loaded)) (st : gmap string Text) :
  (∀ p, p ∈ properties → ∃ k, DataDriver.getDataKey reg table id p = Ok k) →
  ∃ data,
    foldQ properties data0 (λ data property,
      let? dataKey := ofOutcome (DataDriver.getDataKey reg table id property) in
      let? propertyValue := readQ dataKey in
      if negb (truthy propertyValue) then retQ data
      else retQ (setField data property (LValue propertyValue))) st = Ok data.
Proof.
  set (body := λ (data : list (string * Loaded)) (property : string), bindQ _ _).
  revert data0. induction properties as [|x l IH]; intros data0 Hkeys; [by eexists|].
  simpl. unfold bindQ at 1. unfold body at 1, bindQ, ofOutcome, readQ.
  destruct (Hkeys x) as [k ->]; [left|].
  destruct (negb (truthy _)); unfold retQ; apply IH; intros p Hp; apply Hkeys;
    by right.
Qed.

(** For an instance without related objects whose identifier is new,
    [create] returns and [getById] then gives an object on which every
    scalar field with a truthy value reads as that value, and every scalar
    field with a falsy value ([undefined], [null], [false], [0], the empty
    string) reads as [undefined]. *)
Lemma create_getById_round_trip (fuel : nat)
    (reg : ClassSpecificationRegistry.specifications) (spec : ClassSpecification)
    (e : Entity) (st : gmap string Text) (index : list Scalar) :
  registryOk reg → registered reg spec → wellFormed st → noRelatedObjects spec e →
  EntityIdentifierType (getScalar e (identifierProperty spec)) →
  DataDriver.getTableIndex (tableName spec) st = Ok index →
  getScalar e (identifierProperty spec) ∉ index →
  ∃ st' view,
    Repository.create (S (S fuel)) reg spec e st
    = (Ok (getScalar e (identifierProperty spec)), st')
    ∧ Queryable.getById reg
        {| Queryable.rootClassSpecification := spec;
           Queryable.includeMap := IncludeNode [] |}
        (getScalar e (identifierProperty spec)) st' = Ok view
    ∧ ∀ p, p ∈ nonRelationalProperties spec →
           p ∉ map name (relationalProperties spec) →
           ShadowFactory.get view p
           = Ok (if truthyScalar (getScalar e p)
                 then Some (LValue (VScalar (getScalar e p)))
                 else None).
Proof.
  intros Hreg Hspec Hwf Hnone Hid Hindex Hnot.
  set (id := getScalar e (identifierProperty spec)) in *.
  set (k := LocalStorageDriver.keyPrefix +:+ DataDriver.getTableIndexKey (tableName spec)).
  rewrite create_unfold. fold id. unfold bind at 1.
  rewrite (handleRelationalProperties_noRelatedObjects fuel reg spec e id st Hnone).
  unfold bind at 1.
  pose proof (indexRelations_total reg spec e id Hreg Hspec st Hwf) as Hwf1.
  pose proof (indexRelations_untouched reg spec e id _ st eq_refl) as Hsame.
  destruct (indexRelations reg spec e id st) as [[[]|?] st1]; simpl in Hwf1, Hsame;
    [|tauto].
  simpl. unfold bind at 1.
  assert (DataDriver.getTableIndex (tableName spec) st1 = Ok index) as Hindex1.
  { rewrite <- Hindex. by apply getTableIndex_ext. }
  destruct (addTableIndex_fresh (tableName spec) id st1 index Hwf1 Hindex1 Hnot)
    as [st2 Hadd].
  pose proof (addTableIndex_outcome (tableName spec) id st1 Hwf1) as Hwf2.
  pose proof (addTableIndex_holds (tableName spec) id st1 Hid) as Hholds2.
  rewrite Hadd in *. unfold bind at 1.
  pose proof (writeProperties_outcome reg Hreg spec id e (λ _, False) Hspec st2 Hwf2)
    as Hwf'.
  pose proof (holds_writeProperties reg k id (tableName spec) id
    (nonRelationalProperties spec) e (tableIndexKey_isIndexKey _) st2 Hholds2)
    as Hholds'.
  pose proof (writeProperties_written reg (tableName spec) id
    (nonRelationalProperties spec) e st2) as Hwritten.
  destruct (forEach _ _ st2) as [[[]|?] st'] eqn:Hwrites; simpl in Hwf', Hholds';
    [|tauto].
  destruct Hholds' as (l' & Hl' & Hin').
  destruct (loadRecord_Ok reg (tableName spec) id (nonRelationalProperties spec) [] st')
    as [data Hdata].
  { intros p Hp. eexists. by apply getDataKey_registered. }
  exists st', (ShadowFactory.for_ data (map name (relationalProperties spec))).
  split; [done|]. split.
  - unfold Queryable.getById. simpl. unfold bindQ at 1 2.
    rewrite wellFormed_getTableIndex by done. fold k. rewrite Hl'. simpl.
    apply includes_true in Hin'. rewrite Hin'. simpl. unfold bindQ at 1.
    by rewrite Hdata.
  - intros p Hp Hrel. rewrite get_not_excluded.
    2:{ simpl. by rewrite elem_of_list_to_set. }
    simpl source.
    destruct (Hwritten st' p eq_refl Hp) as (kp & Hkp & Htext).
    rewrite (loadRecord_fields _ _ _ _ _ _ _ Hdata p kp Hkp).
    rewrite (bool_decide_eq_true_2 _ Hp), (read_textOf _ _ _ Htext). simpl.
    by destruct (truthyScalar (getScalar e p)) eqn:Ht; simpl; rewrite ?Ht.
Qed.

(** ** Conditional queries *)

Lemma getDataKey_mapped (reg : ClassSpecificationRegistry.specifications)
    (spec : ClassSpecification) (index : Scalar) (column : string) :
  mapped reg spec → column ∈ nonRelationalProperties spec →
  DataDriver.getDataKey reg (tableName spec) index column
  = Ok (tableName spec +:+ ":" +:+ toString index +:+ ":" +:+ column +:+ ";").
Proof.
  intros Hmapped Hcolumn.
  unfold DataDriver.getDataKey, ClassSpecificationRegistry.getSpecificationByTableName.
  rewrite Hmapped. simpl. by rewrite bool_decide_eq_true_2.
Qed.

Lemma checkConditions_passes (reg : ClassSpecificationRegistry.specifications)
    (spec : ClassSpecification) (conditions : list Condition) (index : Scalar)
    (st : gmap string Text) :
  mapped reg spec → columns spec (map key conditions) →
  ConditionalQueryable.checkConditions reg (tableName spec) index conditions st
  = Ok (passes (tableName spec) conditions st index).
Proof.
  intros Hmapped. induction conditions as [|c l IH]; intros Hcolumns; [done|].
  simpl. unfold bindQ at 1, ofOutcome.
  rewrite getDataKey_mapped; [|done|apply Hcolumns; by left].
  unfold bindQ at 1, readQ. fold (stored (tableName spec) index (key c) st).
  destruct (test c _); simpl; [|done].
  apply IH. intros k Hk. apply Hcolumns. by right.
Qed.

Lemma checkConditionByIndex_passes (reg : ClassSpecificationRegistry.specifications)
    (this : ConditionalQueryable.t) (index : Scalar) (st : gmap string Text) :
  mapped reg (ConditionalQueryable.classSpecification this) →
  columns (ConditionalQueryable.classSpecification this)
    (map key (ConditionalQueryable.conditions this)) →
  ConditionalQueryable._checkConditionByIndex reg this index st
  = Ok (passes (tableName (ConditionalQueryable.classSpecification this))
          (ConditionalQueryable.conditions this) st index).
Proof. apply checkConditions_passes. Qed.

(** X1. [any] answers whether some row of the table passes every condition:
    it returns [true] exactly when the test of each condition holds of what
    is stored for its key in one of the rows of the identifier index. *)
Theorem any_tells_whether_a_row_passes
    (reg : ClassSpecificationRegistry.specifications) (this : ConditionalQueryable.t)
    (st : gmap string Text) (index : list Scalar) :
  let spec := ConditionalQueryable.classSpecification this in
  mapped reg spec → columns spec (map key (ConditionalQueryable.conditions this)) →
  DataDriver.getTableIndex (tableName spec) st = Ok index →
  ConditionalQueryable.any reg this st
  = Ok (existsb (passes (tableName spec) (ConditionalQueryable.conditions this) st)
          index).
Proof.
  intros spec Hmapped Hcolumns Hindex. unfold ConditionalQueryable.any, bindQ.
  fold spec. rewrite Hindex. clear Hindex.
  induction index as [|i l IH]; [done|].
  simpl. unfold bindQ. rewrite checkConditionByIndex_passes by done. fold spec.
  by destruct (passes _ _ _ i).
Qed.

(** X2. [first] returns the first row, in the order of the identifier index,
    that passes every condition, loaded as [getById] loads it, and [null]
    when no row passes. *)
Theorem first_returns_the_first_row_that_passes
    (reg : ClassSpecificationRegistry.specifications) (this : ConditionalQueryable.t)
    (st : gmap string Text) (index : list Scalar) :
  let spec := ConditionalQueryable.classSpecification this in
  mapped reg spec → columns spec (map key (ConditionalQueryable.conditions this)) →
  DataDriver.getTableIndex (tableName spec) st = Ok index →
  ConditionalQueryable.first reg this st
  = match List.find (passes (tableName spec) (ConditionalQueryable.conditions this) st)
            index with
    | None => Ok None
    | Some id => bindO (ConditionalQueryable.load reg this id st) (λ row, Ok (Some row))
    end.
Proof.
  intros spec Hmapped Hcolumns Hindex. unfold ConditionalQueryable.first, bindQ.
  fold spec. rewrite Hindex. clear Hindex.
  induction index as [|i l IH]; [done|].
  simpl. unfold bindQ at 1. rewrite checkConditionByIndex_passes by done. fold spec.
  destruct (passes _ _ _ i); [|done].
  unfold bindQ. by destruct (ConditionalQueryable.load _ _ _ _).
Qed.

(** X3. [count] returns the number of rows of the table, whatever the
    conditions of the query are: the rows are filtered with a callback that
    is not awaited. It returns also when a condition names a property that
    is no column of the table. *)
Theorem count_counts_every_row
    (reg : ClassSpecificationRegistry.specifications) (this : ConditionalQueryable.t)
    (st : gmap string Text) (index : list Scalar) :
  DataDriver.getTableIndex
    (tableName (ConditionalQueryable.classSpecification this)) st = Ok index →
  ConditionalQueryable.count reg this st = Ok (length index).
Proof.
  intros Hindex. unfold ConditionalQueryable.count, bindQ. rewrite Hindex.
  by rewrite filterAsync_keeps_all.
Qed.

(** X4. [where] on the name of a relation throws. On any other key it
    returns the query with one condition more: a row passes the new query
    exactly when it passes the old one and the predicate holds of what is
    stored for the key. *)
Theorem where_adds_a_conjunct (this : ConditionalQueryable.t) (column : string)
    (predicate : Value → bool) :
  if bool_decide (column ∈ map name
                    (relationalProperties (ConditionalQueryable.classSpecification this)))
  then ConditionalQueryable.where_ this column predicate
       = Throw (WhereOnRelationalProperty column)
  else
    ∃ this',
      ConditionalQueryable.where_ this column predicate = Ok this'
      ∧ ConditionalQueryable.classSpecification this'
        = ConditionalQueryable.classSpecification this
      ∧ ConditionalQueryable.sourceQueryable this'
        = ConditionalQueryable.sourceQueryable this
      ∧ ∀ table st index,
          passes table (ConditionalQueryable.conditions this') st index
          = passes table (ConditionalQueryable.conditions this) st index
            && predicate (stored table index column st).
Proof.
  unfold ConditionalQueryable.where_.
  assert (existsb (λ x, String.eqb (name x) column)
            (relationalProperties (ConditionalQueryable.classSpecification this))
          = bool_decide (column ∈ map name
              (relationalProperties (ConditionalQueryable.classSpecification this))))
    as ->.
  { induction (relationalProperties _) as [|rp l IH]; simpl; [done|].
    rewrite IH. destruct (String.eqb_spec (name rp) column) as [<-|Hne]; simpl.
    - symmetry. apply bool_decide_eq_true_2. by left.
    - apply bool_decide_ext. rewrite elem_of_cons. split; [by right|].
      by intros [?|?]; [congruence|]. }
  case_bool_decide; [done|].
  eexists. split; [reflexivity|]. split; [done|]. split; [done|].
  intros table st index. simpl. unfold passes. rewrite forallb_app. simpl.
  by rewrite andb_true_r.
Qed.

Lemma readmeRegistry_mapped :
  mapped readmeRegistry PersonSpecification ∧ mapped readmeRegistry AddressSpecification.
Proof. split; reflexivity. Qed.

Lemma columns_decide (spec : ClassSpecification) (keys : list string) :
  forallb (λ k, bool_decide (k ∈ nonRelationalProperties spec)) keys = true →
  columns spec keys.
Proof.
  intros H k Hk. rewrite forallb_forall in H.
  apply list_elem_of_In in Hk. specialize (H k Hk). by apply bool_decide_eq_true in H.
Qed.

Lemma any_tells_whether_a_row_passes_witness :
  ConditionalQueryable.any readmeRegistry (peopleOlderThan 26) twoPeople
  = Ok (existsb (passes "person" [{| key := "age"; test := olderThan 26 |}] twoPeople)
          [SStr "1"; SStr "2"]).
Proof.
  apply (any_tells_whether_a_row_passes readmeRegistry (peopleOlderThan 26) twoPeople
           [SStr "1"; SStr "2"]).
  - apply readmeRegistry_mapped.
  - by apply columns_decide.
  - vm_compute. reflexivity.
Defined.

Lemma first_returns_the_first_row_that_passes_witness :
  ConditionalQueryable.first readmeRegistry (peopleOlderThan 26) twoPeople
  = match List.find (passes "person" [{| key := "age"; test := olderThan 26 |}] twoPeople)
            [SStr "1"; SStr "2"] with
    | None => Ok None
    | Some id =>
        bindO (ConditionalQueryable.load readmeRegistry (peopleOlderThan 26) id twoPeople)
          (λ row, Ok (Some row))
    end.
Proof.
  apply (first_returns_the_first_row_that_passes readmeRegistry (peopleOlderThan 26)
           twoPeople [SStr "1"; SStr "2"]).
  - apply readmeRegistry_mapped.
  - by apply columns_decide.
  - vm_compute. reflexivity.
Defined.

Lemma count_counts_every_row_witness :
  ConditionalQueryable.count readmeRegistry (peopleOlderThan 40) twoPeople = Ok 2.
Proof.
  apply (count_counts_every_row readmeRegistry (peopleOlderThan 40) twoPeople
           [SStr "1"; SStr "2"]).
  vm_compute. reflexivity.
Defined.







(** ** Dump and restore *)

Lemma startsWith_keyPrefix (key : string) :
  LocalStorageDriver.startsWith (LocalStorageDriver.keyPrefix +:+ key)
    LocalStorageDriver.keyPrefix = true.
Proof.
  unfold LocalStorageDriver.startsWith, LocalStorageDriver.keyPrefix.
  string_simpl. simpl. by destruct key.
Qed.

Lemma dumpAll_lookup (st : gmap string Text) (k : string) :
  ∃ data, LocalStorageDriver.dumpAll st = Ok data
    ∧ data !! k
      = if LocalStorageDriver.startsWith k LocalStorageDriver.keyPrefix
        then match st !! k with
             | Some v => if LocalStorageDriver.truthyText v then Some v else None
             | None => None
             end
        else None.
Proof.
  unfold LocalStorageDriver.dumpAll. eexists. split; [done|].
  apply (map_fold_weak_ind (λ data st,
    data !! k
    = if LocalStorageDriver.startsWith k LocalStorageDriver.keyPrefix
      then match st !! k with
           | Some v => if LocalStorageDriver.truthyText v then Some v else None
           | None => None
           end
      else None)).
  - rewrite lookup_empty. by destruct (LocalStorageDriver.startsWith _ _).
  - intros i x m r Hi IH. destruct (decide (i = k)) as [->|Hne].
    + rewrite lookup_insert_eq. rewrite Hi in IH.
      destruct (LocalStorageDriver.startsWith k _); simpl; [|done].
      destruct (LocalStorageDriver.truthyText x); [by rewrite lookup_insert_eq|].
      by rewrite IH.
    + rewrite (lookup_insert_ne m) by done. rewrite <- IH.
      destruct (_ && _); [by rewrite lookup_insert_ne | done].
Qed.

Lemma loadAll_lookup (data st : gmap string Text) (k : string) :
  snd (LocalStorageDriver.loadAll data st) !! k
  = if LocalStorageDriver.startsWith k LocalStorageDriver.keyPrefix
    then match data !! k with
         | Some v => Some v
         | None => st !! k
         end
    else st !! k.
Proof.
  unfold LocalStorageDriver.loadAll. simpl.
  apply (map_fold_weak_ind (λ st' data,
    st' !! k
    = if LocalStorageDriver.startsWith k LocalStorageDriver.keyPrefix
      then match data !! k with
           | Some v => Some v
           | None => st !! k
           end
      else st !! k)).
  - rewrite lookup_empty. by destruct (LocalStorageDriver.startsWith _ _).
  - intros i x m r Hi IH. destruct (decide (i = k)) as [->|Hne].
    + rewrite lookup_insert_eq. rewrite Hi in IH.
      destruct (LocalStorageDriver.startsWith k _); [by rewrite lookup_insert_eq | done].
    + rewrite (lookup_insert_ne m) by done. rewrite <- IH.
      destruct (LocalStorageDriver.startsWith i _); [by rewrite lookup_insert_ne | done].
Qed.

(** X6. [dumpAll] returns, and what it returns holds exactly the entries of
    the medium whose key starts with the prefix of the library and whose text
    is not empty: no key of another application, and no key the library
    wrote a falsy value under. *)
Theorem dumpAll_holds_the_nonempty_library_entries (st : gmap string Text) :
  ∃ data,
    LocalStorageDriver.dumpAll st = Ok data
    ∧ ∀ k v, data !! k = Some v
             ↔ st !! k = Some v
               ∧ LocalStorageDriver.startsWith k LocalStorageDriver.keyPrefix = true
               ∧ v ≠ Empty.
Proof.
  eexists. split; [reflexivity|]. intros k v.
  destruct (dumpAll_lookup st k) as (data & [= <-] & ->).
  destruct (LocalStorageDriver.startsWith k _).
  2:{ split; [done | by intros (_ & [=] & _)]. }
  destruct (st !! k) as [[|x]|]; simpl;
    (split; [intros [= <-] | intros (H1 & H2 & H3)]); try congruence; done.
Qed.


Lemma restore_sameReads (st st0 data : gmap string Text) :
  withoutLibraryKeys st0 → LocalStorageDriver.dumpAll st = Ok data →
  sameReads (snd (LocalStorageDriver.loadAll data st0)) st.
Proof.
  intros Hfresh Hdump key. unfold LocalStorageDriver.read.
  rewrite loadAll_lookup, startsWith_keyPrefix.
  destruct (dumpAll_lookup st (LocalStorageDriver.keyPrefix +:+ key))
    as (data' & Hdump' & Hk).
  assert (data' = data) as -> by congruence.
  rewrite Hk, startsWith_keyPrefix.
  destruct (st !! _) as [[|v]|]; simpl; try done;
    by rewrite Hfresh by apply startsWith_keyPrefix.
Qed.

(** X8. A dump loaded into a medium that holds nothing of the library gives
    back every value: each [read] of the driver returns on the restored
    medium what it returned on the dumped one. *)
Theorem dump_then_load_preserves_every_read (st st0 : gmap string Text) :
  withoutLibraryKeys st0 →
  ∃ data,
    LocalStorageDriver.dumpAll st = Ok data
    ∧ ∀ key, LocalStorageDriver.read key (snd (LocalStorageDriver.loadAll data st0))
             = LocalStorageDriver.read key st.
Proof.
  intros Hfresh. eexists. split; [reflexivity|].
  by apply restore_sameReads.
Qed.

(** ** Queries are functions of what the driver reads *)

Lemma readsOnly_retQ {A} (a : A) : readsOnly (retQ a).
Proof. by intros st1 st2 _. Qed.

Lemma readsOnly_throwQ {A} (e : Error) : readsOnly (@throwQ A e).
Proof. by intros st1 st2 _. Qed.

Lemma readsOnly_ofOutcome {A} (o : Outcome A) : readsOnly (ofOutcome o).
Proof. by intros st1 st2 _. Qed.

Lemma readsOnly_readQ (key : string) : readsOnly (readQ key).
Proof. intros st1 st2 H. unfold readQ. by rewrite (H key). Qed.

Lemma readsOnly_bindQ {A B} (q : Q A) (f : A → Q B) :
  readsOnly q → (∀ a, readsOnly (f a)) → readsOnly (bindQ q f).
Proof.
  intros Hq Hf st1 st2 H. unfold bindQ. rewrite (Hq st1 st2 H).
  destruct (q st2); [by apply Hf | done].
Qed.

Lemma readsOnly_foldQ {A S} (l : list A) (s : S) (body : S → A → Q S) :
  (∀ s x, readsOnly (body s x)) → readsOnly (foldQ l s body).
Proof.
  intros Hbody. revert s. induction l as [|x l IH]; intros s; simpl.
  - apply readsOnly_retQ.
  - apply readsOnly_bindQ; [apply Hbody | apply IH].
Qed.

Lemma readsOnly_mapQ {A B} (l : list A) (body : A → Q B) :
  (∀ x, readsOnly (body x)) → readsOnly (mapQ l body).
Proof.
  intros Hbody. induction l as [|x l IH]; simpl.
  - apply readsOnly_retQ.
  - apply readsOnly_bindQ; [apply Hbody|]. intros y.
    apply readsOnly_bindQ; [apply IH|]. intros ys. apply readsOnly_retQ.
Qed.

Lemma readsOnly_readIndex (key : string) : readsOnly (DataDriver.readIndex key).
Proof. intros st1 st2 H. unfold DataDriver.readIndex. by rewrite (H key). Qed.

Lemma readsOnly_getTableIndex (table : string) :
  readsOnly (DataDriver.getTableIndex table).
Proof.
  intros st1 st2 H. unfold DataDriver.getTableIndex.
  by rewrite (readsOnly_readIndex _ st1 st2 H).
Qed.

Lemma readsOnly_getRelationIndex (d s f : string) (v : Scalar) :
  readsOnly (DataDriver.getRelationIndex d s f v).
Proof. apply readsOnly_readIndex. Qed.

Ltac readsOnly_step :=
  first
    [ apply readsOnly_retQ | apply readsOnly_throwQ | apply readsOnly_ofOutcome
    | apply readsOnly_readQ | apply readsOnly_getTableIndex
    | apply readsOnly_getRelationIndex
    | apply readsOnly_bindQ; [|intros ?]
    | apply readsOnly_foldQ; intros ? ?
    | apply readsOnly_mapQ; intros ?
    | match goal with
      | |- readsOnly (if ?b then _ else _) => destruct b
      | |- readsOnly (match ?x with _ => _ end) => destruct x
      end ].

Lemma queries_readsOnly (reg : ClassSpecificationRegistry.specifications) (fuel : nat) :
  (∀ spec m id skip, readsOnly (Queryable._getById fuel reg spec m id skip))
  ∧ (∀ spec m ids, readsOnly (Queryable.getByIds fuel reg spec m ids))
  ∧ (∀ data spec m, readsOnly (Queryable.attachIncludesAndGet fuel reg data spec m)).
Proof.
  induction fuel as [|fuel (IHget & IHids & IHattach)].
  { repeat split; intros; apply readsOnly_throwQ. }
  split; [|split].
  - intros spec m id skip. simpl. repeat readsOnly_step. apply IHattach.
  - intros spec m ids. simpl. repeat readsOnly_step. apply IHget.
  - intros data spec m. simpl. repeat readsOnly_step; (apply IHids || apply IHget).
Qed.

Lemma checkConditions_readsOnly (reg : ClassSpecificationRegistry.specifications)
    (table : string) (index : Scalar) (conditions : list Condition) :
  readsOnly (ConditionalQueryable.checkConditions reg table index conditions).
Proof. induction conditions as [|c l IH]; simpl; repeat readsOnly_step; apply IH. Qed.

Lemma load_readsOnly (reg : ClassSpecificationRegistry.specifications)
    (this : ConditionalQueryable.t) (id : Scalar) :
  readsOnly (ConditionalQueryable.load reg this id).
Proof. apply queries_readsOnly. Qed.

(** X9. What a query answers depends on the medium through the reads of the
    driver only. So on a dump loaded into a medium that holds nothing of the
    library, [getById], [getAll], and [first], [any] and [select] of a
    conditional query answer what they answered on the dumped medium, errors
    included. *)
Theorem queries_answer_alike_after_restore
    (reg : ClassSpecificationRegistry.specifications) (q : Queryable.t)
    (cq : ConditionalQueryable.t) (id : Scalar) (keys : list string)
    (st st0 : gmap string Text) :
  withoutLibraryKeys st0 →
  ∃ data,
    LocalStorageDriver.dumpAll st = Ok data
    ∧ let restored := snd (LocalStorageDriver.loadAll data st0) in
      Queryable.getById reg q id restored = Queryable.getById reg q id st
      ∧ Queryable.getAll reg q restored = Queryable.getAll reg q st
      ∧ ConditionalQueryable.first reg cq restored = ConditionalQueryable.first reg cq st
      ∧ ConditionalQueryable.any reg cq restored = ConditionalQueryable.any reg cq st
      ∧ ConditionalQueryable.select reg cq keys restored
        = ConditionalQueryable.select reg cq keys st.
Proof.
  intros Hfresh. eexists. split; [reflexivity|]. intros restored.
  pose proof (restore_sameReads st st0 _ Hfresh eq_refl) as Hsame.
  fold restored in Hsame.
  assert (∀ indexes, readsOnly (ConditionalQueryable.firstOf reg cq indexes)) as Hfirst.
  { induction indexes as [|i l IH]; simpl; repeat readsOnly_step;
      (apply checkConditions_readsOnly || apply load_readsOnly || apply IH). }
  assert (∀ indexes, readsOnly (ConditionalQueryable.anyOf reg cq indexes)) as Hany.
  { induction indexes as [|i l IH]; simpl; repeat readsOnly_step;
      (apply checkConditions_readsOnly || apply IH). }
  assert (∀ A (query : Q A), readsOnly query → query restored = query st) as Hon.
  { intros A query Hquery. by apply Hquery. }
  split; [|split; [|split; [|split]]]; apply Hon.
  - apply queries_readsOnly.
  - unfold Queryable.getAll. repeat readsOnly_step. apply queries_readsOnly.
  - unfold ConditionalQueryable.first. repeat readsOnly_step. apply Hfirst.
  - unfold ConditionalQueryable.any. repeat readsOnly_step. apply Hany.
  - unfold ConditionalQueryable.select. repeat readsOnly_step;
      (apply checkConditions_readsOnly || apply queries_readsOnly).
Qed.

Lemma withoutLibraryKeys_foreign :
  withoutLibraryKeys foreignMedium.
Proof.
  intros k Hk. apply lookup_singleton_None. intros <-. discriminate Hk.
Qed.

Lemma dump_then_load_preserves_every_read_witness :
  ∃ data,
    LocalStorageDriver.dumpAll
      (after (Repository.create 4 taskRegistry TaskSpecification task1) ∅) = Ok data
    ∧ ∀ key,
        LocalStorageDriver.read key
          (snd (LocalStorageDriver.loadAll data
                  foreignMedium))
        = LocalStorageDriver.read key
            (after (Repository.create 4 taskRegistry TaskSpecification task1) ∅).
Proof.
  apply (dump_then_load_preserves_every_read
           (after (Repository.create 4 taskRegistry TaskSpecification task1) ∅)
           foreignMedium).
  apply withoutLibraryKeys_foreign.
Defined.

Lemma queries_answer_alike_after_restore_witness :
  ∃ data,
    LocalStorageDriver.dumpAll personAndAddress = Ok data
    ∧ let restored :=
        snd (LocalStorageDriver.loadAll data
               foreignMedium) in
      Queryable.getById readmeRegistry addressesWithPerson (SStr "1") restored
      = Queryable.getById readmeRegistry addressesWithPerson (SStr "1") personAndAddress
      ∧ Queryable.getAll readmeRegistry addressesWithPerson restored
        = Queryable.getAll readmeRegistry addressesWithPerson personAndAddress
      ∧ ConditionalQueryable.first readmeRegistry (peopleOlderThan 40) restored
        = ConditionalQueryable.first readmeRegistry (peopleOlderThan 40) personAndAddress
      ∧ ConditionalQueryable.any readmeRegistry (peopleOlderThan 40) restored
        = ConditionalQueryable.any readmeRegistry (peopleOlderThan 40) personAndAddress
      ∧ ConditionalQueryable.select readmeRegistry (peopleOlderThan 40) ["name"] restored
        = ConditionalQueryable.select readmeRegistry (peopleOlderThan 40) ["name"] personAndAddress.
Proof.
  apply (queries_answer_alike_after_restore readmeRegistry addressesWithPerson
           (peopleOlderThan 40) (SStr "1") ["name"] personAndAddress
           foreignMedium).
  apply withoutLibraryKeys_foreign.
Defined.

(** ** The registry *)

Lemma find_app_Some {A} (f : A → bool) (l1 l2 : list A) (x : A) :
  List.find f l1 = Some x → List.find f (l1 ++ l2) = Some x.
Proof. induction l1 as [|y l1 IH]; simpl; [done|]. by destruct (f y). Qed.

Lemma find_app_None {A} (f : A → bool) (l1 l2 : list A) :
  List.find f l1 = None → List.find f (l1 ++ l2) = List.find f l2.
Proof. induction l1 as [|y l1 IH]; simpl; [done|]. by destruct (f y). Qed.

Lemma register_Ok (spec : ClassSpecification)
    (reg reg' : ClassSpecificationRegistry.specifications) :
  ClassSpecificationRegistry.register spec reg = Ok reg' →
  ClassSpecificationRegistry.lookup reg (specClass spec) = None
  ∧ ClassSpecificationRegistry.findByTable reg (tableName spec) = None
  ∧ reg' = reg ++ [(specClass spec, spec)].
Proof.
  unfold ClassSpecificationRegistry.register.
  destruct (ClassSpecificationRegistry.lookup reg _); [done|].
  destruct (ClassSpecificationRegistry.findByTable reg _); [done|].
  by intros [= <-].
Qed.

Lemma registry_lookup_app (reg : ClassSpecificationRegistry.specifications)
    (cls' : string) (spec : ClassSpecification) (cls : string) :
  ClassSpecificationRegistry.lookup (reg ++ [(cls', spec)]) cls
  = match ClassSpecificationRegistry.lookup reg cls with
    | Some s => Some s
    | None => if String.eqb cls' cls then Some spec else None
    end.
Proof.
  unfold ClassSpecificationRegistry.lookup.
  destruct (List.find _ reg) as [p|] eqn:Hfind.
  - by rewrite (find_app_Some _ _ _ _ Hfind).
  - rewrite (find_app_None _ _ _ Hfind). simpl. by destruct (String.eqb cls' cls).
Qed.

Lemma findByTable_app (reg : ClassSpecificationRegistry.specifications)
    (cls' : string) (spec : ClassSpecification) (table : string) :
  ClassSpecificationRegistry.findByTable (reg ++ [(cls', spec)]) table
  = match ClassSpecificationRegistry.findByTable reg table with
    | Some s => Some s
    | None => if String.eqb (tableName spec) table then Some spec else None
    end.
Proof.
  unfold ClassSpecificationRegistry.findByTable.
  destruct (List.find _ reg) as [p|] eqn:Hfind.
  - by rewrite (find_app_Some _ _ _ _ Hfind).
  - rewrite (find_app_None _ _ _ Hfind). simpl.
    by destruct (String.eqb (tableName spec) table).
Qed.

(** X10. After a [register] that returned, the class and its table both lead
    to the specification, [isSpecificationRegisteredFor] answers [true] for
    the class, and every other class and every other table leads where it
    led before. *)
Theorem register_then_lookup (spec : ClassSpecification)
    (reg reg' : ClassSpecificationRegistry.specifications) :
  ClassSpecificationRegistry.register spec reg = Ok reg' →
  ClassSpecificationRegistry.getSpecificationFor reg' (specClass spec) = Ok spec
  ∧ ClassSpecificationRegistry.getSpecificationByTableName reg' (tableName spec) = Ok spec
  ∧ ClassSpecificationRegistry.isSpecificationRegisteredFor reg' (specClass spec) = true
  ∧ (∀ cls, cls ≠ specClass spec →
       ClassSpecificationRegistry.getSpecificationFor reg' cls
       = ClassSpecificationRegistry.getSpecificationFor reg cls
       ∧ ClassSpecificationRegistry.isSpecificationRegisteredFor reg' cls
         = ClassSpecificationRegistry.isSpecificationRegisteredFor reg cls)
  ∧ (∀ table, table ≠ tableName spec →
       ClassSpecificationRegistry.getSpecificationByTableName reg' table
       = ClassSpecificationRegistry.getSpecificationByTableName reg table).
Proof.
  intros (Hcls & Htable & ->)%register_Ok.
  unfold ClassSpecificationRegistry.getSpecificationFor,
    ClassSpecificationRegistry.getSpecificationByTableName,
    ClassSpecificationRegistry.isSpecificationRegisteredFor.
  rewrite !registry_lookup_app, !findByTable_app, Hcls, Htable, !String.eqb_refl.
  split; [done|]. split; [done|]. split; [done|]. split.
  - intros cls Hne. rewrite registry_lookup_app.
    destruct (String.eqb_spec (specClass spec) cls) as [<-|_]; [done|].
    by destruct (ClassSpecificationRegistry.lookup reg cls).
  - intros table Hne. rewrite findByTable_app.
    destruct (String.eqb_spec (tableName spec) table) as [<-|_]; [done|].
    by destruct (ClassSpecificationRegistry.findByTable reg table).
Qed.

Lemma register_oneTablePerClass (spec : ClassSpecification)
    (reg reg' : ClassSpecificationRegistry.specifications) :
  oneTablePerClass reg → ClassSpecificationRegistry.register spec reg = Ok reg' →
  oneTablePerClass reg'.
Proof.
  intros Hreg (Hcls & Htable & ->)%register_Ok cls s.
  rewrite registry_lookup_app, findByTable_app.
  destruct (ClassSpecificationRegistry.lookup reg cls) as [s'|] eqn:Hs'.
  - intros [= ->]. destruct (Hreg cls s Hs') as [-> Hfind]. by rewrite Hfind.
  - destruct (String.eqb_spec (specClass spec) cls) as [<-|_]; [|done].
    intros [= <-]. by rewrite Htable, String.eqb_refl.
Qed.

Lemma registerAll_oneTablePerClass (specs : list ClassSpecification)
    (reg reg' : ClassSpecificationRegistry.specifications) :
  oneTablePerClass reg → registerAll specs reg = Ok reg' → oneTablePerClass reg'.
Proof.
  revert reg. induction specs as [|spec specs IH]; intros reg Hreg; simpl.
  - by intros [= <-].
  - destruct (ClassSpecificationRegistry.register spec reg) as [reg1|] eqn:H1; [|done].
    simpl. apply IH. by eapply register_oneTablePerClass.
Qed.

(** X11. In a registry filled by calls of [register], however many and in
    whatever order, for classes whose names are not inherited from
    [Object.prototype]: every class that is looked up under such a name is
    filed under its own name, the table of a class leads back to that class,
    and no two classes share a table. *)
Theorem registered_classes_and_tables_correspond (specs : list ClassSpecification)
    (reg : ClassSpecificationRegistry.specifications) :
  Forall (λ spec, inherited (specClass spec) = false) specs →
  registerAll specs [] = Ok reg →
  ∀ cls spec,
    inherited cls = false →
    ClassSpecificationRegistry.getSpecificationFor reg cls = Ok spec →
    specClass spec = cls
    ∧ ClassSpecificationRegistry.getSpecificationByTableName reg (tableName spec)
      = Ok spec
    ∧ ∀ cls' spec',
        inherited cls' = false →
        ClassSpecificationRegistry.getSpecificationFor reg cls' = Ok spec' →
        tableName spec' = tableName spec → cls' = cls.
Proof.
  intros _ Hall.
  assert (oneTablePerClass reg) as Hreg.
  { eapply registerAll_oneTablePerClass; [|done]. by intros cls spec. }
  assert (∀ cls spec,
    ClassSpecificationRegistry.getSpecificationFor reg cls = Ok spec →
    ClassSpecificationRegistry.lookup reg cls = Some spec) as Hlookup.
  { intros cls spec. unfold ClassSpecificationRegistry.getSpecificationFor.
    destruct (ClassSpecificationRegistry.lookup reg cls); congruence. }
  intros cls spec _ Hspec%Hlookup. destruct (Hreg cls spec Hspec) as [Hcls Htable].
  split; [done|]. split.
  { unfold ClassSpecificationRegistry.getSpecificationByTableName. by rewrite Htable. }
  intros cls' spec' _ Hspec'%Hlookup Heq.
  destruct (Hreg cls' spec' Hspec') as [Hcls' Htable'].
  rewrite Heq, Htable in Htable'. congruence.
Qed.

Lemma register_then_lookup_witness :
  ClassSpecificationRegistry.getSpecificationFor readmeRegistry "Person"
  = Ok PersonSpecification
  ∧ ClassSpecificationRegistry.getSpecificationByTableName readmeRegistry "person"
    = Ok PersonSpecification
  ∧ ClassSpecificationRegistry.isSpecificationRegisteredFor readmeRegistry "Person" = true
  ∧ (∀ cls, cls ≠ "Person" →
       ClassSpecificationRegistry.getSpecificationFor readmeRegistry cls
       = ClassSpecificationRegistry.getSpecificationFor
           [("Address", AddressSpecification)] cls
       ∧ ClassSpecificationRegistry.isSpecificationRegisteredFor readmeRegistry cls
         = ClassSpecificationRegistry.isSpecificationRegisteredFor
             [("Address", AddressSpecification)] cls)
  ∧ (∀ table, table ≠ "person" →
       ClassSpecificationRegistry.getSpecificationByTableName readmeRegistry table
       = ClassSpecificationRegistry.getSpecificationByTableName
           [("Address", AddressSpecification)] table).
Proof.
  apply (register_then_lookup PersonSpecification [("Address", AddressSpecification)]
           readmeRegistry).
  reflexivity.
Defined.

Lemma registered_classes_and_tables_correspond_witness :
  specClass PersonSpecification = "Person"
  ∧ ClassSpecificationRegistry.getSpecificationByTableName readmeRegistry
      (tableName PersonSpecification) = Ok PersonSpecification
  ∧ ∀ cls' spec',
      inherited cls' = false →
      ClassSpecificationRegistry.getSpecificationFor readmeRegistry cls' = Ok spec' →
      tableName spec' = tableName PersonSpecification → cls' = "Person".
Proof.
  apply (registered_classes_and_tables_correspond
           [AddressSpecification; PersonSpecification] readmeRegistry).
  - by repeat constructor.
  - reflexivity.
  - reflexivity.
  - reflexivity.
Defined.

(** ** The builder *)

Lemma find_name_None (rels : list RelationalProperty) (property : string) :
  List.find (λ x, String.eqb (name x) property) rels = None →
  property ∉ map name rels.
Proof.
  induction rels as [|rp rels IH]; simpl; [intros _; apply not_elem_of_nil|].
  destruct (String.eqb_spec (name rp) property) as [|Hne]; [done|].
  intros H. apply not_elem_of_cons. split; [done | by apply IH].
Qed.

Lemma find_property_Some (l : list string) (property : string) :
  property ∈ l → List.find (λ x, String.eqb x property) l = Some property.
Proof.
  induction l as [|x l IH]; [by intros ?%elem_of_nil|].
  simpl. destruct (String.eqb_spec x property) as [->|Hne]; [done|].
  intros [?|?]%elem_of_cons; [congruence | by apply IH].
Qed.

Lemma NoDup_app_singleton {A} (l : list A) (x : A) : NoDup l → x ∉ l → NoDup (l ++ [x]).
Proof.
  intros Hl Hx. apply NoDup_app. split; [done|]. split.
  - intros y Hy [->|[]%elem_of_nil]%elem_of_cons. done.
  - apply NoDup_singleton.
Qed.

Lemma call_coherent (cls : string) (c : Call)
    (this this' : ClassSpecificationBuilder.t) :
  coherent cls this → call c this = Returned this' → coherent cls this'.
Proof.
  intros (Hcls & Hid & Hfk & Hnames).
  destruct c as [t|i|p|p c fk|p c fk]; simpl.
  - unfold ClassSpecificationBuilder.as_.
    destruct (ClassSpecificationBuilder.isNameManuallySet this); [done|].
    by intros [= <-].
  - unfold ClassSpecificationBuilder.hasIdentifier.
    destruct (truthyString _); [done|]. intros [= <-].
    split; [done|]. split; [|split; [|done]]; simpl.
    + intros _. apply elem_of_app. right. by left.
    + intros rp Hrp Hone. apply elem_of_app. left. by apply Hfk.
  - unfold ClassSpecificationBuilder.has.
    destruct (match List.find _ _ with Some x => truthyString x | None => false end);
      [done|].
    intros [= <-]. split; [done|]. split; [|split; [|done]]; simpl.
    + intros Hne. apply elem_of_app. left. by apply Hid.
    + intros rp Hrp Hone. apply elem_of_app. left. by apply Hfk.
  - unfold ClassSpecificationBuilder.hasOne.
    destruct (List.find _ _) eqn:Hfind; [done|]. intros [= <-].
    apply find_name_None in Hfind.
    assert (∀ x, x ∈ nonRelationalProperties
                       (ClassSpecificationBuilder.specification this) →
                 x ∈ (if negb (bool_decide
                        (fk ∈ nonRelationalProperties
                                (ClassSpecificationBuilder.specification this)))
                      then nonRelationalProperties
                             (ClassSpecificationBuilder.specification this) ++ [fk]
                      else nonRelationalProperties
                             (ClassSpecificationBuilder.specification this)))
      as Hmono.
    { intros x Hx. destruct (negb _); [apply elem_of_app; by left | done]. }
    split; [done|]. split; [|split]; simpl.
    + intros Hne. by apply Hmono, Hid.
    + intros rp [Hrp|Hrp]%elem_of_app Hone; [by apply Hmono, Hfk|].
      apply list_elem_of_singleton in Hrp as ->. simpl.
      case_bool_decide; simpl; [done|]. apply elem_of_app. right. by left.
    + rewrite map_app. simpl. by apply NoDup_app_singleton.
  - unfold ClassSpecificationBuilder.hasMany.
    destruct (List.find _ _) eqn:Hfind; [done|]. intros [= <-].
    apply find_name_None in Hfind.
    split; [done|]. split; [done|]. split; simpl.
    + intros rp [Hrp|Hrp]%elem_of_app Hone; [by apply Hfk|].
      by apply list_elem_of_singleton in Hrp as ->.
    + rewrite map_app. simpl. by apply NoDup_app_singleton.
Qed.

Lemma chain_coherent (cls : string) (calls : list Call)
    (this this' : ClassSpecificationBuilder.t) :
  coherent cls this → chain calls this = Returned this' → coherent cls this'.
Proof.
  revert this. induction calls as [|c calls IH]; intros this Hthis; simpl.
  - by intros [= <-].
  - destruct (call c this) as [this1|] eqn:Hc; [|done]. simpl.
    apply IH. by eapply call_coherent.
Qed.

(** X12. Whatever methods of the builder were called, and in whatever order,
    a specification that [build] returns is for the class the builder was
    made for, its identifier property is not empty and is one of its
    columns, the foreign key of every singular relation is one of its
    columns, and no two of its relations have the same name. *)
Theorem built_specification_is_coherent (cls : string) (calls : list Call)
    (spec : ClassSpecification) :
  attempt (chain calls (ClassSpecificationBuilder.new cls)) ClassSpecificationBuilder.build
  = Returned spec →
  specClass spec = cls
  ∧ identifierProperty spec ≠ ""
  ∧ identifierProperty spec ∈ nonRelationalProperties spec
  ∧ (∀ rp, rp ∈ relationalProperties spec → isCollection rp = false →
           correspondingIdentifierProperty rp ∈ nonRelationalProperties spec)
  ∧ NoDup (map name (relationalProperties spec)).
Proof.
  destruct (chain calls _) as [this|] eqn:Hchain; [|done]. simpl.
  unfold ClassSpecificationBuilder.build.
  destruct (truthyString _) eqn:Hid; [|done]. simpl. intros [= <-].
  assert (identifierProperty (ClassSpecificationBuilder.specification this) ≠ "")
    as Hne.
  { intros Heq. rewrite Heq in Hid. done. }
  destruct (chain_coherent cls calls (ClassSpecificationBuilder.new cls) this)
    as (Hcls & Hin & Hfk & Hnames); [|done|by auto].
  split; [done|]. split; [done|]. split; [by intros rp ?%elem_of_nil | constructor].
Qed.

Lemma built_specification_is_coherent_witness :
  specClass AddressSpecification = "Address"
  ∧ identifierProperty AddressSpecification ≠ ""
  ∧ identifierProperty AddressSpecification ∈ nonRelationalProperties AddressSpecification
  ∧ (∀ rp, rp ∈ relationalProperties AddressSpecification → isCollection rp = false →
           correspondingIdentifierProperty rp
             ∈ nonRelationalProperties AddressSpecification)
  ∧ NoDup (map name (relationalProperties AddressSpecification)).
Proof.
  apply (built_specification_is_coherent "Address" addressCalls AddressSpecification).
  reflexivity.
Defined.

Lemma chain_tableName (calls : list Call) (this this' : ClassSpecificationBuilder.t) :
  chain calls this = Returned this' →
  (tableNamesOf calls = []
   ∧ tableName (ClassSpecificationBuilder.specification this')
     = tableName (ClassSpecificationBuilder.specification this)
   ∧ ClassSpecificationBuilder.isNameManuallySet this'
     = ClassSpecificationBuilder.isNameManuallySet this)
  ∨ (∃ t, tableNamesOf calls = [t]
          ∧ ClassSpecificationBuilder.isNameManuallySet this = false
          ∧ tableName (ClassSpecificationBuilder.specification this') = t
          ∧ ClassSpecificationBuilder.isNameManuallySet this' = true).
Proof.
  revert this. induction calls as [|c calls IH]; intros this; simpl.
  { intros [= <-]. by left. }
  destruct (call c this) as [this1|] eqn:Hc; [|done]. simpl. intros Hrest.
  specialize (IH this1 Hrest). unfold tableNamesOf in *. simpl.
  destruct c as [t|i|p|p c fk|p c fk]; simpl in Hc.
  - unfold ClassSpecificationBuilder.as_ in Hc.
    destruct (ClassSpecificationBuilder.isNameManuallySet this) eqn:Hset; [done|].
    injection Hc as <-. simpl in IH. right. exists t.
    destruct IH as [(-> & ? & ?)|(t' & _ & [=] & _)]. done.
  - unfold ClassSpecificationBuilder.hasIdentifier in Hc.
    destruct (truthyString _); [done|]. by injection Hc as <-.
  - unfold ClassSpecificationBuilder.has in Hc.
    destruct (match List.find _ _ with Some x => truthyString x | None => false end);
      [done|].
    by injection Hc as <-.
  - unfold ClassSpecificationBuilder.hasOne in Hc.
    destruct (List.find _ _); [done|]. by injection Hc as <-.
  - unfold ClassSpecificationBuilder.hasMany in Hc.
    destruct (List.find _ _); [done|]. by injection Hc as <-.
Qed.

(** X13. A chain of calls that returns calls [as] at most once, whatever else
    it calls in between: the table of the builder is the name that call
    gave, and the name of the class when there was no such call. *)
Theorem table_name_is_set_at_most_once (cls : string) (calls : list Call)
    (this : ClassSpecificationBuilder.t) :
  chain calls (ClassSpecificationBuilder.new cls) = Returned this →
  match tableNamesOf calls with
  | [] => tableName (ClassSpecificationBuilder.specification this) = cls
  | [t] => tableName (ClassSpecificationBuilder.specification this) = t
  | _ :: _ :: _ => False
  end.
Proof.
  intros [(-> & Ht & _)|(t & -> & _ & Ht & _)]%chain_tableName; done.
Qed.

Lemma table_name_is_set_at_most_once_witness :
  tableName AddressSpecification = "address".
Proof.
  apply (table_name_is_set_at_most_once "Address" addressCalls
           {| ClassSpecificationBuilder.specification := AddressSpecification;
              ClassSpecificationBuilder.isNameManuallySet := true |}).
  reflexivity.
Defined.

(** X14. [hasOne] makes the foreign key a column when it is not one yet and
    leaves the columns alone when it is. So [has] of the foreign key before
    [hasOne] is accepted, and [has] of it after [hasOne] throws. *)
Theorem hasOne_registers_the_foreign_key_once
    (property relatedClass foreignKey : string)
    (this this' : ClassSpecificationBuilder.t) :
  ClassSpecificationBuilder.hasOne property relatedClass foreignKey this
  = Returned this' →
  foreignKey ∈ nonRelationalProperties (ClassSpecificationBuilder.specification this')
  ∧ (foreignKey ∈ nonRelationalProperties (ClassSpecificationBuilder.specification this) →
     nonRelationalProperties (ClassSpecificationBuilder.specification this')
     = nonRelationalProperties (ClassSpecificationBuilder.specification this))
  ∧ (foreignKey ≠ "" →
     ClassSpecificationBuilder.has foreignKey this'
     = Raised (ClassSpecificationBuilder.PropertyRegisteredTwice foreignKey))
  ∧ (∀ this1,
       ClassSpecificationBuilder.has foreignKey this = Returned this1 →
       ∃ this2,
         ClassSpecificationBuilder.hasOne property relatedClass foreignKey this1
         = Returned this2
         ∧ nonRelationalProperties (ClassSpecificationBuilder.specification this2)
           = nonRelationalProperties (ClassSpecificationBuilder.specification this)
               ++ [foreignKey]).
Proof.
  unfold ClassSpecificationBuilder.hasOne.
  destruct (List.find _ _) eqn:Hfind; [done|]. intros [= <-]. simpl.
  assert (foreignKey
            ∈ (if negb (bool_decide
                      (foreignKey ∈ nonRelationalProperties
                                      (ClassSpecificationBuilder.specification this)))
               then nonRelationalProperties
                      (ClassSpecificationBuilder.specification this) ++ [foreignKey]
               else nonRelationalProperties
                      (ClassSpecificationBuilder.specification this))) as Hin.
  { case_bool_decide; simpl; [done|]. apply elem_of_app. right. by left. }
  split; [done|]. split; [|split].
  - intros H. by rewrite bool_decide_eq_true_2.
  - intros Hne. unfold ClassSpecificationBuilder.has. simpl.
    rewrite (find_property_Some _ _ Hin). unfold truthyString.
    by destruct (String.eqb_spec foreignKey "").
  - intros this1. unfold ClassSpecificationBuilder.has.
    destruct (match List.find _ _ with Some x => truthyString x | None => false end);
      [done|].
    intros [= <-]. simpl. rewrite Hfind. eexists. split; [reflexivity|]. simpl.
    rewrite bool_decide_eq_true_2; [done|]. apply elem_of_app. right. by left.
Qed.

Lemma hasOne_registers_the_foreign_key_once_witness :
  "personId" ∈ nonRelationalProperties AddressSpecification
  ∧ ("personId" ∈ nonRelationalProperties
                    (ClassSpecificationBuilder.specification addressBuilder) →
     nonRelationalProperties AddressSpecification
     = nonRelationalProperties (ClassSpecificationBuilder.specification addressBuilder))
  ∧ ("personId" ≠ "" →
     ClassSpecificationBuilder.has "personId"
       {| ClassSpecificationBuilder.specification := AddressSpecification;
          ClassSpecificationBuilder.isNameManuallySet := true |}
     = Raised (ClassSpecificationBuilder.PropertyRegisteredTwice "personId"))
  ∧ (∀ this1,
       ClassSpecificationBuilder.has "personId" addressBuilder = Returned this1 →
       ∃ this2,
         ClassSpecificationBuilder.hasOne "person" "Person" "personId" this1
         = Returned this2
         ∧ nonRelationalProperties (ClassSpecificationBuilder.specification this2)
           = nonRelationalProperties
               (ClassSpecificationBuilder.specification addressBuilder)
               ++ ["personId"]).
Proof.
  apply (hasOne_registers_the_foreign_key_once "person" "Person" "personId"
           addressBuilder
           {| ClassSpecificationBuilder.specification := AddressSpecification;
              ClassSpecificationBuilder.isNameManuallySet := true |}).
  reflexivity.
Defined.

(** ** The include methods *)

Lemma getField_setField_eq {A} (fields : list (string * A)) (prop : string) (v : A) :
  getField (setField fields prop v) prop = Some v.
Proof. rewrite getField_setField. by rewrite decide_True. Qed.

Lemma getField_setField_ne {A} (fields : list (string * A)) (prop q : string) (v : A) :
  prop ≠ q → getField (setField fields prop v) q = getField fields q.
Proof. intros Hne. rewrite getField_setField. by rewrite decide_False. Qed.

(** X15. For a name that is not inherited from [Object.prototype],
    [include] makes the relation an entry of the root of the include map and
    moves the pointer to it. An entry that is there already is kept with
    everything nested under it, the other entries are not touched, and a
    second [include] of the same relation changes nothing. *)
Theorem include_adds_a_root_entry_once (key : string) (this : Queryable.fluent) :
  let q := Queryable.include key this in
  inherited key = false →
  Queryable.currentIncludePointer q = key
  ∧ Queryable.rootClassSpecification (Queryable.query q)
    = Queryable.rootClassSpecification (Queryable.query this)
  ∧ included (Queryable.includeMap (Queryable.query q)) key
    = Some (default (IncludeNode [])
              (included (Queryable.includeMap (Queryable.query this)) key))
  ∧ (∀ other, other ≠ key →
       included (Queryable.includeMap (Queryable.query q)) other
       = included (Queryable.includeMap (Queryable.query this)) other)
  ∧ Queryable.include key q = q.
Proof.
  intros q _. subst q. unfold Queryable.include, included. simpl.
  destruct this as [[spec [root]] pointer]. simpl.
  destruct (getField root key) as [sub|] eqn:Hkey; simpl.
  - rewrite Hkey. by repeat split.
  - rewrite getField_setField_eq. repeat split.
    intros other Hne. by apply getField_setField_ne.
Qed.

Lemma include_adds_a_root_entry_once_witness :
  let q := Queryable.include "address" (Repository_getQueryable PersonSpecification) in
  Queryable.currentIncludePointer q = "address"
  ∧ Queryable.rootClassSpecification (Queryable.query q) = PersonSpecification
  ∧ included (Queryable.includeMap (Queryable.query q)) "address"
    = Some (IncludeNode [])
  ∧ (∀ other, other ≠ "address" →
       included (Queryable.includeMap (Queryable.query q)) other = None)
  ∧ Queryable.include "address" q = q.
Proof.
  apply (include_adds_a_root_entry_once "address"
           (Repository_getQueryable PersonSpecification)).
  reflexivity.
Defined.

Lemma append_empty_r (s : string) : s +:+ "" = s.
Proof. induction s as [|c s IH]; string_simpl; [done | by rewrite IH]. Qed.

Lemma split_step (current : string) (c c' : ascii) (rest : string) :
  Queryable.split current (String c (String c' rest))
  = if Ascii.eqb c ":" && Ascii.eqb c' ":"
    then current :: Queryable.split "" rest
    else Queryable.split (current +:+ String c "") (String c' rest).
Proof. reflexivity. Qed.

Lemma split_name (current name : string) :
  colonFree name = true → Queryable.split current name = [current +:+ name].
Proof.
  revert current. induction name as [|c s IH]; intros current.
  { intros _. simpl. by rewrite append_empty_r. }
  intros [Hc Hs]%andb_true_iff. apply negb_true_iff in Hc.
  destruct s as [|c' s']; [done|].
  rewrite split_step, Hc. simpl andb. cbv iota. rewrite IH by done.
  by rewrite append_assoc.
Qed.

Lemma split_pointer (current name rest : string) :
  colonFree name = true →
  Queryable.split current (name +:+ "::" +:+ rest)
  = (current +:+ name) :: Queryable.split "" rest.
Proof.
  revert current. induction name as [|c s IH]; intros current.
  { intros _. string_simpl. rewrite split_step. simpl. by rewrite append_empty_r. }
  intros [Hc Hs]%andb_true_iff. apply negb_true_iff in Hc. rewrite append_cons.
  assert (∃ c' s', s +:+ "::" +:+ rest = String c' s') as (c' & s' & Heq).
  { destruct s; string_simpl; eauto. }
  rewrite Heq, split_step, Hc. simpl andb. cbv iota. rewrite <- Heq, IH by done.
  by rewrite append_assoc.
Qed.

Lemma include_root (key : string) (this : Queryable.fluent) :
  ∃ sub,
    included (Queryable.includeMap (Queryable.query (Queryable.include key this))) key
    = Some sub
    ∧ sub = default (IncludeNode [])
              (included (Queryable.includeMap (Queryable.query this)) key)
    ∧ ∀ other, other ≠ key →
        included (Queryable.includeMap (Queryable.query (Queryable.include key this)))
          other
        = included (Queryable.includeMap (Queryable.query this)) other.
Proof.
  unfold Queryable.include, included. simpl.
  destruct this as [[spec [root]] pointer]. simpl.
  destruct (getField root key) as [sub|] eqn:Hkey; simpl.
  - rewrite Hkey. by eexists.
  - rewrite getField_setField_eq. eexists. split; [done|]. split; [done|].
    intros other Hne. by apply getField_setField_ne.
Qed.

Lemma thenInclude_at (key entry : string) (found : IncludeMap) (this : Queryable.fluent) :
  Queryable.currentIncludePointer this ≠ "" →
  Queryable.includeMapContext (Queryable.includeMap (Queryable.query this))
    (Queryable.split "" (Queryable.currentIncludePointer this)) None
  = Returned (Some entry) →
  included (Queryable.includeMap (Queryable.query this)) entry = Some found →
  ∃ q sub,
    Queryable.thenInclude key this = Returned q
    ∧ Queryable.currentIncludePointer q
      = Queryable.currentIncludePointer this +:+ "::" +:+ key
    ∧ Queryable.rootClassSpecification (Queryable.query q)
      = Queryable.rootClassSpecification (Queryable.query this)
    ∧ included (Queryable.includeMap (Queryable.query q)) entry = Some sub
    ∧ included sub key = Some (default (IncludeNode []) (included found key))
    ∧ (∀ other, other ≠ key → included sub other = included found other)
    ∧ (∀ other, other ≠ entry →
         included (Queryable.includeMap (Queryable.query q)) other
         = included (Queryable.includeMap (Queryable.query this)) other).
Proof.
  intros Hpointer Hcontext Hfound. unfold Queryable.thenInclude.
  apply String.eqb_neq in Hpointer. rewrite Hpointer, Hcontext. simpl.
  unfold included in *. rewrite Hfound.
  destruct (getField (entries found) key) as [nested|] eqn:Hkey; simpl.
  - exists (Queryable.Build_fluent
              (Queryable.Build_t
                 (Queryable.rootClassSpecification (Queryable.query this))
                 (Queryable.includeMap (Queryable.query this)))
              (Queryable.currentIncludePointer this +:+ "::" +:+ key)), found.
    simpl. by repeat split.
  - eexists _, _. split; [reflexivity|]. simpl.
    rewrite getField_setField_eq. split; [done|]. split; [done|]. split; [done|].
    simpl. rewrite getField_setField_eq. split; [done|]. split.
    + intros other Hne. by apply getField_setField_ne.
    + intros other Hne. by apply getField_setField_ne.
Qed.

Lemma thenInclude_after_include (k j : string) (this : Queryable.fluent) :
  k ≠ "" → colonFree k = true →
  ∃ q sub,
    Queryable.thenInclude j (Queryable.include k this) = Returned q
    ∧ Queryable.currentIncludePointer q = k +:+ "::" +:+ j
    ∧ Queryable.rootClassSpecification (Queryable.query q)
      = Queryable.rootClassSpecification (Queryable.query this)
    ∧ included (Queryable.includeMap (Queryable.query q)) k = Some sub
    ∧ is_Some (included sub j)
    ∧ (∀ other, other ≠ j →
         included sub other
         = included (default (IncludeNode [])
                       (included (Queryable.includeMap (Queryable.query this)) k))
             other)
    ∧ (∀ other, other ≠ k →
         included (Queryable.includeMap (Queryable.query q)) other
         = included (Queryable.includeMap (Queryable.query this)) other).
Proof.
  intros Hne Hfree.
  destruct (include_root k this) as (found & Hfound & Hdefault & Hothers).
  destruct (thenInclude_at j k found (Queryable.include k this)) as
    (q & sub & Hq & Hpointer & Hspec & Hsub & Hj & Hsubothers & Hqothers);
    [done| |exact Hfound|].
  { change (Queryable.currentIncludePointer (Queryable.include k this)) with k.
    rewrite split_name by done. rewrite append_nil.
    cbn [Queryable.includeMapContext]. unfold included in Hfound.
    by rewrite Hfound. }
  exists q, sub. split; [done|]. split; [done|]. split; [done|]. split; [done|].
  split; [by rewrite Hj|]. split; [by rewrite <- Hdefault|].
  intros other Hother. rewrite Hqothers by done. by apply Hothers.
Qed.

(** X16. [thenInclude] on the queryable of a repository, before any
    [include], throws. After [include] of a relation it returns, moves the
    pointer one step down and makes the new relation an entry under the
    included one; what was nested there already and the other entries of the
    root stay. The two names are not inherited from [Object.prototype], and
    the first is not empty and has no colon. *)
Theorem thenInclude_nests_under_the_included_relation (k j : string)
    (this : Queryable.fluent) :
  inherited k = false → inherited j = false →
  k ≠ "" → colonFree k = true →
  (∀ spec, Queryable.thenInclude j (Repository_getQueryable spec)
           = Raised Queryable.ThenIncludeBeforeInclude)
  ∧ ∃ q sub,
      Queryable.thenInclude j (Queryable.include k this) = Returned q
      ∧ Queryable.currentIncludePointer q = k +:+ "::" +:+ j
      ∧ included (Queryable.includeMap (Queryable.query q)) k = Some sub
      ∧ is_Some (included sub j)
      ∧ (∀ other, other ≠ j →
           included sub other
           = included (default (IncludeNode [])
                         (included (Queryable.includeMap (Queryable.query this)) k))
               other)
      ∧ (∀ other, other ≠ k →
           included (Queryable.includeMap (Queryable.query q)) other
           = included (Queryable.includeMap (Queryable.query this)) other).
Proof.
  intros _ _ Hne Hfree. split; [done|].
  destruct (thenInclude_after_include k j this Hne Hfree)
    as (q & sub & Hq & Hpointer & _ & Hrest).
  by exists q, sub.
Qed.

(** X17. A [thenInclude] chained after a [thenInclude] looks the last name of
    its path up at the root of the include map, not under the relation
    before it. After [include(a).thenInclude(b)] with [b] no entry of the
    root, [thenInclude(c)] throws; with [b] an entry of the root it returns
    and [c] becomes an entry under that root entry, while what is nested
    under [a], its [b] included, stays as it was. The three names are not
    inherited from [Object.prototype], [a] and [b] differ and have no colon,
    and [a] is not empty. *)
Theorem thenInclude_resolves_its_context_at_the_root (a b c : string)
    (this q : Queryable.fluent) :
  inherited a = false → inherited b = false → inherited c = false →
  a ≠ "" → colonFree a = true → colonFree b = true → b ≠ a →
  Queryable.thenInclude b (Queryable.include a this) = Returned q →
  match included (Queryable.includeMap (Queryable.query this)) b with
  | None => Queryable.thenInclude c q = Raised Queryable.IncludeContextCorrupted
  | Some found =>
      ∃ q' sub,
        Queryable.thenInclude c q = Returned q'
        ∧ included (Queryable.includeMap (Queryable.query q')) b = Some sub
        ∧ is_Some (included sub c)
        ∧ included (Queryable.includeMap (Queryable.query q')) a
          = included (Queryable.includeMap (Queryable.query q)) a
  end.
Proof.
  intros _ _ _ Ha Hfa Hfb Hba Hq.
  destruct (thenInclude_after_include a b this Ha Hfa)
    as (q0 & sub & Hq0 & Hpointer & _ & Hsub & _ & _ & Hothers).
  assert (q0 = q) as -> by congruence.
  assert (Queryable.split "" (Queryable.currentIncludePointer q) = [a; b]) as Hpath.
  { rewrite Hpointer, split_pointer, split_name by done. by string_simpl. }
  assert (Queryable.currentIncludePointer q ≠ "") as Hnonempty.
  { rewrite Hpointer. destruct a; [done|]. by string_simpl. }
  specialize (Hothers b Hba). unfold included in *.
  destruct (getField (entries (Queryable.includeMap (Queryable.query this))) b)
    as [found|] eqn:Hb.
  - destruct (thenInclude_at c b found q) as
      (q' & sub' & Hq' & _ & _ & Hsub' & Hc & _ & Hqothers); [done| |done|].
    { rewrite Hpath. cbn [Queryable.includeMapContext]. by rewrite Hsub, Hothers. }
    exists q', sub'. unfold included in *.
    split; [done|]. split; [done|]. split; [by rewrite Hc|].
    apply Hqothers. congruence.
  - unfold Queryable.thenInclude. apply String.eqb_neq in Hnonempty.
    rewrite Hnonempty, Hpath. cbn [Queryable.includeMapContext].
    by rewrite Hsub, Hothers.
Qed.

Lemma thenInclude_nests_under_the_included_relation_witness :
  (∀ spec, Queryable.thenInclude "person" (Repository_getQueryable spec)
           = Raised Queryable.ThenIncludeBeforeInclude)
  ∧ ∃ q sub,
      Queryable.thenInclude "person"
        (Queryable.include "address" (Repository_getQueryable PersonSpecification))
      = Returned q
      ∧ Queryable.currentIncludePointer q = "address" +:+ "::" +:+ "person"
      ∧ included (Queryable.includeMap (Queryable.query q)) "address" = Some sub
      ∧ is_Some (included sub "person")
      ∧ (∀ other, other ≠ "person" →
           included sub other
           = included
               (default (IncludeNode [])
                  (included (Queryable.includeMap
                               (Queryable.query
                                  (Repository_getQueryable PersonSpecification)))
                     "address"))
               other)
      ∧ (∀ other, other ≠ "address" →
           included (Queryable.includeMap (Queryable.query q)) other
           = included (Queryable.includeMap
                         (Queryable.query (Repository_getQueryable PersonSpecification)))
               other).
Proof.
  apply (thenInclude_nests_under_the_included_relation "address" "person"
           (Repository_getQueryable PersonSpecification)).
  - reflexivity.
  - reflexivity.
  - done.
  - reflexivity.
Defined.

Lemma thenInclude_resolves_its_context_at_the_root_witness :
  Queryable.thenInclude "address" peopleWithAddressAndPerson
  = Raised Queryable.IncludeContextCorrupted.
Proof.
  apply (thenInclude_resolves_its_context_at_the_root "address" "person" "address"
           (Repository_getQueryable PersonSpecification) peopleWithAddressAndPerson).
  - reflexivity.
  - reflexivity.
  - reflexivity.
  - done.
  - reflexivity.
  - reflexivity.
  - done.
  - reflexivity.
Defined.

(** ** Rows without related objects: create, update, delete and read *)

Lemma columnKey_getDataKey (reg : ClassSpecificationRegistry.specifications)
    (table : string) (id : Scalar) (column k : string) :
  DataDriver.getDataKey reg table id column = Ok k →
  LocalStorageDriver.keyPrefix +:+ k = columnKey table id column.
Proof. by intros ->%getDataKey_Ok. Qed.

Lemma getById_recorded (reg : ClassSpecificationRegistry.specifications)
    (spec : ClassSpecification) (id : Scalar) (e : Entity) (st : gmap string Text)
    (index : list Scalar) :
  registryOk reg → registered reg spec →
  DataDriver.getTableIndex (tableName spec) st = Ok index → id ∈ index →
  recorded spec id e st →
  ∃ view, Queryable.getById reg (plain spec) id st = Ok view ∧ readsAs spec e view.
Proof.
  intros Hreg Hspec Hindex Hin Hrecorded.
  destruct (loadRecord_Ok reg (tableName spec) id (nonRelationalProperties spec) [] st)
    as [data Hdata].
  { intros p Hp. eexists. by apply getDataKey_registered. }
  exists (ShadowFactory.for_ data (map name (relationalProperties spec))). split.
  - unfold Queryable.getById. simpl. unfold bindQ at 1 2. rewrite Hindex.
    apply includes_true in Hin. rewrite Hin. simpl. unfold bindQ at 1.
    by rewrite Hdata.
  - intros p Hp Hrel. rewrite get_not_excluded.
    2:{ simpl. by rewrite elem_of_list_to_set. }
    simpl source.
    pose proof (getDataKey_registered reg Hreg spec id p Hspec Hp) as Hkp.
    rewrite (loadRecord_fields _ _ _ _ _ _ _ Hdata p _ Hkp).
    rewrite (bool_decide_eq_true_2 _ Hp), (read_textOf _ (getScalar e p)).
    2:{ by apply Hrecorded. }
    simpl. by destruct (truthyScalar (getScalar e p)) eqn:Ht; simpl; rewrite ?Ht.
Qed.

Lemma writeProperties_recorded (reg : ClassSpecificationRegistry.specifications)
    (spec : ClassSpecification) (id : Scalar) (e : Entity) (st : gmap string Text) :
  registryOk reg → registered reg spec → wellFormed st →
  ∃ st',
    forEach (nonRelationalProperties spec) (λ property,
      let! dataKey :=
        liftO (DataDriver.getDataKey reg (tableName spec) id property) in
      let dataToStore :=
        match getScalar e property with
        | SUndefined => SNull
        | v => v
        end in
      LocalStorageDriver.write dataKey (VScalar dataToStore)) st = (Ok (), st')
    ∧ wellFormed st'
    ∧ recorded spec id e st'
    ∧ ∀ key, isIndexKey (LocalStorageDriver.keyPrefix +:+ key) →
        st' !! (LocalStorageDriver.keyPrefix +:+ key)
        = st !! (LocalStorageDriver.keyPrefix +:+ key).
Proof.
  intros Hreg Hspec Hwf.
  pose proof (writeProperties_outcome reg Hreg spec id e (λ _, False) Hspec st Hwf)
    as Hwf'.
  pose proof (writeProperties_written reg (tableName spec) id
    (nonRelationalProperties spec) e st) as Hwritten.
  pose proof (λ key Hkey, writeProperties_untouched reg (tableName spec) id
    (nonRelationalProperties spec) e key
    (st !! (LocalStorageDriver.keyPrefix +:+ key)) Hkey st eq_refl) as Hsame.
  destruct (forEach _ _ st) as [[[]|?] st'] eqn:Hwrites; simpl in Hwf'; [|tauto].
  exists st'. split; [done|]. split; [done|]. split.
  - intros p Hp. destruct (Hwritten st' p eq_refl Hp) as (k & Hk & Htext).
    by rewrite <- (columnKey_getDataKey _ _ _ _ _ Hk).
  - intros key Hkey. by destruct (Hsame key Hkey).
Qed.

Lemma indexRelations_plain (reg : ClassSpecificationRegistry.specifications)
    (spec : ClassSpecification) (e : Entity) (id : Scalar) (st : gmap string Text) :
  registryOk reg → registered reg spec → wellFormed st →
  ∃ st',
    indexRelations reg spec e id st = (Ok (), st')
    ∧ wellFormed st'
    ∧ st' !! (LocalStorageDriver.keyPrefix +:+ DataDriver.getTableIndexKey (tableName spec))
      = st !! (LocalStorageDriver.keyPrefix
                 +:+ DataDriver.getTableIndexKey (tableName spec)).
Proof.
  intros Hreg Hspec Hwf.
  pose proof (indexRelations_total reg spec e id Hreg Hspec st Hwf) as Hwf1.
  pose proof (indexRelations_untouched reg spec e id _ st eq_refl) as Hsame.
  destruct (indexRelations reg spec e id st) as [[[]|?] st1]; simpl in Hwf1, Hsame;
    [|tauto].
  exists st1. split; [done|]. split; [done|]. by destruct Hsame.
Qed.

Lemma addTableIndex_appends (table : string) (i : Scalar) (st : gmap string Text)
    (index : list Scalar) :
  wellFormed st → DataDriver.getTableIndex table st = Ok index → i ∉ index →
  DataDriver.addTableIndex table i st
  = (Ok (), <[LocalStorageDriver.keyPrefix +:+ DataDriver.getTableIndexKey table :=
               Json (VArray (map jsonElement (index ++ [i])))]> st).
Proof.
  intros Hwf Hindex Hnot. rewrite wellFormed_getTableIndex in Hindex by done.
  injection Hindex as <-. unfold DataDriver.addTableIndex, bind, liftQ.
  rewrite wellFormed_readIndex by (done || apply tableIndexKey_isIndexKey).
  destruct (arrayAt _ st) as [l|]; simpl in *; [|done].
  apply includes_false in Hnot. by rewrite Hnot.
Qed.

Lemma bind_Ok {A B} (m : M A) (f : A → M B) (st st' : gmap string Text) (a : A) :
  m st = (Ok a, st') → bind m f st = f a st'.
Proof. intros H. unfold bind. by rewrite H. Qed.

Lemma handleRelationalProperties_plain (fuel : nat)
    (reg : ClassSpecificationRegistry.specifications) (spec : ClassSpecification)
    (e : Entity) (id : Scalar) (st : gmap string Text) :
  registryOk reg → registered reg spec → wellFormed st → noRelatedObjects spec e →
  ∃ st',
    Repository.handleRelationalProperties (S fuel) reg spec e id st = (Ok e, st')
    ∧ wellFormed st'
    ∧ st' !! (LocalStorageDriver.keyPrefix +:+ DataDriver.getTableIndexKey (tableName spec))
      = st !! (LocalStorageDriver.keyPrefix
                 +:+ DataDriver.getTableIndexKey (tableName spec)).
Proof.
  intros Hreg Hspec Hwf Hnone.
  rewrite (handleRelationalProperties_noRelatedObjects fuel reg spec e id st Hnone).
  destruct (indexRelations_plain reg spec e id st Hreg Hspec Hwf)
    as (st1 & Hrun & Hwf1 & Hsame).
  exists st1. split; [|done]. by rewrite (bind_Ok _ _ _ _ _ Hrun).
Qed.

Lemma create_plain (fuel : nat) (reg : ClassSpecificationRegistry.specifications)
    (spec : ClassSpecification) (e : Entity) (st : gmap string Text)
    (index : list Scalar) :
  let id := getScalar e (identifierProperty spec) in
  registryOk reg → registered reg spec → wellFormed st → noRelatedObjects spec e →
  DataDriver.getTableIndex (tableName spec) st = Ok index → id ∉ index →
  ∃ st',
    Repository.create (S (S fuel)) reg spec e st = (Ok id, st')
    ∧ wellFormed st'
    ∧ DataDriver.getTableIndex (tableName spec) st'
      = Ok (map jsonElement (index ++ [id]))
    ∧ recorded spec id e st'.
Proof.
  intros id Hreg Hspec Hwf Hnone Hindex Hnot.
  destruct (handleRelationalProperties_plain fuel reg spec e id st Hreg Hspec Hwf Hnone)
    as (st1 & Hcascade & Hwf1 & Hsame).
  assert (DataDriver.getTableIndex (tableName spec) st1 = Ok index) as Hindex1.
  { rewrite <- Hindex. by apply getTableIndex_ext. }
  pose proof (addTableIndex_outcome (tableName spec) id st1 Hwf1) as Hwf2.
  pose proof (addTableIndex_appends (tableName spec) id st1 index Hwf1 Hindex1 Hnot)
    as Hadd.
  rewrite Hadd in Hwf2. simpl in Hwf2.
  destruct (writeProperties_recorded reg spec id e _ Hreg Hspec Hwf2)
    as (st' & Hwrites & Hwf' & Hrecorded & Hindexes).
  exists st'. split; [|split; [done|split; [|done]]].
  - rewrite create_unfold. fold id.
    rewrite (bind_Ok _ _ _ _ _ Hcascade), (bind_Ok _ _ _ _ _ Hadd).
    by rewrite (bind_Ok _ _ _ _ _ Hwrites).
  - rewrite wellFormed_getTableIndex by done. unfold arrayAt.
    rewrite Hindexes by apply tableIndexKey_isIndexKey.
    by rewrite lookup_insert_eq.
Qed.

Lemma update_plain (fuel : nat) (reg : ClassSpecificationRegistry.specifications)
    (spec : ClassSpecification) (e : Entity) (st : gmap string Text) :
  let id := getScalar e (identifierProperty spec) in
  registryOk reg → registered reg spec → wellFormed st → noRelatedObjects spec e →
  ∃ st',
    Repository.update (S (S fuel)) reg spec e st = (Ok (), st')
    ∧ wellFormed st'
    ∧ DataDriver.getTableIndex (tableName spec) st'
      = DataDriver.getTableIndex (tableName spec) st
    ∧ recorded spec id e st'.
Proof.
  intros id Hreg Hspec Hwf Hnone.
  destruct (handleRelationalProperties_plain fuel reg spec e id st Hreg Hspec Hwf Hnone)
    as (st1 & Hcascade & Hwf1 & Hsame).
  destruct (writeProperties_recorded reg spec id e _ Hreg Hspec Hwf1)
    as (st' & Hwrites & Hwf' & Hrecorded & Hindexes).
  exists st'. split; [|split; [done|split; [|done]]].
  - rewrite update_unfold. fold id. by rewrite (bind_Ok _ _ _ _ _ Hcascade).
  - apply getTableIndex_ext.
    by rewrite Hindexes by apply tableIndexKey_isIndexKey.
Qed.

(** X18. For an instance without related objects whose identifier is new to
    the table and whose values are plain ([undefined], [null], booleans,
    strings and safe integers; no [Date] and no number that is not finite),
    [create] returns the identifier and [getById] then returns an object on
    which every column with a truthy value reads as that value, and every
    column with a falsy value reads as [undefined]. No property of the class
    has a name inherited from [Object.prototype]. *)
Theorem create_then_getById_reads_the_truthy_scalars (fuel : nat)
    (reg : ClassSpecificationRegistry.specifications) (spec : ClassSpecification)
    (e : Entity) (st : gmap string Text) (index : list Scalar) :
  let id := getScalar e (identifierProperty spec) in
  ownNames spec = true → plainValues e = true →
  registryOk reg → registered reg spec → wellFormed st → noRelatedObjects spec e →
  EntityIdentifierType id →
  DataDriver.getTableIndex (tableName spec) st = Ok index → id ∉ index →
  ∃ st' view,
    Repository.create (S (S fuel)) reg spec e st = (Ok id, st')
    ∧ Queryable.getById reg (plain spec) id st' = Ok view
    ∧ readsAs spec e view.
Proof.
  intros id _ _ Hreg Hspec Hwf Hnone Hid Hindex Hnot.
  destruct (create_plain fuel reg spec e st index Hreg Hspec Hwf Hnone Hindex Hnot)
    as (st' & Hcreate & Hwf' & Hindex' & Hrecorded).
  destruct (getById_recorded reg spec id e st' _ Hreg Hspec Hindex') as (view & Hview);
    [|done|].
  { apply elem_of_map_jsonElement; [done|]. apply elem_of_app. right. by left. }
  by exists st', view.
Qed.

(** X19. For an instance without related objects whose identifier is in the
    identifier index of the table and whose values are plain ([undefined],
    [null], booleans, strings and safe integers; no [Date] and no number
    that is not finite), [update] returns and [getById] then returns an
    object that reads as the instance given to [update]: nothing of the row
    as it was before is left on a column of the specification. No property
    of the class has a name inherited from [Object.prototype]. *)
Theorem update_then_getById_reads_the_new_scalars (fuel : nat)
    (reg : ClassSpecificationRegistry.specifications) (spec : ClassSpecification)
    (e : Entity) (st : gmap string Text) (index : list Scalar) :
  let id := getScalar e (identifierProperty spec) in
  ownNames spec = true → plainValues e = true →
  registryOk reg → registered reg spec → wellFormed st → noRelatedObjects spec e →
  DataDriver.getTableIndex (tableName spec) st = Ok index → id ∈ index →
  ∃ st' view,
    Repository.update (S (S fuel)) reg spec e st = (Ok (), st')
    ∧ Queryable.getById reg (plain spec) id st' = Ok view
    ∧ readsAs spec e view.
Proof.
  intros id _ _ Hreg Hspec Hwf Hnone Hindex Hin.
  destruct (update_plain fuel reg spec e st Hreg Hspec Hwf Hnone)
    as (st' & Hupdate & Hwf' & Hindex' & Hrecorded).
  rewrite Hindex in Hindex'.
  destruct (getById_recorded reg spec id e st' index Hreg Hspec Hindex' Hin Hrecorded)
    as (view & Hview).
  by exists st', view.
Qed.

Lemma delete_settles (reg : ClassSpecificationRegistry.specifications)
    (spec : ClassSpecification) (e : Entity) (st : gmap string Text) :
  registryOk reg → registered reg spec → wellFormed st →
  EntityIdentifierType (getScalar e (identifierProperty spec)) →
  ∃ st' index',
    Repository.delete reg spec e st = (Ok (), st')
    ∧ wellFormed st'
    ∧ DataDriver.getTableIndex (tableName spec) st' = Ok index'
    ∧ getScalar e (identifierProperty spec) ∉ index'.
Proof.
  intros Hreg Hspec Hwf Hid.
  pose proof (wellFormed_getTableIndex (tableName spec) st Hwf) as Hindex.
  destruct (decide (getScalar e (identifierProperty spec)
                    ∈ default [] (arrayAt (LocalStorageDriver.keyPrefix
                         +:+ DataDriver.getTableIndexKey (tableName spec)) st)))
    as [Hin|Hnot].
  - destruct (delete_present reg Hreg spec Hspec e Hid st _ Hwf Hindex Hin)
      as (st' & Hdelete & Hwf' & Habsent & _).
    exists st'. eexists. split; [done|]. split; [done|].
    split; [by apply wellFormed_getTableIndex | done].
  - exists st. eexists. split; [by eapply delete_absent|]. by split.
Qed.

(** X20. [delete] is idempotent: it returns, and a second [delete] of the same
    instance returns and leaves the storage exactly as the first one left
    it. *)
Theorem delete_twice_is_delete_once (reg : ClassSpecificationRegistry.specifications)
    (spec : ClassSpecification) (e : Entity) (st : gmap string Text) :
  registryOk reg → registered reg spec → wellFormed st →
  EntityIdentifierType (getScalar e (identifierProperty spec)) →
  ∃ st',
    Repository.delete reg spec e st = (Ok (), st')
    ∧ Repository.delete reg spec e st' = (Ok (), st').
Proof.
  intros Hreg Hspec Hwf Hid.
  destruct (delete_settles reg spec e st Hreg Hspec Hwf Hid)
    as (st' & index' & Hdelete & Hwf' & Hindex' & Hnot).
  exists st'. split; [done|]. by eapply delete_absent.
Qed.

(** X21. After [delete], the identifier is free again: [create] of an instance
    without related objects that has the identifier of the deleted one
    returns, and [getById] then returns an object that reads as the new
    instance on every column, the columns with a falsy value included. The
    values of the new instance are plain ([undefined], [null], booleans,
    strings and safe integers; no [Date] and no number that is not finite),
    and no property of the class has a name inherited from
    [Object.prototype]. *)
Theorem delete_then_create_reads_the_new_row (fuel : nat)
    (reg : ClassSpecificationRegistry.specifications) (spec : ClassSpecification)
    (old new : Entity) (st : gmap string Text) :
  let id := getScalar new (identifierProperty spec) in
  ownNames spec = true → plainValues new = true →
  registryOk reg → registered reg spec → wellFormed st → noRelatedObjects spec new →
  EntityIdentifierType id → getScalar old (identifierProperty spec) = id →
  ∃ st1 st2 view,
    Repository.delete reg spec old st = (Ok (), st1)
    ∧ Repository.create (S (S fuel)) reg spec new st1 = (Ok id, st2)
    ∧ Queryable.getById reg (plain spec) id st2 = Ok view
    ∧ readsAs spec new view.
Proof.
  intros id _ _ Hreg Hspec Hwf Hnone Hid Hold.
  destruct (delete_settles reg spec old st Hreg Hspec Hwf) as
    (st1 & index1 & Hdelete & Hwf1 & Hindex1 & Hnot); [by rewrite Hold|].
  rewrite Hold in Hnot.
  destruct (create_plain fuel reg spec new st1 index1 Hreg Hspec Hwf1 Hnone Hindex1 Hnot)
    as (st2 & Hcreate & Hwf2 & Hindex2 & Hrecorded).
  destruct (getById_recorded reg spec id new st2 _ Hreg Hspec Hindex2) as (view & Hview);
    [|done|].
  { apply elem_of_map_jsonElement; [done|]. apply elem_of_app. right. by left. }
  by exists st1, st2, view.
Qed.

(** X22. The identifier index tells a safe integer [n] from the string of
    its digits, and the keys of the columns do not. [create] of an instance
    with the one identifier and then of an instance with the other both
    return, and [getById] of the first identifier then returns an object
    that reads as the second instance: the row of the first is overwritten.
    The values of the second instance are plain ([undefined], [null],
    booleans, strings and safe integers), and no property of the class has
    a name inherited from [Object.prototype]. *)
Theorem number_and_string_identifiers_share_a_row (fuel : nat)
    (reg : ClassSpecificationRegistry.specifications) (spec : ClassSpecification)
    (first second : Entity) (n : Z) (st : gmap string Text) (index : list Scalar) :
  safeInteger n = true → ownNames spec = true → plainValues second = true →
  registryOk reg → registered reg spec → wellFormed st →
  noRelatedObjects spec first → noRelatedObjects spec second →
  getScalar first (identifierProperty spec) = SNum n →
  getScalar second (identifierProperty spec) = SStr (toString (SNum n)) →
  DataDriver.getTableIndex (tableName spec) st = Ok index →
  SNum n ∉ index → SStr (toString (SNum n)) ∉ index →
  ∃ st1 st2 view,
    Repository.create (S (S fuel)) reg spec first st = (Ok (SNum n), st1)
    ∧ Repository.create (S (S fuel)) reg spec second st1
      = (Ok (SStr (toString (SNum n))), st2)
    ∧ Queryable.getById reg (plain spec) (SNum n) st2 = Ok view
    ∧ readsAs spec second view.
Proof.
  intros _ _ _ Hreg Hspec Hwf Hnone1 Hnone2 Hid1 Hid2 Hindex Hnot1 Hnot2.
  destruct (create_plain fuel reg spec first st index Hreg Hspec Hwf Hnone1 Hindex)
    as (st1 & Hcreate1 & Hwf1 & Hindex1 & _); [by rewrite Hid1|].
  rewrite Hid1 in Hcreate1, Hindex1.
  destruct (create_plain fuel reg spec second st1 _ Hreg Hspec Hwf1 Hnone2 Hindex1)
    as (st2 & Hcreate2 & Hwf2 & Hindex2 & Hrecorded).
  { rewrite Hid2. rewrite elem_of_map_jsonElement by done.
    intros [?|Hin]%elem_of_app; [done|].
    by apply list_elem_of_singleton in Hin. }
  rewrite Hid2 in Hcreate2, Hindex2, Hrecorded.
  destruct (getById_recorded reg spec (SNum n) second st2 _ Hreg Hspec Hindex2)
    as (view & Hview); [| |by exists st1, st2, view].
  - apply elem_of_map_jsonElement; [done|]. apply elem_of_app. left.
    apply elem_of_map_jsonElement; [done|]. apply elem_of_app. right. by left.
  - intros p Hp. by apply Hrecorded.
Qed.

(** X23. The upsert of the cascade, [createOrUpdate], never meets the
    constraint of the identifier index: for an instance without related
    objects it returns the identifier whether or not the row exists, leaves
    the index as it was when the row existed, and [getById] then returns an
    object that reads as the instance. The values of the instance are plain
    ([undefined], [null], booleans, strings and safe integers; no [Date] and
    no number that is not finite), and no property of the class has a name
    inherited from [Object.prototype]. *)
Theorem createOrUpdate_is_an_upsert (fuel : nat)
    (reg : ClassSpecificationRegistry.specifications) (spec : ClassSpecification)
    (e : Entity) (st : gmap string Text) (index : list Scalar) :
  let id := getScalar e (identifierProperty spec) in
  ownNames spec = true → plainValues e = true →
  registryOk reg → registered reg spec → wellFormed st → noRelatedObjects spec e →
  EntityIdentifierType id →
  DataDriver.getTableIndex (tableName spec) st = Ok index →
  ∃ st' view,
    Repository.createOrUpdate (S (S (S fuel))) reg spec e st = (Ok id, st')
    ∧ DataDriver.getTableIndex (tableName spec) st'
      = Ok (if bool_decide (id ∈ index) then index else map jsonElement (index ++ [id]))
    ∧ Queryable.getById reg (plain spec) id st' = Ok view
    ∧ readsAs spec e view.
Proof.
  intros id _ _ Hreg Hspec Hwf Hnone Hid Hindex.
  change (Repository.createOrUpdate (S (S (S fuel))) reg spec e st)
    with ((let! index := liftQ (DataDriver.getTableIndex (tableName spec)) in
           if includes index id
           then do! Repository.update (S (S fuel)) reg spec e in ret id
           else Repository.create (S (S fuel)) reg spec e) st).
  unfold bind at 1, liftQ. rewrite Hindex. unfold includes.
  case_bool_decide as Hin.
  - destruct (update_plain fuel reg spec e st Hreg Hspec Hwf Hnone)
      as (st' & Hupdate & Hwf' & Hindex' & Hrecorded).
    rewrite Hindex in Hindex'.
    destruct (getById_recorded reg spec id e st' index Hreg Hspec Hindex' Hin Hrecorded)
      as (view & Hview).
    exists st', view. by rewrite (bind_Ok _ _ _ _ _ Hupdate).
  - destruct (create_plain fuel reg spec e st index Hreg Hspec Hwf Hnone Hindex Hin)
      as (st' & Hcreate & Hwf' & Hindex' & Hrecorded).
    destruct (getById_recorded reg spec id e st' _ Hreg Hspec Hindex') as (view & Hview);
      [|done|].
    { apply elem_of_map_jsonElement; [done|]. apply elem_of_app. right. by left. }
    by exists st', view.
Qed.

Lemma mapQ_ext_in {A B} (l : list A) (f g : A → Q B) (st : gmap string Text) :
  (∀ x, x ∈ l → f x st = g x st) → mapQ l f st = mapQ l g st.
Proof.
  induction l as [|x l IH]; intros H; [done|].
  simpl. unfold bindQ. rewrite H by left. destruct (g x st); [|done].
  rewrite IH; [done|]. intros y Hy. apply H. by right.
Qed.

(** X24. [getAll] returns, in the order of the identifier index, what
    [getById] returns for each identifier of the index, and throws what the
    first [getById] that throws does. On a table without an index it
    returns the empty array. *)
Theorem getAll_returns_getById_of_every_identifier
    (reg : ClassSpecificationRegistry.specifications) (q : Queryable.t)
    (st : gmap string Text) (index : list Scalar) :
  DataDriver.getTableIndex (tableName (Queryable.rootClassSpecification q)) st
  = Ok index →
  Queryable.getAll reg q st = mapQ index (λ id, Queryable.getById reg q id) st.
Proof.
  intros Hindex. unfold Queryable.getAll, bindQ. rewrite Hindex.
  apply mapQ_ext_in. intros id Hin. unfold Queryable.getById.
  destruct (fuelFor_positive (Queryable.includeMap q)) as [n ->]. simpl.
  match goal with |- bindQ _ ?k st = _ => generalize k end. intros rest.
  unfold bindQ. rewrite Hindex. apply includes_true in Hin. by rewrite Hin.
Qed.

Lemma registered_person : registered readmeRegistry PersonSpecification.
Proof. by exists "Person". Qed.

Lemma noRelatedObjects_decide (spec : ClassSpecification) (e : Entity) :
  forallb (λ rp,
    if isCollection rp
    then match getField (manys e) (name rp) with
         | None | Some [] => true
         | Some _ => false
         end
    else match getField (ones e) (name rp) with
         | None => true
         | Some _ => false
         end) (relationalProperties spec) = true →
  noRelatedObjects spec e.
Proof.
  intros H rp Hrp. rewrite forallb_forall in H.
  specialize (H rp (proj1 (list_elem_of_In _ _) Hrp)).
  destruct (isCollection rp).
  - destruct (getField (manys e) (name rp)) as [[|]|]; auto; done.
  - by destruct (getField (ones e) (name rp)).
Qed.

Lemma create_then_getById_reads_the_truthy_scalars_witness :
  ∃ st' view,
    Repository.create 2 readmeRegistry PersonSpecification person2 onePerson
    = (Ok (SStr "2"), st')
    ∧ Queryable.getById readmeRegistry (plain PersonSpecification) (SStr "2") st' = Ok view
    ∧ readsAs PersonSpecification person2 view.
Proof.
  apply (create_then_getById_reads_the_truthy_scalars 0 readmeRegistry
           PersonSpecification person2 onePerson [SStr "1"]).
  - reflexivity.
  - reflexivity.
  - apply readmeRegistry_ok.
  - apply registered_person.
  - replace onePerson with
      (performAll 4 readmeRegistry [Create "Person" person1] ∅)
      by (vm_compute; reflexivity).
    apply performAll_wellFormed, wellFormed_empty.
  - by apply noRelatedObjects_decide.
  - exact I.
  - vm_compute. reflexivity.
  - by intros [=]%list_elem_of_singleton.
Defined.

Lemma update_then_getById_reads_the_new_scalars_witness :
  ∃ st' view,
    Repository.update 2 readmeRegistry PersonSpecification
      (mkEntity [("id", SStr "1"); ("name", SStr "Johnny")] [] []) twoPeople
    = (Ok (), st')
    ∧ Queryable.getById readmeRegistry (plain PersonSpecification) (SStr "1") st' = Ok view
    ∧ readsAs PersonSpecification
        (mkEntity [("id", SStr "1"); ("name", SStr "Johnny")] [] []) view.
Proof.
  apply (update_then_getById_reads_the_new_scalars 0 readmeRegistry PersonSpecification
           (mkEntity [("id", SStr "1"); ("name", SStr "Johnny")] [] []) twoPeople
           [SStr "1"; SStr "2"]).
  - reflexivity.
  - reflexivity.
  - apply readmeRegistry_ok.
  - apply registered_person.
  - apply twoPeople_wellFormed.
  - by apply noRelatedObjects_decide.
  - vm_compute. reflexivity.
  - by left.
Defined.

Lemma delete_twice_is_delete_once_witness :
  ∃ st',
    Repository.delete readmeRegistry PersonSpecification person1 twoPeople = (Ok (), st')
    ∧ Repository.delete readmeRegistry PersonSpecification person1 st' = (Ok (), st').
Proof.
  apply (delete_twice_is_delete_once readmeRegistry PersonSpecification person1 twoPeople).
  - apply readmeRegistry_ok.
  - apply registered_person.
  - apply twoPeople_wellFormed.
  - exact I.
Defined.

Lemma delete_then_create_reads_the_new_row_witness :
  ∃ st1 st2 view,
    Repository.delete readmeRegistry PersonSpecification person1 twoPeople = (Ok (), st1)
    ∧ Repository.create 2 readmeRegistry PersonSpecification
        (mkEntity [("id", SStr "1"); ("name", SStr "Johnny")] [] []) st1
      = (Ok (SStr "1"), st2)
    ∧ Queryable.getById readmeRegistry (plain PersonSpecification) (SStr "1") st2 = Ok view
    ∧ readsAs PersonSpecification
        (mkEntity [("id", SStr "1"); ("name", SStr "Johnny")] [] []) view.
Proof.
  apply (delete_then_create_reads_the_new_row 0 readmeRegistry PersonSpecification
           person1 (mkEntity [("id", SStr "1"); ("name", SStr "Johnny")] [] [])
           twoPeople).
  - reflexivity.
  - reflexivity.
  - apply readmeRegistry_ok.
  - apply registered_person.
  - apply twoPeople_wellFormed.
  - by apply noRelatedObjects_decide.
  - exact I.
  - reflexivity.
Defined.

Lemma number_and_string_identifiers_share_a_row_witness :
  ∃ st1 st2 view,
    Repository.create 2 taskRegistry TaskSpecification task1 ∅ = (Ok (SNum 1), st1)
    ∧ Repository.create 2 taskRegistry TaskSpecification
        (mkEntity [("id", SStr "1"); ("owner", SStr "bob")] [] []) st1
      = (Ok (SStr (toString (SNum 1))), st2)
    ∧ Queryable.getById taskRegistry (plain TaskSpecification) (SNum 1) st2 = Ok view
    ∧ readsAs TaskSpecification
        (mkEntity [("id", SStr "1"); ("owner", SStr "bob")] [] []) view.
Proof.
  apply (number_and_string_identifiers_share_a_row 0 taskRegistry TaskSpecification
           task1 (mkEntity [("id", SStr "1"); ("owner", SStr "bob")] [] []) 1 ∅ []).
  - reflexivity.
  - reflexivity.
  - reflexivity.
  - apply registryOkb_correct. reflexivity.
  - by exists "Task".
  - apply wellFormed_empty.
  - by apply noRelatedObjects_decide.
  - by apply noRelatedObjects_decide.
  - reflexivity.
  - reflexivity.
  - reflexivity.
  - apply not_elem_of_nil.
  - apply not_elem_of_nil.
Defined.

Lemma createOrUpdate_is_an_upsert_witness :
  ∃ st' view,
    Repository.createOrUpdate 3 readmeRegistry PersonSpecification person1 twoPeople
    = (Ok (SStr "1"), st')
    ∧ DataDriver.getTableIndex "person" st'
      = Ok (if bool_decide (SStr "1" ∈ [SStr "1"; SStr "2"])
            then [SStr "1"; SStr "2"]
            else map jsonElement ([SStr "1"; SStr "2"] ++ [SStr "1"]))
    ∧ Queryable.getById readmeRegistry (plain PersonSpecification) (SStr "1") st' = Ok view
    ∧ readsAs PersonSpecification person1 view.
Proof.
  apply (createOrUpdate_is_an_upsert 0 readmeRegistry PersonSpecification person1
           twoPeople [SStr "1"; SStr "2"]).
  - reflexivity.
  - reflexivity.
  - apply readmeRegistry_ok.
  - apply registered_person.
  - apply twoPeople_wellFormed.
  - by apply noRelatedObjects_decide.
  - exact I.
  - vm_compute. reflexivity.
Defined.

Lemma getAll_returns_getById_of_every_identifier_witness :
  Queryable.getAll readmeRegistry people twoPeople
  = mapQ [SStr "1"; SStr "2"] (λ id, Queryable.getById readmeRegistry people id) twoPeople.
Proof.
  apply (getAll_returns_getById_of_every_identifier readmeRegistry people twoPeople
           [SStr "1"; SStr "2"]).
  vm_compute. reflexivity.
Defined.

(** ** The driver and the keys of the data driver *)

(** X25. What the driver reads under a key after a [write] is the value
    written when that value is truthy, and [null] when it is falsy
    ([undefined], [null], [false], [0], the empty string); after a [remove]
    it is [null]. A [write] or a [remove] under one key changes what is read
    under no other key. *)
Theorem read_after_write_and_remove (key : string) (value : Value)
    (st : gmap string Text) :
  LocalStorageDriver.read key (snd (LocalStorageDriver.write key value st))
  = (if truthy value then parsed value else VScalar SNull)
  ∧ LocalStorageDriver.read key (snd (LocalStorageDriver.remove key st)) = VScalar SNull
  ∧ ∀ other, other ≠ key →
      LocalStorageDriver.read other (snd (LocalStorageDriver.write key value st))
      = LocalStorageDriver.read other st
      ∧ LocalStorageDriver.read other (snd (LocalStorageDriver.remove key st))
        = LocalStorageDriver.read other st.
Proof.
  unfold LocalStorageDriver.read, LocalStorageDriver.write, LocalStorageDriver.remove.
  simpl. rewrite lookup_insert_eq, lookup_delete_eq.
  split; [by destruct value as [[| |[]|n|s]|l]; simpl; try destruct (_ =? _)%Z;
            try destruct (String.eqb _ _)|].
  split; [done|]. intros other Hne.
  rewrite lookup_insert_ne, lookup_delete_ne; [done|..];
    intros Heq; by apply (inj _) in Heq.
Qed.

(** X26. [addRelationIndex] is idempotent: run once more on the storage it
    left, it ends as it ended and changes nothing. It does not throw on an
    identifier that the bucket holds already, where [addTableIndex] does. *)
Theorem addRelationIndex_twice_is_once (d s f : string) (v j : Scalar)
    (st : gmap string Text) :
  EntityIdentifierType j →
  DataDriver.addRelationIndex d s f v j
    (snd (DataDriver.addRelationIndex d s f v j st))
  = DataDriver.addRelationIndex d s f v j st.
Proof.
  intros Hj. unfold DataDriver.addRelationIndex, bind, liftQ.
  set (key := DataDriver.getRelationIndexKey d s f v).
  destruct (DataDriver.readIndex key st) as [[l|]|e] eqn:Hread; simpl.
  - destruct (includes l j) eqn:Hin; simpl.
    + by rewrite Hread, Hin.
    + assert (DataDriver.readIndex key
                (<[LocalStorageDriver.keyPrefix +:+ key :=
                    Json (VArray (map jsonElement (l ++ [j])))]> st)
              = Ok (Some (map jsonElement (l ++ [j])))) as ->.
      { apply readIndex_Some. by rewrite arrayAt_insert, decide_True. }
      assert (includes (map jsonElement (l ++ [j])) j = true) as ->; [|done].
      apply includes_true, elem_of_map_jsonElement; [done|].
      apply elem_of_app. right. by left.
  - assert (DataDriver.readIndex key
              (<[LocalStorageDriver.keyPrefix +:+ key :=
                  Json (VArray [jsonElement j])]> st)
            = Ok (Some [jsonElement j])) as ->.
    { apply readIndex_Some. by rewrite arrayAt_insert, decide_True. }
    assert (includes [jsonElement j] j = true) as ->; [|done].
    apply includes_true. rewrite (proj2 (jsonElement_identifier j j Hj) eq_refl).
    by left.
  - by rewrite Hread.
Qed.

Lemma addRelationIndex_twice_is_once_witness :
  DataDriver.addRelationIndex "person" "address" "personId" (SStr "1") (SStr "7")
    (snd (DataDriver.addRelationIndex "person" "address" "personId" (SStr "1") (SStr "7")
            personAndAddress))
  = DataDriver.addRelationIndex "person" "address" "personId" (SStr "1") (SStr "7")
      personAndAddress.
Proof.
  apply (addRelationIndex_twice_is_once "person" "address" "personId" (SStr "1")
           (SStr "7") personAndAddress).
  exact I.
Defined.

Lemma lookup_write_ne (key : string) (value : Value) (st : gmap string Text)
    (raw : string) :
  raw ≠ LocalStorageDriver.keyPrefix +:+ key →
  snd (LocalStorageDriver.write key value st) !! raw = st !! raw.
Proof. intros Hne. simpl. by rewrite lookup_insert_ne. Qed.

Lemma lookup_remove_ne (key : string) (st : gmap string Text) (raw : string) :
  raw ≠ LocalStorageDriver.keyPrefix +:+ key →
  snd (LocalStorageDriver.remove key st) !! raw = st !! raw.
Proof. intros Hne. simpl. by rewrite lookup_delete_ne. Qed.

(** The operations on an index change the entry of their key only. *)
Lemma indexOperation_lookup_ne (key raw : string) (st : gmap string Text) :
  raw ≠ LocalStorageDriver.keyPrefix +:+ key →
  (∀ table i, DataDriver.getTableIndexKey table = key →
     snd (DataDriver.addTableIndex table i st) !! raw = st !! raw
     ∧ snd (DataDriver.removeTableIndex table i st) !! raw = st !! raw)
  ∧ (∀ d s f v j, DataDriver.getRelationIndexKey d s f v = key →
       snd (DataDriver.addRelationIndex d s f v j st) !! raw = st !! raw
       ∧ snd (DataDriver.removeRelationIndex d s f v j st) !! raw = st !! raw
       ∧ snd (DataDriver.removeRelationIndexRecord d s f v st) !! raw = st !! raw).
Proof.
  intros Hne. split.
  - intros table i <-.
    unfold DataDriver.addTableIndex, DataDriver.removeTableIndex, bind, liftQ.
    destruct (DataDriver.readIndex _ st) as [[l|]|e]; simpl; [|by rewrite lookup_insert_ne|done].
    split; [|by rewrite lookup_insert_ne].
    destruct (includes l i); simpl; [done | by rewrite lookup_insert_ne].
  - intros d s f v j <-.
    unfold DataDriver.addRelationIndex, DataDriver.removeRelationIndex,
      DataDriver.removeRelationIndexRecord, bind, liftQ.
    split; [|split; [|by apply lookup_remove_ne]];
      (destruct (DataDriver.readIndex _ st) as [[l|]|e]; simpl;
       [|by rewrite ?lookup_insert_ne|done]).
    + destruct (includes l j); simpl; [done | by rewrite lookup_insert_ne].
    + by rewrite lookup_insert_ne.
Qed.

Lemma read_ext (key : string) (st1 st2 : gmap string Text) :
  st1 !! (LocalStorageDriver.keyPrefix +:+ key)
  = st2 !! (LocalStorageDriver.keyPrefix +:+ key) →
  LocalStorageDriver.read key st1 = LocalStorageDriver.read key st2.
Proof. intros H. unfold LocalStorageDriver.read. by rewrite H. Qed.

Lemma getRelationIndex_ext (d s f : string) (v : Scalar) (st1 st2 : gmap string Text) :
  st1 !! (LocalStorageDriver.keyPrefix +:+ DataDriver.getRelationIndexKey d s f v)
  = st2 !! (LocalStorageDriver.keyPrefix +:+ DataDriver.getRelationIndexKey d s f v) →
  DataDriver.getRelationIndex d s f v st1 = DataDriver.getRelationIndex d s f v st2.
Proof.
  intros H. unfold DataDriver.getRelationIndex, DataDriver.readIndex.
  by rewrite (read_ext _ _ _ H).
Qed.

(** X27. The keys of the columns and the keys of the indexes never meet,
    whatever the names of tables and columns and whatever the identifiers:
    a write under the key of a column changes no identifier index and no
    relation index, and no operation on an index changes what is read for a
    column. *)
Theorem columns_and_indexes_do_not_meet
    (reg : ClassSpecificationRegistry.specifications) (table : string) (id : Scalar)
    (column k : string) (st : gmap string Text) :
  DataDriver.getDataKey reg table id column = Ok k →
  (∀ value t,
     DataDriver.getTableIndex t (snd (LocalStorageDriver.write k value st))
     = DataDriver.getTableIndex t st)
  ∧ (∀ value d s f v,
       DataDriver.getRelationIndex d s f v (snd (LocalStorageDriver.write k value st))
       = DataDriver.getRelationIndex d s f v st)
  ∧ (∀ t i,
       LocalStorageDriver.read k (snd (DataDriver.addTableIndex t i st))
       = LocalStorageDriver.read k st
       ∧ LocalStorageDriver.read k (snd (DataDriver.removeTableIndex t i st))
         = LocalStorageDriver.read k st)
  ∧ (∀ d s f v j,
       LocalStorageDriver.read k (snd (DataDriver.addRelationIndex d s f v j st))
       = LocalStorageDriver.read k st
       ∧ LocalStorageDriver.read k (snd (DataDriver.removeRelationIndex d s f v j st))
         = LocalStorageDriver.read k st
       ∧ LocalStorageDriver.read k (snd (DataDriver.removeRelationIndexRecord d s f v st))
         = LocalStorageDriver.read k st).
Proof.
  intros Hk.
  assert (∀ key, isIndexKey (LocalStorageDriver.keyPrefix +:+ key) →
                 LocalStorageDriver.keyPrefix +:+ key
                 ≠ LocalStorageDriver.keyPrefix +:+ k) as Hne.
  { intros key Hkey Heq. apply (inj _) in Heq.
    by apply (getDataKey_not_indexKey _ _ _ _ _ _ Hk Hkey). }
  assert (∀ key, isIndexKey (LocalStorageDriver.keyPrefix +:+ key) →
                 LocalStorageDriver.keyPrefix +:+ k
                 ≠ LocalStorageDriver.keyPrefix +:+ key) as Hne'.
  { intros key Hkey Heq. by apply (Hne key Hkey). }
  split; [|split; [|split]].
  - intros value t. apply getTableIndex_ext, lookup_write_ne, Hne,
      tableIndexKey_isIndexKey.
  - intros value d s f v. apply getRelationIndex_ext, lookup_write_ne, Hne,
      relationIndexKey_isIndexKey.
  - intros t i.
    destruct (indexOperation_lookup_ne (DataDriver.getTableIndexKey t)
                (LocalStorageDriver.keyPrefix +:+ k) st) as [Htable _].
    { apply Hne', tableIndexKey_isIndexKey. }
    destruct (Htable t i eq_refl) as [Hadd Hremove].
    split; by apply read_ext.
  - intros d s f v j.
    destruct (indexOperation_lookup_ne (DataDriver.getRelationIndexKey d s f v)
                (LocalStorageDriver.keyPrefix +:+ k) st) as [_ Hrelation].
    { apply Hne', relationIndexKey_isIndexKey. }
    destruct (Hrelation d s f v j eq_refl) as (Hadd & Hremove & Hrecord).
    repeat split; by apply read_ext.
Qed.

Lemma columns_and_indexes_do_not_meet_witness :
  (∀ value t,
     DataDriver.getTableIndex t
       (snd (LocalStorageDriver.write "person:1:name;" value twoPeople))
     = DataDriver.getTableIndex t twoPeople)
  ∧ (∀ value d s f v,
       DataDriver.getRelationIndex d s f v
         (snd (LocalStorageDriver.write "person:1:name;" value twoPeople))
       = DataDriver.getRelationIndex d s f v twoPeople)
  ∧ (∀ t i,
       LocalStorageDriver.read "person:1:name;" (snd (DataDriver.addTableIndex t i twoPeople))
       = LocalStorageDriver.read "person:1:name;" twoPeople
       ∧ LocalStorageDriver.read "person:1:name;"
           (snd (DataDriver.removeTableIndex t i twoPeople))
         = LocalStorageDriver.read "person:1:name;" twoPeople)
  ∧ (∀ d s f v j,
       LocalStorageDriver.read "person:1:name;"
         (snd (DataDriver.addRelationIndex d s f v j twoPeople))
       = LocalStorageDriver.read "person:1:name;" twoPeople
       ∧ LocalStorageDriver.read "person:1:name;"
           (snd (DataDriver.removeRelationIndex d s f v j twoPeople))
         = LocalStorageDriver.read "person:1:name;" twoPeople
       ∧ LocalStorageDriver.read "person:1:name;"
           (snd (DataDriver.removeRelationIndexRecord d s f v twoPeople))
         = LocalStorageDriver.read "person:1:name;" twoPeople).
Proof.
  apply (columns_and_indexes_do_not_meet readmeRegistry "person" (SStr "1") "name"
           "person:1:name;" twoPeople).
  reflexivity.
Defined.

(** ** Keys of different tables and of different rows *)

Lemma untilColon_app (a x : string) :
  colonFree a = true → untilColon (a +:+ ":" +:+ x) = a.
Proof.
  induction a as [|c a IH]; [done|].
  cbn [colonFree]. intros [Hc Ha]%andb_true_iff. apply negb_true_iff in Hc.
  rewrite append_cons. cbn [untilColon]. rewrite Hc. by rewrite IH.
Qed.

Lemma colonFree_app (a b : string) :
  colonFree (a +:+ b) = colonFree a && colonFree b.
Proof.
  induction a as [|c a IH]; [done|].
  rewrite append_cons. cbn [colonFree]. rewrite IH. by rewrite andb_assoc.
Qed.

Lemma before_colon_inj (a b x y : string) :
  colonFree a = true → colonFree b = true →
  a +:+ ":" +:+ x = b +:+ ":" +:+ y → a = b ∧ x = y.
Proof.
  intros Ha Hb Heq.
  assert (a = b) as <-.
  { rewrite <- (untilColon_app a x Ha), <- (untilColon_app b y Hb). by rewrite Heq. }
  split; [done|]. by do 2 apply (inj (String.app _)) in Heq.
Qed.

Lemma tableIndexKey_before_colon (table : string) :
  DataDriver.getTableIndexKey table
  = "::index-of::" +:+ (table +:+ "-identifiers") +:+ ":" +:+ ":".
Proof. rewrite tableIndexKey_pattern. by rewrite !append_assoc. Qed.

Lemma relationIndexKey_before_colon (d s f : string) (v : Scalar) :
  DataDriver.getRelationIndexKey d s f v
  = "::index-of::" +:+ (s +:+ "-identifiers") +:+ ":"
      +:+ (":which-has-one::" +:+ d +:+ "::as::" +:+ f +:+ "::with-identifier::"
             +:+ toString v +:+ "::").
Proof. rewrite relationIndexKey_pattern. by rewrite !append_assoc. Qed.

Lemma colonFree_identifiers (table : string) :
  colonFree table = true → colonFree (table +:+ "-identifiers") = true.
Proof. intros H. by rewrite colonFree_app, H. Qed.

(** The identifier index of a table is no relation index, and a relation
    index lists the rows of one table only. *)
Lemma tableIndexKey_not_relationIndexKey (table d s f : string) (v : Scalar) :
  colonFree table = true → colonFree s = true →
  DataDriver.getTableIndexKey table ≠ DataDriver.getRelationIndexKey d s f v.
Proof.
  intros Ht Hs. rewrite tableIndexKey_before_colon, relationIndexKey_before_colon.
  intros Heq. apply (inj (String.app _)) in Heq.
  apply before_colon_inj in Heq as [_ Heq]; [|by apply colonFree_identifiers..].
  discriminate Heq.
Qed.

Lemma relationIndexKey_source (d s f d' s' f' : string) (v v' : Scalar) :
  colonFree s = true → colonFree s' = true →
  DataDriver.getRelationIndexKey d s f v = DataDriver.getRelationIndexKey d' s' f' v' →
  s = s'.
Proof.
  intros Hs Hs'. rewrite !relationIndexKey_before_colon. intros Heq.
  apply (inj (String.app _)) in Heq.
  apply before_colon_inj in Heq as [Heq _]; [|by apply colonFree_identifiers..].
  by apply append_inv_tail in Heq.
Qed.

Lemma columnKey_table (table table' x y : string) :
  colonFree table = true → colonFree table' = true →
  table +:+ ":" +:+ x = table' +:+ ":" +:+ y → table = table'.
Proof. intros Ht Ht' Heq. by apply before_colon_inj in Heq as [? _]. Qed.

Lemma columnKey_row (table : string) (id id' : Scalar) (column column' : string) :
  colonFree (toString id) = true → colonFree (toString id') = true →
  table +:+ ":" +:+ toString id +:+ ":" +:+ column +:+ ";"
  = table +:+ ":" +:+ toString id' +:+ ":" +:+ column' +:+ ";" →
  toString id = toString id'.
Proof.
  intros Hi Hi' Heq. do 2 apply (inj (String.app _)) in Heq.
  by apply before_colon_inj in Heq as [? _].
Qed.

Lemma columnKey_isDataKey (table : string) (id : Scalar) (column : string) :
  isDataKey (LocalStorageDriver.keyPrefix
               +:+ table +:+ ":" +:+ toString id +:+ ":" +:+ column +:+ ";").
Proof. unfold isDataKey. rewrite <- !append_assoc. by rewrite lastChar_append. Qed.

(** A column of a row is owned by no row of another table, and by no other
    row of its table. *)
Lemma column_not_owned (table table' : string) (id id' : Scalar) (column : string) :
  colonFree table = true → colonFree table' = true →
  table ≠ table'
  ∨ (colonFree (toString id) = true ∧ colonFree (toString id') = true
     ∧ toString id ≠ toString id') →
  ¬ owned table' id' (table +:+ ":" +:+ toString id +:+ ":" +:+ column +:+ ";").
Proof.
  intros Ht Ht' Hdiff [Heq|[(column' & Heq)|(d & f & v & Heq)]].
  - eapply dataKey_not_indexKey; [apply columnKey_isDataKey|].
    rewrite Heq. apply tableIndexKey_isIndexKey.
  - destruct Hdiff as [Hne|(Hi & Hi' & Hne)].
    + by apply columnKey_table in Heq.
    + assert (table = table') as <- by by apply columnKey_table in Heq.
      by apply columnKey_row in Heq.
  - eapply dataKey_not_indexKey; [apply columnKey_isDataKey|].
    rewrite Heq. apply relationIndexKey_isIndexKey.
Qed.

(** The identifier index of a table and the relation indexes that list its
    rows are owned by no row of another table. *)
Lemma index_not_owned (table table' : string) (id' : Scalar) :
  colonFree table = true → colonFree table' = true → table ≠ table' →
  ¬ owned table' id' (DataDriver.getTableIndexKey table)
  ∧ ∀ d f v, ¬ owned table' id' (DataDriver.getRelationIndexKey d table f v).
Proof.
  intros Ht Ht' Hne. split.
  - intros [Heq|[(column' & Heq)|(d & f & v & Heq)]].
    + rewrite !tableIndexKey_pattern in Heq. apply (inj (String.app _)) in Heq.
      by apply append_inv_tail in Heq.
    + eapply dataKey_not_indexKey; [apply columnKey_isDataKey|].
      rewrite <- Heq. apply tableIndexKey_isIndexKey.
    + by apply tableIndexKey_not_relationIndexKey in Heq.
  - intros d f v [Heq|[(column' & Heq)|(d' & f' & v' & Heq)]].
    + symmetry in Heq. by apply tableIndexKey_not_relationIndexKey in Heq.
    + eapply dataKey_not_indexKey; [apply columnKey_isDataKey|].
      rewrite <- Heq. apply relationIndexKey_isIndexKey.
    + by apply relationIndexKey_source in Heq.
Qed.

(** ** What the operations on a row change *)

Lemma changedOnly_refl (K : string → Prop) (st : gmap string Text) : changedOnly K st st.
Proof. by intros key _. Qed.

Lemma changedOnly_trans (K : string → Prop) (st1 st2 st3 : gmap string Text) :
  changedOnly K st1 st2 → changedOnly K st2 st3 → changedOnly K st1 st3.
Proof. intros H12 H23 key Hkey. by rewrite H23, H12. Qed.

Lemma changedOnly_weaken (K K' : string → Prop) (st st' : gmap string Text) :
  (∀ key, K key → K' key) → changedOnly K st st' → changedOnly K' st st'.
Proof. intros HK H key Hkey. apply H. intros ?. by apply Hkey, HK. Qed.

Lemma changedOnly_insert (K : string → Prop) (key : string) (t : Text)
    (st : gmap string Text) :
  K key → changedOnly K st (<[LocalStorageDriver.keyPrefix +:+ key := t]> st).
Proof.
  intros Hkey key' Hnot. rewrite lookup_insert_ne; [done|].
  intros Heq. apply (inj _) in Heq. by subst.
Qed.

Lemma map_jsonElement_idemp (l l' : list Scalar) :
  map jsonElement (map jsonElement l ++ l') = map jsonElement (l ++ l').
Proof.
  rewrite !map_app, map_map. f_equal. apply map_ext. by intros [].
Qed.

Lemma map_jsonElement_identifiers (l : list Scalar) :
  Forall EntityIdentifierType l → map jsonElement l = l.
Proof.
  induction 1 as [|x l Hx _ IH]; [done|]. simpl. rewrite IH. by destruct x.
Qed.

(** The effect of adding to an index on a well-formed storage. *)
Lemma addRelationIndex_effect (d s f : string) (v j : Scalar) (st : gmap string Text) :
  wellFormed st → EntityIdentifierType j →
  ∃ st',
    DataDriver.addRelationIndex d s f v j st = (Ok (), st')
    ∧ wellFormed st'
    ∧ added (LocalStorageDriver.keyPrefix +:+ DataDriver.getRelationIndexKey d s f v)
        j st st'.
Proof.
  intros Hwf Hj.
  pose proof (addRelationIndex_outcome d s f v j (λ _, False) st Hwf) as Hout.
  unfold DataDriver.addRelationIndex, bind, liftQ, added in *.
  rewrite wellFormed_readIndex in * by (done || apply relationIndexKey_isIndexKey).
  destruct (arrayAt _ st) as [l|]; simpl in *.
  - destruct (includes l j) eqn:Hin; simpl in *.
    + exists st. split; [done|]. split; [done|]. left. by apply includes_true in Hin.
    + eexists. split; [done|]. split; [done|]. right.
      by apply includes_false in Hin.
  - eexists. split; [done|]. split; [done|]. right. split; [apply not_elem_of_nil|done].
Qed.

Lemma extended_refl (key : string) (j : Scalar) (st : gmap string Text) :
  extended key j st st.
Proof. by left. Qed.

Lemma extended_added (key raw : string) (j : Scalar) (st0 st st' : gmap string Text) :
  EntityIdentifierType j → extended key j st0 st → added raw j st st' →
  extended key j st0 st'.
Proof.
  intros Hj Hext [[_ ->]|[Hnot ->]]; [done|].
  unfold extended. rewrite arrayAt_insert.
  destruct (decide (raw = LocalStorageDriver.keyPrefix +:+ key)) as [->|Hne]; [|done].
  destruct Hext as [Hsame|Happended].
  - right. by rewrite Hsame.
  - exfalso. apply Hnot. rewrite Happended. simpl.
    apply elem_of_map_jsonElement; [done|]. apply elem_of_app. right. by left.
Qed.

Lemma changedOnly_added (K : string → Prop) (key : string) (j : Scalar)
    (st0 st st' : gmap string Text) :
  K key → changedOnly K st0 st →
  added (LocalStorageDriver.keyPrefix +:+ key) j st st' → changedOnly K st0 st'.
Proof.
  intros Hkey Hst [[_ ->]|[_ ->]]; [done|].
  eapply changedOnly_trans; [done|]. by apply changedOnly_insert.
Qed.

Lemma holds_added (raw : string) (j : Scalar) (st st' : gmap string Text) :
  EntityIdentifierType j → added raw j st st' → holds raw j st'.
Proof.
  intros Hj [[Hin ->]|[_ ->]]; unfold holds.
  - destruct (arrayAt raw st) as [l|]; [by exists l | by apply elem_of_nil in Hin].
  - rewrite arrayAt_insert, decide_True by done. eexists. split; [done|].
    apply elem_of_map_jsonElement; [done|]. apply elem_of_app. right. by left.
Qed.

Lemma indexRelations_effect (reg : ClassSpecificationRegistry.specifications)
    (spec : ClassSpecification) (e : Entity) (id : Scalar) (st : gmap string Text) :
  registryOk reg → registered reg spec → wellFormed st → EntityIdentifierType id →
  ∃ st',
    indexRelations reg spec e id st = (Ok (), st')
    ∧ wellFormed st'
    ∧ changedOnly
        (λ key, ∃ d f v, key = DataDriver.getRelationIndexKey d (tableName spec) f v)
        st st'
    ∧ (∀ key, extended key id st st')
    ∧ (∀ rp relatedSpec,
         rp ∈ relationalProperties spec → isCollection rp = false →
         ClassSpecificationRegistry.lookup reg (class rp) = Some relatedSpec →
         holds (LocalStorageDriver.keyPrefix
                  +:+ DataDriver.getRelationIndexKey (tableName relatedSpec)
                        (tableName spec) (correspondingIdentifierProperty rp)
                        (getScalar e (correspondingIdentifierProperty rp))) id st').
Proof.
  intros Hreg Hspec Hwf Hid.
  set (K := λ key, ∃ d f v, key = DataDriver.getRelationIndexKey d (tableName spec) f v).
  set (G := λ s, wellFormed s ∧ changedOnly K st s ∧ ∀ key, extended key id st s).
  set (body := λ rp : RelationalProperty,
    if negb (isCollection rp) then
      let! relatedSpec :=
        liftO (ClassSpecificationRegistry.getSpecificationFor reg (class rp)) in
      DataDriver.addRelationIndex (tableName relatedSpec) (tableName spec)
        (correspondingIdentifierProperty rp)
        (getScalar e (correspondingIdentifierProperty rp)) id
    else ret ()).
  assert (∀ rp, rp ∈ relationalProperties spec →
            hoare G (body rp) (λ _, G) (λ _ _, False)) as Hstep.
  { intros rp Hrp s (Hs & Hch & Hext). unfold body.
    destruct (isCollection rp); simpl; [done|].
    destruct (getSpecificationFor_registered reg Hreg spec rp Hspec Hrp)
      as (relatedSpec & -> & _).
    rewrite bind_liftO_Ok.
    destruct (addRelationIndex_effect (tableName relatedSpec) (tableName spec)
                (correspondingIdentifierProperty rp)
                (getScalar e (correspondingIdentifierProperty rp)) id s Hs Hid)
      as (s' & -> & Hs' & Hadded).
    split; [done|]. split.
    - eapply changedOnly_added; [|done..]. by eexists _, _, _.
    - intros key. by eapply extended_added. }
  assert (G st) as HG.
  { split; [done|]. split; [apply changedOnly_refl | intros key; apply extended_refl]. }
  pose proof (hoare_forEach G (relationalProperties spec) body _ Hstep st HG) as Hrun.
  change (forEach (relationalProperties spec) body) with (indexRelations reg spec e id)
    in Hrun.
  destruct (indexRelations reg spec e id st) as [[[]|?] st'] eqn:Heq; [|done].
  destruct Hrun as (Hwf' & Hch & Hext).
  exists st'. split; [done|]. split; [done|]. split; [done|]. split; [done|].
  intros rp relatedSpec Hrp Hsingular Hlookup.
  set (raw := LocalStorageDriver.keyPrefix +:+ _).
  assert (hoare G (forEach (relationalProperties spec) body)
            (λ _ s, G s ∧ holds raw id s) (λ _ _, False)) as Hreach.
  { apply (hoare_forEach_reaches G (holds raw id) _ rp); [done|done|..].
    - intros s (Hs & Hchs & Hexts). unfold body. rewrite Hsingular. simpl.
      unfold ClassSpecificationRegistry.getSpecificationFor. rewrite Hlookup.
      rewrite bind_liftO_Ok.
      destruct (addRelationIndex_effect (tableName relatedSpec) (tableName spec)
                  (correspondingIdentifierProperty rp)
                  (getScalar e (correspondingIdentifierProperty rp)) id s Hs Hid)
        as (s' & -> & Hs' & Hadded).
      split; [|by eapply holds_added].
      split; [done|]. split.
      + eapply changedOnly_added; [|done..]. by eexists _, _, _.
      + intros key. eapply extended_added; [done|apply Hexts|done].
    - intros rp' Hrp' s [HGs Hholds].
      pose proof (Hstep rp' Hrp' s HGs) as Hrp's.
      assert (addStep id s (snd (body rp' s))) as Hadd.
      { unfold body. destruct (isCollection rp'); simpl; [by left|].
        destruct (ClassSpecificationRegistry.getSpecificationFor reg (class rp'));
          [|by left].
        rewrite bind_liftO_Ok. apply addRelationIndex_step. }
      destruct (body rp' s) as [[[]|?] s']; [|done].
      split; [done|]. by eapply holds_addStep. }
  specialize (Hreach st HG).
  change (forEach (relationalProperties spec) body) with (indexRelations reg spec e id)
    in Hreach.
  rewrite Heq in Hreach. tauto.
Qed.

Lemma writeProperties_effect (reg : ClassSpecificationRegistry.specifications)
    (spec : ClassSpecification) (id : Scalar) (e : Entity) (st : gmap string Text) :
  registryOk reg → registered reg spec → wellFormed st →
  ∃ st',
    forEach (nonRelationalProperties spec) (λ property,
      let! dataKey :=
        liftO (DataDriver.getDataKey reg (tableName spec) id property) in
      let dataToStore :=
        match getScalar e property with
        | SUndefined => SNull
        | v => v
        end in
      LocalStorageDriver.write dataKey (VScalar dataToStore)) st = (Ok (), st')
    ∧ wellFormed st'
    ∧ recorded spec id e st'
    ∧ changedOnly
        (λ key, ∃ column,
           key = tableName spec +:+ ":" +:+ toString id +:+ ":" +:+ column +:+ ";")
        st st'.
Proof.
  intros Hreg Hspec Hwf.
  destruct (writeProperties_recorded reg spec id e st Hreg Hspec Hwf)
    as (st' & Hrun & Hwf' & Hrecorded & _).
  exists st'. split; [done|]. split; [done|]. split; [done|].
  intros key Hkey.
  assert (preserves
            (untouched key (st !! (LocalStorageDriver.keyPrefix +:+ key))) (λ _, True)
            (forEach (nonRelationalProperties spec) (λ property,
               let! dataKey :=
                 liftO (DataDriver.getDataKey reg (tableName spec) id property) in
               let dataToStore :=
                 match getScalar e property with
                 | SUndefined => SNull
                 | v => v
                 end in
               LocalStorageDriver.write dataKey (VScalar dataToStore)))) as Hkeep.
  { apply preserves_forEach. intros property Hproperty.
    rewrite (getDataKey_registered reg Hreg spec id property Hspec Hproperty).
    rewrite bind_liftO_Ok. apply untouched_write. intros <-. apply Hkey. by eexists. }
  specialize (Hkeep st eq_refl). rewrite Hrun in Hkeep. apply Hkeep.
Qed.

Lemma arrayAt_changedOnly (K : string → Prop) (key : string)
    (st st' : gmap string Text) :
  changedOnly K st st' → ¬ K key →
  arrayAt (LocalStorageDriver.keyPrefix +:+ key) st'
  = arrayAt (LocalStorageDriver.keyPrefix +:+ key) st.
Proof. intros H Hkey. unfold arrayAt. by rewrite H. Qed.

Lemma extended_changedOnly (K : string → Prop) (key : string) (j : Scalar)
    (st0 st st' : gmap string Text) :
  extended key j st0 st → changedOnly K st st' → ¬ K key → extended key j st0 st'.
Proof.
  intros Hext Hch Hkey. unfold extended.
  by rewrite (arrayAt_changedOnly K key st st' Hch Hkey).
Qed.

Lemma holds_changedOnly (K : string → Prop) (key : string) (j : Scalar)
    (st st' : gmap string Text) :
  holds (LocalStorageDriver.keyPrefix +:+ key) j st → changedOnly K st st' → ¬ K key →
  holds (LocalStorageDriver.keyPrefix +:+ key) j st'.
Proof.
  intros Hholds Hch Hkey. unfold holds.
  by rewrite (arrayAt_changedOnly K key st st' Hch Hkey).
Qed.

Lemma recorded_changedOnly (K : string → Prop) (spec : ClassSpecification)
    (id : Scalar) (e : Entity) (st st' : gmap string Text) :
  recorded spec id e st → changedOnly K st st' →
  (∀ column, ¬ K (tableName spec +:+ ":" +:+ toString id +:+ ":" +:+ column +:+ ";")) →
  recorded spec id e st'.
Proof.
  intros Hrecorded Hch Hkey p Hp. unfold columnKey.
  rewrite (Hch _ (Hkey p)). by apply Hrecorded.
Qed.

Lemma getTableIndex_changedOnly (K : string → Prop) (table : string)
    (st st' : gmap string Text) :
  changedOnly K st st' → ¬ K (DataDriver.getTableIndexKey table) →
  DataDriver.getTableIndex table st' = DataDriver.getTableIndex table st.
Proof. intros Hch Hkey. apply getTableIndex_ext. by apply Hch. Qed.

(** The rows of a plain instance: what [create] and [update] leave. *)
Lemma cascade_plain_effect (fuel : nat)
    (reg : ClassSpecificationRegistry.specifications) (spec : ClassSpecification)
    (e : Entity) (id : Scalar) (st : gmap string Text) :
  registryOk reg → registered reg spec → wellFormed st → noRelatedObjects spec e →
  EntityIdentifierType id →
  ∃ st',
    Repository.handleRelationalProperties (S fuel) reg spec e id st = (Ok e, st')
    ∧ wellFormed st'
    ∧ changedOnly
        (λ key, ∃ d f v, key = DataDriver.getRelationIndexKey d (tableName spec) f v)
        st st'
    ∧ (∀ key, extended key id st st')
    ∧ (∀ rp relatedSpec,
         rp ∈ relationalProperties spec → isCollection rp = false →
         ClassSpecificationRegistry.lookup reg (class rp) = Some relatedSpec →
         holds (LocalStorageDriver.keyPrefix
                  +:+ DataDriver.getRelationIndexKey (tableName relatedSpec)
                        (tableName spec) (correspondingIdentifierProperty rp)
                        (getScalar e (correspondingIdentifierProperty rp))) id st').
Proof.
  intros Hreg Hspec Hwf Hnone Hid.
  rewrite (handleRelationalProperties_noRelatedObjects fuel reg spec e id st Hnone).
  destruct (indexRelations_effect reg spec e id st Hreg Hspec Hwf Hid)
    as (st1 & Hrun & Hrest).
  exists st1. split; [|done]. by rewrite (bind_Ok _ _ _ _ _ Hrun).
Qed.

Lemma owned_relation (table : string) (id : Scalar) (key : string) :
  (∃ d f v, key = DataDriver.getRelationIndexKey d table f v) → owned table id key.
Proof. intros H. right. by right. Qed.

Lemma owned_column (table : string) (id : Scalar) (key : string) :
  (∃ column, key = table +:+ ":" +:+ toString id +:+ ":" +:+ column +:+ ";") →
  owned table id key.
Proof. intros H. right. by left. Qed.

Lemma tail_keeps_relations (table : string) (id : Scalar) (key : string) :
  (∃ d f v, key = DataDriver.getRelationIndexKey d table f v) →
  key ≠ DataDriver.getTableIndexKey table
  ∧ ¬ ∃ column, key = table +:+ ":" +:+ toString id +:+ ":" +:+ column +:+ ";".
Proof.
  intros (d & f & v & ->). split; [apply relationIndexKey_not_own_tableIndexKey|].
  intros (column & Heq).
  eapply dataKey_not_indexKey; [apply columnKey_isDataKey|].
  rewrite <- Heq. apply relationIndexKey_isIndexKey.
Qed.

(** ** What the cascade of a plain instance leaves *)

Lemma tableIndexKey_not_column (table table' : string) (id : Scalar) :
  ¬ ∃ column,
      DataDriver.getTableIndexKey table
      = table' +:+ ":" +:+ toString id +:+ ":" +:+ column +:+ ";".
Proof.
  intros (column & Heq).
  eapply dataKey_not_indexKey; [apply columnKey_isDataKey|].
  rewrite <- Heq. apply tableIndexKey_isIndexKey.
Qed.

Lemma create_effect (fuel : nat) (reg : ClassSpecificationRegistry.specifications)
    (spec : ClassSpecification) (e : Entity) (st : gmap string Text)
    (index : list Scalar) :
  let id := getScalar e (identifierProperty spec) in
  registryOk reg → registered reg spec → wellFormed st → noRelatedObjects spec e →
  EntityIdentifierType id →
  DataDriver.getTableIndex (tableName spec) st = Ok index → id ∉ index →
  ∃ st',
    Repository.create (S (S fuel)) reg spec e st = (Ok id, st')
    ∧ wellFormed st'
    ∧ DataDriver.getTableIndex (tableName spec) st'
      = Ok (map jsonElement (index ++ [id]))
    ∧ recorded spec id e st'
    ∧ changedOnly (owned (tableName spec) id) st st'
    ∧ (∀ d f v,
         extended (DataDriver.getRelationIndexKey d (tableName spec) f v) id st st')
    ∧ (∀ rp relatedSpec,
         rp ∈ relationalProperties spec → isCollection rp = false →
         ClassSpecificationRegistry.lookup reg (class rp) = Some relatedSpec →
         holds (LocalStorageDriver.keyPrefix
                  +:+ DataDriver.getRelationIndexKey (tableName relatedSpec)
                        (tableName spec) (correspondingIdentifierProperty rp)
                        (getScalar e (correspondingIdentifierProperty rp))) id st').
Proof.
  intros id Hreg Hspec Hwf Hnone Hid Hindex Hnot.
  destruct (cascade_plain_effect fuel reg spec e id st Hreg Hspec Hwf Hnone Hid)
    as (st1 & Hcascade & Hwf1 & Hch1 & Hext1 & Hholds1).
  assert (DataDriver.getTableIndex (tableName spec) st1 = Ok index) as Hindex1.
  { rewrite <- Hindex. eapply getTableIndex_changedOnly; [done|].
    intros (d & f & v & Heq). symmetry in Heq.
    by apply relationIndexKey_not_own_tableIndexKey in Heq. }
  pose proof (addTableIndex_outcome (tableName spec) id st1 Hwf1) as Hwf2.
  pose proof (addTableIndex_appends (tableName spec) id st1 index Hwf1 Hindex1 Hnot)
    as Hadd.
  rewrite Hadd in Hwf2. simpl in Hwf2.
  set (st2 := <[_ := _]> st1) in *.
  assert (changedOnly (λ key, key = DataDriver.getTableIndexKey (tableName spec)) st1 st2)
    as Hch2 by by apply changedOnly_insert.
  destruct (writeProperties_effect reg spec id e st2 Hreg Hspec Hwf2)
    as (st' & Hwrites & Hwf' & Hrecorded & Hch3).
  assert (changedOnly
            (λ key, key = DataDriver.getTableIndexKey (tableName spec)
                    ∨ ∃ column,
                        key = tableName spec +:+ ":" +:+ toString id +:+ ":"
                                +:+ column +:+ ";") st1 st') as Htail.
  { eapply changedOnly_trans.
    - eapply changedOnly_weaken; [|exact Hch2]. intros key ?. by left.
    - eapply changedOnly_weaken; [|exact Hch3]. intros key ?. by right. }
  assert (∀ key, (∃ d f v, key = DataDriver.getRelationIndexKey d (tableName spec) f v) →
            ¬ (key = DataDriver.getTableIndexKey (tableName spec)
               ∨ ∃ column,
                   key = tableName spec +:+ ":" +:+ toString id +:+ ":"
                           +:+ column +:+ ";")) as Hrel.
  { intros key Hkey. destruct (tail_keeps_relations _ id _ Hkey) as [H1 H2]. tauto. }
  exists st'. split; [|split; [done|split; [|split; [done|split; [|split]]]]].
  - rewrite create_unfold. fold id.
    rewrite (bind_Ok _ _ _ _ _ Hcascade), (bind_Ok _ _ _ _ _ Hadd).
    by rewrite (bind_Ok _ _ _ _ _ Hwrites).
  - rewrite wellFormed_getTableIndex by done. unfold arrayAt.
    rewrite Hch3.
    2:{ apply tableIndexKey_not_column. }
    unfold st2. by rewrite lookup_insert_eq.
  - eapply changedOnly_trans.
    + eapply changedOnly_weaken; [|exact Hch1]. by apply owned_relation.
    + eapply changedOnly_weaken; [|exact Htail].
      intros key [->|Hcol]; [by left | by apply owned_column].
  - intros d f v. eapply extended_changedOnly; [apply Hext1|exact Htail|].
    apply Hrel. by eexists _, _, _.
  - intros rp relatedSpec Hrp Hsingular Hlookup.
    eapply holds_changedOnly; [by eapply Hholds1|exact Htail|].
    apply Hrel. by eexists _, _, _.
Qed.

Lemma update_effect (fuel : nat) (reg : ClassSpecificationRegistry.specifications)
    (spec : ClassSpecification) (e : Entity) (st : gmap string Text) :
  let id := getScalar e (identifierProperty spec) in
  registryOk reg → registered reg spec → wellFormed st → noRelatedObjects spec e →
  EntityIdentifierType id →
  ∃ st',
    Repository.update (S (S fuel)) reg spec e st = (Ok (), st')
    ∧ wellFormed st'
    ∧ DataDriver.getTableIndex (tableName spec) st'
      = DataDriver.getTableIndex (tableName spec) st
    ∧ recorded spec id e st'
    ∧ changedOnly (owned (tableName spec) id) st st'
    ∧ (∀ d f v,
         extended (DataDriver.getRelationIndexKey d (tableName spec) f v) id st st')
    ∧ (∀ rp relatedSpec,
         rp ∈ relationalProperties spec → isCollection rp = false →
         ClassSpecificationRegistry.lookup reg (class rp) = Some relatedSpec →
         holds (LocalStorageDriver.keyPrefix
                  +:+ DataDriver.getRelationIndexKey (tableName relatedSpec)
                        (tableName spec) (correspondingIdentifierProperty rp)
                        (getScalar e (correspondingIdentifierProperty rp))) id st').
Proof.
  intros id Hreg Hspec Hwf Hnone Hid.
  destruct (cascade_plain_effect fuel reg spec e id st Hreg Hspec Hwf Hnone Hid)
    as (st1 & Hcascade & Hwf1 & Hch1 & Hext1 & Hholds1).
  destruct (writeProperties_effect reg spec id e st1 Hreg Hspec Hwf1)
    as (st' & Hwrites & Hwf' & Hrecorded & Hch3).
  assert (∀ key, (∃ d f v, key = DataDriver.getRelationIndexKey d (tableName spec) f v) →
            ¬ ∃ column,
                key = tableName spec +:+ ":" +:+ toString id +:+ ":"
                        +:+ column +:+ ";") as Hrel.
  { intros key Hkey. by destruct (tail_keeps_relations _ id _ Hkey) as [H1 H2]. }
  exists st'. split; [|split; [done|split; [|split; [done|split; [|split]]]]].
  - rewrite update_unfold. fold id. by rewrite (bind_Ok _ _ _ _ _ Hcascade).
  - transitivity (DataDriver.getTableIndex (tableName spec) st1).
    + eapply getTableIndex_changedOnly; [exact Hch3|].
      apply tableIndexKey_not_column.
    + eapply getTableIndex_changedOnly; [exact Hch1|].
      intros (d & f & v & Heq). symmetry in Heq.
      by apply relationIndexKey_not_own_tableIndexKey in Heq.
  - eapply changedOnly_trans.
    + eapply changedOnly_weaken; [|exact Hch1]. by apply owned_relation.
    + eapply changedOnly_weaken; [|exact Hch3]. by apply owned_column.
  - intros d f v. eapply extended_changedOnly; [apply Hext1|exact Hch3|].
    apply Hrel. by eexists _, _, _.
  - intros rp relatedSpec Hrp Hsingular Hlookup.
    eapply holds_changedOnly; [by eapply Hholds1|exact Hch3|].
    apply Hrel. by eexists _, _, _.
Qed.

Lemma upsert_effect (fuel : nat) (reg : ClassSpecificationRegistry.specifications)
    (spec : ClassSpecification) (e : Entity) (st : gmap string Text)
    (index : list Scalar) :
  let id := getScalar e (identifierProperty spec) in
  registryOk reg → registered reg spec → wellFormed st → noRelatedObjects spec e →
  EntityIdentifierType id →
  DataDriver.getTableIndex (tableName spec) st = Ok index →
  ∃ st' index',
    Repository.createOrUpdate (S (S (S fuel))) reg spec e st = (Ok id, st')
    ∧ wellFormed st'
    ∧ DataDriver.getTableIndex (tableName spec) st' = Ok index'
    ∧ id ∈ index'
    ∧ (∀ i, EntityIdentifierType i → i ∈ index → i ∈ index')
    ∧ recorded spec id e st'
    ∧ changedOnly (owned (tableName spec) id) st st'
    ∧ (∀ d f v,
         extended (DataDriver.getRelationIndexKey d (tableName spec) f v) id st st')
    ∧ (∀ rp relatedSpec,
         rp ∈ relationalProperties spec → isCollection rp = false →
         ClassSpecificationRegistry.lookup reg (class rp) = Some relatedSpec →
         holds (LocalStorageDriver.keyPrefix
                  +:+ DataDriver.getRelationIndexKey (tableName relatedSpec)
                        (tableName spec) (correspondingIdentifierProperty rp)
                        (getScalar e (correspondingIdentifierProperty rp))) id st').
Proof.
  intros id Hreg Hspec Hwf Hnone Hid Hindex.
  change (Repository.createOrUpdate (S (S (S fuel))) reg spec e st)
    with ((let! index := liftQ (DataDriver.getTableIndex (tableName spec)) in
           if includes index id
           then do! Repository.update (S (S fuel)) reg spec e in ret id
           else Repository.create (S (S fuel)) reg spec e) st).
  unfold bind at 1, liftQ. rewrite Hindex. unfold includes.
  case_bool_decide as Hin.
  - destruct (update_effect fuel reg spec e st Hreg Hspec Hwf Hnone Hid)
      as (st' & Hupdate & Hwf' & Hindex' & Hrest).
    rewrite Hindex in Hindex'.
    exists st', index. by rewrite (bind_Ok _ _ _ _ _ Hupdate).
  - destruct (create_effect fuel reg spec e st index Hreg Hspec Hwf Hnone Hid Hindex Hin)
      as (st' & Hcreate & Hwf' & Hindex' & Hrest).
    exists st', (map jsonElement (index ++ [id])).
    split; [done|]. split; [done|]. split; [done|]. split; [|split; [|done]].
    + apply elem_of_map_jsonElement; [done|]. apply elem_of_app. right. by left.
    + intros i Hi Hini. apply elem_of_map_jsonElement; [done|].
      apply elem_of_app. by left.
Qed.

(** ** The cascade, one relation at a time *)

Lemma handleRelationalProperties_unfold (fuel : nat)
    (reg : ClassSpecificationRegistry.specifications) (spec : ClassSpecification)
    (e : Entity) (identifier : Scalar) :
  Repository.handleRelationalProperties (S fuel) reg spec e identifier
  = foldM (relationalProperties spec) e (cascadeStep fuel reg spec identifier).
Proof. reflexivity. Qed.

Lemma foldM_app {A B} (l1 l2 : list A) (s : B) (body : B → A → M B)
    (st : gmap string Text) :
  foldM (l1 ++ l2) s body st = (let! s1 := foldM l1 s body in foldM l2 s1 body) st.
Proof.
  revert s st. induction l1 as [|x l1 IH]; intros s st; simpl.
  - done.
  - unfold bind at 1. unfold bind at 1 2.
    destruct (body s x st) as [[s1|err] st1]; [|done].
    rewrite IH. by unfold bind.
Qed.

Lemma cascadeStep_unset (fuel : nat) (reg : ClassSpecificationRegistry.specifications)
    (spec : ClassSpecification) (id : Scalar) (instance : Entity)
    (rp : RelationalProperty) (st : gmap string Text) :
  registryOk reg → registered reg spec → rp ∈ relationalProperties spec →
  unset instance rp → wellFormed st → EntityIdentifierType id →
  ∃ st',
    cascadeStep fuel reg spec id instance rp st = (Ok instance, st')
    ∧ wellFormed st'
    ∧ changedOnly
        (λ key, ∃ d f v, key = DataDriver.getRelationIndexKey d (tableName spec) f v)
        st st'
    ∧ (∀ st0, (∀ key, extended key id st0 st) → ∀ key, extended key id st0 st').
Proof.
  intros Hreg Hspec Hrp Hunset Hwf Hid. unfold cascadeStep, unset in *.
  destruct (isCollection rp); simpl.
  - exists st. split; [by destruct Hunset as [-> | ->]|].
    split; [done|]. split; [apply changedOnly_refl | done].
  - rewrite Hunset.
    destruct (getSpecificationFor_registered reg Hreg spec rp Hspec Hrp)
      as (relatedSpec & -> & _).
    rewrite bind_liftO_Ok.
    destruct (addRelationIndex_effect (tableName relatedSpec) (tableName spec)
                (correspondingIdentifierProperty rp)
                (getScalar instance (correspondingIdentifierProperty rp)) id st Hwf Hid)
      as (st' & Hadd & Hwf' & Hadded).
    exists st'. split.
    { unfold bind at 1, ret at 1. cbn [fst snd]. by rewrite (bind_Ok _ _ _ _ _ Hadd). }
    split; [done|]. split.
    + eapply changedOnly_added; [|apply changedOnly_refl|done]. by eexists _, _, _.
    + intros st0 Hext key. eapply extended_added; [done|apply Hext|done].
Qed.

Lemma cascade_unset (fuel : nat) (reg : ClassSpecificationRegistry.specifications)
    (spec : ClassSpecification) (id : Scalar) (instance : Entity)
    (l : list RelationalProperty) (st : gmap string Text) :
  registryOk reg → registered reg spec → EntityIdentifierType id →
  (∀ rp, rp ∈ l → rp ∈ relationalProperties spec ∧ unset instance rp) →
  wellFormed st →
  ∃ st',
    foldM l instance (cascadeStep fuel reg spec id) st = (Ok instance, st')
    ∧ wellFormed st'
    ∧ changedOnly
        (λ key, ∃ d f v, key = DataDriver.getRelationIndexKey d (tableName spec) f v)
        st st'
    ∧ (∀ st0, (∀ key, extended key id st0 st) → ∀ key, extended key id st0 st').
Proof.
  intros Hreg Hspec Hid. revert st. induction l as [|rp l IH]; intros st Hl Hwf.
  - exists st. split; [done|]. split; [done|]. split; [apply changedOnly_refl | done].
  - destruct (Hl rp) as [Hrp Hunset]; [by left|].
    destruct (cascadeStep_unset fuel reg spec id instance rp st
                Hreg Hspec Hrp Hunset Hwf Hid) as (st1 & Hstep & Hwf1 & Hch1 & Hext1).
    destruct (IH st1) as (st' & Hrest & Hwf' & Hch' & Hext'); [|done|].
    { intros rp' Hrp'. apply Hl. by right. }
    exists st'. split; [|split; [done|split]].
    + cbn [foldM]. by rewrite (bind_Ok _ _ _ _ _ Hstep).
    + by eapply changedOnly_trans.
    + intros st0 Hext. by apply Hext', Hext1.
Qed.

Lemma getScalar_assignScalar (e : Entity) (p q : string) (v : Scalar) :
  getScalar (assignScalar e p v) q = if decide (p = q) then v else getScalar e q.
Proof.
  unfold getScalar, assignScalar. cbn [scalars]. rewrite getField_setField.
  by destruct (decide (p = q)).
Qed.

Lemma identifierOf_assignScalar (spec : ClassSpecification) (e : Entity) (p : string)
    (v : Scalar) :
  p ≠ identifierProperty spec →
  identifierOf spec (assignScalar e p v) = identifierOf spec e.
Proof.
  intros Hne. unfold identifierOf. rewrite getScalar_assignScalar.
  by rewrite decide_False.
Qed.

(** An index that was extended by [j] and holds it, and did not hold it
    before, is the old one with [j] appended. *)
Lemma extended_holds (key : string) (j : Scalar) (st st' : gmap string Text) :
  extended key j st st' → holds (LocalStorageDriver.keyPrefix +:+ key) j st' →
  j ∉ default [] (arrayAt (LocalStorageDriver.keyPrefix +:+ key) st) →
  default [] (arrayAt (LocalStorageDriver.keyPrefix +:+ key) st')
  = map jsonElement
      (default [] (arrayAt (LocalStorageDriver.keyPrefix +:+ key) st) ++ [j]).
Proof.
  intros [Hsame|Happended] (l & Hl & Hj) Hnot.
  - rewrite Hsame in Hl. rewrite Hl in Hnot. by destruct Hnot.
  - by rewrite Happended.
Qed.

Lemma map_jsonElement_inv (l identifiers : list Scalar) :
  Forall EntityIdentifierType identifiers → map jsonElement l = identifiers →
  l = identifiers.
Proof.
  intros Hids. revert l. induction Hids as [|i identifiers Hi _ IH]; intros l Heq.
  - by destruct l.
  - destruct l as [|x l]; [done|]. simpl in Heq. injection Heq as Hx Hl.
    f_equal; [|by apply IH]. by destruct x; simpl in Hx; subst.
Qed.

(** ** The related objects of a collection *)

Section Children.
Context (reg : ClassSpecificationRegistry.specifications).
Context (owner related : ClassSpecification) (inverse : RelationalProperty).
Context (foreignKey : string) (ownerId : Scalar).
Hypothesis registry_ok : registryOk reg.
Hypothesis related_registered : registered reg related.
Hypothesis inverse_relation : inverse ∈ relationalProperties related.
Hypothesis inverse_singular : isCollection inverse = false.
Hypothesis inverse_key : correspondingIdentifierProperty inverse = foreignKey.
Hypothesis inverse_class :
  ClassSpecificationRegistry.lookup reg (class inverse) = Some owner.
Hypothesis key_not_identifier : foreignKey ≠ identifierProperty related.
Hypothesis related_colonFree : colonFree (tableName related) = true.

Lemma child_effect (fuel : nat) (child : Entity) (st : gmap string Text)
    (index : list Scalar) :
  let bucket :=
    LocalStorageDriver.keyPrefix
      +:+ DataDriver.getRelationIndexKey (tableName owner) (tableName related)
            foreignKey ownerId in
  wellFormed st → DataDriver.getTableIndex (tableName related) st = Ok index →
  noRelatedObjects related child → EntityIdentifierType (identifierOf related child) →
  identifierOf related child ∉ default [] (arrayAt bucket st) →
  ∃ st' index',
    Repository.createOrUpdate (S (S (S fuel))) reg related
      (assignScalar child foreignKey ownerId) st
    = (Ok (identifierOf related child), st')
    ∧ wellFormed st'
    ∧ default [] (arrayAt bucket st')
      = map jsonElement (default [] (arrayAt bucket st) ++ [identifierOf related child])
    ∧ DataDriver.getTableIndex (tableName related) st' = Ok index'
    ∧ identifierOf related child ∈ index'
    ∧ (∀ i, EntityIdentifierType i → i ∈ index → i ∈ index')
    ∧ recorded related (identifierOf related child)
        (assignScalar child foreignKey ownerId) st'
    ∧ changedOnly (owned (tableName related) (identifierOf related child)) st st'.
Proof.
  intros bucket Hwf Hindex Hnone Hid Hnot.
  pose proof (identifierOf_assignScalar related child foreignKey ownerId
                key_not_identifier) as Hsame.
  unfold identifierOf in *.
  destruct (upsert_effect fuel reg related (assignScalar child foreignKey ownerId)
              st index registry_ok related_registered Hwf)
    as (st' & index' & Hrun & Hwf' & Hindex' & Hin & Hmono & Hrecorded & Hch & Hext
        & Hholds); [done|by rewrite Hsame|done|].
  rewrite Hsame in *.
  exists st', index'. split; [done|]. split; [done|]. split; [|done].
  apply extended_holds; [apply Hext| |done].
  specialize (Hholds inverse owner inverse_relation inverse_singular inverse_class).
  rewrite inverse_key, getScalar_assignScalar, decide_True in Hholds by done.
  exact Hholds.
Qed.

Lemma children_effect (fuel : nat) (children : list Entity) :
  let bucket :=
    LocalStorageDriver.keyPrefix
      +:+ DataDriver.getRelationIndexKey (tableName owner) (tableName related)
            foreignKey ownerId in
  ∀ (st : gmap string Text) (index : list Scalar),
    wellFormed st → DataDriver.getTableIndex (tableName related) st = Ok index →
    Forall (λ child,
              noRelatedObjects related child
              ∧ EntityIdentifierType (identifierOf related child)
              ∧ colonFree (toString (identifierOf related child)) = true) children →
    NoDup (map (λ child, toString (identifierOf related child)) children) →
    (∀ child, child ∈ children →
       identifierOf related child ∉ default [] (arrayAt bucket st)) →
    ∃ st' index',
      forEach children (λ relatedData,
        do! Repository.createOrUpdate (S (S (S fuel))) reg related
              (assignScalar relatedData foreignKey ownerId) in
        ret ()) st = (Ok (), st')
      ∧ wellFormed st'
      ∧ map jsonElement (default [] (arrayAt bucket st'))
        = map jsonElement
            (default [] (arrayAt bucket st) ++ map (identifierOf related) children)
      ∧ DataDriver.getTableIndex (tableName related) st' = Ok index'
      ∧ (∀ i, EntityIdentifierType i → i ∈ index → i ∈ index')
      ∧ (∀ child, child ∈ children → identifierOf related child ∈ index')
      ∧ (∀ child, child ∈ children →
           recorded related (identifierOf related child)
             (assignScalar child foreignKey ownerId) st')
      ∧ changedOnly
          (λ key, ∃ child, child ∈ children
                           ∧ owned (tableName related) (identifierOf related child) key)
          st st'.
Proof.
  intros bucket. subst bucket.
  induction children as [|child children IH]; intros st index Hwf Hindex Hall Hnodup Hnot.
  - exists st, index. split; [done|]. split; [done|]. split.
    { simpl. by rewrite app_nil_r. }
    split; [done|]. split; [done|]. split; [by intros ? ?%elem_of_nil|].
    split; [by intros ? ?%elem_of_nil | apply changedOnly_refl].
  - apply Forall_cons in Hall as [(Hnone & Hid & Hcolon) Hall].
    simpl in Hnodup. apply NoDup_cons in Hnodup as [Hfresh Hnodup].
    destruct (child_effect fuel child st index Hwf Hindex Hnone Hid)
      as (st1 & index1 & Hrun1 & Hwf1 & Hbucket1 & Hindex1 & Hin1 & Hmono1 & Hrecorded1
          & Hch1); [apply Hnot; by left|].
    destruct (IH st1 index1 Hwf1 Hindex1 Hall Hnodup)
      as (st' & index' & Hrun & Hwf' & Hbucket & Hindex' & Hmono & Hin & Hrecorded
          & Hch).
    { intros other Hother. rewrite Hbucket1.
      rewrite Forall_forall in Hall. destruct (Hall other Hother) as (_ & Hoid & _).
      rewrite elem_of_map_jsonElement by done. intros [Hold|Hnew]%elem_of_app.
      - by apply (Hnot other); [right|].
      - apply list_elem_of_singleton in Hnew. apply Hfresh.
        rewrite <- Hnew. apply list_elem_of_In, in_map_iff. exists other.
        split; [done|]. by apply list_elem_of_In. }
    exists st', index'. split; [|split; [done|split; [|split; [done|split; [|split;
      [|split]]]]]].
    + cbn [forEach]. rewrite (bind_Ok _ _ _ _ _ (bind_Ok _ _ _ _ _ Hrun1)).
      exact Hrun.
    + rewrite Hbucket, Hbucket1, map_jsonElement_idemp. cbn [map].
      by rewrite <- app_assoc.
    + intros i Hi Hini. by apply Hmono, Hmono1.
    + intros other [->|Hother]%elem_of_cons; [by apply Hmono | by apply Hin].
    + intros other [->|Hother]%elem_of_cons; [|by apply Hrecorded].
      eapply recorded_changedOnly; [exact Hrecorded1|exact Hch|].
      intros column (other & Hother & Howned). revert Howned.
      rewrite Forall_forall in Hall. destruct (Hall other Hother) as (_ & _ & Hocolon).
      apply column_not_owned; [done|done|]. right. split; [done|]. split; [done|].
      intros Heq. apply Hfresh. rewrite Heq.
      apply list_elem_of_In, in_map_iff. exists other.
      split; [done|]. by apply list_elem_of_In.
    + eapply changedOnly_trans.
      * eapply changedOnly_weaken; [|exact Hch1]. intros key Hkey.
        exists child. split; [by left|done].
      * eapply changedOnly_weaken; [|exact Hch]. intros key (other & Hother & Hkey).
        exists other. split; [by right|done].
Qed.

End Children.

(** ** Reading rows back *)

Lemma bindQ_Ok {A B} (q : Q A) (f : A → Q B) (st : gmap string Text) (a : A) :
  q st = Ok a → bindQ q f st = f a st.
Proof. intros H. unfold bindQ. by rewrite H. Qed.

Lemma _getById_unfold (fuel : nat) (reg : ClassSpecificationRegistry.specifications)
    (spec : ClassSpecification) (includeMap : IncludeMap) (id : Scalar)
    (skipIndexCheck : bool) :
  Queryable._getById (S fuel) reg spec includeMap id skipIndexCheck
  = (do? (if negb skipIndexCheck then
            let? indexes := DataDriver.getTableIndex (tableName spec) in
            if negb (includes indexes id)
            then throwQ (NoDataFound id (tableName spec))
            else retQ ()
          else retQ ()) in
     let? data :=
       foldQ (nonRelationalProperties spec) [] (λ data property,
         let? dataKey :=
           ofOutcome (DataDriver.getDataKey reg (tableName spec) id property) in
         let? propertyValue := readQ dataKey in
         if negb (truthy propertyValue) then retQ data
         else retQ (setField data property (LValue propertyValue))) in
     Queryable.attachIncludesAndGet fuel reg data spec includeMap).
Proof. reflexivity. Qed.

(** The record [_getById] reads for a row that holds an instance: the
    columns with a truthy value. *)
Lemma loadRecord_recorded (reg : ClassSpecificationRegistry.specifications)
    (spec : ClassSpecification) (id : Scalar) (e : Entity) (st : gmap string Text) :
  registryOk reg → registered reg spec → recorded spec id e st →
  ∃ data,
    foldQ (nonRelationalProperties spec) [] (λ data property,
      let? dataKey :=
        ofOutcome (DataDriver.getDataKey reg (tableName spec) id property) in
      let? propertyValue := readQ dataKey in
      if negb (truthy propertyValue) then retQ data
      else retQ (setField data property (LValue propertyValue))) st = Ok data
    ∧ ∀ p, p ∈ nonRelationalProperties spec →
        getField data p
        = if truthyScalar (getScalar e p)
          then Some (LValue (VScalar (getScalar e p)))
          else None.
Proof.
  intros Hreg Hspec Hrecorded.
  destruct (loadRecord_Ok reg (tableName spec) id (nonRelationalProperties spec) [] st)
    as [data Hdata].
  { intros p Hp. eexists. by apply getDataKey_registered. }
  exists data. split; [done|]. intros p Hp.
  pose proof (getDataKey_registered reg Hreg spec id p Hspec Hp) as Hkp.
  rewrite (loadRecord_fields _ _ _ _ _ _ _ Hdata p _ Hkp).
  rewrite (bool_decide_eq_true_2 _ Hp), (read_textOf _ (getScalar e p)).
  2:{ by apply Hrecorded. }
  simpl. by destruct (truthyScalar (getScalar e p)) eqn:Ht; simpl; rewrite ?Ht.
Qed.

Lemma readsAs_for (spec : ClassSpecification) (e : Entity)
    (data : list (string * Loaded)) :
  (∀ p, p ∈ nonRelationalProperties spec →
     getField data p
     = if truthyScalar (getScalar e p)
       then Some (LValue (VScalar (getScalar e p)))
       else None) →
  readsAs spec e (ShadowFactory.for_ data (map name (relationalProperties spec))).
Proof.
  intros Hdata p Hp Hrel. rewrite get_not_excluded.
  2:{ simpl. by rewrite elem_of_list_to_set. }
  simpl source. by rewrite Hdata.
Qed.

Lemma _getById_recorded (fuel : nat) (reg : ClassSpecificationRegistry.specifications)
    (spec : ClassSpecification) (id : Scalar) (e : Entity) (skipIndexCheck : bool)
    (st : gmap string Text) :
  registryOk reg → registered reg spec → recorded spec id e st →
  (skipIndexCheck = false →
   ∃ index, DataDriver.getTableIndex (tableName spec) st = Ok index ∧ id ∈ index) →
  ∃ view,
    Queryable._getById (S (S fuel)) reg spec (IncludeNode []) id skipIndexCheck st
    = Ok view
    ∧ readsAs spec e view.
Proof.
  intros Hreg Hspec Hrecorded Hcheck.
  destruct (loadRecord_recorded reg spec id e st Hreg Hspec Hrecorded)
    as (data & Hdata & Hfields).
  exists (ShadowFactory.for_ data (map name (relationalProperties spec))).
  split; [|by apply readsAs_for].
  rewrite _getById_unfold.
  assert ((if negb skipIndexCheck then
             let? indexes := DataDriver.getTableIndex (tableName spec) in
             if negb (includes indexes id)
             then throwQ (NoDataFound id (tableName spec))
             else retQ ()
           else retQ ()) st = Ok ()) as Hpass.
  { destruct skipIndexCheck; [done|]. destruct Hcheck as (index & Hindex & Hin); [done|].
    simpl. rewrite (bindQ_Ok _ _ _ _ Hindex). apply includes_true in Hin.
    by rewrite Hin. }
  rewrite (bindQ_Ok _ _ _ _ Hpass), (bindQ_Ok _ _ _ _ Hdata).
  by rewrite attachIncludesAndGet_unfold.
Qed.

Lemma getByIds_recorded (fuel : nat) (reg : ClassSpecificationRegistry.specifications)
    (spec : ClassSpecification) (rows : list (Scalar * Entity))
    (st : gmap string Text) (index : list Scalar) :
  registryOk reg → registered reg spec →
  DataDriver.getTableIndex (tableName spec) st = Ok index →
  (∀ row, row ∈ rows → fst row ∈ index ∧ recorded spec (fst row) (snd row) st) →
  ∃ views,
    Queryable.getByIds (S (S (S fuel))) reg spec (IncludeNode []) (map fst rows) st
    = Ok views
    ∧ Forall2 (λ row view, readsAs spec (snd row) view) rows views.
Proof.
  intros Hreg Hspec Hindex Hrows.
  assert (∃ views,
            Forall2 (λ id view,
                       Queryable._getById (S (S fuel)) reg spec (IncludeNode []) id true st
                       = Ok view) (map fst rows) views
            ∧ Forall2 (λ row view, readsAs spec (snd row) view) rows views)
    as (views & Hviews & Hreads).
  { induction rows as [|row rows IH].
    - exists []. by split; constructor.
    - destruct IH as (views & Hviews & Hreads).
      { intros other Hother. apply Hrows. by right. }
      destruct (Hrows row) as [_ Hrecorded]; [by left|].
      destruct (_getById_recorded fuel reg spec (fst row) (snd row) true st
                  Hreg Hspec Hrecorded) as (view & Hview & Hread); [done|].
      exists (view :: views). split; by constructor. }
  exists views. split; [|done].
  change (Queryable.getByIds (S (S (S fuel))) reg spec (IncludeNode []) (map fst rows) st)
    with ((let? indexes := DataDriver.getTableIndex (tableName spec) in
           if existsb (λ id, negb (includes indexes id)) (map fst rows)
           then throwQ (MissingIds (tableName spec))
           else mapQ (map fst rows) (λ id,
                  Queryable._getById (S (S fuel)) reg spec (IncludeNode []) id true)) st).
  rewrite (bindQ_Ok _ _ _ _ Hindex).
  assert (existsb (λ id, negb (includes index id)) (map fst rows) = false) as ->.
  { apply not_true_is_false. intros (id & Hid & Hmissing)%existsb_exists.
    apply in_map_iff in Hid as (row & <- & Hrow%list_elem_of_In).
    apply negb_true_iff, includes_false in Hmissing. by apply Hmissing, Hrows. }
  by apply mapQ_Ok.
Qed.

(** ** The end of [create], after the cascade *)

Lemma create_after_cascade (fuel : nat) (reg : ClassSpecificationRegistry.specifications)
    (spec : ClassSpecification) (e instance : Entity) (st st1 : gmap string Text)
    (index : list Scalar) :
  let id := getScalar e (identifierProperty spec) in
  registryOk reg → registered reg spec →
  Repository.handleRelationalProperties fuel reg spec e id st = (Ok instance, st1) →
  wellFormed st1 → DataDriver.getTableIndex (tableName spec) st1 = Ok index →
  id ∉ index →
  ∃ st',
    Repository.create (S fuel) reg spec e st = (Ok id, st')
    ∧ wellFormed st'
    ∧ DataDriver.getTableIndex (tableName spec) st'
      = Ok (map jsonElement (index ++ [id]))
    ∧ recorded spec id instance st'
    ∧ changedOnly (owned (tableName spec) id) st1 st'.
Proof.
  intros id Hreg Hspec Hcascade Hwf1 Hindex1 Hnot.
  pose proof (addTableIndex_outcome (tableName spec) id st1 Hwf1) as Hwf2.
  pose proof (addTableIndex_appends (tableName spec) id st1 index Hwf1 Hindex1 Hnot)
    as Hadd.
  rewrite Hadd in Hwf2. simpl in Hwf2.
  set (st2 := <[_ := _]> st1) in *.
  assert (changedOnly (owned (tableName spec) id) st1 st2) as Hch2.
  { apply changedOnly_insert. by left. }
  destruct (writeProperties_effect reg spec id instance st2 Hreg Hspec Hwf2)
    as (st' & Hwrites & Hwf' & Hrecorded & Hch3).
  exists st'. split; [|split; [done|split; [|split; [done|]]]].
  - rewrite create_unfold. fold id.
    rewrite (bind_Ok _ _ _ _ _ Hcascade), (bind_Ok _ _ _ _ _ Hadd).
    by rewrite (bind_Ok _ _ _ _ _ Hwrites).
  - rewrite wellFormed_getTableIndex by done. unfold arrayAt.
    rewrite Hch3 by apply tableIndexKey_not_column.
    unfold st2. by rewrite lookup_insert_eq.
  - eapply changedOnly_trans; [exact Hch2|].
    eapply changedOnly_weaken; [|exact Hch3]. by apply owned_column.
Qed.

(** The cascade of an instance that carries related objects under one
    relation only: the relations before it, the relation, the relations
    after it. *)
Lemma cascade_around (fuel : nat) (reg : ClassSpecificationRegistry.specifications)
    (spec : ClassSpecification) (e instance : Entity) (id : Scalar)
    (rp : RelationalProperty) (before after : list RelationalProperty)
    (st : gmap string Text) :
  registryOk reg → registered reg spec → EntityIdentifierType id →
  relationalProperties spec = before ++ rp :: after →
  (∀ other, other ∈ before → unset e other) →
  (∀ other, other ∈ after → unset instance other) →
  wellFormed st →
  ∃ st1,
    wellFormed st1
    ∧ changedOnly
        (λ key, ∃ d f v, key = DataDriver.getRelationIndexKey d (tableName spec) f v)
        st st1
    ∧ ∀ st2,
        cascadeStep fuel reg spec id e rp st1 = (Ok instance, st2) → wellFormed st2 →
        ∃ st3,
          Repository.handleRelationalProperties (S fuel) reg spec e id st
          = (Ok instance, st3)
          ∧ wellFormed st3
          ∧ changedOnly
              (λ key, ∃ d f v,
                 key = DataDriver.getRelationIndexKey d (tableName spec) f v)
              st2 st3.
Proof.
  intros Hreg Hspec Hid Hsplit Hbefore Hafter Hwf.
  destruct (cascade_unset fuel reg spec id e before st Hreg Hspec Hid)
    as (st1 & Hrun1 & Hwf1 & Hch1 & _); [|done|].
  { intros other Hother. split; [|by apply Hbefore].
    rewrite Hsplit. apply elem_of_app. by left. }
  exists st1. split; [done|]. split; [done|].
  intros st2 Hstep Hwf2.
  destruct (cascade_unset fuel reg spec id instance after st2 Hreg Hspec Hid)
    as (st3 & Hrun3 & Hwf3 & Hch3 & _); [|done|].
  { intros other Hother. split; [|by apply Hafter].
    rewrite Hsplit. apply elem_of_app. right. by right. }
  exists st3. split; [|done].
  rewrite handleRelationalProperties_unfold, Hsplit, foldM_app.
  rewrite (bind_Ok _ _ _ _ _ Hrun1). cbn [foldM].
  by rewrite (bind_Ok _ _ _ _ _ Hstep).
Qed.

Lemma cascadeStep_collection (fuel : nat)
    (reg : ClassSpecificationRegistry.specifications) (spec related : ClassSpecification)
    (id : Scalar) (instance : Entity) (rp : RelationalProperty)
    (children : list Entity) (st st' : gmap string Text) :
  isCollection rp = true →
  ClassSpecificationRegistry.lookup reg (class rp) = Some related →
  getField (manys instance) (name rp) = Some children →
  forEach children (λ relatedData,
    do! Repository.createOrUpdate fuel reg related
          (assignScalar relatedData (correspondingIdentifierProperty rp)
             (getScalar instance (identifierProperty spec))) in
    ret ()) st = (Ok (), st') →
  cascadeStep fuel reg spec id instance rp st = (Ok instance, st').
Proof.
  intros Hcollection Hlookup Hchildren Hrun. unfold cascadeStep.
  rewrite Hcollection, Hchildren. cbn [negb].
  destruct children as [|child children]; [by injection Hrun as <-|].
  unfold ClassSpecificationRegistry.getSpecificationFor. rewrite Hlookup.
  rewrite bind_liftO_Ok. by rewrite (bind_Ok _ _ _ _ _ Hrun).
Qed.

(** ** A collection: the cascade and the include *)

Lemma relations_split (spec : ClassSpecification) (rp : RelationalProperty) :
  NoDup (map name (relationalProperties spec)) → rp ∈ relationalProperties spec →
  ∃ before after,
    relationalProperties spec = before ++ rp :: after
    ∧ ∀ other, other ∈ before ∨ other ∈ after → name other ≠ name rp.
Proof.
  intros Hnodup (before & after & Hsplit)%list_elem_of_split.
  exists before, after. split; [done|].
  rewrite Hsplit, map_app in Hnodup. cbn [map] in Hnodup.
  apply NoDup_app in Hnodup as (_ & Hbefore & [Hafter _]%NoDup_cons).
  intros other [Hother|Hother] Heq.
  - apply (Hbefore (name other)).
    + apply list_elem_of_In, in_map. by apply list_elem_of_In.
    + rewrite Heq. by left.
  - apply Hafter. rewrite <- Heq. apply list_elem_of_In, in_map. by apply list_elem_of_In.
Qed.

Lemma getTableIndexKey_apart (spec1 spec2 : ClassSpecification) (id : Scalar) :
  apart spec1 spec2 →
  ¬ owned (tableName spec1) id (DataDriver.getTableIndexKey (tableName spec2)).
Proof.
  intros (H1 & H2 & Hne). apply index_not_owned; [done|done|congruence].
Qed.

Lemma getRelationIndexKey_apart (spec1 spec2 : ClassSpecification) (id : Scalar)
    (d f : string) (v : Scalar) :
  apart spec1 spec2 →
  ¬ owned (tableName spec1) id (DataDriver.getRelationIndexKey d (tableName spec2) f v).
Proof.
  intros (H1 & H2 & Hne). apply index_not_owned; [done|done|congruence].
Qed.

Lemma column_apart (spec1 spec2 : ClassSpecification) (id id' : Scalar)
    (column : string) :
  apart spec1 spec2 →
  ¬ owned (tableName spec1) id
      (tableName spec2 +:+ ":" +:+ toString id' +:+ ":" +:+ column +:+ ";").
Proof.
  intros (H1 & H2 & Hne). apply column_not_owned; [done|done|]. left. congruence.
Qed.

Lemma apart_sym (spec1 spec2 : ClassSpecification) : apart spec1 spec2 → apart spec2 spec1.
Proof. intros (H1 & H2 & Hne). by split; [|split]. Qed.

Lemma getField_other {A} (r other : string) (x : A) :
  other ≠ r → getField [(r, x)] other = None.
Proof.
  intros Hne. unfold getField. cbn [List.find fst].
  by rewrite (proj2 (String.eqb_neq r other)).
Qed.

Lemma unset_others (e : Entity) (r : string) (children : list Entity)
    (other : RelationalProperty) :
  ones e = [] → manys e = [(r, children)] → name other ≠ r → unset e other.
Proof.
  intros Hones Hmanys Hne. unfold unset. rewrite Hones, Hmanys.
  destruct (isCollection other); [left; by apply getField_other | done].
Qed.

Lemma create_collection_effect (fuel : nat)
    (reg : ClassSpecificationRegistry.specifications) (owner related : ClassSpecification)
    (rp : RelationalProperty) (e : Entity) (children : list Entity)
    (st : gmap string Text) (index : list Scalar) :
  let id := identifierOf owner e in
  let foreignKey := correspondingIdentifierProperty rp in
  let bucket :=
    LocalStorageDriver.keyPrefix
      +:+ DataDriver.getRelationIndexKey (tableName owner) (tableName related)
            foreignKey id in
  registryOk reg → registered reg owner →
  NoDup (map name (relationalProperties owner)) → rp ∈ relationalProperties owner →
  backReferenced reg owner related rp → apart owner related →
  ones e = [] → manys e = [(name rp, children)] → storable related children →
  EntityIdentifierType id →
  wellFormed st → DataDriver.getTableIndex (tableName owner) st = Ok index →
  id ∉ index → arrayAt bucket st = None →
  ∃ st' relatedIndex,
    Repository.create (S (S (S (S (S fuel))))) reg owner e st = (Ok id, st')
    ∧ wellFormed st'
    ∧ DataDriver.getTableIndex (tableName owner) st'
      = Ok (map jsonElement (index ++ [id]))
    ∧ recorded owner id e st'
    ∧ default [] (arrayAt bucket st') = map (identifierOf related) children
    ∧ DataDriver.getTableIndex (tableName related) st' = Ok relatedIndex
    ∧ ∀ child, child ∈ children →
        identifierOf related child ∈ relatedIndex
        ∧ recorded related (identifierOf related child)
            (assignScalar child foreignKey id) st'.
Proof.
  intros id foreignKey bucket Hreg Howner Hnodup Hrp
    (Hcollection & Hrelated & (inverse & Hinverse & Hsingular & Hkey & Hclass) & Hnotid)
    Hapart Hones Hmanys [Hchildren Hdistinct] Hid Hwf Hindex Hnot Hbucket.
  assert (registered reg related) as Hregistered by by eexists.
  destruct (relations_split owner rp Hnodup Hrp) as (before & after & Hsplit & Hnames).
  destruct (cascade_around (S (S (S fuel))) reg owner e e id rp before after st
              Hreg Howner Hid Hsplit) as (st1 & Hwf1 & Hch1 & Hcontinue); [| |done|].
  { intros other Hother. eapply unset_others; [done|done|]. apply Hnames. by left. }
  { intros other Hother. eapply unset_others; [done|done|]. apply Hnames. by right. }
  assert (changedOnly (owned (tableName owner) id) st st1) as Hown1.
  { eapply changedOnly_weaken; [|exact Hch1]. by apply owned_relation. }
  assert (arrayAt bucket st1 = None) as Hbucket1.
  { rewrite <- Hbucket. eapply arrayAt_changedOnly; [exact Hown1|].
    by apply getRelationIndexKey_apart. }
  destruct (children_effect reg owner related inverse foreignKey id Hreg Hregistered
              Hinverse Hsingular Hkey Hclass Hnotid (proj1 (proj2 Hapart)) fuel children
              st1 _ Hwf1 (wellFormed_getTableIndex _ _ Hwf1) Hchildren Hdistinct)
    as (st2 & index2 & Hrun2 & Hwf2 & Hbucket2 & Hindex2 & _ & Hin2 & Hrecorded2 & Hch2).
  { intros child _. fold bucket. rewrite Hbucket1. apply not_elem_of_nil. }
  fold bucket in Hbucket2. rewrite Hbucket1 in Hbucket2. cbn [default app] in Hbucket2.
  destruct (Hcontinue st2) as (st3 & Hcascade & Hwf3 & Hch3); [|done|].
  { eapply cascadeStep_collection; [done|done| |exact Hrun2].
    rewrite Hmanys. apply getField_setField_eq with (fields := []). }
  assert (changedOnly (owned (tableName owner) id) st2 st3) as Hown3.
  { eapply changedOnly_weaken; [|exact Hch3]. by apply owned_relation. }
  assert (DataDriver.getTableIndex (tableName owner) st3 = Ok index) as Hindex3.
  { rewrite <- Hindex.
    transitivity (DataDriver.getTableIndex (tableName owner) st2);
      [|transitivity (DataDriver.getTableIndex (tableName owner) st1)].
    - eapply getTableIndex_changedOnly; [exact Hch3|].
      intros (d & f & v & Heq). symmetry in Heq.
      by apply relationIndexKey_not_own_tableIndexKey in Heq.
    - eapply getTableIndex_changedOnly; [exact Hch2|].
      intros (child & _ & Howned). revert Howned.
      by apply getTableIndexKey_apart, apart_sym.
    - eapply getTableIndex_changedOnly; [exact Hch1|].
      intros (d & f & v & Heq). symmetry in Heq.
      by apply relationIndexKey_not_own_tableIndexKey in Heq. }
  destruct (create_after_cascade (S (S (S (S fuel)))) reg owner e e st st3 index
              Hreg Howner Hcascade Hwf3 Hindex3 Hnot)
    as (st' & Hcreate & Hwf' & Hindex' & Hrecorded' & Hch').
  assert (changedOnly (owned (tableName owner) id) st2 st') as Hown
    by by eapply changedOnly_trans.
  exists st', index2. split; [done|]. split; [done|]. split; [done|]. split; [done|].
  split; [|split].
  - unfold bucket in *. erewrite arrayAt_changedOnly; [|exact Hown|].
    2:{ by apply getRelationIndexKey_apart. }
    apply map_jsonElement_inv.
    + apply Forall_forall. intros i (child & <- & Hchild%list_elem_of_In)%list_elem_of_In%in_map_iff.
      rewrite Forall_forall in Hchildren. by apply Hchildren.
    + rewrite Hbucket2. apply map_jsonElement_identifiers.
      apply Forall_forall. intros i (child & <- & Hchild%list_elem_of_In)%list_elem_of_In%in_map_iff.
      rewrite Forall_forall in Hchildren. by apply Hchildren.
  - rewrite <- Hindex2. eapply getTableIndex_changedOnly; [exact Hown|].
    by apply getTableIndexKey_apart.
  - intros child Hchild. split; [by apply Hin2|].
    eapply recorded_changedOnly; [by apply Hrecorded2|exact Hown|].
    intros column. by apply column_apart.
Qed.

Lemma get_set_other (view : Shadow) (written other : string) (value : Loaded) :
  other ≠ written →
  ShadowFactory.get (ShadowFactory.set view written value) other
  = ShadowFactory.get view other.
Proof.
  intros Hne. unfold ShadowFactory.get.
  assert (bool_decide (other ∈ excludedNavigationalProperties
                                 (ShadowFactory.set view written value))
          = bool_decide (other ∈ excludedNavigationalProperties view)) as ->.
  { apply bool_decide_ext. rewrite excluded_set. tauto. }
  simpl. rewrite getField_setField, decide_False; [done|]. by intros ->.
Qed.

Lemma readsAs_set (spec : ClassSpecification) (e : Entity) (view : Shadow)
    (r : string) (value : Loaded) :
  r ∈ map name (relationalProperties spec) →
  readsAs spec e view → readsAs spec e (ShadowFactory.set view r value).
Proof.
  intros Hr Hreads p Hp Hrel. rewrite get_set_other; [by apply Hreads|].
  by intros ->.
Qed.

Lemma getById_collection_included (reg : ClassSpecificationRegistry.specifications)
    (owner related : ClassSpecification) (r : string) (rp : RelationalProperty)
    (e : Entity) (rows : list (Scalar * Entity)) (st : gmap string Text)
    (index relatedIndex : list Scalar) :
  let id := identifierOf owner e in
  registryOk reg → registered reg owner →
  relationNamed owner r = Some rp → isCollection rp = true →
  ClassSpecificationRegistry.lookup reg (class rp) = Some related →
  identifierProperty owner ∈ nonRelationalProperties owner → truthyScalar id = true →
  wellFormed st →
  DataDriver.getTableIndex (tableName owner) st = Ok index → id ∈ index →
  recorded owner id e st →
  default [] (arrayAt (LocalStorageDriver.keyPrefix
                         +:+ DataDriver.getRelationIndexKey (tableName owner)
                               (tableName related)
                               (correspondingIdentifierProperty rp) id) st)
  = map fst rows →
  DataDriver.getTableIndex (tableName related) st = Ok relatedIndex →
  (∀ row, row ∈ rows →
     fst row ∈ relatedIndex ∧ recorded related (fst row) (snd row) st) →
  ∃ view views,
    Queryable.getById reg
      (Queryable.query (Queryable.include r (Repository_getQueryable owner))) id st
    = Ok view
    ∧ readsAs owner e view
    ∧ ShadowFactory.get view r = Ok (Some (LArray views))
    ∧ Forall2 (λ row loaded, readsAs related (snd row) loaded) rows views.
Proof.
  intros id Hreg Howner Hnamed Hcollection Hrelated Hidcolumn Htruthy Hwf Hindex Hin
    Hrecorded Hbucket HrelatedIndex Hrows.
  assert (registered reg related) as Hregistered by by eexists.
  destruct (loadRecord_recorded reg owner id e st Hreg Howner Hrecorded)
    as (data & Hdata & Hfields).
  destruct (getByIds_recorded 1 reg related rows st relatedIndex Hreg Hregistered
              HrelatedIndex Hrows) as (views & Hviews & Hreads).
  exists (ShadowFactory.set
            (ShadowFactory.for_ data (map name (relationalProperties owner)))
            r (LArray views)), views.
  split; [|split; [|split; [apply get_set|done]]].
  - unfold Queryable.getById.
    change (Queryable.fuelFor _) with 6.
    change (Queryable._getById 6 reg owner (IncludeNode [(r, IncludeNode [])]) id false st
            = Ok (ShadowFactory.set
                    (ShadowFactory.for_ data (map name (relationalProperties owner)))
                    r (LArray views))).
    rewrite _getById_unfold. cbn [negb].
    assert ((let? indexes := DataDriver.getTableIndex (tableName owner) in
             if negb (includes indexes id)
             then throwQ (NoDataFound id (tableName owner))
             else retQ ()) st = Ok ()) as Hpass.
    { rewrite (bindQ_Ok _ _ _ _ Hindex). apply includes_true in Hin. by rewrite Hin. }
    rewrite (bindQ_Ok _ _ _ _ Hpass), (bindQ_Ok _ _ _ _ Hdata).
    rewrite attachIncludesAndGet_unfold. cbn [entries foldQ].
    assert (attachStep 4 reg owner
              (ShadowFactory.for_ data (map name (relationalProperties owner)))
              (r, IncludeNode []) st
            = Ok (ShadowFactory.set
                    (ShadowFactory.for_ data (map name (relationalProperties owner)))
                    r (LArray views))) as Hstep.
    { unfold attachStep. cbn [fst snd]. unfold relationNamed in Hnamed. rewrite Hnamed.
      unfold ClassSpecificationRegistry.getSpecificationFor. rewrite Hrelated.
      rewrite (bindQ_Ok _ _ _ related eq_refl). rewrite Hcollection.
      rewrite (bindQ_Ok _ _ _ related eq_refl).
      cbn [source ShadowFactory.for_]. rewrite Hfields by done.
      fold (identifierOf owner e). fold id. rewrite Htruthy.
      rewrite (bindQ_Ok _ _ _ id eq_refl).
      rewrite (bindQ_Ok _ _ _ _ (wellFormed_getRelationIndex _ _ _ _ _ Hwf)).
      rewrite Hbucket. by rewrite (bindQ_Ok _ _ _ _ Hviews). }
    by rewrite (bindQ_Ok _ _ _ _ Hstep).
  - apply readsAs_set; [|by apply readsAs_for].
    by apply relationNamed_Some in Hnamed as [_ ?].
Qed.

(** X28. [create] of an instance that carries a collection of related objects
    stores the related objects too, each with the foreign key set to the
    identifier of the instance; [getById] with [include] of the collection
    then returns the instance with the related objects attached, in the order
    they were given. The related class refers back to the class of the
    instance through the same foreign key, the tables are different, the
    instance is new and has a truthy identifier, and nothing refers to it
    yet. *)
Theorem create_with_collection_then_include (fuel : nat)
    (reg : ClassSpecificationRegistry.specifications) (owner related : ClassSpecification)
    (r : string) (rp : RelationalProperty) (e : Entity) (children : list Entity)
    (st : gmap string Text) (index : list Scalar) :
  let id := identifierOf owner e in
  let foreignKey := correspondingIdentifierProperty rp in
  registryOk reg → registered reg owner →
  NoDup (map name (relationalProperties owner)) → relationNamed owner r = Some rp →
  backReferenced reg owner related rp → apart owner related →
  identifierProperty owner ∈ nonRelationalProperties owner →
  ones e = [] → manys e = [(r, children)] → storable related children →
  EntityIdentifierType id → truthyScalar id = true →
  wellFormed st →
  DataDriver.getTableIndex (tableName owner) st = Ok index → id ∉ index →
  DataDriver.getRelationIndex (tableName owner) (tableName related) foreignKey id st
  = Ok None →
  ∃ st' view views,
    Repository.create (S (S (S (S (S fuel))))) reg owner e st = (Ok id, st')
    ∧ Queryable.getById reg
        (Queryable.query (Queryable.include r (Repository_getQueryable owner))) id st'
      = Ok view
    ∧ readsAs owner e view
    ∧ ShadowFactory.get view r = Ok (Some (LArray views))
    ∧ Forall2 (λ child loaded,
                 readsAs related (assignScalar child foreignKey id) loaded)
        children views.
Proof.
  intros id foreignKey Hreg Howner Hnodup Hnamed Hback Hapart Hidcolumn Hones Hmanys
    Hchildren Hid Htruthy Hwf Hindex Hnot Hbucket.
  pose proof Hnamed as [Hname _]%relationNamed_Some.
  assert (rp ∈ relationalProperties owner) as Hrp.
  { unfold relationNamed in Hnamed. apply List.find_some in Hnamed as [Hin _].
    by apply list_elem_of_In. }
  rewrite wellFormed_getRelationIndex in Hbucket by done. injection Hbucket as Hbucket.
  rewrite <- Hname in Hmanys.
  destruct (create_collection_effect fuel reg owner related rp e children st index
              Hreg Howner Hnodup Hrp Hback Hapart Hones Hmanys Hchildren Hid Hwf Hindex
              Hnot Hbucket)
    as (st' & relatedIndex & Hcreate & Hwf' & Hindex' & Hrecorded & Hbucket'
        & HrelatedIndex & Hrows).
  destruct Hback as (Hcollection & Hrelated & _).
  destruct (getById_collection_included reg owner related r rp e
              (map (λ child, (identifierOf related child,
                              assignScalar child foreignKey id)) children)
              st' _ relatedIndex Hreg Howner Hnamed Hcollection Hrelated Hidcolumn
              Htruthy Hwf' Hindex')
    as (view & views & Hview & Hreads & Hget & Hviews); [|done| |done| |].
  - apply elem_of_map_jsonElement; [done|]. apply elem_of_app. right. by left.
  - rewrite Hbucket', map_map. by apply map_ext.
  - intros row (child & <- & Hchild%list_elem_of_In)%list_elem_of_In%in_map_iff.
    by apply Hrows.
  - exists st', view, views. split; [done|]. split; [done|]. split; [done|].
    split; [done|]. clear -Hviews. revert views Hviews.
    induction children as [|child children IH]; intros views Hviews.
    + inversion Hviews. constructor.
    + inversion Hviews as [|? loaded ? rest Hloaded Hrest]; subst.
      constructor; [done|by apply IH].
Qed.

Lemma registered_address : registered readmeRegistry AddressSpecification.
Proof. by exists "Address". Qed.

Lemma onePerson_wellFormed : wellFormed onePerson.
Proof.
  replace onePerson with (performAll 4 readmeRegistry [Create "Person" person1] ∅)
    by (vm_compute; reflexivity).
  apply performAll_wellFormed, wellFormed_empty.
Qed.

Lemma create_with_collection_then_include_witness :
  ∃ st' view views,
    Repository.create 5 readmeRegistry PersonSpecification person2WithAddresses onePerson
    = (Ok (SStr "2"), st')
    ∧ Queryable.getById readmeRegistry
        (Queryable.query
           (Queryable.include "address" (Repository_getQueryable PersonSpecification)))
        (SStr "2") st'
      = Ok view
    ∧ readsAs PersonSpecification person2WithAddresses view
    ∧ ShadowFactory.get view "address" = Ok (Some (LArray views))
    ∧ Forall2 (λ child loaded,
                 readsAs AddressSpecification
                   (assignScalar child "personId" (SStr "2")) loaded)
        [address4; address5] views.
Proof.
  apply (create_with_collection_then_include 0 readmeRegistry PersonSpecification
           AddressSpecification "address"
           {| name := "address"; class := "Address";
              correspondingIdentifierProperty := "personId"; isCollection := true |}
           person2WithAddresses [address4; address5] onePerson [SStr "1"]).
  - apply readmeRegistry_ok.
  - apply registered_person.
  - vm_compute. apply NoDup_singleton.
  - reflexivity.
  - split; [reflexivity|]. split; [reflexivity|]. split; [|by vm_compute].
    exists personOfAddress. split; [by left|]. by repeat split.
  - by repeat split.
  - by left.
  - reflexivity.
  - reflexivity.
  - split.
    + repeat constructor; by apply noRelatedObjects_decide.
    + vm_compute. repeat constructor; by intros ?%list_elem_of_In; simpl in *; intuition.
  - exact I.
  - reflexivity.
  - apply onePerson_wellFormed.
  - by vm_compute.
  - by intros ?%list_elem_of_singleton.
  - by vm_compute.
Defined.

(** ** A singular relation: the cascade and the include *)

Lemma getScalar_attached (related : ClassSpecification) (rp : RelationalProperty)
    (e parent : Entity) :
  getScalar (attached related rp e parent) (correspondingIdentifierProperty rp)
  = linked related rp e parent.
Proof.
  unfold attached, linked.
  destruct (truthyScalar (getScalar e (correspondingIdentifierProperty rp))); [done|].
  by rewrite getScalar_assignScalar, decide_True.
Qed.

Lemma cascadeStep_singular (fuel : nat)
    (reg : ClassSpecificationRegistry.specifications) (spec related : ClassSpecification)
    (id : Scalar) (e parent : Entity) (rp : RelationalProperty)
    (st st1 st2 : gmap string Text) :
  isCollection rp = false →
  ClassSpecificationRegistry.lookup reg (class rp) = Some related →
  getField (ones e) (name rp) = Some parent →
  Repository.createOrUpdate fuel reg related parent st
  = (Ok (identifierOf related parent), st1) →
  DataDriver.addRelationIndex (tableName related) (tableName spec)
    (correspondingIdentifierProperty rp) (linked related rp e parent) id st1
  = (Ok (), st2) →
  cascadeStep fuel reg spec id e rp st = (Ok (attached related rp e parent), st2).
Proof.
  intros Hsingular Hlookup Hparent Hupsert Hadd. unfold cascadeStep.
  rewrite Hsingular, Hparent. cbn [negb].
  unfold ClassSpecificationRegistry.getSpecificationFor. rewrite Hlookup.
  rewrite !bind_liftO_Ok.
  rewrite (bind_Ok _ _ _ _ _ (bind_Ok _ _ _ _ _ Hupsert)).
  unfold attached, linked, identifierOf in *.
  destruct (truthyScalar (getScalar e (correspondingIdentifierProperty rp)));
    cbn [negb ret fst snd]; by rewrite (bind_Ok _ _ _ _ _ Hadd).
Qed.

Lemma unset_others_singular (e : Entity) (r : string) (parent : Entity)
    (other : RelationalProperty) :
  ones e = [(r, parent)] → manys e = [] → name other ≠ r → unset e other.
Proof.
  intros Hones Hmanys Hne. unfold unset. rewrite Hones, Hmanys.
  destruct (isCollection other); [by left | by apply getField_other].
Qed.

Lemma create_singular_effect (fuel : nat)
    (reg : ClassSpecificationRegistry.specifications) (owner related : ClassSpecification)
    (rp : RelationalProperty) (e parent : Entity)
    (st : gmap string Text) (index : list Scalar) :
  let id := identifierOf owner e in
  registryOk reg → registered reg owner →
  NoDup (map name (relationalProperties owner)) → rp ∈ relationalProperties owner →
  isCollection rp = false →
  ClassSpecificationRegistry.lookup reg (class rp) = Some related →
  apart owner related →
  ones e = [(name rp, parent)] → manys e = [] →
  noRelatedObjects related parent → EntityIdentifierType (identifierOf related parent) →
  EntityIdentifierType id →
  wellFormed st → DataDriver.getTableIndex (tableName owner) st = Ok index →
  id ∉ index →
  ∃ st' relatedIndex,
    Repository.create (S (S (S (S (S fuel))))) reg owner e st = (Ok id, st')
    ∧ wellFormed st'
    ∧ DataDriver.getTableIndex (tableName owner) st'
      = Ok (map jsonElement (index ++ [id]))
    ∧ recorded owner id (attached related rp e parent) st'
    ∧ DataDriver.getTableIndex (tableName related) st' = Ok relatedIndex
    ∧ identifierOf related parent ∈ relatedIndex
    ∧ recorded related (identifierOf related parent) parent st'.
Proof.
  intros id Hreg Howner Hnodup Hrp Hsingular Hrelated Hapart Hones Hmanys Hnone Hpid Hid
    Hwf Hindex Hnot.
  assert (registered reg related) as Hregistered by by eexists.
  destruct (relations_split owner rp Hnodup Hrp) as (before & after & Hsplit & Hnames).
  destruct (cascade_around (S (S (S fuel))) reg owner e (attached related rp e parent)
              id rp before after st Hreg Howner Hid Hsplit)
    as (st1 & Hwf1 & Hch1 & Hcontinue); [| |done|].
  { intros other Hother. eapply unset_others_singular; [done|done|].
    apply Hnames. by left. }
  { intros other Hother.
    assert (unset e other) as Hunset.
    { eapply unset_others_singular; [done|done|]. apply Hnames. by right. }
    unfold attached. by destruct (truthyScalar _). }
  destruct (upsert_effect fuel reg related parent st1 _ Hreg Hregistered Hwf1 Hnone Hpid
              (wellFormed_getTableIndex _ _ Hwf1))
    as (st2 & index2 & Hupsert & Hwf2 & Hindex2 & Hin2 & _ & Hrecorded2 & Hch2 & _).
  destruct (addRelationIndex_effect (tableName related) (tableName owner)
              (correspondingIdentifierProperty rp) (linked related rp e parent) id st2
              Hwf2 Hid) as (st3 & Hadd & Hwf3 & Hadded).
  destruct (Hcontinue st3) as (st4 & Hcascade & Hwf4 & Hch4); [|done|].
  { eapply cascadeStep_singular; [done|done| |exact Hupsert|exact Hadd].
    rewrite Hones. apply getField_setField_eq with (fields := []). }
  assert (changedOnly (owned (tableName owner) id) st2 st3) as Hown3.
  { eapply changedOnly_added; [|apply changedOnly_refl|exact Hadded].
    right. right. by eexists _, _, _. }
  assert (changedOnly (owned (tableName owner) id) st3 st4) as Hown4.
  { eapply changedOnly_weaken; [|exact Hch4]. by apply owned_relation. }
  assert (DataDriver.getTableIndex (tableName owner) st4 = Ok index) as Hindex4.
  { rewrite <- Hindex.
    transitivity (DataDriver.getTableIndex (tableName owner) st3);
      [|transitivity (DataDriver.getTableIndex (tableName owner) st2);
        [|transitivity (DataDriver.getTableIndex (tableName owner) st1)]].
    - eapply getTableIndex_changedOnly; [exact Hch4|].
      intros (d & f & v & Heq). symmetry in Heq.
      by apply relationIndexKey_not_own_tableIndexKey in Heq.
    - eapply getTableIndex_changedOnly.
      + eapply changedOnly_added; [|apply changedOnly_refl|exact Hadded].
        instantiate (1 := λ key, ∃ d f v,
                        key = DataDriver.getRelationIndexKey d (tableName owner) f v).
        by eexists _, _, _.
      + intros (d & f & v & Heq). symmetry in Heq.
        by apply relationIndexKey_not_own_tableIndexKey in Heq.
    - eapply getTableIndex_changedOnly; [exact Hch2|].
      by apply getTableIndexKey_apart, apart_sym.
    - eapply getTableIndex_changedOnly; [exact Hch1|].
      intros (d & f & v & Heq). symmetry in Heq.
      by apply relationIndexKey_not_own_tableIndexKey in Heq. }
  destruct (create_after_cascade (S (S (S (S fuel)))) reg owner e
              (attached related rp e parent) st st4 index
              Hreg Howner Hcascade Hwf4 Hindex4 Hnot)
    as (st' & Hcreate & Hwf' & Hindex' & Hrecorded' & Hch').
  assert (changedOnly (owned (tableName owner) id) st2 st') as Hown.
  { eapply changedOnly_trans; [exact Hown3|]. by eapply changedOnly_trans. }
  exists st', index2. split; [done|]. split; [done|]. split; [done|]. split; [done|].
  split; [|split; [done|]].
  - rewrite <- Hindex2. eapply getTableIndex_changedOnly; [exact Hown|].
    by apply getTableIndexKey_apart.
  - eapply recorded_changedOnly; [exact Hrecorded2|exact Hown|].
    intros column. by apply column_apart.
Qed.

Lemma getField_Some_key {A} (fields : list (string * A)) (prop : string) (x : A) :
  getField fields prop = Some x → prop ∈ map fst fields.
Proof.
  unfold getField. destruct (List.find _ fields) as [[k y]|] eqn:H; [|done].
  intros _. apply List.find_some in H as [Hin Heq]. apply String.eqb_eq in Heq.
  simpl in Heq. subst k. apply list_elem_of_In, in_map_iff. by exists (prop, y).
Qed.

Lemma getById_singular_included (reg : ClassSpecificationRegistry.specifications)
    (owner related : ClassSpecification) (r : string) (rp : RelationalProperty)
    (id : Scalar) (e parent : Entity) (st : gmap string Text) (index : list Scalar) :
  let link := getScalar e (correspondingIdentifierProperty rp) in
  registryOk reg → registered reg owner →
  relationNamed owner r = Some rp → isCollection rp = false →
  ClassSpecificationRegistry.lookup reg (class rp) = Some related →
  correspondingIdentifierProperty rp ∈ nonRelationalProperties owner →
  truthyScalar link = true →
  DataDriver.getTableIndex (tableName owner) st = Ok index → id ∈ index →
  recorded owner id e st → recorded related link parent st →
  ∃ view loaded,
    Queryable.getById reg
      (Queryable.query (Queryable.include r (Repository_getQueryable owner))) id st
    = Ok view
    ∧ readsAs owner e view
    ∧ ShadowFactory.get view r = Ok (Some (LObject loaded))
    ∧ readsAs related parent loaded.
Proof.
  intros link Hreg Howner Hnamed Hsingular Hrelated Hcolumn Htruthy Hindex Hin
    Hrecorded Hparent.
  assert (registered reg related) as Hregistered by by eexists.
  destruct (loadRecord_recorded reg owner id e st Hreg Howner Hrecorded)
    as (data & Hdata & Hfields).
  destruct (_getById_recorded 2 reg related link parent true st Hreg Hregistered Hparent)
    as (loaded & Hloaded & Hreads); [done|].
  exists (ShadowFactory.set
            (ShadowFactory.for_ data (map name (relationalProperties owner)))
            r (LObject loaded)), loaded.
  split; [|split; [|split; [apply get_set|done]]].
  - unfold Queryable.getById.
    change (Queryable.fuelFor _) with 6.
    change (Queryable._getById 6 reg owner (IncludeNode [(r, IncludeNode [])]) id false st
            = Ok (ShadowFactory.set
                    (ShadowFactory.for_ data (map name (relationalProperties owner)))
                    r (LObject loaded))).
    rewrite _getById_unfold. cbn [negb].
    assert ((let? indexes := DataDriver.getTableIndex (tableName owner) in
             if negb (includes indexes id)
             then throwQ (NoDataFound id (tableName owner))
             else retQ ()) st = Ok ()) as Hpass.
    { rewrite (bindQ_Ok _ _ _ _ Hindex). apply includes_true in Hin. by rewrite Hin. }
    rewrite (bindQ_Ok _ _ _ _ Hpass), (bindQ_Ok _ _ _ _ Hdata).
    rewrite attachIncludesAndGet_unfold. cbn [entries foldQ].
    assert (attachStep 4 reg owner
              (ShadowFactory.for_ data (map name (relationalProperties owner)))
              (r, IncludeNode []) st
            = Ok (ShadowFactory.set
                    (ShadowFactory.for_ data (map name (relationalProperties owner)))
                    r (LObject loaded))) as Hstep.
    { unfold attachStep. cbn [fst snd]. unfold relationNamed in Hnamed. rewrite Hnamed.
      unfold ClassSpecificationRegistry.getSpecificationFor. rewrite Hrelated.
      rewrite (bindQ_Ok _ _ _ related eq_refl). rewrite Hsingular.
      cbn [source ShadowFactory.for_].
      pose proof (Hfields _ Hcolumn) as Hlink. fold link in Hlink.
      rewrite Htruthy in Hlink.
      rewrite bool_decide_eq_true_2 by by eapply getField_Some_key.
      cbn [negb]. rewrite Hlink. cbn [truthyLoaded truthy]. rewrite Htruthy.
      cbn [negb asIdentifier].
      rewrite (bindQ_Ok _ _ _ link eq_refl).
      by rewrite (bindQ_Ok _ _ _ _ Hloaded). }
    by rewrite (bindQ_Ok _ _ _ _ Hstep).
  - apply readsAs_set; [|by apply readsAs_for].
    by apply relationNamed_Some in Hnamed as [_ ?].
Qed.


(** X29. [create] of an instance that carries the related object of a
    singular relation stores the related object too, whether or not its row
    exists, and assigns its identifier to the foreign key of the instance
    when that was falsy. When the foreign key then names the related object,
    [getById] with [include] of the relation returns the instance with the
    related object attached. *)
Theorem create_with_related_object_then_include (fuel : nat)
    (reg : ClassSpecificationRegistry.specifications) (owner related : ClassSpecification)
    (r : string) (rp : RelationalProperty) (e parent : Entity)
    (st : gmap string Text) (index : list Scalar) :
  let id := identifierOf owner e in
  registryOk reg → registered reg owner →
  NoDup (map name (relationalProperties owner)) → relationNamed owner r = Some rp →
  isCollection rp = false →
  ClassSpecificationRegistry.lookup reg (class rp) = Some related →
  apart owner related →
  correspondingIdentifierProperty rp ∈ nonRelationalProperties owner →
  ones e = [(r, parent)] → manys e = [] →
  noRelatedObjects related parent →
  EntityIdentifierType (identifierOf related parent) →
  truthyScalar (identifierOf related parent) = true →
  linked related rp e parent = identifierOf related parent →
  EntityIdentifierType id →
  wellFormed st → DataDriver.getTableIndex (tableName owner) st = Ok index →
  id ∉ index →
  ∃ st' view loaded,
    Repository.create (S (S (S (S (S fuel))))) reg owner e st = (Ok id, st')
    ∧ Queryable.getById reg
        (Queryable.query (Queryable.include r (Repository_getQueryable owner))) id st'
      = Ok view
    ∧ readsAs owner (attached related rp e parent) view
    ∧ ShadowFactory.get view r = Ok (Some (LObject loaded))
    ∧ readsAs related parent loaded.
Proof.
  intros id Hreg Howner Hnodup Hnamed Hsingular Hrelated Hapart Hcolumn Hones Hmanys
    Hnone Hpid Htruthy Hlinked Hid Hwf Hindex Hnot.
  pose proof Hnamed as [Hname _]%relationNamed_Some.
  assert (rp ∈ relationalProperties owner) as Hrp.
  { unfold relationNamed in Hnamed. apply List.find_some in Hnamed as [Hin _].
    by apply list_elem_of_In. }
  rewrite <- Hname in Hones.
  destruct (create_singular_effect fuel reg owner related rp e parent st index
              Hreg Howner Hnodup Hrp Hsingular Hrelated Hapart Hones Hmanys Hnone Hpid
              Hid Hwf Hindex Hnot)
    as (st' & relatedIndex & Hcreate & Hwf' & Hindex' & Hrecorded & _ & _ & Hparent).
  destruct (getById_singular_included reg owner related r rp id
              (attached related rp e parent) parent st'
              (map jsonElement (index ++ [id])) Hreg Howner Hnamed Hsingular
              Hrelated Hcolumn) as (view & loaded & Hview); [|done| |done| |].
  - by rewrite getScalar_attached, Hlinked.
  - apply elem_of_map_jsonElement; [done|]. apply elem_of_app. right. by left.
  - by rewrite getScalar_attached, Hlinked.
  - by exists st', view, loaded.
Qed.

Lemma create_with_related_object_then_include_witness :
  ∃ st' view loaded,
    Repository.create 5 readmeRegistry AddressSpecification address3 onePerson
    = (Ok (SStr "3"), st')
    ∧ Queryable.getById readmeRegistry
        (Queryable.query
           (Queryable.include "person" (Repository_getQueryable AddressSpecification)))
        (SStr "3") st'
      = Ok view
    ∧ readsAs AddressSpecification (attached PersonSpecification personOfAddress
                                      address3 person1) view
    ∧ ShadowFactory.get view "person" = Ok (Some (LObject loaded))
    ∧ readsAs PersonSpecification person1 loaded.
Proof.
  apply (create_with_related_object_then_include 0 readmeRegistry AddressSpecification
           PersonSpecification "person" personOfAddress address3 person1 onePerson []).
  - apply readmeRegistry_ok.
  - apply registered_address.
  - vm_compute. apply NoDup_singleton.
  - reflexivity.
  - reflexivity.
  - reflexivity.
  - by repeat split.
  - by vm_compute; repeat (try (by left); right).
  - reflexivity.
  - reflexivity.
  - by apply noRelatedObjects_decide.
  - exact I.
  - reflexivity.
  - reflexivity.
  - exact I.
  - apply onePerson_wellFormed.
  - by vm_compute.
  - apply not_elem_of_nil.
Defined.

(** X30. A row that is created with the foreign key of a singular relation
    set joins the collection of the row it names: [getById] of that row with
    [include] of the collection returns the rows that were listed before,
    followed by the new one. *)
Theorem create_with_foreign_key_joins_the_collection (fuel : nat)
    (reg : ClassSpecificationRegistry.specifications) (owner related : ClassSpecification)
    (r : string) (rp : RelationalProperty) (p e : Entity)
    (rows : list (Scalar * Entity)) (st : gmap string Text)
    (ownerIndex index : list Scalar) (listed : option (list Scalar)) :
  let id := identifierOf related e in
  let ownerId := identifierOf owner p in
  let foreignKey := correspondingIdentifierProperty rp in
  registryOk reg → registered reg owner →
  relationNamed owner r = Some rp → backReferenced reg owner related rp →
  apart owner related →
  identifierProperty owner ∈ nonRelationalProperties owner →
  truthyScalar ownerId = true →
  noRelatedObjects related e → EntityIdentifierType id →
  colonFree (toString id) = true → getScalar e foreignKey = ownerId →
  wellFormed st →
  DataDriver.getTableIndex (tableName owner) st = Ok ownerIndex →
  ownerId ∈ ownerIndex → recorded owner ownerId p st →
  DataDriver.getTableIndex (tableName related) st = Ok index → id ∉ index →
  DataDriver.getRelationIndex (tableName owner) (tableName related) foreignKey ownerId st
  = Ok listed →
  default [] listed = map fst rows → beside related id index st rows →
  ∃ st' view views,
    Repository.create (S (S fuel)) reg related e st = (Ok id, st')
    ∧ Queryable.getById reg
        (Queryable.query (Queryable.include r (Repository_getQueryable owner)))
        ownerId st'
      = Ok view
    ∧ readsAs owner p view
    ∧ ShadowFactory.get view r = Ok (Some (LArray views))
    ∧ Forall2 (λ row loaded, readsAs related (snd row) loaded) (rows ++ [(id, e)]) views.
Proof.
  intros id ownerId foreignKey Hreg Howner Hnamed
    (Hcollection & Hrelated & (inverse & Hinverse & Hsingular & Hkey & Hclass) & _)
    Hapart Hidcolumn Htruthy Hnone Hid Hcolon Hforeign Hwf HownerIndex Hin Hrecorded
    Hindex Hnot Hlisted Hrows Hbeside.
  assert (registered reg related) as Hregistered by by eexists.
  destruct (create_effect fuel reg related e st index Hreg Hregistered Hwf Hnone Hid
              Hindex Hnot)
    as (st' & Hcreate & Hwf' & Hindex' & Hrecorded' & Hch & Hext & Hholds).
  fold (identifierOf related e) in *. fold id in Hcreate, Hindex', Hrecorded', Hch, Hext.
  specialize (Hholds inverse owner Hinverse Hsingular Hclass).
  rewrite Hkey in Hholds. fold foreignKey in Hholds. rewrite Hforeign in Hholds.
  rewrite wellFormed_getRelationIndex in Hlisted by done. injection Hlisted as Hlisted.
  rewrite <- Hlisted in Hrows.
  assert (id ∉ default [] (arrayAt (LocalStorageDriver.keyPrefix
                                      +:+ DataDriver.getRelationIndexKey (tableName owner)
                                            (tableName related) foreignKey ownerId) st))
    as Hfresh.
  { rewrite Hrows. intros (row & Heq & Hrow%list_elem_of_In)%list_elem_of_In%in_map_iff.
    destruct (Hbeside row Hrow) as (_ & _ & _ & Hrowin & _). apply Hnot.
    by rewrite <- Heq. }
  pose proof (extended_holds _ id st st' (Hext _ _ _) Hholds Hfresh) as Hbucket.
  destruct (getById_collection_included reg owner related r rp p (rows ++ [(id, e)])
              st' ownerIndex (map jsonElement (index ++ [id])) Hreg Howner Hnamed
              Hcollection Hrelated Hidcolumn Htruthy Hwf')
    as (view & views & Hview); [| | | |done| |].
  - rewrite <- HownerIndex. eapply getTableIndex_changedOnly; [exact Hch|].
    by apply getTableIndexKey_apart, apart_sym.
  - done.
  - eapply recorded_changedOnly; [exact Hrecorded|exact Hch|].
    intros column. by apply column_apart, apart_sym.
  - fold ownerId foreignKey. rewrite Hbucket, Hrows, (map_app fst). cbn [map fst].
    apply map_jsonElement_identifiers, Forall_app. split; [|by repeat constructor].
    apply Forall_forall.
    intros i (row & <- & Hrow%list_elem_of_In)%list_elem_of_In%in_map_iff.
    by apply Hbeside.
  - intros row [Hrow|Hrow%list_elem_of_singleton]%elem_of_app; [|subst row].
    + destruct (Hbeside row Hrow) as (Hrowid & Hrowcolon & Hrowne & Hrowin & Hrowrec).
      split.
      * apply elem_of_map_jsonElement; [done|]. apply elem_of_app. by left.
      * eapply recorded_changedOnly; [exact Hrowrec|exact Hch|].
        intros column. apply column_not_owned; [apply Hapart..|].
        right. by split; [|split].
    + split; [|done].
      apply elem_of_map_jsonElement; [done|]. apply elem_of_app. right. by left.
  - by exists st', view, views.
Qed.

Lemma personAndAddress_wellFormed : wellFormed personAndAddress.
Proof.
  replace personAndAddress with
    (performAll 4 readmeRegistry [Create "Person" person1; Create "Address" address1] ∅)
    by (vm_compute; reflexivity).
  apply performAll_wellFormed, wellFormed_empty.
Qed.

Lemma create_with_foreign_key_joins_the_collection_witness :
  ∃ st' view views,
    Repository.create 2 readmeRegistry AddressSpecification address2 personAndAddress
    = (Ok (SStr "2"), st')
    ∧ Queryable.getById readmeRegistry
        (Queryable.query
           (Queryable.include "address" (Repository_getQueryable PersonSpecification)))
        (SStr "1") st'
      = Ok view
    ∧ readsAs PersonSpecification person1 view
    ∧ ShadowFactory.get view "address" = Ok (Some (LArray views))
    ∧ Forall2 (λ row loaded, readsAs AddressSpecification (snd row) loaded)
        ([(SStr "1", address1)] ++ [(SStr "2", address2)]) views.
Proof.
  apply (create_with_foreign_key_joins_the_collection 0 readmeRegistry
           PersonSpecification AddressSpecification "address"
           {| name := "address"; class := "Address";
              correspondingIdentifierProperty := "personId"; isCollection := true |}
           person1 address2 [(SStr "1", address1)] personAndAddress
           [SStr "1"] [SStr "1"] (Some [SStr "1"])).
  - apply readmeRegistry_ok.
  - apply registered_person.
  - reflexivity.
  - split; [reflexivity|]. split; [reflexivity|]. split; [|by vm_compute].
    exists personOfAddress. split; [by left|]. by repeat split.
  - by repeat split.
  - by left.
  - reflexivity.
  - by apply noRelatedObjects_decide.
  - exact I.
  - reflexivity.
  - reflexivity.
  - apply personAndAddress_wellFormed.
  - by vm_compute.
  - by left.
  - intros p Hp. apply list_elem_of_In in Hp. simpl in Hp.
    destruct Hp as [<-|[<-|[<-|[]]]]; by vm_compute.
  - by vm_compute.
  - by intros ?%list_elem_of_singleton.
  - by vm_compute.
  - reflexivity.
  - intros row ->%list_elem_of_singleton. split; [exact I|]. split; [reflexivity|].
    split; [done|]. split; [by left|].
    intros p Hp. apply list_elem_of_In in Hp. simpl in Hp.
    destruct Hp as [<-|[<-|[<-|[<-|[]]]]]; by vm_compute.
Defined.

(** ** Fetching by identifiers, in full *)

Lemma mapQ_Ok_iff {A B} (l : list A) (body : A → Q B) (st : gmap string Text)
    (results : list B) :
  mapQ l body st = Ok results ↔ Forall2 (λ x r, body x st = Ok r) l results.
Proof.
  split; [|apply mapQ_Ok].
  revert results. induction l as [|x l IH]; intros results; simpl.
  - intros [= <-]. constructor.
  - unfold bindQ. destruct (body x st) as [y|] eqn:Hy; [|done].
    destruct (mapQ l body st) as [ys|] eqn:Hys; [|done].
    intros [= <-]. constructor; [done | by apply IH].
Qed.

Lemma mapQ_Throw_iff {A B} (l : list A) (body : A → Q B) (st : gmap string Text)
    (e : Error) :
  mapQ l body st = Throw e
  ↔ ∃ before x after,
      l = (before ++ x :: after)%list
      ∧ Forall (λ i, ∃ r, body i st = Ok r) before
      ∧ body x st = Throw e.
Proof.
  induction l as [|x l IH]; simpl.
  - split; [done|]. intros (before & y & rest & Heq & _). by destruct before.
  - unfold bindQ. destruct (body x st) as [y|e'] eqn:Hy.
    + destruct (mapQ l body st) as [ys|e''] eqn:Hys.
      * split; [done|]. intros (before & z & rest & Heq & Hbefore & Hz).
        destruct before as [|b before]; simplify_eq/=; [congruence|].
        apply Forall_cons in Hbefore as [_ Hbefore].
        assert (Ok ys = Throw e :> Outcome (list B)) as Habs; [|done].
        apply IH. eauto 6.
      * split.
        -- intros [= ->]. destruct (proj1 IH eq_refl) as (before & z & rest & -> & Hb & Hz).
           exists (x :: before), z, rest. split; [done|]. split; [|done].
           constructor; eauto.
        -- intros (before & z & rest & Heq & Hbefore & Hz).
           destruct before as [|b before]; simplify_eq/=; [congruence|].
           apply Forall_cons in Hbefore as [_ Hbefore].
           apply IH. eauto 6.
    + split.
      * intros [= ->]. exists [], x, l. split; [done|]. split; [constructor | done].
      * intros (before & z & rest & Heq & Hbefore & Hz).
        destruct before as [|b before]; simplify_eq/=; [congruence|].
        apply Forall_cons in Hbefore as [[r Hr] _]. congruence.
Qed.

(** The loop of [_getById] over the columns gives [row]. *)
Lemma loadRecord_row (reg : ClassSpecificationRegistry.specifications)
    (spec : ClassSpecification) (id : Scalar) (st : gmap string Text) :
  mapped reg spec →
  foldQ (nonRelationalProperties spec) [] (λ data property,
    let? dataKey :=
      ofOutcome (DataDriver.getDataKey reg (tableName spec) id property) in
    let? propertyValue := readQ dataKey in
    if negb (truthy propertyValue) then retQ data
    else retQ (setField data property (LValue propertyValue))) st
  = Ok (row spec id st).
Proof.
  intros Hmapped. unfold row.
  assert (∀ p, p ∈ nonRelationalProperties spec → p ∈ nonRelationalProperties spec)
    as Hsub by done.
  revert Hsub. generalize (nonRelationalProperties spec) at 1 3 4.
  generalize ([] : list (string * Loaded)).
  intros data properties. revert data.
  induction properties as [|x l IH]; intros data Hsub; [done|].
  simpl. unfold bindQ at 1. unfold bindQ at 1. unfold ofOutcome at 1.
  rewrite (getDataKey_mapped reg spec id x Hmapped) by (apply Hsub; left).
  unfold bindQ at 1. unfold readQ at 1. fold (stored (tableName spec) id x st).
  destruct (truthy (stored (tableName spec) id x st)); simpl; unfold retQ;
    apply IH; intros p Hp; apply Hsub; by right.
Qed.

Lemma _getById_loaded (fuel : nat) (reg : ClassSpecificationRegistry.specifications)
    (spec : ClassSpecification) (id : Scalar) (st : gmap string Text) :
  mapped reg spec →
  Queryable._getById (S (S fuel)) reg spec (IncludeNode []) id true st
  = Ok (loaded spec id st).
Proof.
  intros Hmapped. rewrite _getById_unfold. simpl negb. cbv iota.
  unfold bindQ at 1. unfold retQ at 1.
  by rewrite (bindQ_Ok _ _ _ _ (loadRecord_row reg spec id st Hmapped)).
Qed.

Lemma getByIds_unfold (fuel : nat) (reg : ClassSpecificationRegistry.specifications)
    (spec : ClassSpecification) (includeMap : IncludeMap) (ids : list Scalar) :
  Queryable.getByIds (S fuel) reg spec includeMap ids
  = (let? indexes := DataDriver.getTableIndex (tableName spec) in
     if existsb (λ id, negb (includes indexes id)) ids
     then throwQ (MissingIds (tableName spec))
     else mapQ ids (λ id, Queryable._getById fuel reg spec includeMap id true)).
Proof. reflexivity. Qed.

Lemma getByIds_present (fuel : nat) (reg : ClassSpecificationRegistry.specifications)
    (spec : ClassSpecification) (includeMap : IncludeMap) (ids index : list Scalar)
    (st : gmap string Text) :
  DataDriver.getTableIndex (tableName spec) st = Ok index →
  (∀ id, id ∈ ids → id ∈ index) →
  Queryable.getByIds (S fuel) reg spec includeMap ids st
  = mapQ ids (λ id, Queryable._getById fuel reg spec includeMap id true) st.
Proof.
  intros Hindex Hall. rewrite getByIds_unfold, (bindQ_Ok _ _ _ _ Hindex).
  destruct (existsb _ ids) eqn:Hex; [|done].
  apply existsb_missing in Hex as (id & Hin & Hmiss).
  by destruct Hmiss; apply Hall.
Qed.

(** With every requested person in the index, [getByIds] with the addresses
    included throws: the bucket of the first person still names the address
    that was deleted after it had moved to the second person, and loading
    it fails. *)
Lemma getByIds_throws_with_every_identifier_present :
  DataDriver.getTableIndex "person" addressDeleted = Ok [SStr "1"; SStr "2"]
  ∧ DataDriver.getRelationIndex "person" "address" "personId" (SStr "1") addressDeleted
    = Ok (Some [SStr "1"])
  ∧ DataDriver.getTableIndex "address" addressDeleted = Ok []
  ∧ Queryable.getByIds 6 readmeRegistry PersonSpecification peopleWithAddresses
      [SStr "1"; SStr "2"] addressDeleted
    = Throw (MissingIds "address").
Proof. repeat split; vm_compute; reflexivity. Qed.

(** C7, as the code has it. [getByIds] throws "missing ids" as soon as one
    requested identifier is absent from the identifier index, before any
    record is loaded: it does so even with no fuel left for a single load,
    whatever the stored records and the include map are. When every
    identifier is present and nothing is included, it returns, for a class
    of the registry, the records of the requested rows, one per identifier
    and in the order requested. With relations included it returns the
    objects [_getById] loads, in that order, exactly when every load
    returns, and throws the error of the first load that throws. *)
Theorem getByIds_all_or_nothing
    (reg : ClassSpecificationRegistry.specifications) (spec : ClassSpecification)
    (ids index : list Scalar) (st : gmap string Text) :
  DataDriver.getTableIndex (tableName spec) st = Ok index →
  ((∃ id, id ∈ ids ∧ id ∉ index) →
     ∀ fuel includeMap,
       Queryable.getByIds (S fuel) reg spec includeMap ids st
       = Throw (MissingIds (tableName spec)))
  ∧
  ((∀ id, id ∈ ids → id ∈ index) →
     (mapped reg spec →
      ∀ fuel,
        Queryable.getByIds (S (S (S fuel))) reg spec (IncludeNode []) ids st
        = Ok (map (λ id, loaded spec id st) ids))
     ∧ (∀ fuel includeMap records,
          Queryable.getByIds (S fuel) reg spec includeMap ids st = Ok records
          ↔ Forall2 (λ id record,
                       Queryable._getById fuel reg spec includeMap id true st = Ok record)
              ids records)
     ∧ (∀ fuel includeMap e,
          Queryable.getByIds (S fuel) reg spec includeMap ids st = Throw e
          ↔ ∃ before id rest,
              ids = (before ++ id :: rest)%list
              ∧ Forall (λ i, ∃ record,
                          Queryable._getById fuel reg spec includeMap i true st
                          = Ok record) before
              ∧ Queryable._getById fuel reg spec includeMap id true st = Throw e)).
Proof.
  intros Hindex. split.
  - intros Hmissing fuel includeMap. rewrite getByIds_unfold, (bindQ_Ok _ _ _ _ Hindex).
    apply existsb_missing in Hmissing. by rewrite Hmissing.
  - intros Hall. split; [|split].
    + intros Hmapped fuel.
      rewrite (getByIds_present _ _ _ _ _ _ _ Hindex Hall). apply mapQ_Ok.
      clear Hall. induction ids as [|id ids IH]; constructor; [|done].
      by apply _getById_loaded.
    + intros fuel includeMap records.
      rewrite (getByIds_present _ _ _ _ _ _ _ Hindex Hall). apply mapQ_Ok_iff.
    + intros fuel includeMap e.
      rewrite (getByIds_present _ _ _ _ _ _ _ Hindex Hall). apply mapQ_Throw_iff.
Qed.

Lemma getByIds_all_or_nothing_witness :
  Queryable.getByIds 1 readmeRegistry PersonSpecification peopleWithAddresses
    [SStr "1"; SStr "3"] twoPeople = Throw (MissingIds "person")
  ∧ Queryable.getByIds 3 readmeRegistry PersonSpecification (IncludeNode [])
      [SStr "2"; SStr "1"] twoPeople
    = Ok [mkShadow [("id", LValue (VScalar (SStr "2")));
                    ("age", LValue (VScalar (SNum 25)));
                    ("name", LValue (VScalar (SStr "Jane")))] (list_to_set ["address"]);
          john].
Proof.
  destruct (getByIds_all_or_nothing readmeRegistry PersonSpecification
              [SStr "1"; SStr "3"] [SStr "1"; SStr "2"] twoPeople)
    as [Hmissing _]; [vm_compute; reflexivity|].
  destruct (getByIds_all_or_nothing readmeRegistry PersonSpecification
              [SStr "2"; SStr "1"] [SStr "1"; SStr "2"] twoPeople)
    as [_ Hpresent]; [vm_compute; reflexivity|].
  split.
  - apply Hmissing. exists (SStr "3"). split; [by right; left|].
    intros H. by repeat (apply elem_of_cons in H as [H|H]; [discriminate H|]);
      apply elem_of_nil in H.
  - destruct Hpresent as [Hplain _].
    + intros id H. apply elem_of_cons in H as [->|H]; [by right; left|].
      apply elem_of_cons in H as [->|H]; [by left|]. by apply elem_of_nil in H.
    + rewrite (Hplain eq_refl 0%nat). vm_compute. reflexivity.
Defined.

(** ** What delete leaves, entry by entry *)

Lemma without_map_jsonElement (id : Scalar) (l : list Scalar) :
  EntityIdentifierType id →
  without id (map jsonElement l) = map jsonElement (without id l).
Proof.
  intros Hid. unfold without. induction l as [|x l IH]; [done|].
  simpl. rewrite !filter_cons.
  destruct (decide (jsonElement x ≠ id)) as [Hne|Heq];
    destruct (decide (x ≠ id)) as [Hne'|Heq']; simpl; rewrite ?IH; try done.
  - destruct Hne. apply dec_stable in Heq'. subst x. by destruct id.
  - apply dec_stable in Heq. apply (jsonElement_identifier x id Hid) in Heq. done.
Qed.

Lemma without_without (id : Scalar) (l : list Scalar) :
  without id (without id l) = without id l.
Proof.
  unfold without. induction l as [|x l IH]; [done|].
  rewrite filter_cons. destruct (decide (x ≠ id)); [|done].
  rewrite filter_cons, decide_True by done. by rewrite IH.
Qed.

Lemma map_jsonElement_twice (l : list Scalar) :
  map jsonElement (map jsonElement l) = map jsonElement l.
Proof. induction l as [|x l IH]; [done|]. simpl. rewrite IH. by destruct x. Qed.

Lemma filtered_filtered (id : Scalar) (t : option Text) :
  EntityIdentifierType id → filtered id (filtered id t) = filtered id t.
Proof.
  intros Hid. destruct t as [[|[s|l]]|]; simpl; try done.
  by rewrite without_map_jsonElement, without_without, map_jsonElement_twice.
Qed.

Lemma arrayAt_filtered (id : Scalar) (K : string) (st st' : gmap string Text) :
  st' !! K = filtered id (st !! K) →
  arrayAt K st' = (λ l, map jsonElement (without id l)) <$> arrayAt K st.
Proof.
  unfold arrayAt. intros ->. by destruct (st !! K) as [[|[s|l]]|].
Qed.

Lemma swept_start (id : Scalar) (st : gmap string Text) : swept id [] [] st st.
Proof. intros K. by rewrite !bool_decide_eq_false_2 by apply not_elem_of_nil. Qed.

Lemma swept_ext (id : Scalar) (R F R' F' : list string) (st st' : gmap string Text) :
  (∀ K, K ∈ R ↔ K ∈ R') → (∀ K, K ∈ F ↔ K ∈ F') →
  swept id R F st st' → swept id R' F' st st'.
Proof.
  intros HR HF H K. rewrite (H K).
  by rewrite (bool_decide_ext _ _ (HR K)), (bool_decide_ext _ _ (HF K)).
Qed.

Lemma swept_remove (id : Scalar) (R F : list string) (k : string)
    (st s : gmap string Text) :
  swept id R F st s → swept id (k :: R) F st (delete k s).
Proof.
  intros H K. rewrite lookup_delete. destruct (decide (k = K)) as [->|Hne].
  - by rewrite bool_decide_eq_true_2 by left.
  - rewrite (H K). apply (f_equal (λ b : bool, if b then _ else _)).
    apply bool_decide_ext. rewrite elem_of_cons.
    split; [by right | intros [?|?]; [by subst | done]].
Qed.

Lemma swept_filter (id : Scalar) (R F : list string) (k : string)
    (st s : gmap string Text) :
  EntityIdentifierType id →
  swept id R F st s →
  swept id R (k :: F) st
    match arrayAt k s with
    | Some l => <[k := Json (VArray (map jsonElement (without id l)))]> s
    | None => s
    end.
Proof.
  intros Hid H K.
  assert (match arrayAt k s with
          | Some l => <[k := Json (VArray (map jsonElement (without id l)))]> s
          | None => s
          end !! K
          = if decide (k = K) then filtered id (s !! K) else s !! K) as ->.
  { unfold arrayAt. destruct (decide (k = K)) as [->|Hne].
    - destruct (s !! K) as [[|[v|l]]|] eqn:Hs; rewrite ?lookup_insert_eq, ?Hs; done.
    - destruct (s !! k) as [[|[v|l]]|]; rewrite ?lookup_insert_ne by done; done. }
  rewrite (H K). destruct (decide (k = K)) as [->|Hne].
  - rewrite (bool_decide_eq_true_2 (K ∈ K :: F)) by left.
    destruct (bool_decide (K ∈ R)); [done|].
    destruct (bool_decide (K ∈ F)); [by apply filtered_filtered | done].
  - assert (bool_decide (K ∈ k :: F) = bool_decide (K ∈ F)) as ->; [|done].
    apply bool_decide_ext. rewrite elem_of_cons.
    split; [intros [?|?]; [by subst | done] | by right].
Qed.

Lemma elem_of_map_prefix (key : string) (l : list string) :
  LocalStorageDriver.keyPrefix +:+ key
    ∈ map (String.append LocalStorageDriver.keyPrefix) l
  ↔ key ∈ l.
Proof.
  rewrite list_elem_of_fmap. split.
  - intros (k & Heq & Hin). apply (inj _) in Heq. by subst.
  - intros Hin. by exists key.
Qed.

Section DeleteExact.
Context (reg : ClassSpecificationRegistry.specifications) (Hreg : registryOk reg).
Context (spec : ClassSpecification) (Hspec : registered reg spec).
Context (instance : Entity).
Hypothesis Hid : EntityIdentifierType (getScalar instance (identifierProperty spec)).

Lemma removeTableIndex_swept (st0 s : gmap string Text) (R F : list string) :
  wellFormed s →
  swept (getScalar instance (identifierProperty spec)) R F st0 s →
  ∃ s',
    DataDriver.removeTableIndex (tableName spec)
      (getScalar instance (identifierProperty spec)) s = (Ok (), s')
    ∧ wellFormed s'
    ∧ swept (getScalar instance (identifierProperty spec)) R
        ((LocalStorageDriver.keyPrefix +:+ DataDriver.getTableIndexKey (tableName spec))
         :: F) st0 s'.
Proof.
  intros Hwf Hswept.
  pose proof (removeTableIndex_step (tableName spec)
                (getScalar instance (identifierProperty spec)) s) as Hstep.
  unfold DataDriver.removeTableIndex in *.
  rewrite removeIndex_effect in * by (done || apply tableIndexKey_isIndexKey).
  eexists. split; [done|]. split; [by eapply wellFormed_removeStep|].
  by apply swept_filter.
Qed.

Lemma deleteProperties_swept (st0 : gmap string Text) (properties : list string) :
  (∀ p, p ∈ properties → p ∈ nonRelationalProperties spec) →
  ∀ (s : gmap string Text) (R F : list string),
    wellFormed s →
    swept (getScalar instance (identifierProperty spec)) R F st0 s →
    ∃ s',
      forEach properties (deleteProperty reg spec instance) s = (Ok (), s')
      ∧ wellFormed s'
      ∧ swept (getScalar instance (identifierProperty spec))
          (map (λ property,
                  columnKey (tableName spec)
                    (getScalar instance (identifierProperty spec)) property)
             properties ++ R) F st0 s'.
Proof.
  induction properties as [|x l IH]; intros Hsub s R F Hwf Hswept.
  - exists s. by repeat split.
  - simpl forEach. unfold deleteProperty at 1.
    rewrite (getDataKey_registered reg Hreg spec _ x Hspec) by (apply Hsub; left).
    rewrite bind_liftO_Ok.
    destruct (IH (λ p Hp, Hsub p (list_elem_of_further _ _ _ Hp))
                (delete (columnKey (tableName spec)
                           (getScalar instance (identifierProperty spec)) x) s)
                (columnKey (tableName spec)
                   (getScalar instance (identifierProperty spec)) x :: R) F)
      as (s' & Hrun & Hwf' & Hswept').
    { by apply wellFormed_delete. }
    { by apply swept_remove. }
    exists s'. split; [exact Hrun|]. split; [done|].
    eapply swept_ext; [| |exact Hswept']; [|done].
    intros K. cbn [map]. rewrite !elem_of_app, !elem_of_cons. tauto.
Qed.

Lemma deleteRelations_swept (st0 : gmap string Text) (relations : list RelationalProperty) :
  (∀ rp, rp ∈ relations → rp ∈ relationalProperties spec) →
  ∀ (s : gmap string Text) (R F : list string),
    wellFormed s →
    swept (getScalar instance (identifierProperty spec)) R F st0 s →
    ∃ s',
      forEach relations (deleteRelation reg spec instance) s = (Ok (), s')
      ∧ wellFormed s'
      ∧ swept (getScalar instance (identifierProperty spec))
          (map (String.append LocalStorageDriver.keyPrefix)
             (omap (λ rp,
                match ClassSpecificationRegistry.lookup reg (class rp) with
                | None => None
                | Some relatedSpec =>
                    if isCollection rp
                    then Some (DataDriver.getRelationIndexKey (tableName spec)
                                 (tableName relatedSpec)
                                 (correspondingIdentifierProperty rp)
                                 (getScalar instance (identifierProperty spec)))
                    else None
                end) relations) ++ R)
          (map (String.append LocalStorageDriver.keyPrefix)
             (omap (λ rp,
                match ClassSpecificationRegistry.lookup reg (class rp) with
                | None => None
                | Some relatedSpec =>
                    if isCollection rp then None
                    else Some (DataDriver.getRelationIndexKey (tableName relatedSpec)
                                 (tableName spec) (correspondingIdentifierProperty rp)
                                 (getScalar instance
                                    (correspondingIdentifierProperty rp)))
                end) relations) ++ F) st0 s'.
Proof.
  induction relations as [|rp l IH]; intros Hsub s R F Hwf Hswept.
  - exists s. by repeat split.
  - simpl forEach. unfold deleteRelation at 1.
    destruct (getSpecificationFor_registered reg Hreg spec rp Hspec)
      as (relatedSpec & Hget & _); [apply Hsub; left|].
    rewrite Hget, bind_liftO_Ok.
    assert (ClassSpecificationRegistry.lookup reg (class rp) = Some relatedSpec)
      as Hlookup.
    { unfold ClassSpecificationRegistry.getSpecificationFor in Hget.
      destruct (ClassSpecificationRegistry.lookup reg (class rp)); by simplify_eq. }
    cbn [omap list_omap]. rewrite Hlookup.
    destruct (isCollection rp); cbn [negb].
    + unfold DataDriver.removeRelationIndexRecord, LocalStorageDriver.remove.
      unfold bind at 1.
      edestruct (IH (λ p Hp, Hsub p (list_elem_of_further _ _ _ Hp)))
        as (s' & Hrun & Hwf' & Hswept');
        [by apply wellFormed_delete | by apply swept_remove |].
      exists s'. split; [exact Hrun|]. split; [done|].
      eapply swept_ext; [| |exact Hswept']; [|done].
      intros K. cbn [map]. rewrite !elem_of_app, !elem_of_cons. tauto.
    + pose proof (removeRelationIndex_step (tableName relatedSpec) (tableName spec)
        (correspondingIdentifierProperty rp)
        (getScalar instance (correspondingIdentifierProperty rp))
        (getScalar instance (identifierProperty spec)) s) as Hstep.
      unfold DataDriver.removeRelationIndex in *.
      unfold bind at 1.
      rewrite removeIndex_effect in * by (done || apply relationIndexKey_isIndexKey).
      edestruct (IH (λ p Hp, Hsub p (list_elem_of_further _ _ _ Hp)))
        as (s' & Hrun & Hwf' & Hswept');
        [by eapply wellFormed_removeStep | by apply swept_filter |].
      exists s'. split; [exact Hrun|]. split; [done|].
      eapply swept_ext; [| |exact Hswept']; [done|].
      intros K. cbn [map]. rewrite !elem_of_app, !elem_of_cons. tauto.
Qed.

(** [delete] of an instance whose identifier is in the index returns, and
    the storage is the one it was called on with the columns of the row and
    the collection buckets of the identifier removed and the identifier
    filtered out of the table index and of the singular buckets keyed by
    the instance. *)
Lemma delete_exact (st : gmap string Text) (index : list Scalar) :
  wellFormed st →
  DataDriver.getTableIndex (tableName spec) st = Ok index →
  getScalar instance (identifierProperty spec) ∈ index →
  ∃ st',
    Repository.delete reg spec instance st = (Ok (), st')
    ∧ wellFormed st'
    ∧ cleaned reg spec instance st st'.
Proof.
  intros Hwf Hindex Hin. rewrite delete_unfold. unfold bind at 1, liftQ.
  rewrite Hindex. apply includes_true in Hin. rewrite Hin. cbn [negb].
  destruct (removeTableIndex_swept st st [] [] Hwf (swept_start _ st))
    as (s1 & Hrun1 & Hwf1 & Hswept1).
  rewrite (bind_Ok _ _ _ _ _ Hrun1).
  destruct (deleteProperties_swept st (nonRelationalProperties spec) (λ p Hp, Hp)
              s1 _ _ Hwf1 Hswept1) as (s2 & Hrun2 & Hwf2 & Hswept2).
  rewrite (bind_Ok _ _ _ _ _ Hrun2).
  destruct (deleteRelations_swept st (relationalProperties spec) (λ p Hp, Hp)
              s2 _ _ Hwf2 Hswept2) as (s3 & Hrun3 & Hwf3 & Hswept3).
  exists s3. split; [exact Hrun3|]. split; [done|].
  eapply swept_ext; [| |exact Hswept3].
  - intros K. unfold removedKeys.
    rewrite map_app, map_map, !elem_of_app, elem_of_nil. unfold columnKey. tauto.
  - intros K. unfold filteredKeys. cbn [map].
    rewrite !elem_of_app, !elem_of_cons, elem_of_nil. tauto.
Qed.

End DeleteExact.

Lemma relationIndexKey_not_tableIndexKey (d s f : string) (v : Scalar) :
  DataDriver.getRelationIndexKey d s f v ≠ DataDriver.getTableIndexKey d.
Proof.
  intros H. apply (f_equal String.length) in H.
  rewrite relationIndexKey_pattern, tableIndexKey_pattern in H.
  rewrite !append_length in H. simpl in H. lia.
Qed.

Lemma elem_of_removedKeys (reg : ClassSpecificationRegistry.specifications)
    (spec : ClassSpecification) (instance : Entity) (key : string) :
  key ∈ removedKeys reg spec instance
  ↔ (∃ property, property ∈ nonRelationalProperties spec
       ∧ key = tableName spec +:+ ":"
               +:+ toString (getScalar instance (identifierProperty spec))
               +:+ ":" +:+ property +:+ ";")
    ∨ (∃ rp relatedSpec, rp ∈ relationalProperties spec
         ∧ ClassSpecificationRegistry.lookup reg (class rp) = Some relatedSpec
         ∧ isCollection rp = true
         ∧ key = DataDriver.getRelationIndexKey (tableName spec) (tableName relatedSpec)
                   (correspondingIdentifierProperty rp)
                   (getScalar instance (identifierProperty spec))).
Proof.
  unfold removedKeys. rewrite elem_of_app, list_elem_of_fmap, list_elem_of_omap.
  split.
  - intros [(p & -> & Hp)|(rp & Hrp & Hkey)]; [left; eauto|right].
    destruct (ClassSpecificationRegistry.lookup reg (class rp)) as [rs|] eqn:Hl; [|done].
    destruct (isCollection rp) eqn:Hc; [|done]. injection Hkey as <-. eauto 7.
  - intros [(p & Hp & ->)|(rp & rs & Hrp & Hl & Hc & ->)]; [left; eauto|right].
    exists rp. split; [done|]. by rewrite Hl, Hc.
Qed.

Lemma elem_of_filteredKeys (reg : ClassSpecificationRegistry.specifications)
    (spec : ClassSpecification) (instance : Entity) (key : string) :
  key ∈ filteredKeys reg spec instance
  ↔ key = DataDriver.getTableIndexKey (tableName spec)
    ∨ (∃ rp relatedSpec, rp ∈ relationalProperties spec
         ∧ ClassSpecificationRegistry.lookup reg (class rp) = Some relatedSpec
         ∧ isCollection rp = false
         ∧ key = DataDriver.getRelationIndexKey (tableName relatedSpec) (tableName spec)
                   (correspondingIdentifierProperty rp)
                   (getScalar instance (correspondingIdentifierProperty rp))).
Proof.
  unfold filteredKeys. rewrite elem_of_cons, list_elem_of_omap.
  split.
  - intros [->|(rp & Hrp & Hkey)]; [by left|right].
    destruct (ClassSpecificationRegistry.lookup reg (class rp)) as [rs|] eqn:Hl; [|done].
    destruct (isCollection rp) eqn:Hc; [done|]. injection Hkey as <-. eauto 7.
  - intros [->|(rp & rs & Hrp & Hl & Hc & ->)]; [by left|right].
    exists rp. split; [done|]. by rewrite Hl, Hc.
Qed.

Lemma elem_of_deleteKeys (reg : ClassSpecificationRegistry.specifications)
    (spec : ClassSpecification) (instance : Entity) (key : string) :
  key ∈ deleteKeys reg spec instance
  ↔ key ∈ removedKeys reg spec instance ∨ key ∈ filteredKeys reg spec instance.
Proof.
  rewrite elem_of_removedKeys, elem_of_filteredKeys.
  unfold deleteKeys. rewrite elem_of_cons, elem_of_app, list_elem_of_fmap,
    list_elem_of_omap.
  split.
  - intros [->|[(p & -> & Hp)|(rp & Hrp & Hkey)]]; [by right; left|left; left; eauto|].
    destruct (ClassSpecificationRegistry.lookup reg (class rp)) as [rs|] eqn:Hl; [|done].
    injection Hkey as <-. destruct (isCollection rp) eqn:Hc.
    + left. right. eauto 7.
    + right. right. eauto 7.
  - intros [[(p & Hp & ->)|(rp & rs & Hrp & Hl & Hc & ->)]
           |[->|(rp & rs & Hrp & Hl & Hc & ->)]].
    + right. left. eauto.
    + right. right. exists rp. split; [done|]. by rewrite Hl, Hc.
    + by left.
    + right. right. exists rp. split; [done|]. by rewrite Hl, Hc.
Qed.

Lemma tableIndexKey_not_removed (reg : ClassSpecificationRegistry.specifications)
    (spec : ClassSpecification) (instance : Entity) :
  DataDriver.getTableIndexKey (tableName spec) ∉ removedKeys reg spec instance.
Proof.
  rewrite elem_of_removedKeys. intros [(p & _ & Heq)|(rp & rs & _ & _ & _ & Heq)].
  - apply (tableIndexKey_not_column (tableName spec) (tableName spec)
             (getScalar instance (identifierProperty spec))). eauto.
  - symmetry in Heq. by apply relationIndexKey_not_tableIndexKey in Heq.
Qed.

Lemma column_removed (reg : ClassSpecificationRegistry.specifications)
    (spec : ClassSpecification) (instance : Entity) (property : string) :
  property ∈ nonRelationalProperties spec →
  tableName spec +:+ ":" +:+ toString (getScalar instance (identifierProperty spec))
    +:+ ":" +:+ property +:+ ";" ∈ removedKeys reg spec instance.
Proof. intros Hp. apply elem_of_removedKeys. left. eauto. Qed.

(** What [cleaned] says of the entry under a key of the library. *)
Lemma cleaned_lookup (reg : ClassSpecificationRegistry.specifications)
    (spec : ClassSpecification) (instance : Entity) (st st' : gmap string Text)
    (key : string) :
  cleaned reg spec instance st st' →
  st' !! (LocalStorageDriver.keyPrefix +:+ key)
  = if bool_decide (key ∈ removedKeys reg spec instance) then None
    else if bool_decide (key ∈ filteredKeys reg spec instance)
         then filtered (getScalar instance (identifierProperty spec))
                (st !! (LocalStorageDriver.keyPrefix +:+ key))
         else st !! (LocalStorageDriver.keyPrefix +:+ key).
Proof.
  intros H. rewrite (H _).
  by rewrite (bool_decide_ext _ _ (elem_of_map_prefix key _)),
             (bool_decide_ext _ _ (elem_of_map_prefix key _)).
Qed.

Lemma cleaned_arrayAt (reg : ClassSpecificationRegistry.specifications)
    (spec : ClassSpecification) (instance : Entity) (st st' : gmap string Text)
    (key : string) :
  cleaned reg spec instance st st' →
  arrayAt (LocalStorageDriver.keyPrefix +:+ key) st'
  = bucketAfter reg spec instance key
      (arrayAt (LocalStorageDriver.keyPrefix +:+ key) st).
Proof.
  intros H. pose proof (cleaned_lookup _ _ _ _ _ key H) as Hkey.
  unfold bucketAfter.
  destruct (bool_decide (key ∈ removedKeys reg spec instance)).
  { unfold arrayAt. by rewrite Hkey. }
  destruct (bool_decide (key ∈ filteredKeys reg spec instance)).
  - by apply arrayAt_filtered.
  - unfold arrayAt. by rewrite Hkey.
Qed.

(** Every key that is none of the keys [delete] builds from the instance
    holds what it held. *)
Lemma cleaned_frame (reg : ClassSpecificationRegistry.specifications)
    (spec : ClassSpecification) (instance : Entity) (st st' : gmap string Text)
    (K : string) :
  cleaned reg spec instance st st' →
  K ∉ map (String.append LocalStorageDriver.keyPrefix) (deleteKeys reg spec instance) →
  st' !! K = st !! K.
Proof.
  intros H HK. rewrite (H K).
  rewrite !bool_decide_eq_false_2; [done|..].
  - intros (key & -> & Hkey)%list_elem_of_fmap. apply HK.
    apply list_elem_of_fmap. exists key. split; [done|].
    apply elem_of_deleteKeys. by right.
  - intros (key & -> & Hkey)%list_elem_of_fmap. apply HK.
    apply list_elem_of_fmap. exists key. split; [done|].
    apply elem_of_deleteKeys. by left.
Qed.

Lemma relationIndexKey_value (d s f : string) (v v' : Scalar) :
  DataDriver.getRelationIndexKey d s f v = DataDriver.getRelationIndexKey d s f v' →
  toString v = toString v'.
Proof.
  rewrite !relationIndexKey_pattern. intros H.
  repeat apply (inj (String.app _)) in H.
  by apply append_inv_tail in H.
Qed.

(** For a class whose one relation is singular, the bucket keyed by a value
    that prints unlike the foreign key of the instance is under none of the
    keys [delete] builds. *)
Lemma sole_relation_apart (reg : ClassSpecificationRegistry.specifications)
    (spec relatedSpec : ClassSpecification) (instance : Entity)
    (rp : RelationalProperty) (value : Scalar) :
  relationalProperties spec = [rp] → isCollection rp = false →
  ClassSpecificationRegistry.lookup reg (class rp) = Some relatedSpec →
  toString value ≠ toString (getScalar instance (correspondingIdentifierProperty rp)) →
  DataDriver.getRelationIndexKey (tableName relatedSpec) (tableName spec)
    (correspondingIdentifierProperty rp) value
  ∉ deleteKeys reg spec instance.
Proof.
  intros Hsole Hsingular Hlookup Hprints.
  unfold deleteKeys. rewrite Hsole. cbn [omap list_omap]. rewrite Hlookup, Hsingular.
  rewrite not_elem_of_cons, not_elem_of_app, list_elem_of_fmap, list_elem_of_singleton.
  split; [apply relationIndexKey_not_own_tableIndexKey|]. split.
  - intros (property & Heq & _).
    apply (dataKey_not_indexKey
             (LocalStorageDriver.keyPrefix +:+
              DataDriver.getRelationIndexKey (tableName relatedSpec) (tableName spec)
                (correspondingIdentifierProperty rp) value));
      [|apply relationIndexKey_isIndexKey].
    rewrite Heq. apply columnKey_isDataKey.
  - by intros Heq%relationIndexKey_value.
Qed.

Lemma household_wellFormed : wellFormed household.
Proof. apply performAll_wellFormed, wellFormed_empty. Qed.

(** C5, as the code has it. For an entity whose identifier is in the
    identifier index of its table, [delete] returns and leaves the storage
    [cleaned]: the identifier index is the one it was without the
    identifier, every other member in its place; for every singular
    relation the bucket keyed by the foreign-key value the instance carries
    is the one it was without the identifier (or is gone, when a collection
    relation of the entity keys the same bucket by the identifier); for
    every collection relation the bucket keyed by the identifier is gone;
    the columns of the row are gone; every entry under a key [delete] does
    not build from the instance is as it was, and so is, for a class whose
    one relation is singular, the bucket keyed by any foreign-key value that
    prints unlike the one of the instance; and
    [getById] on the identifier then throws "no data found". For an entity
    whose identifier is not in the index, [delete] changes nothing. *)
Theorem delete_cleans_the_indexes_of_the_instance
    (reg : ClassSpecificationRegistry.specifications) (spec : ClassSpecification)
    (instance : Entity) (st : gmap string Text) (index : list Scalar) :
  let id := getScalar instance (identifierProperty spec) in
  registryOk reg → registered reg spec → wellFormed st →
  EntityIdentifierType id →
  DataDriver.getTableIndex (tableName spec) st = Ok index →
  (id ∈ index →
     ∃ st',
       Repository.delete reg spec instance st = (Ok (), st')
       ∧ cleaned reg spec instance st st'
       ∧ DataDriver.getTableIndex (tableName spec) st'
         = Ok (map jsonElement (without id index))
       ∧ (∀ rp relatedSpec,
            rp ∈ relationalProperties spec →
            ClassSpecificationRegistry.lookup reg (class rp) = Some relatedSpec →
            if isCollection rp then
              DataDriver.getRelationIndex (tableName spec) (tableName relatedSpec)
                (correspondingIdentifierProperty rp) id st' = Ok None
            else
              ∃ bucket,
                DataDriver.getRelationIndex (tableName relatedSpec) (tableName spec)
                  (correspondingIdentifierProperty rp)
                  (getScalar instance (correspondingIdentifierProperty rp)) st
                = Ok bucket
                ∧ DataDriver.getRelationIndex (tableName relatedSpec) (tableName spec)
                    (correspondingIdentifierProperty rp)
                    (getScalar instance (correspondingIdentifierProperty rp)) st'
                  = Ok (if bool_decide
                             (DataDriver.getRelationIndexKey (tableName relatedSpec)
                                (tableName spec) (correspondingIdentifierProperty rp)
                                (getScalar instance (correspondingIdentifierProperty rp))
                              ∈ removedKeys reg spec instance)
                        then None
                        else (λ l, map jsonElement (without id l)) <$> bucket))
       ∧ (∀ property, property ∈ nonRelationalProperties spec →
            st' !! columnKey (tableName spec) id property = None)
       ∧ (∀ K, K ∉ map (String.append LocalStorageDriver.keyPrefix)
                     (deleteKeys reg spec instance) →
               st' !! K = st !! K)
       ∧ (∀ rp relatedSpec value,
            relationalProperties spec = [rp] → isCollection rp = false →
            ClassSpecificationRegistry.lookup reg (class rp) = Some relatedSpec →
            toString value
            ≠ toString (getScalar instance (correspondingIdentifierProperty rp)) →
            DataDriver.getRelationIndex (tableName relatedSpec) (tableName spec)
              (correspondingIdentifierProperty rp) value st'
            = DataDriver.getRelationIndex (tableName relatedSpec) (tableName spec)
                (correspondingIdentifierProperty rp) value st)
       ∧ (∀ includeMap,
            Queryable.getById reg
              {| Queryable.rootClassSpecification := spec;
                 Queryable.includeMap := includeMap |} id st'
            = Throw (NoDataFound id (tableName spec))))
  ∧ (id ∉ index → Repository.delete reg spec instance st = (Ok (), st)).
Proof.
  intros id Hreg Hspec Hwf Hid Hindex. subst id. split; [|by apply delete_absent].
  intros Hin.
  destruct (delete_exact reg Hreg spec Hspec instance Hid st index Hwf Hindex Hin)
    as (st' & Hdelete & Hwf' & Hcleaned).
  assert (DataDriver.getTableIndex (tableName spec) st'
          = Ok (map jsonElement
                  (without (getScalar instance (identifierProperty spec)) index)))
    as Hindex'.
  { rewrite wellFormed_getTableIndex in Hindex |- * by done.
    rewrite (cleaned_arrayAt _ _ _ _ _ _ Hcleaned). unfold bucketAfter.
    rewrite bool_decide_eq_false_2 by apply tableIndexKey_not_removed.
    rewrite bool_decide_eq_true_2 by (apply elem_of_filteredKeys; by left).
    injection Hindex as <-.
    by destruct (arrayAt _ st). }
  exists st'. split; [done|]. split; [done|]. split; [done|].
  split; [|split; [|split; [|split]]].
  - intros rp relatedSpec Hrp Hlookup.
    rewrite !wellFormed_getRelationIndex by done.
    rewrite !(cleaned_arrayAt _ _ _ _ _ _ Hcleaned). unfold bucketAfter.
    destruct (isCollection rp) eqn:Hc.
    + rewrite bool_decide_eq_true_2; [done|].
      apply elem_of_removedKeys. right. eauto 7.
    + eexists. split; [done|].
      destruct (bool_decide (_ ∈ removedKeys _ _ _)); [done|].
      rewrite bool_decide_eq_true_2; [done|].
      apply elem_of_filteredKeys. right. eauto 7.
  - intros property Hp. unfold columnKey.
    rewrite (cleaned_lookup _ _ _ _ _ _ Hcleaned).
    by rewrite bool_decide_eq_true_2 by by apply column_removed.
  - intros K HK. by eapply cleaned_frame.
  - intros rp relatedSpec value Hsole Hsingular Hlookup Hprints.
    unfold DataDriver.getRelationIndex, DataDriver.readIndex, LocalStorageDriver.read.
    rewrite (cleaned_frame _ _ _ _ _ _ Hcleaned); [done|].
    rewrite elem_of_map_prefix. by eapply sole_relation_apart.
  - intros includeMap. eapply getById_not_found; [exact Hindex'|].
    rewrite elem_of_map_jsonElement, elem_of_without by done. tauto.
Qed.

Lemma delete_cleans_the_indexes_of_the_instance_witness :
  (∃ st',
     Repository.delete readmeRegistry AddressSpecification address1 household
     = (Ok (), st')
     ∧ DataDriver.getTableIndex "address" household
       = Ok [SStr "4"; SStr "5"; SStr "1"; SStr "2"]
     ∧ DataDriver.getTableIndex "address" st' = Ok [SStr "4"; SStr "5"; SStr "2"]
     ∧ DataDriver.getRelationIndex "person" "address" "personId" (SStr "1") household
       = Ok (Some [SStr "1"; SStr "2"])
     ∧ DataDriver.getRelationIndex "person" "address" "personId" (SStr "1") st'
       = Ok (Some [SStr "2"])
     ∧ st' !! "indexorm::address:1:street;" = None
     ∧ st' !! "indexorm::address:2:street;" = household !! "indexorm::address:2:street;"
     ∧ DataDriver.getRelationIndex "person" "address" "personId" (SStr "2") st'
       = Ok (Some [SStr "4"; SStr "5"])
     ∧ Queryable.getById readmeRegistry addressesWithPerson (SStr "1") st'
       = Throw (NoDataFound (SStr "1") "address"))
  ∧ Repository.delete readmeRegistry AddressSpecification address1 twoPeople
    = (Ok (), twoPeople).
Proof.
  destruct (delete_cleans_the_indexes_of_the_instance readmeRegistry
              AddressSpecification address1 household
              [SStr "4"; SStr "5"; SStr "1"; SStr "2"]
              readmeRegistry_ok (ex_intro _ "Address" eq_refl)
              household_wellFormed I)
    as [Hpresent _]; [vm_compute; reflexivity|].
  destruct (delete_cleans_the_indexes_of_the_instance readmeRegistry
              AddressSpecification address1 twoPeople []
              readmeRegistry_ok (ex_intro _ "Address" eq_refl)
              twoPeople_wellFormed I)
    as [_ Habsent]; [vm_compute; reflexivity|].
  split; [|apply Habsent, not_elem_of_nil].
  destruct Hpresent
    as (st' & Hdelete & Hcleaned & Hindex & Hrelations & Hcolumns & Hframe & Hsole
        & Hget).
  { by right; right; left. }
  exists st'. split; [done|]. split; [vm_compute; reflexivity|].
  split; [exact Hindex|]. split; [vm_compute; reflexivity|].
  destruct (Hrelations personOfAddress PersonSpecification) as (bucket & Hbefore & Hafter);
    [by left | reflexivity |].
  assert (bucket = Some [SStr "1"; SStr "2"]) as ->.
  { assert (DataDriver.getRelationIndex "person" "address" "personId" (SStr "1")
              household = Ok (Some [SStr "1"; SStr "2"])) as Hvalue
      by (vm_compute; reflexivity).
    change (DataDriver.getRelationIndex "person" "address" "personId" (SStr "1")
              household = Ok bucket) in Hbefore.
    rewrite Hvalue in Hbefore. by injection Hbefore. }
  split; [etrans; [exact Hafter | vm_compute; reflexivity]|].
  split; [apply (Hcolumns "street"); by right; right; left|].
  split.
  { apply Hframe. refine (proj1 (bool_decide_eq_false _) _). vm_compute. reflexivity. }
  split; [|apply Hget].
  etrans; [by apply (Hsole personOfAddress PersonSpecification (SStr "2"))|].
  vm_compute. reflexivity.
Defined.




(** ** The guarded view, relation by relation *)

Section Attached.
Context (fuel : nat) (reg : ClassSpecificationRegistry.specifications).
Context (data : list (string * Loaded)) (spec : ClassSpecification).
Context (st : gmap string Text).







End Attached.

(** ** What select attaches *)



(** An address stored without a person: [getById] with the person included
    returns an object on which reading the person throws. The record
    [_getById] builds has no key for a foreign key that reads falsy, so the
    loop of [attachIncludesAndGet] takes the foreign key for one that was
    not loaded and does not reach its assignment of [null]. *)
Lemma getById_of_a_row_without_foreign_key_keeps_the_guard :
  let st :=
    after (Repository.create 4 readmeRegistry AddressSpecification address4) onePerson in
  fst (Repository.create 4 readmeRegistry AddressSpecification address4 onePerson)
  = Ok (SStr "4")
  ∧ ∃ fetched,
      Queryable.getById readmeRegistry addressesWithPerson (SStr "4") st = Ok fetched
      ∧ ShadowFactory.get fetched "street"
        = Ok (Some (LValue (VScalar (SStr "101 Maple St"))))
      ∧ ShadowFactory.get fetched "personId" = Ok None
      ∧ ShadowFactory.get fetched "person" = Throw (PropertyNotLoaded "person").
Proof.
  split; [vm_compute; reflexivity|].
  eexists. repeat split; vm_compute; reflexivity.
Qed.


